(** * The reactive core of Vue 1.0.28: Dep, Observer, Watcher and the batcher

    A shallow embedding of the observation engine as it is shipped in the
    bundle: [observer/dep.js], [observer/index.js], [observer/array.js],
    [watcher.js] and [batcher.js].  JavaScript objects become entries of
    finite maps, the module-level variables ([Dep.target], the batcher's
    [queue], [userQueue], [has], [circular], [waiting]) become fields of one
    [World] record, and every function becomes a state transformer in a
    small state-and-exception monad.

    User code (watcher getters, callbacks, pre-existing accessors) is not
    part of the engine.  It is represented by [script]s, finite trees of the
    interactions user code can have with the engine, and run by an
    interpreter which the engine functions take as an argument. *)

From stdpp Require Import gmap strings list fin_maps pretty.
From Stdlib Require Import ZArith Ascii.

Set Warnings "-register-all,-clear-no-such-hyp".
Open Scope Z_scope.
Open Scope nat_scope.

(** ** JavaScript values *)

Inductive value :=
  | VUndef
  | VNull
  | VBool (b : bool)
  | VNum (z : Z)
  | VNaN
  | VStr (s : string)
  | VRef (l : nat).

Global Instance value_eq_dec : EqDecision value.
Proof. solve_decision. Defined.

Global Instance value_inhabited : Inhabited value := populate VUndef.

(** [a === b].  Numbers are [VNum z] or [VNaN]; objects compare by
    reference. *)
Definition strict_eq (a b : value) : bool :=
  match a, b with
  | VNaN, _ | _, VNaN => false
  | _, _ => bool_decide (a = b)
  end.

(** [!!v] *)
Definition truthy (v : value) : bool :=
  match v with
  | VUndef | VNull | VNaN => false
  | VBool b => b
  | VNum z => negb (Z.eqb z 0)
  | VStr s => negb (bool_decide (s = EmptyString))
  | VRef _ => true
  end.

(** [typeof v === 'object'] *)
Definition typeof_object (v : value) : bool :=
  match v with
  | VNull | VRef _ => true
  | _ => false
  end.

(** [isObject] of [util/lang.js]:
    [obj !== null && typeof obj === 'object'] *)
Definition isObject (v : value) : bool :=
  match v with
  | VRef _ => true
  | _ => false
  end.

(** ** User code *)

(** The seven intercepted array methods. *)
Inductive method := Mpush | Mpop | Mshift | Munshift | Msplice | Msort | Mreverse.

Global Instance method_eq_dec : EqDecision method.
Proof. solve_decision. Defined.

(** A piece of user code: what it does to the reactive world, step by
    step, with the continuation depending on the values it reads. *)
Inductive script :=
  | Ret (v : value)
  | Throw (e : value)
  | GetProp (o : nat) (key : string) (k : value -> script)
  | SetProp (o : nat) (key : string) (v : value) (k : script)
  | CallMethod (a : nat) (m : method) (args : list value) (k : value -> script)
  | Teardown (w : nat) (k : script).

Global Instance script_inhabited : Inhabited script := populate (Ret VUndef).

(** ** Objects, observers and reactive properties *)

Inductive ObjClass := CArray | CPlain | COther.

Global Instance ObjClass_eq_dec : EqDecision ObjClass.
Proof. solve_decision. Defined.

(** A getter or setter function found in a property descriptor: user code,
    or the [reactiveGetter]/[reactiveSetter] closure of an earlier
    [defineReactive] (named by its closure cell). *)
Inductive getter_fn := GUser (sc : script) | GReactive (c : nat).
Inductive setter_fn := SUser (f : value -> script) | SReactive (c : nat).

Inductive PropDesc :=
  | DataProp (v : value) (configurable : bool)
  | AccessorProp (get : option getter_fn) (set : option setter_fn)
                 (configurable : bool).

Record JSObject := mkObj {
  o_class : ObjClass;
  o_extensible : bool;
  o_isVue : bool;               (* truthiness of [value._isVue] *)
  o_ob : option nat;            (* own [__ob__] that is an Observer *)
  o_augmented : bool;           (* array methods replaced by [arrayMethods] *)
  o_props : list (string * PropDesc);  (* own enumerable properties *)
  o_elems : list value          (* elements, for arrays *)
}.

Global Instance JSObject_inhabited : Inhabited JSObject :=
  populate (mkObj COther false false None false [] []).

Record Observer := mkObserver {
  ob_value : nat;
  ob_dep : nat;
  ob_vms : list nat
}.

Global Instance Observer_inhabited : Inhabited Observer :=
  populate (mkObserver 0 0 []).

(** The closure of one [defineReactive] call: the variables [obj], [dep],
    [val], [childOb], [getter] and [setter] captured by [reactiveGetter] and
    [reactiveSetter]. *)
Record Cell := mkCell {
  c_obj : nat;
  c_dep : nat;
  c_val : value;
  c_childOb : option nat;
  c_getter : option getter_fn;
  c_setter : option setter_fn
}.

Global Instance Cell_inhabited : Inhabited Cell :=
  populate (mkCell 0 0 VUndef None None None).

(** ** Watchers *)

Record Watcher := mkWatcher {
  w_vm : option nat;
  w_getter : script;
  w_cb : option (value -> value -> script);
  w_active : bool;
  w_lazy : bool;
  w_sync : bool;
  w_user : bool;
  w_deep : bool;
  w_dirty : bool;
  w_queued : bool;
  w_shallow : bool;
  w_deps : list nat;
  w_newDeps : list nat;
  w_depIds : gset nat;
  w_newDepIds : gset nat;
  w_value : value;
  w_preProcess : option (value -> script);
  w_filters : option (value -> script);
  w_postProcess : option (value -> script)
}.

Global Instance Watcher_inhabited : Inhabited Watcher :=
  populate (mkWatcher None (Ret VUndef) None false false false false false
              false false false [] [] ∅ ∅ VUndef None None None).

Record VM := mkVM {
  vm_watchers : list nat;        (* [vm._watchers] *)
  vm_isBeingDestroyed : bool;
  vm_vForRemoving : bool
}.

Global Instance VM_inhabited : Inhabited VM := populate (mkVM [] false false).

(** ** Configuration *)

(** [config.async] and [config._maxUpdateCount] of [config.js].  The
    bundle is a production build: every
    [process.env.NODE_ENV !== 'production'] test has been folded to the
    constant [false].  [cfg_dev] stands for that test, so that the code in
    the dead branches is modelled too; [production] is the configuration of
    the bundle. *)
Record Config := mkConfig {
  cfg_async : bool;
  cfg_maxUpdateCount : nat;
  cfg_dev : bool
}.

Definition production : Config := mkConfig true 100 false.

(** ** Instrumentation *)

(** The calls the engine makes are recorded in a log, which no modelled
    function reads.  What user code does while it runs is recorded as one
    [EvUser] node holding the events of that run, so that the events at the
    top of a log are the calls made directly by the function under study. *)
Inductive Event :=
  | EvNotify (d : nat)
  | EvUpdate (w : nat)
  | EvRun (w : nat)
  | EvCallback (w : nat) (newv oldv : value)
  | EvDepend (d : nat)
  | EvObserve (v : value)
  | EvNative (a : nat) (m : method) (args : list value)
  | EvWarn (w : nat)
  | EvUser (inner : list Event).

(** ** The world *)

Record World := mkWorld {
  (* dep.js *)
  deps : gmap nat (list nat);   (* Dep id -> [subs] *)
  dep_uid : nat;
  target : option nat;          (* [Dep.target] *)
  (* watcher.js *)
  watchers : gmap nat Watcher;
  watcher_uid : nat;
  vms : gmap nat VM;
  (* batcher.js *)
  queue : list nat;
  userQueue : list nat;
  has : gmap nat nat;           (* absent: [undefined] or [null] *)
  circular : gmap nat nat;
  waiting : bool;
  ticks : nat;                  (* [flushBatcherQueue]s handed to [nextTick] *)
  (* observer/index.js *)
  heap : gmap nat JSObject;
  observers : gmap nat Observer;
  cells : gmap nat Cell;
  next_ref : nat;               (* allocator of objects, observers, cells *)
  shouldConvert : bool;
  seenObjects : gset nat;
  (* config.js *)
  config : Config;
  (* instrumentation *)
  log : list Event
}.

Definition upd_deps f s := mkWorld (f (deps s)) (dep_uid s) (target s) (watchers s) (watcher_uid s) (vms s) (queue s) (userQueue s) (has s) (circular s) (waiting s) (ticks s) (heap s) (observers s) (cells s) (next_ref s) (shouldConvert s) (seenObjects s) (config s) (log s).
Definition upd_dep_uid f s := mkWorld (deps s) (f (dep_uid s)) (target s) (watchers s) (watcher_uid s) (vms s) (queue s) (userQueue s) (has s) (circular s) (waiting s) (ticks s) (heap s) (observers s) (cells s) (next_ref s) (shouldConvert s) (seenObjects s) (config s) (log s).
Definition upd_target f s := mkWorld (deps s) (dep_uid s) (f (target s)) (watchers s) (watcher_uid s) (vms s) (queue s) (userQueue s) (has s) (circular s) (waiting s) (ticks s) (heap s) (observers s) (cells s) (next_ref s) (shouldConvert s) (seenObjects s) (config s) (log s).
Definition upd_watchers f s := mkWorld (deps s) (dep_uid s) (target s) (f (watchers s)) (watcher_uid s) (vms s) (queue s) (userQueue s) (has s) (circular s) (waiting s) (ticks s) (heap s) (observers s) (cells s) (next_ref s) (shouldConvert s) (seenObjects s) (config s) (log s).
Definition upd_watcher_uid f s := mkWorld (deps s) (dep_uid s) (target s) (watchers s) (f (watcher_uid s)) (vms s) (queue s) (userQueue s) (has s) (circular s) (waiting s) (ticks s) (heap s) (observers s) (cells s) (next_ref s) (shouldConvert s) (seenObjects s) (config s) (log s).
Definition upd_vms f s := mkWorld (deps s) (dep_uid s) (target s) (watchers s) (watcher_uid s) (f (vms s)) (queue s) (userQueue s) (has s) (circular s) (waiting s) (ticks s) (heap s) (observers s) (cells s) (next_ref s) (shouldConvert s) (seenObjects s) (config s) (log s).
Definition upd_queue f s := mkWorld (deps s) (dep_uid s) (target s) (watchers s) (watcher_uid s) (vms s) (f (queue s)) (userQueue s) (has s) (circular s) (waiting s) (ticks s) (heap s) (observers s) (cells s) (next_ref s) (shouldConvert s) (seenObjects s) (config s) (log s).
Definition upd_userQueue f s := mkWorld (deps s) (dep_uid s) (target s) (watchers s) (watcher_uid s) (vms s) (queue s) (f (userQueue s)) (has s) (circular s) (waiting s) (ticks s) (heap s) (observers s) (cells s) (next_ref s) (shouldConvert s) (seenObjects s) (config s) (log s).
Definition upd_has f s := mkWorld (deps s) (dep_uid s) (target s) (watchers s) (watcher_uid s) (vms s) (queue s) (userQueue s) (f (has s)) (circular s) (waiting s) (ticks s) (heap s) (observers s) (cells s) (next_ref s) (shouldConvert s) (seenObjects s) (config s) (log s).
Definition upd_circular f s := mkWorld (deps s) (dep_uid s) (target s) (watchers s) (watcher_uid s) (vms s) (queue s) (userQueue s) (has s) (f (circular s)) (waiting s) (ticks s) (heap s) (observers s) (cells s) (next_ref s) (shouldConvert s) (seenObjects s) (config s) (log s).
Definition upd_waiting f s := mkWorld (deps s) (dep_uid s) (target s) (watchers s) (watcher_uid s) (vms s) (queue s) (userQueue s) (has s) (circular s) (f (waiting s)) (ticks s) (heap s) (observers s) (cells s) (next_ref s) (shouldConvert s) (seenObjects s) (config s) (log s).
Definition upd_ticks f s := mkWorld (deps s) (dep_uid s) (target s) (watchers s) (watcher_uid s) (vms s) (queue s) (userQueue s) (has s) (circular s) (waiting s) (f (ticks s)) (heap s) (observers s) (cells s) (next_ref s) (shouldConvert s) (seenObjects s) (config s) (log s).
Definition upd_heap f s := mkWorld (deps s) (dep_uid s) (target s) (watchers s) (watcher_uid s) (vms s) (queue s) (userQueue s) (has s) (circular s) (waiting s) (ticks s) (f (heap s)) (observers s) (cells s) (next_ref s) (shouldConvert s) (seenObjects s) (config s) (log s).
Definition upd_observers f s := mkWorld (deps s) (dep_uid s) (target s) (watchers s) (watcher_uid s) (vms s) (queue s) (userQueue s) (has s) (circular s) (waiting s) (ticks s) (heap s) (f (observers s)) (cells s) (next_ref s) (shouldConvert s) (seenObjects s) (config s) (log s).
Definition upd_cells f s := mkWorld (deps s) (dep_uid s) (target s) (watchers s) (watcher_uid s) (vms s) (queue s) (userQueue s) (has s) (circular s) (waiting s) (ticks s) (heap s) (observers s) (f (cells s)) (next_ref s) (shouldConvert s) (seenObjects s) (config s) (log s).
Definition upd_next_ref f s := mkWorld (deps s) (dep_uid s) (target s) (watchers s) (watcher_uid s) (vms s) (queue s) (userQueue s) (has s) (circular s) (waiting s) (ticks s) (heap s) (observers s) (cells s) (f (next_ref s)) (shouldConvert s) (seenObjects s) (config s) (log s).
Definition upd_shouldConvert f s := mkWorld (deps s) (dep_uid s) (target s) (watchers s) (watcher_uid s) (vms s) (queue s) (userQueue s) (has s) (circular s) (waiting s) (ticks s) (heap s) (observers s) (cells s) (next_ref s) (f (shouldConvert s)) (seenObjects s) (config s) (log s).
Definition upd_seenObjects f s := mkWorld (deps s) (dep_uid s) (target s) (watchers s) (watcher_uid s) (vms s) (queue s) (userQueue s) (has s) (circular s) (waiting s) (ticks s) (heap s) (observers s) (cells s) (next_ref s) (shouldConvert s) (f (seenObjects s)) (config s) (log s).
Definition upd_log f s := mkWorld (deps s) (dep_uid s) (target s) (watchers s) (watcher_uid s) (vms s) (queue s) (userQueue s) (has s) (circular s) (waiting s) (ticks s) (heap s) (observers s) (cells s) (next_ref s) (shouldConvert s) (seenObjects s) (config s) (f (log s)).

Definition set_w_vm x (w : Watcher) := mkWatcher x (w_getter w) (w_cb w) (w_active w) (w_lazy w) (w_sync w) (w_user w) (w_deep w) (w_dirty w) (w_queued w) (w_shallow w) (w_deps w) (w_newDeps w) (w_depIds w) (w_newDepIds w) (w_value w) (w_preProcess w) (w_filters w) (w_postProcess w).
Definition set_w_cb x (w : Watcher) := mkWatcher (w_vm w) (w_getter w) x (w_active w) (w_lazy w) (w_sync w) (w_user w) (w_deep w) (w_dirty w) (w_queued w) (w_shallow w) (w_deps w) (w_newDeps w) (w_depIds w) (w_newDepIds w) (w_value w) (w_preProcess w) (w_filters w) (w_postProcess w).
Definition set_w_active x (w : Watcher) := mkWatcher (w_vm w) (w_getter w) (w_cb w) x (w_lazy w) (w_sync w) (w_user w) (w_deep w) (w_dirty w) (w_queued w) (w_shallow w) (w_deps w) (w_newDeps w) (w_depIds w) (w_newDepIds w) (w_value w) (w_preProcess w) (w_filters w) (w_postProcess w).
Definition set_w_dirty x (w : Watcher) := mkWatcher (w_vm w) (w_getter w) (w_cb w) (w_active w) (w_lazy w) (w_sync w) (w_user w) (w_deep w) x (w_queued w) (w_shallow w) (w_deps w) (w_newDeps w) (w_depIds w) (w_newDepIds w) (w_value w) (w_preProcess w) (w_filters w) (w_postProcess w).
Definition set_w_queued x (w : Watcher) := mkWatcher (w_vm w) (w_getter w) (w_cb w) (w_active w) (w_lazy w) (w_sync w) (w_user w) (w_deep w) (w_dirty w) x (w_shallow w) (w_deps w) (w_newDeps w) (w_depIds w) (w_newDepIds w) (w_value w) (w_preProcess w) (w_filters w) (w_postProcess w).
Definition set_w_shallow x (w : Watcher) := mkWatcher (w_vm w) (w_getter w) (w_cb w) (w_active w) (w_lazy w) (w_sync w) (w_user w) (w_deep w) (w_dirty w) (w_queued w) x (w_deps w) (w_newDeps w) (w_depIds w) (w_newDepIds w) (w_value w) (w_preProcess w) (w_filters w) (w_postProcess w).
Definition set_w_deps x (w : Watcher) := mkWatcher (w_vm w) (w_getter w) (w_cb w) (w_active w) (w_lazy w) (w_sync w) (w_user w) (w_deep w) (w_dirty w) (w_queued w) (w_shallow w) x (w_newDeps w) (w_depIds w) (w_newDepIds w) (w_value w) (w_preProcess w) (w_filters w) (w_postProcess w).
Definition set_w_newDeps x (w : Watcher) := mkWatcher (w_vm w) (w_getter w) (w_cb w) (w_active w) (w_lazy w) (w_sync w) (w_user w) (w_deep w) (w_dirty w) (w_queued w) (w_shallow w) (w_deps w) x (w_depIds w) (w_newDepIds w) (w_value w) (w_preProcess w) (w_filters w) (w_postProcess w).
Definition set_w_depIds x (w : Watcher) := mkWatcher (w_vm w) (w_getter w) (w_cb w) (w_active w) (w_lazy w) (w_sync w) (w_user w) (w_deep w) (w_dirty w) (w_queued w) (w_shallow w) (w_deps w) (w_newDeps w) x (w_newDepIds w) (w_value w) (w_preProcess w) (w_filters w) (w_postProcess w).
Definition set_w_newDepIds x (w : Watcher) := mkWatcher (w_vm w) (w_getter w) (w_cb w) (w_active w) (w_lazy w) (w_sync w) (w_user w) (w_deep w) (w_dirty w) (w_queued w) (w_shallow w) (w_deps w) (w_newDeps w) (w_depIds w) x (w_value w) (w_preProcess w) (w_filters w) (w_postProcess w).
Definition set_w_value x (w : Watcher) := mkWatcher (w_vm w) (w_getter w) (w_cb w) (w_active w) (w_lazy w) (w_sync w) (w_user w) (w_deep w) (w_dirty w) (w_queued w) (w_shallow w) (w_deps w) (w_newDeps w) (w_depIds w) (w_newDepIds w) x (w_preProcess w) (w_filters w) (w_postProcess w).

(** Field reads through a reference.  A reference always denotes an
    existing object in JavaScript; the default is never reached on a
    well-formed world. *)
Definition subs_of (d : nat) (s : World) : list nat := deps s !!! d.
Definition watcher_of (w : nat) (s : World) : Watcher := watchers s !!! w.
Definition obj_of (l : nat) (s : World) : JSObject := heap s !!! l.
Definition observer_of (o : nat) (s : World) : Observer := observers s !!! o.
Definition cell_of (c : nat) (s : World) : Cell := cells s !!! c.
Definition vm_of (v : nat) (s : World) : VM := vms s !!! v.

Definition set_subs (d : nat) (l : list nat) : World -> World :=
  upd_deps (fun m => <[d := l]> m).
Definition upd_watcher (w : nat) (f : Watcher -> Watcher) (s : World) : World :=
  upd_watchers (fun m => <[w := f (watcher_of w s)]> m) s.
Definition upd_obj (l : nat) (f : JSObject -> JSObject) (s : World) : World :=
  upd_heap (fun m => <[l := f (obj_of l s)]> m) s.
Definition upd_observer (o : nat) (f : Observer -> Observer) (s : World) : World :=
  upd_observers (fun m => <[o := f (observer_of o s)]> m) s.
Definition upd_cell (c : nat) (f : Cell -> Cell) (s : World) : World :=
  upd_cells (fun m => <[c := f (cell_of c s)]> m) s.
Definition upd_vm (v : nat) (f : VM -> VM) (s : World) : World :=
  upd_vms (fun m => <[v := f (vm_of v s)]> m) s.

(** ** The monad: state, exceptions and fuel *)

Inductive Res (A : Type) :=
  | Ok (a : A) (s : World)
  | Thrown (e : value) (s : World)
  | OutOfFuel.
Arguments Ok {A} a s.
Arguments Thrown {A} e s.
Arguments OutOfFuel {A}.

Definition M (A : Type) : Type := World -> Res A.

Definition ret {A} (a : A) : M A := fun s => Ok a s.
Definition bind {A B} (m : M A) (f : A -> M B) : M B :=
  fun s => match m s with
           | Ok a s' => f a s'
           | Thrown e s' => Thrown e s'
           | OutOfFuel => OutOfFuel
           end.
Definition throw {A} (e : value) : M A := fun s => Thrown e s.
Definition try_catch {A} (m : M A) (h : value -> M A) : M A :=
  fun s => match m s with
           | Ok a s' => Ok a s'
           | Thrown e s' => h e s'
           | OutOfFuel => OutOfFuel
           end.
Definition gets {A} (f : World -> A) : M A := fun s => Ok (f s) s.
Definition modify (f : World -> World) : M unit := fun s => Ok tt (f s).
Definition out_of_fuel {A} : M A := fun _ => OutOfFuel.

Declare Scope js_scope.
Delimit Scope js_scope with js.
Notation "x <- m ;; k" := (bind m (fun x => k))
  (at level 100, m at next level, right associativity) : js_scope.
Notation "m ;;; k" := (bind m (fun _ => k))
  (at level 100, right associativity) : js_scope.
Open Scope js_scope.

Definition when (b : bool) (m : M unit) : M unit := if b then m else ret tt.

(** [for (i = 0; i < l.length; i++) body(l[i])] over a list that the body
    cannot change (a local copy, or an argument array). *)
Fixpoint for_each {A} (body : A -> M unit) (l : list A) : M unit :=
  match l with
  | [] => ret tt
  | x :: l' => body x ;;; for_each body l'
  end.

(** [i = l.length; while (i--) body(l[i])] *)
Definition for_each_rev {A} (body : A -> M unit) (l : list A) : M unit :=
  for_each body (rev l).

Definition emit (e : Event) : M unit := modify (upd_log (fun l => l ++ [e])).

Definition TypeError : value := VStr "TypeError".

(** ** Native arrays *)

(** What [Array.prototype[method].apply(this, args)] gives back: the new
    contents of [this] and the result, which is a plain value, [this]
    itself ([sort], [reverse]) or a newly allocated array ([splice]). *)
Inductive NativeResult :=
  | NRValue (v : value)
  | NRThis
  | NRFresh (elems : list value).

Definition NativeOp : Type :=
  method -> list value -> list value -> list value * NativeResult.

Definition set_o_ob x (o : JSObject) :=
  mkObj (o_class o) (o_extensible o) (o_isVue o) x (o_augmented o) (o_props o) (o_elems o).
Definition set_o_augmented x (o : JSObject) :=
  mkObj (o_class o) (o_extensible o) (o_isVue o) (o_ob o) x (o_props o) (o_elems o).
Definition set_o_props x (o : JSObject) :=
  mkObj (o_class o) (o_extensible o) (o_isVue o) (o_ob o) (o_augmented o) x (o_elems o).
Definition set_o_elems x (o : JSObject) :=
  mkObj (o_class o) (o_extensible o) (o_isVue o) (o_ob o) (o_augmented o) (o_props o) x.

Definition set_c_val x (c : Cell) :=
  mkCell (c_obj c) (c_dep c) x (c_childOb c) (c_getter c) (c_setter c).
Definition set_c_childOb x (c : Cell) :=
  mkCell (c_obj c) (c_dep c) (c_val c) x (c_getter c) (c_setter c).

Definition fresh_ref : M nat :=
  fun s => Ok (next_ref s) (upd_next_ref S s).

(** A new object on the heap. *)
Definition alloc (o : JSObject) : M nat :=
  fun s => Ok (next_ref s)
              (upd_heap (fun h => <[next_ref s := o]> h) (upd_next_ref S s)).

(** ** util *)

(** [indexOf] of [util/lang.js]: [while (i--) if (arr[i] === obj) return i],
    so the last occurrence is found. *)
Fixpoint indexOf_from (i : nat) (arr : list nat) (x : nat) : option nat :=
  match i with
  | 0 => None
  | S i' => if bool_decide (arr !! i' = Some x) then Some i'
            else indexOf_from i' arr x
  end.
Definition indexOf (arr : list nat) (x : nat) : option nat :=
  indexOf_from (length arr) arr x.

(** [Array.prototype.$remove] of [observer/array.js], on an array that is
    not observed (so [splice] is the native one). *)
Definition array_remove (arr : list nat) (x : nat) : list nat :=
  if bool_decide (length arr = 0) then arr
  else match indexOf arr x with
       | Some i => delete i arr
       | None => arr
       end.

(** [toArray] of [util/lang.js] with [start] omitted:
    [ret = new Array(i); while (i--) ret[i] = list[i]]. *)
Fixpoint toArray_loop (i : nat) (l ret : list nat) : list nat :=
  match i with
  | 0 => ret
  | S i' => toArray_loop i' l (<[i' := l !!! i']> ret)
  end.
Definition toArray (l : list nat) : list nat :=
  toArray_loop (length l) l (replicate (length l) 0).

Fixpoint lookup_prop (key : string) (ps : list (string * PropDesc))
  : option PropDesc :=
  match ps with
  | [] => None
  | (k, d) :: ps' => if bool_decide (k = key) then Some d else lookup_prop key ps'
  end.

Fixpoint replace_prop (key : string) (d : PropDesc)
  (ps : list (string * PropDesc)) : list (string * PropDesc) :=
  match ps with
  | [] => []
  | (k, d') :: ps' => if bool_decide (k = key) then (k, d) :: ps'
                      else (k, d') :: replace_prop key d ps'
  end.

Definition is_class (c : ObjClass) (v : value) : M bool :=
  match v with
  | VRef l => gets (fun s => bool_decide (o_class (obj_of l s) = c))
  | _ => ret false
  end.

(** * The engine *)

Section Engine.

(** The interpreter of user code, the native array operations and the
    depth allowed to the recursions of the engine itself. *)
Variable exec_prev : script -> M value.
Variable original : NativeOp.
Variable fuel : nat.

(** A call into user code.  Its events go into one [EvUser] node. *)
Definition call_user (sc : script) : M value :=
  fun s =>
    let wrap s' := upd_log (fun inner => log s ++ [EvUser inner]) s' in
    match exec_prev sc (upd_log (fun _ => []) s) with
    | Ok v s' => Ok v (wrap s')
    | Thrown e s' => Thrown e (wrap s')
    | OutOfFuel => OutOfFuel
    end.

(** ** observer/dep.js *)

(** [new Dep()] *)
Definition Dep_new : M nat :=
  fun s => Ok (dep_uid s) (set_subs (dep_uid s) [] (upd_dep_uid S s)).

Definition Dep_addSub (d w : nat) : M unit :=
  modify (fun s => set_subs d (subs_of d s ++ [w]) s).

Definition Dep_removeSub (d w : nat) : M unit :=
  modify (fun s => set_subs d (array_remove (subs_of d s) w) s).

(** ** watcher.js: dependency collection *)

Definition Watcher_beforeGet (w : nat) : M unit :=
  modify (upd_target (fun _ => Some w)).

Definition Watcher_addDep (w d : nat) : M unit :=
  wt <- gets (watcher_of w);;
  if bool_decide (d ∈ w_newDepIds wt) then ret tt
  else
    modify (upd_watcher w (fun x =>
      set_w_newDeps (w_newDeps x ++ [d])
        (set_w_newDepIds ({[d]} ∪ w_newDepIds x) x)));;;
    if bool_decide (d ∈ w_depIds wt) then ret tt
    else Dep_addSub d w.

(** [Dep.prototype.depend]: [Dep.target.addDep(this)], whatever
    [Dep.target] is. *)
Definition Dep_depend (d : nat) : M unit :=
  emit (EvDepend d);;;
  t <- gets target;;
  match t with
  | None => throw TypeError
  | Some w => Watcher_addDep w d
  end.

(** The loop of [afterGet] reads [this.deps] and [this.newDepIds], which
    [removeSub] leaves alone. *)
Definition Watcher_afterGet (w : nat) : M unit :=
  modify (upd_target (fun _ => None));;;
  wt <- gets (watcher_of w);;
  for_each_rev (fun d =>
      if bool_decide (d ∈ w_newDepIds wt) then ret tt
      else Dep_removeSub d w)
    (w_deps wt);;;
  modify (upd_watcher w (fun x =>
    set_w_newDeps []
      (set_w_deps (w_newDeps x)
         (set_w_newDepIds ∅
            (set_w_depIds (w_newDepIds x) x))))).

(** ** observer/index.js: the accessors installed by [defineReactive] *)

(** [e && e.__ob__ && e.__ob__.dep.depend()] *)
Definition depend_on_element (e : value) : M unit :=
  match e with
  | VRef l =>
      o <- gets (obj_of l);;
      match o_ob o with
      | Some ob => obr <- gets (observer_of ob);; Dep_depend (ob_dep obr)
      | None => ret tt
      end
  | _ => ret tt
  end.

(** [getter ? getter.call(obj) : val], the first line of both accessors;
    [getter_rec] runs a captured reactive getter. *)
Definition current_value (getter_rec : nat -> M value) (cl : Cell) : M value :=
  match c_getter cl with
  | Some (GUser sc) => call_user sc
  | Some (GReactive c') => getter_rec c'
  | None => ret (c_val cl)
  end.

Fixpoint reactiveGetter (n : nat) (c : nat) : M value :=
  match n with
  | 0 => out_of_fuel
  | S n' =>
      cl <- gets (cell_of c);;
      value <- current_value (reactiveGetter n') cl;;
      t <- gets target;;
      match t with
      | Some _ =>
          Dep_depend (c_dep cl);;;
          cl' <- gets (cell_of c);;
          match c_childOb cl' with
          | Some ob => obr <- gets (observer_of ob);; Dep_depend (ob_dep obr)
          | None => ret tt
          end;;;
          isA <- is_class CArray value;;
          if isA then
            match value with
            | VRef l => es <- gets (fun s => o_elems (obj_of l s));;
                        for_each depend_on_element es
            | _ => ret tt
            end
          else ret tt
      | None => ret tt
      end;;;
      ret value
  end.

(** [obj[key]] *)
Definition js_get (o : nat) (key : string) : M value :=
  ob <- gets (obj_of o);;
  match lookup_prop key (o_props ob) with
  | None => ret VUndef
  | Some (DataProp v _) => ret v
  | Some (AccessorProp None _ _) => ret VUndef
  | Some (AccessorProp (Some (GUser sc)) _ _) => call_user sc
  | Some (AccessorProp (Some (GReactive c)) _ _) => reactiveGetter fuel c
  end.

(** ** watcher.js: deep traversal *)

(** [traverse(val, seen)]; [seen] is always the module's [seenObjects],
    cleared by the outermost call. *)
Fixpoint traverse (n : nat) (top : bool) (val : value) : M unit :=
  match n with
  | 0 => out_of_fuel
  | S n' =>
      when top (modify (upd_seenObjects (fun _ => ∅)));;;
      match val with
      | VRef l =>
          o <- gets (obj_of l);;
          if o_extensible o then
            visit <- match o_ob o with
                     | Some ob =>
                         obr <- gets (observer_of ob);;
                         seen <- gets seenObjects;;
                         if bool_decide (ob_dep obr ∈ seen) then ret false
                         else modify (upd_seenObjects (fun x => {[ob_dep obr]} ∪ x));;;
                              ret true
                     | None => ret true
                     end;;
            if visit then
              if bool_decide (o_class o = CArray) then
                for_each_rev (fun i =>
                    e <- gets (fun s => o_elems (obj_of l s) !!! i);;
                    traverse n' false e)
                  (seq 0 (length (o_elems o)))
              else
                for_each_rev (fun key =>
                    e <- js_get l key;;
                    traverse n' false e)
                  (map fst (o_props o))
            else ret tt
          else ret tt
      | _ => ret tt
      end
  end.

(** ** watcher.js: evaluation *)

Definition apply_hook (h : option (value -> script)) (v : value) : M value :=
  match h with
  | Some f => call_user (f v)
  | None => ret v
  end.

Definition Watcher_get (w : nat) : M value :=
  Watcher_beforeGet w;;;
  wt <- gets (watcher_of w);;
  cfg <- gets config;;
  value <- try_catch (call_user (w_getter wt))
             (fun e => when (cfg_dev cfg) (emit (EvWarn w));;; ret VUndef);;
  when (w_deep wt) (traverse fuel true value);;;
  value <- apply_hook (w_preProcess wt) value;;
  value <- apply_hook (w_filters wt) value;;
  value <- apply_hook (w_postProcess wt) value;;
  Watcher_afterGet w;;;
  ret value.

(** [this.cb.call(this.vm, value, oldValue)].  The development branch of
    [run] wraps the same call in a [try] that rethrows. *)
Definition call_cb (w : nat) (value oldValue : value) : M unit :=
  wt <- gets (watcher_of w);;
  match w_cb wt with
  | Some cb =>
      emit (EvCallback w value oldValue);;;
      call_user (cb value oldValue);;;
      ret tt
  | None => throw TypeError
  end.

Definition Watcher_run (w : nat) : M unit :=
  emit (EvRun w);;;
  wt <- gets (watcher_of w);;
  if w_active wt then
    value <- Watcher_get w;;
    wt' <- gets (watcher_of w);;
    (if negb (strict_eq value (w_value wt'))
        || ((isObject value || w_deep wt') && negb (w_shallow wt'))
     then
       let oldValue := w_value wt' in
       modify (upd_watcher w (set_w_value value));;;
       call_cb w value oldValue
     else ret tt);;;
    modify (upd_watcher w (fun x => set_w_shallow false (set_w_queued false x)))
  else ret tt.

(** ** batcher.js: [pushWatcher] *)

(** [nextTick(flushBatcherQueue)] *)
Definition nextTick_flush : M unit := modify (upd_ticks S).

Definition pushWatcher (w : nat) : M unit :=
  h <- gets (fun s => has s !! w);;
  match h with
  | Some _ => ret tt
  | None =>
      wt <- gets (watcher_of w);;
      (if w_user wt then
         modify (fun s => upd_userQueue (fun q => q ++ [w])
                            (upd_has (fun m => <[w := length (userQueue s)]> m) s))
       else
         modify (fun s => upd_queue (fun q => q ++ [w])
                            (upd_has (fun m => <[w := length (queue s)]> m) s)));;;
      wa <- gets waiting;;
      if wa then ret tt
      else modify (upd_waiting (fun _ => true));;; nextTick_flush
  end.

(** ** watcher.js: [update] and [teardown] *)

Definition Watcher_update (w : nat) (shallow : bool) : M unit :=
  emit (EvUpdate w);;;
  wt <- gets (watcher_of w);;
  cfg <- gets config;;
  if w_lazy wt then modify (upd_watcher w (set_w_dirty true))
  else if w_sync wt || negb (cfg_async cfg) then Watcher_run w
  else
    modify (upd_watcher w (fun x =>
      set_w_queued true
        (set_w_shallow (if w_queued x then (if shallow then w_shallow x else false)
                        else shallow) x)));;;
    pushWatcher w.

Definition Watcher_teardown (w : nat) : M unit :=
  wt <- gets (watcher_of w);;
  if w_active wt then
    match w_vm wt with
    | Some v =>
        vr <- gets (vm_of v);;
        when (negb (vm_isBeingDestroyed vr) && negb (vm_vForRemoving vr))
          (modify (upd_vm v (fun x =>
             mkVM (array_remove (vm_watchers x) w)
                  (vm_isBeingDestroyed x) (vm_vForRemoving x))))
    | None => throw TypeError
    end;;;
    for_each_rev (fun d => Dep_removeSub d w) (w_deps wt);;;
    modify (upd_watcher w (fun x =>
      set_w_value VNull (set_w_cb None (set_w_vm None (set_w_active false x)))))
  else ret tt.

(** ** observer/dep.js: [notify] *)

Definition Dep_notify (d : nat) : M unit :=
  emit (EvNotify d);;;
  subs <- gets (fun s => toArray (subs_of d s));;
  for_each (fun w => Watcher_update w false) subs.

(** ** observer/index.js: [observe], [Observer], [defineReactive] *)

(** [Object.defineProperty(obj, key, desc)] for an enumerable,
    configurable descriptor: an existing configurable property is
    replaced in place, a new one needs an extensible object. *)
Definition defineProperty (l : nat) (key : string) (d : PropDesc) : M unit :=
  o <- gets (obj_of l);;
  match lookup_prop key (o_props o) with
  | Some _ => modify (upd_obj l (fun x => set_o_props (replace_prop key d (o_props x)) x))
  | None =>
      if o_extensible o
      then modify (upd_obj l (fun x => set_o_props (o_props x ++ [(key, d)]) x))
      else throw TypeError
  end.

Definition prop_configurable (d : PropDesc) : bool :=
  match d with
  | DataProp _ c => c
  | AccessorProp _ _ c => c
  end.
Definition prop_get (d : PropDesc) : option getter_fn :=
  match d with
  | DataProp _ _ => None
  | AccessorProp g _ _ => g
  end.
Definition prop_set (d : PropDesc) : option setter_fn :=
  match d with
  | DataProp _ _ => None
  | AccessorProp _ st _ => st
  end.

Section Observe.

(** [observe] for the values below the one at hand. *)
Variable observe_rec : value -> M (option nat).

Definition defineReactive (obj : nat) (key : string) (val : value) : M unit :=
  dep <- Dep_new;;
  o <- gets (obj_of obj);;
  let property := lookup_prop key (o_props o) in
  if match property with
     | Some d => negb (prop_configurable d)
     | None => false
     end
  then ret tt
  else
    let getter := property ≫= prop_get in
    let setter := property ≫= prop_set in
    childOb <- observe_rec val;;
    c <- fresh_ref;;
    modify (upd_cells (fun m => <[c := mkCell obj dep val childOb getter setter]> m));;;
    defineProperty obj key
      (AccessorProp (Some (GReactive c)) (Some (SReactive c)) true).

Definition Observer_observeArray (items : list value) : M unit :=
  for_each (fun item => observe_rec item;;; ret tt) items.

(** [Observer.prototype.walk] with [convert] inlined. *)
Definition Observer_walk (ob : nat) (obj : nat) : M unit :=
  keys <- gets (fun s => map fst (o_props (obj_of obj s)));;
  for_each (fun key =>
      val <- js_get obj key;;
      this_value <- gets (fun s => ob_value (observer_of ob s));;
      defineReactive this_value key val)
    keys.

(** The first two lines of [new Observer(value)]: the new object with
    its [value] and its [dep]. *)
Definition Observer_init (l : nat) : M nat :=
  ob <- fresh_ref;;
  dep <- Dep_new;;
  modify (upd_observers (fun m => <[ob := mkObserver l dep []]> m));;;
  ret ob.

(** [new Observer(value)]; [protoAugment] and [copyAugment] both leave
    the array with the intercepted methods. *)
Definition Observer_new (l : nat) : M nat :=
  ob <- Observer_init l;;
  modify (upd_obj l (set_o_ob (Some ob)));;;
  o <- gets (obj_of l);;
  (if bool_decide (o_class o = CArray) then
     modify (upd_obj l (set_o_augmented true));;;
     Observer_observeArray (o_elems o)
   else Observer_walk ob l);;;
  ret ob.

Definition Observer_addVm (ob vm : nat) : M unit :=
  modify (upd_observer ob (fun x =>
    mkObserver (ob_value x) (ob_dep x) (ob_vms x ++ [vm]))).

Definition observe_body (v : value) (vm : option nat) : M (option nat) :=
  emit (EvObserve v);;;
  if negb (truthy v) || negb (typeof_object v) then ret None
  else match v with
       | VRef l =>
           o <- gets (obj_of l);;
           sc <- gets shouldConvert;;
           ob <- match o_ob o with
                 | Some ob => ret (Some ob)
                 | None =>
                     if sc
                        && (bool_decide (o_class o = CArray)
                            || bool_decide (o_class o = CPlain))
                        && o_extensible o && negb (o_isVue o)
                     then ob <- Observer_new l;; ret (Some ob)
                     else ret None
                 end;;
           match ob, vm with
           | Some ob', Some vm' => Observer_addVm ob' vm'
           | _, _ => ret tt
           end;;;
           ret ob
       | _ => ret None
       end.

End Observe.

Fixpoint observe (n : nat) (v : value) (vm : option nat) : M (option nat) :=
  match n with
  | 0 => out_of_fuel
  | S n' => observe_body (fun v' => observe n' v' None) v vm
  end.

Fixpoint reactiveSetter (n : nat) (c : nat) (newVal : value) : M unit :=
  match n with
  | 0 => out_of_fuel
  | S n' =>
      cl <- gets (cell_of c);;
      value <- current_value (reactiveGetter n') cl;;
      if strict_eq newVal value then ret tt
      else
        match c_setter cl with
        | Some (SUser f) => call_user (f newVal);;; ret tt
        | Some (SReactive c') => reactiveSetter n' c' newVal
        | None => modify (upd_cell c (set_c_val newVal))
        end;;;
        childOb <- observe fuel newVal None;;
        modify (upd_cell c (set_c_childOb childOb));;;
        Dep_notify (c_dep cl)
  end.

(** [obj[key] = v] in non-strict code, for the properties the engine and
    the examples deal with: named own properties of plain objects.  A key
    that is new to the object becomes a data property, last in the key
    order, when the object is extensible.  Keys that are array indices
    (stored as elements of an array, and listed first among the keys of an
    object) and the key [__proto__] (which creates no own property) are
    not modelled. *)
Definition js_set (o : nat) (key : string) (v : value) : M unit :=
  ob <- gets (obj_of o);;
  match lookup_prop key (o_props ob) with
  | None =>
      when (o_extensible ob)
        (modify (upd_obj o (fun x => set_o_props (o_props x ++ [(key, DataProp v true)]) x)))
  | Some (DataProp _ c) =>
      modify (upd_obj o (fun x => set_o_props (replace_prop key (DataProp v c) (o_props x)) x))
  | Some (AccessorProp _ None _) => ret tt
  | Some (AccessorProp _ (Some (SUser f)) _) => call_user (f v);;; ret tt
  | Some (AccessorProp _ (Some (SReactive c)) _) => reactiveSetter fuel c v
  end.

(** ** observer/array.js *)

(** [original.apply(this, args)] *)
Definition native_call (a : nat) (m : method) (args : list value) : M value :=
  emit (EvNative a m args);;;
  o <- gets (obj_of a);;
  let '(elems, r) := original m (o_elems o) args in
  modify (upd_obj a (set_o_elems elems));;;
  match r with
  | NRValue v => ret v
  | NRThis => ret (VRef a)
  | NRFresh es =>
      l <- alloc (mkObj CArray true false None false [] es);;
      ret (VRef l)
  end.

(** The arguments that are new elements of the array. *)
Definition inserted_of (m : method) (args : list value) : option (list value) :=
  match m with
  | Mpush => Some args
  | Munshift => Some args
  | Msplice => Some (drop 2 args)
  | _ => None
  end.

(** The [mutator] installed for [method] on [arrayMethods]. *)
Definition mutator (a : nat) (m : method) (args : list value) : M value :=
  result <- native_call a m args;;
  o <- gets (obj_of a);;
  match o_ob o with
  | None => throw TypeError
  | Some ob =>
      match inserted_of m args with
      | Some inserted =>
          Observer_observeArray (fun v => observe fuel v None) inserted
      | None => ret tt
      end;;;
      obr <- gets (observer_of ob);;
      Dep_notify (ob_dep obr);;;
      ret result
  end.

(** [a[method](...args)]: the intercepted method if the array has been
    augmented, the native one otherwise. *)
Definition call_method (a : nat) (m : method) (args : list value) : M value :=
  o <- gets (obj_of a);;
  if o_augmented o then mutator a m args else native_call a m args.

(** ** Running user code *)

Fixpoint exec_here (sc : script) : M value :=
  match sc with
  | Ret v => ret v
  | Throw e => throw e
  | GetProp o key k => v <- js_get o key;; exec_here (k v)
  | SetProp o key v k => js_set o key v;;; exec_here k
  | CallMethod a m args k => r <- call_method a m args;; exec_here (k r)
  | Teardown w k => Watcher_teardown w;;; exec_here k
  end.

(** ** watcher.js: the constructor, for a function [expOrFn] *)

Record WatcherOptions := mkOptions {
  opt_lazy : bool;
  opt_sync : bool;
  opt_user : bool;
  opt_deep : bool;
  opt_preProcess : option (value -> script);
  opt_filters : option (value -> script);
  opt_postProcess : option (value -> script)
}.

Definition Watcher_new (vm : nat) (expOrFn : script)
    (cb : value -> value -> script) (o : WatcherOptions) : M nat :=
  id <- (fun s => Ok (S (watcher_uid s)) (upd_watcher_uid S s));;
  modify (upd_vm vm (fun x =>
    mkVM (vm_watchers x ++ [id]) (vm_isBeingDestroyed x) (vm_vForRemoving x)));;;
  modify (upd_watchers (fun m =>
    <[id := mkWatcher (Some vm) expOrFn (Some cb) true
              (opt_lazy o) (opt_sync o) (opt_user o) (opt_deep o)
              (opt_lazy o) false false [] [] ∅ ∅ VUndef
              (opt_preProcess o) (opt_filters o) (opt_postProcess o)]> m));;;
  value <- (if opt_lazy o then ret VUndef else Watcher_get id);;
  modify (upd_watcher id (fun x =>
    set_w_shallow false (set_w_queued false (set_w_value value x))));;;
  ret id.

(** ** batcher.js: the flush *)

Definition resetBatcherState : M unit :=
  modify (fun s =>
    upd_waiting (fun _ => false)
      (upd_circular (fun _ => ∅)
         (upd_has (fun _ => ∅)
            (upd_userQueue (fun _ => [])
               (upd_queue (fun _ => []) s))))).

(** The array [runBatcherQueue] is called on. *)
Definition queue_of (user : bool) (s : World) : list nat :=
  if user then userQueue s else queue s.

(** The [for] loop of [runBatcherQueue] from index [i] on.  The queue is
    read again at every turn: a run may append to it. *)
Fixpoint runBatcherQueue_from (n : nat) (user : bool) (i : nat) : M unit :=
  match n with
  | 0 => out_of_fuel
  | S n' =>
      q <- gets (queue_of user);;
      match q !! i with
      | None => ret tt
      | Some w =>
          modify (upd_has (fun m => delete w m));;;
          Watcher_run w;;;
          cfg <- gets config;;
          if cfg_dev cfg then
            modify (upd_circular (fun m => <[w := default 0 (m !! w) + 1]> m));;;
            count <- gets (fun s => default 0 (circular s !! w));;
            if bool_decide (cfg_maxUpdateCount cfg < count)
            then emit (EvWarn w)
            else runBatcherQueue_from n' user (S i)
          else runBatcherQueue_from n' user (S i)
      end
  end.

Definition runBatcherQueue (n : nat) (user : bool) : M unit :=
  runBatcherQueue_from n user 0;;;
  modify (if user then upd_userQueue (fun _ => []) else upd_queue (fun _ => [])).

Fixpoint flushBatcherQueue (n : nat) : M unit :=
  match n with
  | 0 => out_of_fuel
  | S n' =>
      runBatcherQueue n false;;;
      runBatcherQueue n true;;;
      q <- gets queue;;
      match q with
      | _ :: _ => flushBatcherQueue n'
      | [] => resetBatcherState
      end
  end.

End Engine.

(** ** Tying the knot *)

(** User code run with [n] levels of nesting left; the engine under it gets
    the same bound for its own recursions. *)
Fixpoint interp (original : NativeOp) (n : nat) : script -> M value :=
  match n with
  | 0 => fun _ => out_of_fuel
  | S n' => exec_here (interp original n') original n'
  end.

Definition empty_world (cfg : Config) : World :=
  mkWorld ∅ 0 None ∅ 0 ∅ [] [] ∅ ∅ false 0 ∅ ∅ ∅ 0 true ∅ cfg [].

Definition plain_object (ps : list (string * value)) : JSObject :=
  mkObj CPlain true false None false (map (fun p => (p.1, DataProp p.2 true)) ps) [].
Definition array_object (es : list value) : JSObject :=
  mkObj CArray true false None false [] es.
Definition no_options : WatcherOptions :=
  mkOptions false false false false None None None.

(** ** A model of the native array operations, for examples *)

(** The integer a string of decimal digits, with or without a sign,
    stands for. *)
Fixpoint digits_value (s : string) (acc : Z) : option Z :=
  match s with
  | EmptyString => Some acc
  | String c s' =>
      let n := Z.of_N (N_of_ascii c) in
      if ((48 <=? n) && (n <=? 57))%Z
      then digits_value s' (10 * acc + (n - 48))%Z
      else None
  end.
Definition integer_of_string (s : string) : option Z :=
  match s with
  | EmptyString => Some 0%Z
  | String "-"%char (String c s') => Z.opp <$> digits_value (String c s') 0%Z
  | String "+"%char (String c s') => digits_value (String c s') 0%Z
  | _ => digits_value s 0%Z
  end.

(** [ToInteger] of an argument: a number is itself and [NaN] is [0];
    [true] is [1]; [undefined], [null] and [false] are [0]; a string of
    decimal digits is the integer it stands for.  Other strings (with
    blanks, a fraction, an exponent or a radix prefix) and objects are
    not modelled and count as [0]. *)
Definition to_integer (v : option value) : Z :=
  match v with
  | Some (VNum z) => z
  | Some (VBool true) => 1%Z
  | Some (VStr s) => default 0%Z (integer_of_string s)
  | _ => 0%Z
  end.

Definition native_splice (elems args : list value) : list value * NativeResult :=
  let len := Z.of_nat (length elems) in
  let rel := to_integer (args !! 0) in
  let start := if (rel <? 0)%Z then Z.max (len + rel) 0 else Z.min rel len in
  let count :=
    match args with
    | [] => 0%Z
    | [_] => (len - start)%Z
    | _ => Z.min (Z.max (to_integer (args !! 1)) 0) (len - start)
    end in
  let st := Z.to_nat start in
  let ct := Z.to_nat count in
  (take st elems ++ drop 2 args ++ drop (st + ct) elems,
   NRFresh (take ct (drop st elems))).

(** [arr.sort()] without a comparison function, which is how a value of
    this model can call it: the elements are compared as strings, by code
    unit, so that [10] comes before [9].  It is given for arrays of
    integers; other arrays are left as they are. *)
Definition string_of_integer (z : Z) : string := pretty z.
Fixpoint insert_sorted (z : Z) (l : list Z) : list Z :=
  match l with
  | [] => [z]
  | y :: l' =>
      if String.leb (string_of_integer z) (string_of_integer y)
      then z :: l else y :: insert_sorted z l'
  end.
Definition as_numbers (l : list value) : option (list Z) :=
  mapM (fun v => match v with VNum z => Some z | _ => None end) l.
Definition native_sort (elems : list value) : list value :=
  match as_numbers elems with
  | Some zs => map VNum (foldr insert_sorted [] zs)
  | None => elems
  end.

Definition js_native : NativeOp := fun m elems args =>
  match m with
  | Mpush => (elems ++ args, NRValue (VNum (Z.of_nat (length (elems ++ args)))))
  | Mpop => (removelast elems, NRValue (default VUndef (last elems)))
  | Mshift => (tail elems, NRValue (default VUndef (head elems)))
  | Munshift => (args ++ elems, NRValue (VNum (Z.of_nat (length (args ++ elems)))))
  | Msplice => native_splice elems args
  | Msort => (native_sort elems, NRThis)
  | Mreverse => (rev elems, NRThis)
  end.


(** * cache.js: the LRU cache *)

(** An entry [{key, value, newer, older}]; [value] is [undefined] until
    [put] stores it, [newer] and [older] are references or [undefined]. *)
Record Entry := mkEntry {
  en_key : string;
  en_value : value;
  en_newer : option nat;
  en_older : option nat
}.

Global Instance Entry_inhabited : Inhabited Entry :=
  populate (mkEntry EmptyString VUndef None None).

(** A [Cache] with the entries it has allocated.  [_keymap] maps a key to
    an entry or to [undefined]: [shift] assigns [undefined], it does not
    delete. *)
Record Cache := mkCache {
  ca_size : Z;
  ca_limit : Z;
  ca_head : option nat;
  ca_tail : option nat;
  ca_keymap : gmap string (option nat);
  ca_entries : gmap nat Entry;
  ca_next : nat
}.

Definition set_ca_size x (c : Cache) :=
  mkCache x (ca_limit c) (ca_head c) (ca_tail c) (ca_keymap c) (ca_entries c) (ca_next c).
Definition set_ca_head x (c : Cache) :=
  mkCache (ca_size c) (ca_limit c) x (ca_tail c) (ca_keymap c) (ca_entries c) (ca_next c).
Definition set_ca_tail x (c : Cache) :=
  mkCache (ca_size c) (ca_limit c) (ca_head c) x (ca_keymap c) (ca_entries c) (ca_next c).
Definition set_ca_keymap x (c : Cache) :=
  mkCache (ca_size c) (ca_limit c) (ca_head c) (ca_tail c) x (ca_entries c) (ca_next c).
Definition set_ca_entries x (c : Cache) :=
  mkCache (ca_size c) (ca_limit c) (ca_head c) (ca_tail c) (ca_keymap c) x (ca_next c).
Definition set_ca_next x (c : Cache) :=
  mkCache (ca_size c) (ca_limit c) (ca_head c) (ca_tail c) (ca_keymap c) (ca_entries c) x.

Definition set_en_value x (e : Entry) := mkEntry (en_key e) x (en_newer e) (en_older e).
Definition set_en_newer x (e : Entry) := mkEntry (en_key e) (en_value e) x (en_older e).
Definition set_en_older x (e : Entry) := mkEntry (en_key e) (en_value e) (en_newer e) x.

(** The entry behind a reference, and an assignment to one of its fields. *)
Definition entry_of (e : nat) (c : Cache) : Entry := ca_entries c !!! e.
Definition upd_entry (e : nat) (f : Entry -> Entry) (c : Cache) : Cache :=
  set_ca_entries (<[e := f (entry_of e c)]> (ca_entries c)) c.

(** [this._keymap[key]] *)
Definition keymap_get (key : string) (c : Cache) : option nat :=
  default None (ca_keymap c !! key).

(** [new Cache(limit)] *)
Definition Cache_new (limit : Z) : Cache := mkCache 0 limit None None ∅ ∅ 0.

(** What a method of the cache gives back: [undefined], an entry or a
    value. *)
Inductive CacheResult :=
  | CUndefined
  | CEntry (e : nat)
  | CValue (v : value).

(** A method returns, or throws with the cache as the statements before
    the exception left it. *)
Inductive CacheOutcome :=
  | CReturn (r : CacheResult) (c : Cache)
  | CThrow (e : value) (c : Cache).

(** [returnEntry ? entry : entry.value] *)
Definition get_result (returnEntry : bool) (entry : nat) (c : Cache) : CacheResult :=
  if returnEntry then CEntry entry else CValue (en_value (entry_of entry c)).

(** [Cache.prototype.get] *)
Definition Cache_get (key : string) (returnEntry : bool) (c : Cache)
  : CacheResult * Cache :=
  match keymap_get key c with
  | None => (CUndefined, c)
  | Some entry =>
      if bool_decide (ca_tail c = Some entry) then (get_result returnEntry entry c, c)
      else
        (* if (entry.newer) { if (entry === this.head) this.head = entry.newer;
                              entry.newer.older = entry.older } *)
        let c1 :=
          match en_newer (entry_of entry c) with
          | Some n =>
              let c' := if bool_decide (ca_head c = Some entry)
                        then set_ca_head (Some n) c else c in
              upd_entry n (set_en_older (en_older (entry_of entry c'))) c'
          | None => c
          end in
        (* if (entry.older) entry.older.newer = entry.newer *)
        let c2 :=
          match en_older (entry_of entry c1) with
          | Some o => upd_entry o (set_en_newer (en_newer (entry_of entry c1))) c1
          | None => c1
          end in
        (* entry.newer = undefined; entry.older = this.tail *)
        let c3 := upd_entry entry (set_en_newer None) c2 in
        let c4 := upd_entry entry (set_en_older (ca_tail c3)) c3 in
        (* if (this.tail) this.tail.newer = entry *)
        let c5 :=
          match ca_tail c4 with
          | Some t => upd_entry t (set_en_newer (Some entry)) c4
          | None => c4
          end in
        let c6 := set_ca_tail (Some entry) c5 in
        (get_result returnEntry entry c6, c6)
  end.

(** [Cache.prototype.shift].  [this.head.older = undefined] is an
    assignment to a property of [this.head.newer], which is [undefined]
    when the entry is the only one. *)
Definition Cache_shift (c : Cache) : CacheOutcome :=
  match ca_head c with
  | None => CReturn CUndefined c
  | Some entry =>
      let c1 := set_ca_head (en_newer (entry_of entry c)) c in
      match ca_head c1 with
      | None => CThrow TypeError c1
      | Some h =>
          let c2 := upd_entry h (set_en_older None) c1 in
          let c3 := upd_entry entry (set_en_older None) c2 in
          let c4 := upd_entry entry (set_en_newer None) c3 in
          let c5 := set_ca_keymap (<[en_key (entry_of entry c4) := None]> (ca_keymap c4)) c4 in
          CReturn (CEntry entry) (set_ca_size (ca_size c5 - 1)%Z c5)
      end
  end.

(** [Cache.prototype.put] from [entry = {key: key}] on, with what [shift]
    removed. *)
Definition put_new (key : string) (value : value) (removed : CacheResult)
    (c : Cache) : CacheOutcome :=
  let entry := ca_next c in
  let c1 := set_ca_next (S entry)
              (set_ca_entries (<[entry := mkEntry key VUndef None None]> (ca_entries c)) c) in
  let c2 := set_ca_keymap (<[key := Some entry]> (ca_keymap c1)) c1 in
  let c3 :=
    match ca_tail c2 with
    | Some t =>
        let c' := upd_entry t (set_en_newer (Some entry)) c2 in
        upd_entry entry (set_en_older (ca_tail c')) c'
    | None => set_ca_head (Some entry) c2
    end in
  let c4 := set_ca_tail (Some entry) c3 in
  let c5 := set_ca_size (ca_size c4 + 1)%Z c4 in
  CReturn removed (upd_entry entry (set_en_value value) c5).

(** [Cache.prototype.put] *)
Definition Cache_put (key : string) (value : value) (c : Cache) : CacheOutcome :=
  match Cache_get key true c with
  | (CEntry entry, c1) => CReturn CUndefined (upd_entry entry (set_en_value value) c1)
  | (_, c1) =>
      if bool_decide (ca_size c1 = ca_limit c1) then
        match Cache_shift c1 with
        | CReturn removed c2 => put_new key value removed c2
        | CThrow e c2 => CThrow e c2
        end
      else put_new key value CUndefined c1
  end.

(** * More of the library *)

(** ** util/lang.js on arrays of values *)

Definition RangeError : value := VStr "RangeError".

(** [list[i]] for a number [i]: [undefined] outside of the list. *)
Definition element_at (l : list value) (i : Z) : value :=
  if (i <? 0)%Z then VUndef else default VUndef (l !! Z.to_nat i).

(** [toArray(list, start)] for a number [start]:
    [i = list.length - start; ret = new Array(i);
     while (i--) ret[i] = list[i + start]].
    [new Array(i)] throws a [RangeError] unless [i] is a length. *)
Fixpoint toArray_fill (i : nat) (l : list value) (start : Z)
    (ret : list value) : list value :=
  match i with
  | 0 => ret
  | S i' => toArray_fill i' l start
              (<[i' := element_at l (Z.of_nat i' + start)]> ret)
  end.
Definition toArray_start (l : list value) (start : Z) : M (list value) :=
  let i := (Z.of_nat (length l) - start)%Z in
  if (i <? 0)%Z || (4294967295 <? i)%Z then throw RangeError
  else ret (toArray_fill (Z.to_nat i) l start (replicate (Z.to_nat i) VUndef)).

(** [indexOf(arr, obj)] on the elements of an array:
    [while (i--) if (arr[i] === obj) return i]. *)
Fixpoint indexOf_value_from (i : nat) (arr : list value) (obj : value)
  : option nat :=
  match i with
  | 0 => None
  | S i' => if strict_eq (arr !!! i') obj then Some i'
            else indexOf_value_from i' arr obj
  end.
Definition indexOf_value (arr : list value) (obj : value) : option nat :=
  indexOf_value_from (length arr) arr obj.

Section Library.
Variable exec_prev : script -> M value.
Variable original : NativeOp.
Variable fuel : nat.

(** ** observer/array.js: [$set] and [$remove] *)

(** [v[0]] *)
Definition first_of (v : value) : M value :=
  match v with
  | VUndef | VNull => throw TypeError
  | VRef l =>
      o <- gets (obj_of l);;
      if bool_decide (o_class o = CArray) then ret (default VUndef (o_elems o !! 0))
      else js_get exec_prev fuel l "0"
  | VStr (String c _) => ret (VStr (String c EmptyString))
  | _ => ret VUndef
  end.

(** [Array.prototype.$set] for a number [index].  [this.length = n]
    appends holes, which read as [undefined], and throws a [RangeError]
    unless [n] is a length. *)
Definition dollar_set (a : nat) (index : Z) (val : value) : M value :=
  o <- gets (obj_of a);;
  (if bool_decide (Z.of_nat (length (o_elems o)) <= index)%Z then
     if bool_decide (4294967295 < index + 1)%Z then throw RangeError
     else modify (upd_obj a (fun x =>
            set_o_elems (o_elems x
                         ++ replicate (Z.to_nat (index + 1) - length (o_elems x)) VUndef) x))
   else ret tt);;;
  r <- call_method exec_prev original fuel a Msplice [VNum index; VNum 1; val];;
  first_of r.

(** [Array.prototype.$remove] *)
Definition dollar_remove (a : nat) (item : value) : M value :=
  o <- gets (obj_of a);;
  if bool_decide (length (o_elems o) = 0) then ret VUndef
  else
    match indexOf_value (o_elems o) item with
    | Some index =>
        call_method exec_prev original fuel a Msplice [VNum (Z.of_nat index); VNum 1]
    | None => ret VUndef
    end.

(** ** watcher.js: lazy watchers *)

(** [Watcher.prototype.evaluate] *)
Definition Watcher_evaluate (w : nat) : M unit :=
  current <- gets target;;
  value <- Watcher_get exec_prev fuel w;;
  modify (upd_watcher w (set_w_value value));;;
  modify (upd_watcher w (set_w_dirty false));;;
  modify (upd_target (fun _ => current)).

(** [Watcher.prototype.depend]; the loop reads [this.deps], which
    [depend] leaves alone. *)
Definition Watcher_depend (w : nat) : M unit :=
  wt <- gets (watcher_of w);;
  for_each_rev Dep_depend (w_deps wt).

(** The [computedGetter] that [makeComputedGetter] returns for the lazy
    watcher [w]. *)
Definition computedGetter (w : nat) : M value :=
  wt <- gets (watcher_of w);;
  when (w_dirty wt) (Watcher_evaluate w);;;
  t <- gets target;;
  match t with
  | Some _ => Watcher_depend w
  | None => ret tt
  end;;;
  gets (fun s => w_value (watcher_of w s)).

End Library.

(** ** observer/index.js: [withoutConversion] *)

(** [withoutConversion(fn)]: the flag is set again only if [fn] returns. *)
Definition withoutConversion {A} (fn : M A) : M unit :=
  modify (upd_shouldConvert (fun _ => false));;;
  fn;;;
  modify (upd_shouldConvert (fun _ => true)).

(** * Vocabulary of the statements *)

(** ** The call log *)

(** The events a function may add at the top of the log: [EvUpdate w] for
    [upd w], [EvRun w] for [run w], [EvCallback w] for [cb w], [EvNotify d]
    for [ntf d], and the observation and native-call events when [obs] and
    [ntv] are set.  Dependency registrations, warnings and user code may
    always appear. *)
Definition allowed (upd run cb ntf : nat -> bool) (obs ntv : bool) (e : Event)
  : bool :=
  match e with
  | EvUser _ | EvDepend _ | EvWarn _ => true
  | EvUpdate w => upd w
  | EvRun w => run w
  | EvCallback w _ _ => cb w
  | EvNotify d => ntf d
  | EvObserve _ => obs
  | EvNative _ _ _ => ntv
  end.

(** Sets of identifiers for [allowed]. *)
Definition none : nat -> bool := fun _ => false.

Definition only (x : nat) : nat -> bool := fun y => bool_decide (y = x).

Definition among (l : list nat) : nat -> bool := fun y => bool_decide (y ∈ l).

(** The log of [s'] is the log of [s] and then events of the kind [K]. *)
Definition extends_with (K : Event -> bool) (s s' : World) : Prop :=
  exists l, log s' = log s ++ l /\ Forall (fun e => K e = true) l.

(** [m] relates the world it starts in to the world it ends in, whether it
    returns or throws. *)
Definition respects {A} (R : World -> World -> Prop) (m : M A) : Prop :=
  forall s, match m s with
            | Ok _ s' | Thrown _ s' => R s s'
            | OutOfFuel => True
            end.

(** [m] adds events of the kind [K] to the log and leaves the rest of the
    log as it is. *)
Definition emits {A} (K : Event -> bool) (m : M A) : Prop :=
  respects (extends_with K) m.

(** The calls the log tells of, by kind. *)
Definition is_update (e : Event) : bool :=
  match e with EvUpdate _ => true | _ => false end.

Definition is_notify (e : Event) : bool :=
  match e with EvNotify _ => true | _ => false end.

Definition is_callback (e : Event) : bool :=
  match e with EvCallback _ _ _ => true | _ => false end.

Definition is_run (e : Event) : bool :=
  match e with EvRun _ => true | _ => false end.

Definition is_native (e : Event) : bool :=
  match e with EvNative _ _ _ => true | _ => false end.

(** The events added to the log between two worlds. *)
Definition new_events (s s' : World) : list Event :=
  drop (length (log s)) (log s').

(** ** Watchers and their Deps *)

(** A watcher whose [update] runs no user code: it is lazy, or it is not
    synchronous while [config.async] is on. *)
Definition deferred (w : nat) (s : World) : bool :=
  w_lazy (watcher_of w s)
  || (negb (w_sync (watcher_of w s)) && cfg_async (config s)).

(** A watcher with its scheduling flags cleared. *)
Definition unscheduled (x : Watcher) : Watcher :=
  set_w_dirty false (set_w_queued false (set_w_shallow false x)).

(** Two worlds that differ in scheduling only: the batcher, the flags
    [dirty], [queued] and [shallow] of the watchers, and the log. *)
Definition scheduling_only (s s' : World) : Prop :=
  deps s' = deps s /\ cells s' = cells s /\ heap s' = heap s
  /\ observers s' = observers s /\ target s' = target s
  /\ config s' = config s /\ vms s' = vms s
  /\ forall w, unscheduled (watcher_of w s') = unscheduled (watcher_of w s).

(** The world after [addDep]. *)
Definition addDep_state (w d : nat) (s : World) : World :=
  let wt := watcher_of w s in
  if bool_decide (d ∈ w_newDepIds wt) then s
  else
    let s1 := upd_watcher w (fun x =>
                set_w_newDeps (w_newDeps x ++ [d])
                  (set_w_newDepIds ({[d]} ∪ w_newDepIds x) x)) s in
    if bool_decide (d ∈ w_depIds wt) then s1
    else set_subs d (subs_of d s1 ++ [w]) s1.

(** What collecting dependencies for [w] leaves alone, and what grows. *)
Definition collects (w : nat) (s s' : World) : Prop :=
  target s' = target s /\ cells s' = cells s /\ heap s' = heap s
  /\ observers s' = observers s
  /\ w_newDepIds (watcher_of w s) ⊆ w_newDepIds (watcher_of w s').

(** How many times [w] stands in a subscriber list. *)
Definition occ (w : nat) (l : list nat) : nat :=
  length (List.filter (Nat.eqb w) l).

(** While a watcher collects: the identifier sets mirror the lists, no Dep
    is listed twice, and the watcher stands once in the subscribers of
    every Dep of either list and in no other. *)
Record collecting (w : nat) (s : World) : Prop := mkCollecting {
  col_ids : forall d, d ∈ w_depIds (watcher_of w s) <-> d ∈ w_deps (watcher_of w s);
  col_newIds :
    forall d, d ∈ w_newDepIds (watcher_of w s) <-> d ∈ w_newDeps (watcher_of w s);
  col_nodup : NoDup (w_deps (watcher_of w s));
  col_newNodup : NoDup (w_newDeps (watcher_of w s));
  col_subs :
    forall d, occ w (subs_of d s)
              = if bool_decide (d ∈ w_deps (watcher_of w s)
                                \/ d ∈ w_newDeps (watcher_of w s))
                then 1 else 0
}.

(** Between evaluations nothing is being collected. *)
Definition consistent (w : nat) (s : World) : Prop :=
  collecting w s /\ w_newDeps (watcher_of w s) = [].

(** The loop of [afterGet]: the watcher leaves the subscribers of every Dep
    of [l] that is not in [keep]. *)
Definition drop_stale (w : nat) (keep : gset nat) (d : nat) (s : World) : World :=
  if bool_decide (d ∈ keep) then s
  else set_subs d (array_remove (subs_of d s) w) s.

(** [drop_stale] over the Deps of [l], first to last. *)
Definition remove_stale (w : nat) (keep : gset nat) (l : list nat) (s : World)
  : World := foldl (fun s d => drop_stale w keep d s) s l.

(** The world after [afterGet]: the stale subscriptions are dropped, last
    Dep first, the collected sets become the current ones, the others are
    emptied, and nobody is recording. *)
Definition afterGet_state (w : nat) (s : World) : World :=
  let wt := watcher_of w s in
  upd_watcher w (fun x =>
      set_w_newDeps []
        (set_w_deps (w_newDeps x)
           (set_w_newDepIds ∅ (set_w_depIds (w_newDepIds x) x))))
    (remove_stale w (w_newDepIds wt) (rev (w_deps wt))
       (upd_target (fun _ => None) s)).

(** An event that tells of a call to watcher [w]: its [update], its [run]
    or its callback. *)
Definition concerns (w : nat) (e : Event) : bool :=
  match e with
  | EvUpdate w' | EvRun w' | EvCallback w' _ _ => bool_decide (w' = w)
  | _ => false
  end.

(** The number of calls of the callback of [w] an event tells of; the
    events of user code are those inside [EvUser]. *)
Fixpoint cb_count (w : nat) (e : Event) : nat :=
  match e with
  | EvCallback w' _ _ => if bool_decide (w' = w) then 1 else 0
  | EvUser l =>
      (fix total (l : list Event) : nat :=
         match l with
         | [] => 0
         | e' :: l' => cb_count w e' + total l'
         end) l
  | _ => 0
  end.

(** The number of calls of the callback of [w] a log tells of, user code
    included. *)
Fixpoint cb_total (w : nat) (l : list Event) : nat :=
  match l with
  | [] => 0
  | e :: l' => cb_count w e + cb_total w l'
  end.

(** [teardown] has run: the watcher is inactive and has no callback; it is
    not recording, and no Dep lists it. *)
Definition gone (w : nat) (s : World) : Prop :=
  w_active (watcher_of w s) = false
  /\ w_cb (watcher_of w s) = None
  /\ target s <> Some w
  /\ forall d, w ∉ subs_of d s.

(** From a world where [w] is gone: it still is, and its callback has not
    been called. *)
Definition stays_gone (w : nat) (s s' : World) : Prop :=
  gone w s -> gone w s' /\ cb_total w (log s') = cb_total w (log s).

(** [teardown] has run, wherever it was called from: the watcher is
    inactive and has no callback. *)
Definition spent (w : nat) (s : World) : Prop :=
  w_active (watcher_of w s) = false /\ w_cb (watcher_of w s) = None.

(** From a world where [w] is spent: it still is, and its callback has not
    been called. *)
Definition stays_spent (w : nat) (s s' : World) : Prop :=
  spent w s -> spent w s' /\ cb_total w (log s') = cb_total w (log s).

(** The world after [teardown] of an active watcher of the vm [v]. *)
Definition teardown_state (w v : nat) (s : World) : World :=
  let detach (x : VM) :=
    mkVM (array_remove (vm_watchers x) w) (vm_isBeingDestroyed x) (vm_vForRemoving x) in
  let s1 := if negb (vm_isBeingDestroyed (vm_of v s)) && negb (vm_vForRemoving (vm_of v s))
            then upd_vm v detach s else s in
  upd_watcher w (fun x =>
      set_w_value VNull (set_w_cb None (set_w_vm None (set_w_active false x))))
    (remove_stale w ∅ (rev (w_deps (watcher_of w s))) s1).

(** The world in which [get] goes on after its [catch] when the getter,
    started in [s] with [w] recording, threw in the world [s2]: the
    exception is dropped (and reported in a development build) and the
    deep traversal of [undefined] only clears its set. *)
Definition eval_caught_state (w : nat) (s s2 : World) : World :=
  let sw := upd_log (fun inner => log s ++ [EvUser inner]) s2 in
  let sd := if cfg_dev (config s) then upd_log (fun l => l ++ [EvWarn w]) sw
            else sw in
  if w_deep (watcher_of w s) then upd_seenObjects (fun _ => ∅) sd else sd.

(** The lines of [get] between the traversal and [afterGet]: the hooks
    [preProcess], [filters] and [postProcess] of the watcher [x], each
    applied to the result of the one before. *)
Definition apply_hooks (exec : script -> M value) (x : Watcher) (v : value)
  : M value :=
  v1 <- apply_hook exec (w_preProcess x) v;;
  v2 <- apply_hook exec (w_filters x) v1;;
  apply_hook exec (w_postProcess x) v2.

(** The world in which [get] returns when the getter threw and the watcher
    has no hook: [afterGet] runs in the world after the [catch]. *)
Definition eval_failed_state (w : nat) (s s2 : World) : World :=
  afterGet_state w (eval_caught_state w s s2).

(** The comparison of [run]: has the value changed? *)
Definition value_changed (value : value) (x : Watcher) : bool :=
  negb (strict_eq value (w_value x))
  || ((isObject value || w_deep x) && negb (w_shallow x)).

(** ** The batcher *)

(** The batcher between two turns of the loop of [runBatcherQueue] over a
    queue that holds nothing but [w], when every run of [w] queues it
    again: [i] runs have been made and counted. *)
Record spinning (Inv : World -> Prop) (user : bool) (w i : nat) (cfg : Config)
    (s : World) : Prop := mkSpinning {
  spin_inv : Inv s;
  spin_queue : queue_of user s = replicate (S i) w;
  spin_other : queue_of (negb user) s = [];
  spin_config : config s = cfg;
  spin_count : cfg_dev cfg = true -> default 0 (circular s !! w) = i
}.

(** User code cannot reach the queues but through [pushWatcher], which
    appends, and it leaves the configuration alone. *)
Definition queues_grow (s s' : World) : Prop :=
  queue s `prefix_of` queue s' /\ userQueue s `prefix_of` userQueue s'
  /\ config s' = config s.

(** A watcher whose [update] goes to the batcher. *)
Definition batched (w : nat) (s : World) : bool :=
  negb (w_lazy (watcher_of w s)) && negb (w_sync (watcher_of w s))
  && cfg_async (config s).

(** ** Observers *)

(** From one world to a later one: references are only ever allocated, an
    object that has an Observer keeps it, and an Observer keeps its Dep. *)
Definition keeps_observers (s s' : World) : Prop :=
  next_ref s <= next_ref s'
  /\ (forall l, l < next_ref s -> is_Some (o_ob (obj_of l s)) ->
                o_ob (obj_of l s') = o_ob (obj_of l s))
  /\ (forall ob, ob < next_ref s ->
                 ob_dep (observer_of ob s') = ob_dep (observer_of ob s)).


(** What the native method leaves behind: the elements, and the fresh array
    that [splice] returns. *)
Definition native_state (original : NativeOp) (a : nat) (m : method)
    (args : list value) (s : World) : World :=
  let s0 := upd_log (fun l => l ++ [EvNative a m args]) s in
  let r := original m (o_elems (obj_of a s0)) args in
  let s1 := upd_obj a (set_o_elems r.1) s0 in
  match r.2 with
  | NRFresh es =>
      upd_heap (fun h => <[next_ref s1 := mkObj CArray true false None false [] es]> h)
        (upd_next_ref S s1)
  | _ => s1
  end.

(** The value the native method returns. *)
Definition native_value (original : NativeOp) (a : nat) (m : method)
    (args : list value) (s : World) : value :=
  match (original m (o_elems (obj_of a s)) args).2 with
  | NRValue v => v
  | NRThis => VRef a
  | NRFresh _ => VRef (next_ref s)
  end.

(** The test [observe] makes on a value without an Observer. *)
Definition eligible (o : JSObject) (s : World) : bool :=
  shouldConvert s
  && (bool_decide (o_class o = CArray) || bool_decide (o_class o = CPlain))
  && o_extensible o && negb (o_isVue o).

(** The world after [ob.addVm(vm)], when a [vm] is given. *)
Definition with_vm (ob : nat) (vm : option nat) (s : World) : World :=
  match vm with
  | Some vm' =>
      upd_observer ob
        (fun x => mkObserver (ob_value x) (ob_dep x) (ob_vms x ++ [vm'])) s
  | None => s
  end.

(** ** Tests on a world *)

(** The invariant of a watcher between evaluations, as a test on a
    world. *)
Definition consistentb (w : nat) (s : World) : bool :=
  let x := watcher_of w s in
  bool_decide (w_newDeps x = [])
  && bool_decide (elements (w_newDepIds x) = [])
  && bool_decide (NoDup (w_deps x))
  && forallb (fun d => bool_decide (d ∈ w_deps x)) (elements (w_depIds x))
  && forallb (fun d => bool_decide (d ∈ w_depIds x)) (w_deps x)
  && forallb (fun d => bool_decide (is_Some (deps s !! d))) (w_deps x)
  && forallb (fun p => Nat.eqb (occ w p.2)
                         (if bool_decide (p.1 ∈ w_deps x) then 1 else 0))
       (map_to_list (deps s)).

(** Every subscriber of [d] is deferred. *)
Definition all_deferredb (d : nat) (s : World) : bool :=
  forallb (fun w => deferred w s) (subs_of d s).

(** ** Parts of functions *)

(** What the setter does once the value is known to change, after the
    store: observe the value, keep its observer, notify. *)
Definition observe_and_notify (exec : script -> M value) (fuel : nat)
    (c d : nat) (newVal : value) : M unit :=
  childOb <- observe exec fuel fuel newVal None;;
  modify (upd_cell c (set_c_childOb childOb));;;
  Dep_notify exec fuel d.

(** What [new Observer(value)] does once the Observer is attached. *)
Definition Observer_fill (exec : script -> M value) (fuel : nat)
    (observe_rec : value -> M (option nat)) (l ob : nat) : M nat :=
  o <- gets (obj_of l);;
  (if bool_decide (o_class o = CArray) then
     modify (upd_obj l (set_o_augmented true));;;
     Observer_observeArray observe_rec (o_elems o)
   else Observer_walk exec fuel observe_rec ob l);;;
  ret ob.

(** The last two lines of [observe]. *)
Definition observe_finish (ob : option nat) (vm : option nat) : M (option nat) :=
  match ob, vm with
  | Some ob', Some vm' => Observer_addVm ob' vm'
  | _, _ => ret tt
  end;;;
  ret ob.

(** [ob.observeArray(inserted)]. *)
Definition observe_inserted (original : NativeOp) (k fuel : nat)
    (inserted : list value) : M unit :=
  for_each (fun item => observe (interp original k) fuel fuel item None;;; ret tt) inserted.

(** ** The cache as a list *)

(** The entries of [l] are chained through [newer] and [older], with
    [prev] before the first and [next] after the last. *)
Fixpoint linked (c : Cache) (prev : option nat) (l : list nat) (next : option nat)
  : Prop :=
  match l with
  | [] => True
  | e :: l' =>
      en_older (entry_of e c) = prev
      /\ en_newer (entry_of e c) = match l' with [] => next | e' :: _ => Some e' end
      /\ linked c (Some e) l' next
  end.

(** The cache is the list [l] of entries, least recently used first:
    [head] and [tail] are its ends, [_keymap] finds each entry under its
    key and nothing else, [size] is its length. *)
Record represents (c : Cache) (l : list nat) : Prop := mkRepresents {
  rep_head : ca_head c = head l;
  rep_tail : ca_tail c = last l;
  rep_linked : linked c None l None;
  rep_nodup : NoDup l;
  rep_keys : NoDup (map (fun e => en_key (entry_of e c)) l);
  rep_keymap :
    forall k e, keymap_get k c = Some e <-> e ∈ l /\ en_key (entry_of e c) = k;
  rep_size : ca_size c = Z.of_nat (length l);
  rep_alloc : forall e, e ∈ l -> e < ca_next c
}.

(** The keys and values of the entries of [l]. *)
Definition contents (c : Cache) (l : list nat) : list (string * value) :=
  map (fun e => (en_key (entry_of e c), en_value (entry_of e c))) l.

(** The cache holds the pairs [kvs], least recently used first. *)
Definition holds (c : Cache) (kvs : list (string * value)) : Prop :=
  exists l, represents c l /\ contents c l = kvs.

(** From [c] to [c']: entries may be chained differently and [head] and
    [tail] may differ; keys, values, [_keymap], [size], [limit] and the
    allocated entries are the same. *)
Definition relinked (c c' : Cache) : Prop :=
  ca_keymap c' = ca_keymap c /\ ca_size c' = ca_size c
  /\ ca_limit c' = ca_limit c /\ ca_next c' = ca_next c
  /\ forall x, en_key (entry_of x c') = en_key (entry_of x c)
               /\ en_value (entry_of x c') = en_value (entry_of x c).

(** The statements of [get] on an entry that is not the tail.  First the
    entry leaves the chain: [if (entry.newer) { ... } if (entry.older)
    ...]. *)
Definition get_unlink (entry : nat) (c : Cache) : Cache :=
  let c1 :=
    match en_newer (entry_of entry c) with
    | Some n =>
        let c' := if bool_decide (ca_head c = Some entry)
                  then set_ca_head (Some n) c else c in
        upd_entry n (set_en_older (en_older (entry_of entry c'))) c'
    | None => c
    end in
  match en_older (entry_of entry c1) with
  | Some o => upd_entry o (set_en_newer (en_newer (entry_of entry c1))) c1
  | None => c1
  end.

(** Then it goes after the tail. *)
Definition get_append (entry : nat) (c : Cache) : Cache :=
  let c3 := upd_entry entry (set_en_newer None) c in
  let c4 := upd_entry entry (set_en_older (ca_tail c3)) c3 in
  let c5 :=
    match ca_tail c4 with
    | Some t => upd_entry t (set_en_newer (Some entry)) c4
    | None => c4
    end in
  set_ca_tail (Some entry) c5.

(** ** An LRU cache as a list of pairs, least recently used first *)

(** The value stored under [k]. *)
Fixpoint lru_find (k : string) (kvs : list (string * value)) : option value :=
  match kvs with
  | [] => None
  | (k', v) :: kvs' => if decide (k' = k) then Some v else lru_find k kvs'
  end.

(** The pairs of the other keys. *)
Fixpoint lru_without (k : string) (kvs : list (string * value))
  : list (string * value) :=
  match kvs with
  | [] => []
  | (k', v) :: kvs' =>
      if decide (k' = k) then lru_without k kvs' else (k', v) :: lru_without k kvs'
  end.

(** A use of [k] makes its pair the most recently used. *)
Definition lru_get (k : string) (kvs : list (string * value))
  : list (string * value) :=
  match lru_find k kvs with
  | Some v => lru_without k kvs ++ [(k, v)]
  | None => kvs
  end.

(** Storing [v] under [k] with room for [limit] pairs: a key that is there
    is used and gets the value; a new one goes to the end, after the least
    recently used pair has left when [limit] pairs are there. *)
Definition lru_put (limit : Z) (k : string) (v : value)
    (kvs : list (string * value)) : list (string * value) :=
  match lru_find k kvs with
  | Some _ => lru_without k kvs ++ [(k, v)]
  | None =>
      if decide (Z.of_nat (length kvs) = limit) then drop 1 kvs ++ [(k, v)]
      else kvs ++ [(k, v)]
  end.

(** What [put] returns: the entry of the pair that left, if one did. *)
Definition evicted (limit : Z) (k : string) (kvs : list (string * value))
  : option (string * value) :=
  match lru_find k kvs with
  | Some _ => None
  | None => if decide (Z.of_nat (length kvs) = limit) then head kvs else None
  end.

(** Calls of [get] and [put]. *)
Inductive CacheOp :=
  | OpGet (k : string)
  | OpPut (k : string) (v : value).

(** The calls in sequence on the cache, up to the first exception: the
    results of the calls of [get], or nothing if a call has thrown, and
    the cache at the end. *)
Fixpoint Cache_run (ops : list CacheOp) (c : Cache)
  : option (list CacheResult) * Cache :=
  match ops with
  | [] => (Some [], c)
  | OpGet k :: ops' =>
      let '(r, c1) := Cache_get k false c in
      let '(rs, c2) := Cache_run ops' c1 in
      (cons r <$> rs, c2)
  | OpPut k v :: ops' =>
      match Cache_put k v c with
      | CReturn _ c1 => Cache_run ops' c1
      | CThrow _ c1 => (None, c1)
      end
  end.

(** The same calls on the list of pairs. *)
Fixpoint lru_run (limit : Z) (ops : list CacheOp) (kvs : list (string * value))
  : list CacheResult * list (string * value) :=
  match ops with
  | [] => ([], kvs)
  | OpGet k :: ops' =>
      let '(rs, kvs') := lru_run limit ops' (lru_get k kvs) in
      (from_option CValue CUndefined (lru_find k kvs) :: rs, kvs')
  | OpPut k v :: ops' => lru_run limit ops' (lru_put limit k v kvs)
  end.

(** ** Lazy watchers *)

(** A watcher without the dependencies that are being collected for it. *)
Definition settled (x : Watcher) : Watcher :=
  set_w_newDeps [] (set_w_newDepIds ∅ x).

(** A watcher that was dirty is dirty. *)
Definition stays_dirty (s s' : World) : Prop :=
  forall w, w_dirty (watcher_of w s) = true -> w_dirty (watcher_of w s') = true.

(** ** Conversion of a plain object *)

(** What [obj[key]] is worth in a world where nobody records: the value of
    a data property, or the value in the closure of a reactive property
    without a captured getter. *)
Definition reads_as (l : nat) (key : string) (v : value) (s : World) : Prop :=
  match lookup_prop key (o_props (obj_of l s)) with
  | Some (DataProp v' _) => v' = v
  | Some (AccessorProp (Some (GReactive c)) (Some (SReactive c')) _) =>
      c' = c /\ c < next_ref s
      /\ c_getter (cell_of c s) = None /\ c_setter (cell_of c s) = None
      /\ c_obj (cell_of c s) = l /\ c_val (cell_of c s) = v
  | _ => False
  end.

(** The world after [defineReactive(obj, key, val)] for a configurable
    data property and a primitive value. *)
Definition defineReactive_state (l : nat) (key : string) (v : value) (s : World)
  : World :=
  let s1 := set_subs (dep_uid s) [] (upd_dep_uid S s) in
  let s2 := upd_log (fun lg => lg ++ [EvObserve v]) s1 in
  let s3 := upd_next_ref S s2 in
  let s4 := upd_cells (fun m => <[next_ref s := mkCell l (dep_uid s) v None None None]> m) s3 in
  upd_obj l (fun x =>
    set_o_props (replace_prop key
                   (AccessorProp (Some (GReactive (next_ref s)))
                      (Some (SReactive (next_ref s))) true) (o_props x)) x) s4.

(** ** Conversion switched off *)

(** The flag [shouldConvert] is what it was, and while it is off the
    objects have the Observers they had: none is attached. *)
Definition conversion_kept (s s' : World) : Prop :=
  shouldConvert s' = shouldConvert s
  /\ next_ref s <= next_ref s'
  /\ (shouldConvert s = false ->
      forall l, l < next_ref s -> o_ob (obj_of l s') = o_ob (obj_of l s)).

(** ** Dependencies of a read *)

(** The Dep of the Observer of an element of an array, if it has one. *)
Definition element_dep (e : value) (s : World) : option nat :=
  match e with
  | VRef l => (fun ob => ob_dep (observer_of ob s)) <$> o_ob (obj_of l s)
  | _ => None
  end.

(** What the conversion of an object leaves alone in the rest of the
    engine: the configuration, the watchers and the subscribers of the
    Deps that exist. *)
Definition engine_kept (s s' : World) : Prop :=
  config s' = config s /\ watchers s' = watchers s
  /\ dep_uid s <= dep_uid s'
  /\ forall d, d < dep_uid s -> subs_of d s' = subs_of d s.

(** ** The reads of an evaluation *)

(** The Deps that a read of the reactive property of the cell [c] registers
    while a watcher records, in the order of the [depend] calls of
    [reactiveGetter]: the Dep of the property, the Dep of the Observer of
    its value, and, when the value is an array, the Deps of the Observers
    of its elements. *)
Definition cell_deps (c : nat) (s : World) : list nat :=
  let cl := cell_of c s in
  [c_dep cl]
  ++ match c_childOb cl with
     | Some ob => [ob_dep (observer_of ob s)]
     | None => []
     end
  ++ match c_val cl with
     | VRef l =>
         if bool_decide (o_class (obj_of l s) = CArray)
         then omap (fun e => element_dep e s) (o_elems (obj_of l s))
         else []
     | _ => []
     end.

(** What [obj[key]] registers and is worth while a watcher records, when
    the property is missing, a data property, an accessor without a getter,
    or a reactive property made from a data property.  A getter written by
    the user is not a plain read. *)
Definition prop_reads (s : World) (o : nat) (key : string)
  : option (list nat * value) :=
  match lookup_prop key (o_props (obj_of o s)) with
  | None => Some ([], VUndef)
  | Some (DataProp v _) => Some ([], v)
  | Some (AccessorProp None _ _) => Some ([], VUndef)
  | Some (AccessorProp (Some (GReactive c)) _ _) =>
      match c_getter (cell_of c s) with
      | None => Some (cell_deps c s, c_val (cell_of c s))
      | Some _ => None
      end
  | Some (AccessorProp (Some (GUser _)) _ _) => None
  end.

(** User code that only reads: the Deps its reads register, in order, and
    the value it returns ([inl]) or throws ([inr]).  Code that assigns,
    calls an array method or tears a watcher down is not of this kind. *)
Fixpoint script_reads (s : World) (sc : script)
  : option (list nat * (value + value)) :=
  match sc with
  | Ret v => Some ([], inl v)
  | Throw e => Some ([], inr e)
  | GetProp o key k =>
      match prop_reads s o key with
      | Some (ds, v) =>
          match script_reads s (k v) with
          | Some (ds', r) => Some (ds ++ ds', r)
          | None => None
          end
      | None => None
      end
  | SetProp _ _ _ _ | CallMethod _ _ _ _ | Teardown _ _ => None
  end.

(** A hook of [get] that only reads and returns. *)
Definition hook_reads (s : World) (h : option (value -> script)) (v : value)
  : option (list nat * value) :=
  match h with
  | None => Some ([], v)
  | Some f =>
      match script_reads s (f v) with
      | Some (ds, inl v') => Some (ds, v')
      | _ => None
      end
  end.

(** The evaluation of a watcher whose getter and hooks only read: the Deps
    read and the value [get] returns.  A getter that throws is worth
    [undefined]. *)
Definition eval_reads (s : World) (x : Watcher) : option (list nat * value) :=
  match script_reads s (w_getter x) with
  | Some (ds0, r) =>
      let v0 := match r with inl v => v | inr _ => VUndef end in
      match hook_reads s (w_preProcess x) v0 with
      | Some (ds1, v1) =>
          match hook_reads s (w_filters x) v1 with
          | Some (ds2, v2) =>
              match hook_reads s (w_postProcess x) v2 with
              | Some (ds3, v3) => Some (ds0 ++ ds1 ++ ds2 ++ ds3, v3)
              | None => None
              end
          | None => None
          end
      | None => None
      end
  | None => None
  end.

(** From [s] to [s'] the watcher [w], which records, has registered the
    Deps of [ds] and nothing else has happened to the reactive state. *)
Definition reads_done (w : nat) (ds : list nat) (s s' : World) : Prop :=
  target s' = Some w
  /\ collecting w s'
  /\ cells s' = cells s /\ heap s' = heap s /\ observers s' = observers s
  /\ w_deps (watcher_of w s') = w_deps (watcher_of w s)
  /\ forall d, d ∈ w_newDeps (watcher_of w s')
               <-> d ∈ ds \/ d ∈ w_newDeps (watcher_of w s).

(** The code has returned ([inl]) or thrown ([inr]) in the world [s']. *)
Definition outcome_is (r : value + value) (s' : World) (x : Res value) : Prop :=
  match r with
  | inl v => x = Ok v s'
  | inr e => x = Thrown e s'
  end.

(** * A small application *)

Module Example.

Definition F : nat := 6.
Definition user : script -> M value := interp js_native F.
Definition ignore : value -> value -> script := fun _ _ => Ret VUndef.

(** The array [items] and the object [state]. *)
Definition items : nat := 0.
Definition state : nat := 1.

(** [var items = [], state = {a: a0, items: items}; observe(state)], then a
    watcher of [state.a] through [getter] and a watcher of [state.items]
    with the callback [cb]. *)
Definition setup (a0 : value) (getter : script)
    (cb : value -> value -> script) : M unit :=
  alloc (array_object []);;;
  alloc (plain_object [("a", a0); ("items", VRef items)]);;;
  observe user F F (VRef state) None;;;
  modify (upd_vms (fun m => <[0 := mkVM [] false false]> m));;;
  Watcher_new user F 0 getter ignore no_options;;;
  Watcher_new user F 0 (GetProp state "items" Ret) cb no_options;;;
  ret tt.

Definition after {A} (m : M A) (s : World) : World :=
  match m s with
  | Ok _ s' => s'
  | _ => s
  end.

Definition build (cfg : Config) (a0 : value) (getter : script)
    (cb : value -> value -> script) : World :=
  after (setup a0 getter cb) (empty_world cfg).

Definition read_a : script := GetProp state "a" Ret.

Definition world : World :=
  Eval vm_compute in build production (VNum 1) read_a ignore.


(** A getter that throws once [state.a] is no longer [1]. *)
Definition fragile : script :=
  GetProp state "a"
    (fun v => if strict_eq v (VNum 1) then Ret v else Throw (VStr "stale")).

(** [state.a = 2] with the fragile watcher, before the flush. *)
Definition stale : World :=
  Eval vm_compute in
    after (js_set user F state "a" (VNum 2))
      (build production (VNum 1) fragile ignore).

(** The world in which the fragile getter throws during the run. *)
Definition failed : World :=
  Eval vm_compute in
  match user fragile
          (upd_log (fun _ => [])
             (upd_target (fun _ => Some 1)
                (upd_log (fun l => l ++ [EvRun 1]) stale))) with
  | Thrown _ s => s
  | _ => stale
  end.

(** The fragile watcher with a filter that turns every value into the same
    text: [state.a = 2] before the flush, the world in which the getter
    throws during the run, and the world in which the filter returns. *)
Definition labelled : WatcherOptions :=
  mkOptions false false false false None (Some (fun _ => Ret (VStr "n/a"))) None.
Definition stale_filtered : World :=
  Eval vm_compute in
    after (js_set user F state "a" (VNum 2))
      (after (alloc (array_object []);;;
              alloc (plain_object [("a", VNum 1); ("items", VRef items)]);;;
              observe user F F (VRef state) None;;;
              modify (upd_vms (fun m => <[0 := mkVM [] false false]> m));;;
              Watcher_new user F 0 fragile ignore labelled;;;
              ret tt)
         (empty_world production)).
Definition failed_filtered : World :=
  Eval vm_compute in
  match user fragile
          (upd_log (fun _ => [])
             (upd_target (fun _ => Some 1)
                (upd_log (fun l => l ++ [EvRun 1]) stale_filtered))) with
  | Thrown _ s => s
  | _ => stale_filtered
  end.
Definition filtered : World :=
  Eval vm_compute in
    after (apply_hooks user
             (watcher_of 1 (upd_log (fun l => l ++ [EvRun 1]) stale_filtered)) VUndef)
      (eval_caught_state 1 (upd_log (fun l => l ++ [EvRun 1]) stale_filtered)
         failed_filtered).

(** [state.a = NaN] from the start. *)
Definition world_nan : World :=
  Eval vm_compute in build production VNaN read_a ignore.

(** [Object.preventExtensions(state)] after [state] has been observed. *)
Definition preventExtensions (l : nat) : World -> World :=
  upd_obj l (fun o =>
    mkObj (o_class o) false (o_isVue o) (o_ob o) (o_augmented o) (o_props o)
      (o_elems o)).
Definition sealed : World := Eval vm_compute in preventExtensions state world.

(** A watcher of [state.items] whose callback reverses the array, after
    [items.reverse()] has queued it; in the bundle and in a development
    build. *)
Definition reverse_items : value -> value -> script :=
  fun _ _ => CallMethod items Mreverse [] (fun _ => Ret VUndef).
Definition development : Config := mkConfig true 100 true.
Definition spin_production : World :=
  Eval vm_compute in
    after (call_method user js_native F items Mreverse [])
      (build production (VNum 1) read_a reverse_items).
Definition spin_development : World :=
  Eval vm_compute in
    after (call_method user js_native F items Mreverse [])
      (build development (VNum 1) read_a reverse_items).

(** A watcher of [state.items] whose callback assigns to [state.a], after
    [state.a = 2] and [items.push(7)] have queued the watcher of [state.a]
    and then this one. *)
Definition bump_a : value -> value -> script :=
  fun _ _ => SetProp state "a" (VNum 3) (Ret VUndef).
Definition requeued : World :=
  Eval vm_compute in
    after (call_method user js_native F items Mpush [VNum 7])
      (after (js_set user F state "a" (VNum 2))
         (build production (VNum 1) read_a bump_a)).

(** All of a world but the batcher and the log. *)
Definition frame (s : World) :=
  (deps s, dep_uid s, target s, watchers s, watcher_uid s, vms s, heap s,
   observers s, cells s, next_ref s, shouldConvert s, seenObjects s, config s).

(** The worlds the flush of [s0] goes through between two runs: after
    the first run the watcher is no longer marked as queued. *)
Definition steady (s0 s : World) : Prop :=
  (frame s = frame s0 \/ frame s = frame (upd_watcher 2 (set_w_queued false) s0))
  /\ delete 2 (has s) = ∅ /\ waiting s = true.

(** Two synchronous watchers of [state.a]; the callback of the first tears
    the second down.  [state.a] has been given the value [2] and its Dep
    has not been notified yet. *)
Definition sync_options : WatcherOptions :=
  mkOptions false true false false None None None.
Definition setup_sync : M unit :=
  alloc (array_object []);;;
  alloc (plain_object [("a", VNum 1); ("items", VRef items)]);;;
  observe user F F (VRef state) None;;;
  modify (upd_vms (fun m => <[0 := mkVM [] false false]> m));;;
  Watcher_new user F 0 read_a (fun _ _ => Teardown 2 (Ret VUndef)) sync_options;;;
  Watcher_new user F 0 read_a ignore sync_options;;;
  modify (upd_cell 3 (set_c_val (VNum 2))).
Definition torn : World :=
  Eval vm_compute in after setup_sync (empty_world production).
Definition torn_notified : World :=
  Eval vm_compute in after (Dep_notify user F 1) torn.

(** A watcher of [state.items] whose getter tears the watcher down once it
    has read the property, and the world it is made in: [state] is
    observed and has one watcher, of [state.a]. *)
Definition one_shot : script :=
  GetProp state "items" (fun v => Teardown 2 (Ret v)).
Definition lone : World :=
  Eval vm_compute in
    after (alloc (array_object []);;;
           alloc (plain_object [("a", VNum 1); ("items", VRef items)]);;;
           observe user F F (VRef state) None;;;
           modify (upd_vms (fun m => <[0 := mkVM [] false false]> m));;;
           Watcher_new user F 0 read_a ignore no_options;;;
           ret tt)
      (empty_world production).
Definition self_torn : World :=
  Eval vm_compute in after (Watcher_new user F 0 one_shot ignore no_options) lone.

(** [var list = [1, 2]], not observed yet. *)
Definition fresh : World :=
  Eval vm_compute in
    after (alloc (array_object [VNum 1; VNum 2])) (empty_world production).

End Example.

(** * More examples: caches *)

Definition cache_after (o : CacheOutcome) : Cache :=
  match o with CReturn _ c => c | CThrow _ c => c end.

(** [var c = new Cache(2); c.put('a', 1); c.put('b', 2)] *)
Definition cache_ab : Cache :=
  Eval vm_compute in
    cache_after (Cache_put "b" (VNum 2)
      (cache_after (Cache_put "a" (VNum 1) (Cache_new 2)))).

(** [var c = new Cache(1); c.put('a', 1)] *)
Definition cache_one : Cache :=
  Eval vm_compute in cache_after (Cache_put "a" (VNum 1) (Cache_new 1)).

(** [var c = new Cache(0); c.put('a', 1); c.put('b', 2)] *)
Definition cache_unbounded : Cache :=
  Eval vm_compute in
    cache_after (Cache_put "b" (VNum 2)
      (cache_after (Cache_put "a" (VNum 1) (Cache_new 0)))).

(** * More examples: an observed list *)

(** [var list = [1, NaN, 1], holder = {list: list}; observe(holder)], then
    a watcher of [holder.list]. *)
Definition list_ref : nat := 0.
Definition holder : nat := 1.
Definition setup_list : M unit :=
  alloc (array_object [VNum 1; VNaN; VNum 1]);;;
  alloc (plain_object [("list", VRef list_ref)]);;;
  observe Example.user Example.F Example.F (VRef holder) None;;;
  modify (upd_vms (fun m => <[0 := mkVM [] false false]> m));;;
  Watcher_new Example.user Example.F 0 (GetProp holder "list" Ret)
Example.ignore no_options;;;
  ret tt.
Definition listed : World :=
  Eval vm_compute in Example.after setup_list (empty_world production).

(** * More examples: a computed property *)

(** The application of the first example with a lazy watcher of
    [state.a], as [makeComputedGetter] creates one, and a watcher of
    [state.items]. *)
Definition lazy_options : WatcherOptions :=
  mkOptions true false false false None None None.
Definition setup_computed : M unit :=
  alloc (array_object []);;;
  alloc (plain_object [("a", VNum 1); ("items", VRef Example.items)]);;;
  observe Example.user Example.F Example.F (VRef Example.state) None;;;
  modify (upd_vms (fun m => <[0 := mkVM [] false false]> m));;;
  Watcher_new Example.user Example.F 0 Example.read_a Example.ignore lazy_options;;;
  Watcher_new Example.user Example.F 0 (GetProp Example.state "items" Ret)
Example.ignore no_options;;;
  ret tt.

(** The computed property has not been read yet. *)
Definition computed_dirty : World :=
  Eval vm_compute in Example.after setup_computed (empty_world production).

(** The watcher of [state.items] starts an evaluation. *)
Definition computed_dirty_recording : World :=
  Eval vm_compute in upd_target (fun _ => Some 2) computed_dirty.

(** The computed watcher has been evaluated meanwhile. *)
Definition computed_evaluated : World :=
  Eval vm_compute in
Example.after (Watcher_get Example.user Example.F 1) computed_dirty_recording.

(** The computed property has been read once, outside of any watcher. *)
Definition computed_clean : World :=
  Eval vm_compute in
Example.after (computedGetter Example.user Example.F 1) computed_dirty.

(** The watcher of [state.items] starts an evaluation. *)
Definition computed_clean_recording : World :=
  Eval vm_compute in upd_target (fun _ => Some 2) computed_clean.

(** * More examples: an object that is not observed yet *)

(** [var point = {x: 1, label: 'p'}] *)
Definition point : nat := 0.
Definition unobserved : World :=
  Eval vm_compute in
Example.after (alloc (plain_object [("x", VNum 1); ("label", VStr "p")]))
      (empty_world production).

(** * More examples: a watcher of an object *)

(** [observe(point)] and a watcher whose getter returns [point] without
    reading a property of it; the watcher starts an evaluation. *)
Definition setup_point : M unit :=
  alloc (plain_object [("x", VNum 1); ("label", VStr "p")]);;;
  observe Example.user Example.F Example.F (VRef point) None;;;
  modify (upd_vms (fun m => <[0 := mkVM [] false false]> m));;;
  Watcher_new Example.user Example.F 0 (Ret (VRef point)) Example.ignore no_options;;;
  Watcher_beforeGet 1.
Definition point_recording : World :=
  Eval vm_compute in Example.after setup_point (empty_world production).

(** * More examples: an object to assign *)

(** The application of the first example and [var fresh = {x: 1}]. *)
Definition fresh_object : nat := 6.
Definition assignable : World :=
  Eval vm_compute in
Example.after (alloc (plain_object [("x", VNum 1)])) Example.world.

(** * More examples: evaluations *)

(** A getter that reads [state.items] only while [state.a] is [1]; its
    watcher after [state.a = 2], before the flush. *)
Definition branching_getter : script :=
  GetProp Example.state "a"
    (fun v => if strict_eq v (VNum 1) then GetProp Example.state "items" Ret
              else Ret v).
Definition branching : World :=
  Eval vm_compute in
Example.after (js_set Example.user Example.F Example.state "a" (VNum 2))
      (Example.after
         (alloc (array_object []);;;
          alloc (plain_object [("a", VNum 1); ("items", VRef Example.items)]);;;
          observe Example.user Example.F Example.F (VRef Example.state) None;;;
          modify (upd_vms (fun m => <[0 := mkVM [] false false]> m));;;
          Watcher_new Example.user Example.F 0 branching_getter Example.ignore
            no_options;;;
          ret tt)
         (empty_world production)).

(** A getter that assigns to [state.a] and then reads [state.items], next
    to a synchronous watcher of [state.a].  The watcher is made while
    [state.a] is [2] already; then [state.a = 1]. *)
Definition assign_then_read : script :=
  SetProp Example.state "a" (VNum 2) (GetProp Example.state "items" Ret).
Definition nested : World :=
  Eval vm_compute in
Example.after
      (alloc (array_object []);;;
       alloc (plain_object [("a", VNum 2); ("items", VRef Example.items)]);;;
       observe Example.user Example.F Example.F (VRef Example.state) None;;;
       modify (upd_vms (fun m => <[0 := mkVM [] false false]> m));;;
       Watcher_new Example.user Example.F 0 Example.read_a Example.ignore
Example.sync_options;;;
       Watcher_new Example.user Example.F 0 assign_then_read Example.ignore
         no_options;;;
       js_set Example.user Example.F Example.state "a" (VNum 1))
      (empty_world production).
Definition nested_evaluated : World :=
  Eval vm_compute in
Example.after (Watcher_get Example.user Example.F 2) nested.

(** * Proofs *)

(** ** Stepping through monadic code *)

Ltac munfold :=
  unfold bind, gets, modify, ret, throw, when, emit, out_of_fuel, try_catch in *.

Lemma bind_ok {A B} (m : M A) (f : A -> M B) s a s' :
  m s = Ok a s' -> bind m f s = f a s'.
Proof. unfold bind. by intros ->. Qed.

Lemma bind_thrown {A B} (m : M A) (f : A -> M B) s e s' :
  m s = Thrown e s' -> bind m f s = Thrown e s'.
Proof. unfold bind. by intros ->. Qed.

Lemma bind_inv_ok {A B} (m : M A) (f : A -> M B) s b s' :
  bind m f s = Ok b s' -> exists a s1, m s = Ok a s1 /\ f a s1 = Ok b s'.
Proof. unfold bind. destruct (m s); [eauto | done | done]. Qed.

(** ** Kinds of events *)

Lemma extends_refl K s : extends_with K s s.
Proof. exists []. by rewrite app_nil_r. Qed.

Lemma extends_trans K s1 s2 s3 :
  extends_with K s1 s2 -> extends_with K s2 s3 -> extends_with K s1 s3.
Proof.
  intros (l1 & E1 & F1) (l2 & E2 & F2). exists (l1 ++ l2).
  split; [by rewrite E2, E1, app_assoc | by apply Forall_app].
Qed.

Lemma extends_mono (K K' : Event -> bool) s s' :
  (forall e, K e = true -> K' e = true) ->
  extends_with K s s' -> extends_with K' s s'.
Proof.
  intros HK (l & E & F). exists l. split; [done|].
  eapply Forall_impl; [exact F | auto].
Qed.

Lemma extends_same_log K s s' : log s' = log s -> extends_with K s s'.
Proof. intros E. exists []. by rewrite E, app_nil_r. Qed.

(** ** Relations that every step of a computation keeps *)

Section Respects.
Context (R : World -> World -> Prop) `{!PreOrder R}.
Context {A B : Type}.

Lemma respects_ret (a : A) : respects R (ret a).
Proof. intros s. unfold ret. reflexivity. Qed.

Lemma respects_throw e : respects R (@throw A e).
Proof. intros s. unfold throw. reflexivity. Qed.

Lemma respects_out_of_fuel : respects R (@out_of_fuel A).
Proof. by intros s. Qed.

Lemma respects_gets (f : World -> A) : respects R (gets f).
Proof. intros s. unfold gets. reflexivity. Qed.

Lemma respects_modify (f : World -> World) :
  (forall s, R s (f s)) -> respects R (modify f).
Proof. intros H s. apply H. Qed.

Lemma respects_bind (m : M A) (f : A -> M B) :
  respects R m -> (forall a, respects R (f a)) -> respects R (bind m f).
Proof.
  intros Hm Hf s. unfold bind. specialize (Hm s).
  destruct (m s) as [a s1|e s1|]; [|done|done].
  specialize (Hf a s1). destruct (f a s1); [| |done]; by etrans.
Qed.

Lemma respects_try_catch (m : M A) (h : value -> M A) :
  respects R m -> (forall e, respects R (h e)) -> respects R (try_catch m h).
Proof.
  intros Hm Hh s. unfold try_catch. specialize (Hm s).
  destruct (m s) as [a s1|e s1|]; [done| |done].
  specialize (Hh e s1). destruct (h e s1); [| |done]; by etrans.
Qed.

End Respects.

Lemma respects_for_each {A} R `{!PreOrder R} (body : A -> M unit) (l : list A) :
  (forall x, x ∈ l -> respects R (body x)) -> respects R (for_each body l).
Proof.
  induction l as [|x l IH]; intros Hb; simpl.
  - apply respects_ret; done.
  - apply respects_bind; [done | apply Hb; by left | intros _; apply IH].
    intros y Hy. apply Hb. by right.
Qed.

(** Walks through a function body; [solve_mod] closes the side condition
    of a state change and [known] the calls proved before. *)
Ltac respects_with solve_mod known :=
  repeat first
    [ solve [known]
    | lazymatch goal with
      | |- respects _ (ret _) => refine (respects_ret _ _)
      | |- respects _ (throw _) => refine (respects_throw _ _)
      | |- respects _ (gets _) => refine (respects_gets _ _)
      | |- respects _ out_of_fuel => refine (respects_out_of_fuel _)
      | |- respects _ (bind _ _) => refine (respects_bind _ _ _ _ _); [|intros]
      | |- respects _ (try_catch _ _) =>
          refine (respects_try_catch _ _ _ _ _); [|intros]
      | |- respects _ (for_each _ _) => refine (respects_for_each _ _ _ _); intros
      | |- respects _ (modify _) => refine (respects_modify _ _ _); solve [solve_mod]
      | |- respects _ (match ?x with _ => _ end) => destruct x
      end
    | progress (unfold when, for_each_rev, emit) ].

(** ** What a function writes to the call log *)

Global Instance extends_with_preorder K : PreOrder (extends_with K).
Proof. split; [intros s; apply extends_refl | intros s1 s2 s3; apply extends_trans]. Qed.

Section Emits.
Context {A B : Type} (K : Event -> bool).

Lemma emits_ret (a : A) : emits K (ret a).
Proof. apply (respects_ret (extends_with K)). Qed.

Lemma emits_throw e : emits K (@throw A e).
Proof. apply (respects_throw (extends_with K)). Qed.

Lemma emits_out_of_fuel : emits K (@out_of_fuel A).
Proof. apply respects_out_of_fuel. Qed.

Lemma emits_gets (f : World -> A) : emits K (gets f).
Proof. apply (respects_gets (extends_with K)). Qed.

Lemma emits_bind (m : M A) (f : A -> M B) :
  emits K m -> (forall a, emits K (f a)) -> emits K (bind m f).
Proof. apply (respects_bind (extends_with K)). Qed.

Lemma emits_try_catch (m : M A) (h : value -> M A) :
  emits K m -> (forall e, emits K (h e)) -> emits K (try_catch m h).
Proof. apply (respects_try_catch (extends_with K)). Qed.
End Emits.

Lemma emits_modify K (f : World -> World) :
  (forall s, log (f s) = log s) -> emits K (modify f).
Proof. intros H s. by apply extends_same_log. Qed.

Lemma emits_emit (K : Event -> bool) e : K e = true -> emits K (emit e).
Proof.
  intros H s. exists [e]. split; [done | by constructor].
Qed.

Lemma emits_mono {A} (K K' : Event -> bool) (m : M A) :
  (forall e, K e = true -> K' e = true) -> emits K m -> emits K' m.
Proof.
  intros HK Hm s. specialize (Hm s).
  destruct (m s); [| |done]; by eapply extends_mono.
Qed.

Lemma emits_for_each_in {A} K (body : A -> M unit) (l : list A) :
  (forall x, x ∈ l -> emits K (body x)) -> emits K (for_each body l).
Proof. apply (respects_for_each (extends_with K)). Qed.

Lemma emits_for_each {A} K (body : A -> M unit) (l : list A) :
  (forall x, emits K (body x)) -> emits K (for_each body l).
Proof. intros H. apply emits_for_each_in. auto. Qed.

Lemma emits_call_user K exec sc :
  (forall l, K (EvUser l) = true) -> emits K (call_user exec sc).
Proof.
  intros HK s. unfold call_user.
  destruct (exec sc _) as [v s1|e s1|]; [| |done];
    (exists [EvUser (log s1)]; split; [done | by constructor]).
Qed.

Lemma allowed_user upd run cb ntf obs ntv l :
  allowed upd run cb ntf obs ntv (EvUser l) = true.
Proof. done. Qed.

Lemma only_refl w : only w w = true.
Proof. unfold only. by rewrite bool_decide_eq_true. Qed.

Lemma among_elem w l : w ∈ l -> among l w = true.
Proof. unfold among. by rewrite bool_decide_eq_true. Qed.

Create HintDb emits discriminated.
#[global] Hint Resolve emits_ret emits_throw emits_gets emits_out_of_fuel
  emits_call_user allowed_user only_refl among_elem : emits.

(** Walks through a function body, leaving the calls it does not know. *)
Ltac emits_step :=
  first
    [ solve [eauto 3 with emits]
    | lazymatch goal with
      | |- emits _ (ret _) => apply emits_ret
      | |- emits _ (throw _) => apply emits_throw
      | |- emits _ (gets _) => apply emits_gets
      | |- emits _ out_of_fuel => apply emits_out_of_fuel
      | |- emits _ (bind _ _) => apply emits_bind; [|intros]
      | |- emits _ (try_catch _ _) => apply emits_try_catch; [|intros]
      | |- emits _ (for_each _ _) => apply emits_for_each; intros
      | |- emits _ (call_user _ _) => apply emits_call_user; done
      | |- emits _ (emit _) =>
          apply emits_emit; first [done | solve [simpl; eauto with emits]]
      | |- emits _ (modify _) => apply emits_modify; intros; reflexivity
      | |- emits _ (match ?x with _ => _ end) => destruct x
      end
    | progress (unfold when, for_each_rev) ].
Ltac emits_auto := repeat emits_step; eauto with emits.

Section EngineEmits.
Variable exec : script -> M value.
Variable original : NativeOp.
Variable fuel : nat.
Variables (upd run cb ntf : nat -> bool) (obs ntv : bool).
Local Abbreviation K := (allowed upd run cb ntf obs ntv).

Lemma Dep_addSub_emits d w : emits K (Dep_addSub d w).
Proof. unfold Dep_addSub. emits_auto. Qed.

Lemma Dep_removeSub_emits d w : emits K (Dep_removeSub d w).
Proof. unfold Dep_removeSub. emits_auto. Qed.
#[local] Hint Resolve Dep_addSub_emits Dep_removeSub_emits : emits.

Lemma Watcher_addDep_emits w d : emits K (Watcher_addDep w d).
Proof. unfold Watcher_addDep. emits_auto. Qed.
#[local] Hint Resolve Watcher_addDep_emits : emits.

Lemma Dep_depend_emits d : emits K (Dep_depend d).
Proof. unfold Dep_depend. emits_auto. Qed.
#[local] Hint Resolve Dep_depend_emits : emits.

Lemma Watcher_afterGet_emits w : emits K (Watcher_afterGet w).
Proof. unfold Watcher_afterGet. emits_auto. Qed.

Lemma Watcher_beforeGet_emits w : emits K (Watcher_beforeGet w).
Proof. unfold Watcher_beforeGet. emits_auto. Qed.
#[local] Hint Resolve Watcher_afterGet_emits Watcher_beforeGet_emits : emits.

Lemma depend_on_element_emits e : emits K (depend_on_element e).
Proof. unfold depend_on_element. emits_auto. Qed.
#[local] Hint Resolve depend_on_element_emits : emits.

Lemma is_class_emits c v : emits K (is_class c v).
Proof. unfold is_class. emits_auto. Qed.
#[local] Hint Resolve is_class_emits : emits.

Lemma current_value_emits rec cl :
  (forall c, emits K (rec c)) -> emits K (current_value exec rec cl).
Proof. intros H. unfold current_value. emits_auto. Qed.
#[local] Hint Resolve current_value_emits : emits.

Lemma reactiveGetter_emits n c : emits K (reactiveGetter exec n c).
Proof.
  revert c. induction n as [|n IH]; intros c; simpl; emits_auto.
Qed.
#[local] Hint Resolve reactiveGetter_emits : emits.

Lemma js_get_emits o key : emits K (js_get exec fuel o key).
Proof. unfold js_get. emits_auto. Qed.
#[local] Hint Resolve js_get_emits : emits.

Lemma traverse_emits n top v : emits K (traverse exec fuel n top v).
Proof.
  revert top v. induction n as [|n IH]; intros top v; simpl; emits_auto.
Qed.
#[local] Hint Resolve traverse_emits : emits.

Lemma apply_hook_emits h v : emits K (apply_hook exec h v).
Proof. unfold apply_hook. emits_auto. Qed.
#[local] Hint Resolve apply_hook_emits : emits.

Lemma pushWatcher_emits w : emits K (pushWatcher w).
Proof. unfold pushWatcher, nextTick_flush. emits_auto. Qed.
#[local] Hint Resolve pushWatcher_emits : emits.

Lemma Watcher_teardown_emits w : emits K (Watcher_teardown w).
Proof. unfold Watcher_teardown. emits_auto. Qed.
#[local] Hint Resolve Watcher_teardown_emits : emits.

Lemma Watcher_get_emits w : emits K (Watcher_get exec fuel w).
Proof. unfold Watcher_get. emits_auto. Qed.

Lemma call_cb_emits w a b : cb w = true -> emits K (call_cb exec w a b).
Proof. intros Hw. unfold call_cb. emits_auto. Qed.
#[local] Hint Resolve Watcher_get_emits call_cb_emits : emits.

Lemma Watcher_run_emits w :
  run w = true -> cb w = true -> emits K (Watcher_run exec fuel w).
Proof. intros Hw Hc. unfold Watcher_run. emits_auto. Qed.
#[local] Hint Resolve Watcher_run_emits : emits.

Lemma Watcher_update_emits w sh :
  upd w = true -> run w = true -> cb w = true ->
  emits K (Watcher_update exec fuel w sh).
Proof. intros Hu Hw Hc. unfold Watcher_update. emits_auto. Qed.
#[local] Hint Resolve Watcher_update_emits : emits.

Lemma Dep_notify_emits d :
  (forall w, upd w = true) -> (forall w, run w = true) ->
  (forall w, cb w = true) -> ntf d = true ->
  emits K (Dep_notify exec fuel d).
Proof. intros Hu Hr Hc Hn. unfold Dep_notify. emits_auto. Qed.

Lemma Dep_new_emits : emits K Dep_new.
Proof. intros s. by apply extends_same_log. Qed.

Lemma fresh_ref_emits : emits K fresh_ref.
Proof. intros s. by apply extends_same_log. Qed.

Lemma alloc_emits o : emits K (alloc o).
Proof. intros s. by apply extends_same_log. Qed.

Lemma Observer_init_emits l : emits K (Observer_init l).
Proof. intros s. by apply extends_same_log. Qed.
#[local] Hint Resolve Dep_new_emits fresh_ref_emits alloc_emits
  Observer_init_emits : emits.

Lemma defineProperty_emits l key d : emits K (defineProperty l key d).
Proof. unfold defineProperty. emits_auto. Qed.
#[local] Hint Resolve defineProperty_emits : emits.

Section ObserveEmits.
Variable observe_rec : value -> M (option nat).
Hypothesis Hrec : forall v, emits K (observe_rec v).
Hypothesis Hobs : obs = true.

Lemma defineReactive_emits o key v :
  emits K (defineReactive observe_rec o key v).
Proof using Hrec. unfold defineReactive. emits_auto. Qed.
#[local] Hint Resolve defineReactive_emits : emits.

Lemma Observer_observeArray_emits items :
  emits K (Observer_observeArray observe_rec items).
Proof using Hrec. unfold Observer_observeArray. emits_auto. Qed.

Lemma Observer_walk_emits ob l :
  emits K (Observer_walk exec fuel observe_rec ob l).
Proof using Hrec. unfold Observer_walk. emits_auto. Qed.
#[local] Hint Resolve Observer_observeArray_emits Observer_walk_emits : emits.

Lemma Observer_new_emits l :
  emits K (Observer_new exec fuel observe_rec l).
Proof using Hrec. unfold Observer_new. emits_auto. Qed.

Lemma Observer_addVm_emits ob vm : emits K (Observer_addVm ob vm).
Proof. unfold Observer_addVm. emits_auto. Qed.
#[local] Hint Resolve Observer_new_emits Observer_addVm_emits : emits.

Lemma observe_body_emits v vm :
  emits K (observe_body exec fuel observe_rec v vm).
Proof using Hrec Hobs.
  unfold observe_body.
  apply emits_bind; [apply emits_emit; simpl; exact Hobs|]. intros _.
  emits_auto.
Qed.

(** [observe] logs its argument before anything else. *)
Lemma observe_body_first v vm s :
  match observe_body exec fuel observe_rec v vm s with
  | Ok _ s' | Thrown _ s' =>
      extends_with K (upd_log (fun l => l ++ [EvObserve v]) s) s'
  | OutOfFuel => True
  end.
Proof using Hrec Hobs.
  unfold observe_body. unfold bind at 1, emit at 1, modify at 1.
  match goal with |- match ?m ?s0 with _ => _ end =>
    assert (emits K m) as Hm by emits_auto; exact (Hm s0) end.
Qed.
End ObserveEmits.

Lemma observe_emits n v vm :
  obs = true -> emits K (observe exec fuel n v vm).
Proof.
  intros Hobs. revert v vm. induction n as [|n IH]; intros v vm; simpl.
  - apply emits_out_of_fuel.
  - apply observe_body_emits; [|done]. intros v'. apply IH.
Qed.

Lemma observe_first n v vm s :
  obs = true ->
  match observe exec fuel n v vm s with
  | Ok _ s' | Thrown _ s' =>
      exists l, log s' = log s ++ EvObserve v :: l /\ Forall (fun e => K e = true) l
  | OutOfFuel => True
  end.
Proof.
  intros Hobs. destruct n as [|n]; [done|]. simpl.
  pose proof (observe_body_first (fun v' => observe exec fuel n v' None)
                (fun v' => observe_emits n v' None Hobs) Hobs v vm s) as H.
  destruct (observe_body _ _ _ _ _ _) as [ob s'|e s'|]; [| |done];
    destruct H as (l & E & F); exists l; simpl in E;
    by rewrite E, <- app_assoc.
Qed.
End EngineEmits.

#[global] Hint Resolve Dep_addSub_emits Dep_removeSub_emits Watcher_addDep_emits
  Dep_depend_emits Watcher_afterGet_emits Watcher_beforeGet_emits
  depend_on_element_emits is_class_emits reactiveGetter_emits js_get_emits
  traverse_emits apply_hook_emits pushWatcher_emits current_value_emits
  Dep_notify_emits observe_emits Observer_observeArray_emits Watcher_teardown_emits
  Watcher_get_emits call_cb_emits Watcher_run_emits Watcher_update_emits : emits.

(** ** Snapshots *)

Lemma toArray_loop_spec (l : list nat) i ret :
  i <= length l -> length ret = length l ->
  toArray_loop i l ret = take i l ++ drop i ret.
Proof.
  revert ret. induction i as [|i IH]; intros ret Hi Hlen; simpl.
  - by rewrite drop_0.
  - rewrite IH by (rewrite ?length_insert; lia).
    destruct (lookup_lt_is_Some_2 l i) as [x Hx]; [lia|].
    rewrite (list_lookup_total_correct _ _ _ Hx).
    rewrite (take_S_r _ _ _ Hx), <- app_assoc. f_equal.
    rewrite insert_take_drop by lia.
    rewrite drop_app_length'; [done|]. rewrite length_take. lia.
Qed.

Lemma toArray_id (l : list nat) : toArray l = l.
Proof.
  unfold toArray. rewrite toArray_loop_spec; rewrite ?length_replicate; try lia.
  rewrite firstn_all. rewrite drop_ge; rewrite ?length_replicate; try lia.
  by rewrite app_nil_r.
Qed.

Lemma new_events_app s s' l : log s' = log s ++ l -> new_events s s' = l.
Proof. unfold new_events. intros ->. by rewrite drop_app_length. Qed.

Lemma filter_none (P : Event -> bool) (K : Event -> bool) l :
  (forall e, K e = true -> P e = false) ->
  Forall (fun e => K e = true) l -> List.filter P l = [].
Proof.
  intros HK. induction 1 as [|e l He _ IH]; [done|].
  simpl. by rewrite (HK e He).
Qed.

Section Notify.
Variable exec : script -> M value.
Variable fuel : nat.

Lemma Watcher_update_log w sh s :
  match Watcher_update exec fuel w sh s with
  | Ok _ s' | Thrown _ s' =>
      exists l, log s' = log s ++ EvUpdate w :: l /\ List.filter is_update l = []
  | OutOfFuel => True
  end.
Proof.
  unfold Watcher_update. unfold bind at 1. unfold emit at 1, modify at 1.
  match goal with |- match ?m ?s0 with _ => _ end =>
    assert (Hm : emits (allowed none (only w) (only w) none false false) m) end.
  { emits_auto. }
  match goal with |- match ?m ?s0 with _ => _ end =>
    specialize (Hm s0); destruct (m s0) as [a s1|e s1|]; [| |done] end;
    destruct Hm as (l & E & F); exists l; simpl in E;
    (split; [by rewrite E, <- app_assoc
            | eapply filter_none; [|exact F]; by intros []]).
Qed.

Lemma for_each_update_log ws s :
  match for_each (fun w => Watcher_update exec fuel w false) ws s with
  | Ok _ s' =>
      exists l, log s' = log s ++ l /\ List.filter is_update l = map EvUpdate ws
  | Thrown _ s' =>
      exists l k, log s' = log s ++ l
                  /\ List.filter is_update l = map EvUpdate (take k ws)
  | OutOfFuel => True
  end.
Proof.
  revert s. induction ws as [|w ws IH]; intros s; simpl.
  - exists []. by rewrite app_nil_r.
  - unfold bind. pose proof (Watcher_update_log w false s) as Hw.
    destruct (Watcher_update exec fuel w false s) as [[] s1|e s1|]; [| |done].
    + destruct Hw as (l1 & E1 & F1). specialize (IH s1).
      destruct (for_each _ ws s1) as [[] s2|e s2|]; [| |done].
      * destruct IH as (l2 & E2 & F2). exists (EvUpdate w :: l1 ++ l2).
        split; [by rewrite E2, E1, <- app_assoc|].
        simpl. rewrite List.filter_app, F1, F2. done.
      * destruct IH as (l2 & k & E2 & F2). exists (EvUpdate w :: l1 ++ l2), (S k).
        split; [by rewrite E2, E1, <- app_assoc|].
        simpl. rewrite List.filter_app, F1, F2. done.
    + destruct Hw as (l1 & E1 & F1). exists (EvUpdate w :: l1), 1.
      split; [done|]. simpl. rewrite F1. by rewrite ?take_0.
Qed.
End Notify.

(** ** Reading the world after an update *)

Lemma watcher_of_upd_watcher w w' f s :
  watcher_of w' (upd_watcher w f s)
  = if decide (w' = w) then f (watcher_of w s) else watcher_of w' s.
Proof.
  unfold watcher_of, upd_watcher. simpl. destruct (decide (w' = w)) as [->|Hne].
  - by rewrite lookup_total_insert_eq.
  - by rewrite lookup_total_insert_ne.
Qed.

Lemma watcher_of_upd_watcher_eq w f s :
  watcher_of w (upd_watcher w f s) = f (watcher_of w s).
Proof. rewrite watcher_of_upd_watcher. by rewrite decide_True. Qed.

Lemma watcher_of_upd_watcher_ne w w' f s :
  w' <> w -> watcher_of w' (upd_watcher w f s) = watcher_of w' s.
Proof. intros. rewrite watcher_of_upd_watcher. by rewrite decide_False. Qed.

Lemma subs_of_set_subs d d' l s :
  subs_of d' (set_subs d l s) = if decide (d' = d) then l else subs_of d' s.
Proof.
  unfold subs_of, set_subs. simpl. destruct (decide (d' = d)) as [->|Hne].
  - by rewrite lookup_total_insert_eq.
  - by rewrite lookup_total_insert_ne.
Qed.

Lemma subs_of_set_subs_eq d l s : subs_of d (set_subs d l s) = l.
Proof. rewrite subs_of_set_subs. by rewrite decide_True. Qed.

Lemma subs_of_set_subs_ne d d' l s :
  d' <> d -> subs_of d' (set_subs d l s) = subs_of d' s.
Proof. intros. rewrite subs_of_set_subs. by rewrite decide_False. Qed.

(** ** Deferred watchers *)

Lemma scheduling_only_refl s : scheduling_only s s.
Proof. by repeat split. Qed.

Lemma scheduling_only_trans s1 s2 s3 :
  scheduling_only s1 s2 -> scheduling_only s2 s3 -> scheduling_only s1 s3.
Proof.
  intros (?&?&?&?&?&?&?&Hw1) (?&?&?&?&?&?&?&Hw2).
  repeat split; try congruence.
Qed.

Lemma scheduling_only_deferred s s' w :
  scheduling_only s s' -> deferred w s' = deferred w s.
Proof.
  intros (_&_&_&_&_&Hc&_&Hw). unfold deferred. rewrite Hc.
  pose proof (f_equal w_lazy (Hw w)) as H1.
  pose proof (f_equal w_sync (Hw w)) as H2.
  unfold unscheduled, set_w_dirty, set_w_queued, set_w_shallow in H1, H2.
  simpl in H1, H2. by rewrite H1, H2.
Qed.

Lemma scheduling_only_upd_watcher w f s :
  unscheduled (f (watcher_of w s)) = unscheduled (watcher_of w s) ->
  scheduling_only s (upd_watcher w f s).
Proof.
  intros H. repeat split; try done. intros w'. rewrite watcher_of_upd_watcher.
  destruct (decide (w' = w)) as [->|]; done.
Qed.

Section Deferred.
Variable exec : script -> M value.
Variable fuel : nat.

Lemma pushWatcher_ok w s :
  exists s', pushWatcher w s = Ok tt s' /\ scheduling_only s s'.
Proof.
  unfold pushWatcher, nextTick_flush. munfold.
  destruct (has s !! w); [eexists; split; [done|apply scheduling_only_refl]|].
  destruct (w_user (watcher_of w s)); simpl;
    destruct (waiting s); simpl; eexists; (split; [done|by repeat split]).
Qed.

Lemma Watcher_update_deferred w sh s :
  deferred w s = true ->
  exists s', Watcher_update exec fuel w sh s = Ok tt s' /\ scheduling_only s s'.
Proof.
  intros Hd. unfold Watcher_update. unfold deferred in Hd.
  unfold bind at 1. unfold emit at 1, modify at 1.
  unfold bind at 1, gets at 1. unfold bind at 1, gets at 1.
  change (watcher_of w (upd_log _ s)) with (watcher_of w s).
  change (config (upd_log _ s)) with (config s).
  destruct (w_lazy (watcher_of w s)) eqn:Hl.
  - unfold modify. eexists. split; [done|].
    eapply scheduling_only_trans; [|apply scheduling_only_upd_watcher; done].
    by repeat split.
  - simpl in Hd. apply andb_true_iff in Hd as [Hs Ha].
    apply negb_true_iff in Hs. rewrite Hs, Ha. simpl.
    unfold bind at 1, modify at 1.
    match goal with |- context [pushWatcher w ?s0] =>
      destruct (pushWatcher_ok w s0) as (s' & E & HS);
      set (s1 := s0) in * end.
    exists s'. split; [done|].
    eapply scheduling_only_trans; [|exact HS]. subst s1.
    eapply scheduling_only_trans; [|apply scheduling_only_upd_watcher; done].
    by repeat split.
Qed.

Lemma for_each_update_deferred ws s :
  (forall w, w ∈ ws -> deferred w s = true) ->
  exists s', for_each (fun w => Watcher_update exec fuel w false) ws s = Ok tt s'
             /\ scheduling_only s s'.
Proof.
  revert s. induction ws as [|w ws IH]; intros s Hws; simpl.
  - exists s. split; [done|apply scheduling_only_refl].
  - destruct (Watcher_update_deferred w false s) as (s1 & E1 & M1).
    { apply Hws. by left. }
    destruct (IH s1) as (s2 & E2 & M2).
    { intros w' Hw'. rewrite (scheduling_only_deferred _ _ _ M1). apply Hws. by right. }
    exists s2. split; [by rewrite (bind_ok _ _ _ _ _ E1)|].
    by eapply scheduling_only_trans.
Qed.

Lemma Dep_notify_deferred d s :
  (forall w, w ∈ subs_of d s -> deferred w s = true) ->
  exists s', Dep_notify exec fuel d s = Ok tt s' /\ scheduling_only s s'.
Proof.
  intros Hd. unfold Dep_notify. unfold bind at 1, emit at 1, modify at 1.
  unfold bind at 1, gets at 1. rewrite toArray_id.
  change (subs_of d (upd_log _ s)) with (subs_of d s).
  match goal with |- context [for_each _ _ ?s0] =>
    destruct (for_each_update_deferred (subs_of d s) s0) as (s' & E & HS) end.
  { intros w Hw. by apply Hd. }
  exists s'. split; [done|].
  eapply scheduling_only_trans; [|exact HS]. by repeat split.
Qed.

(** C7. [Dep.notify] calls [update] once on every element of the copy of
    [subs] taken when it starts, in order, whatever the updates do to the
    live list; an update that throws ends the loop, and with deferred
    subscribers [notify] returns. *)
Theorem C7_notify_iterates_snapshot d s :
  match Dep_notify exec fuel d s with
  | Ok _ s' =>
      List.filter is_update (new_events s s') = map EvUpdate (subs_of d s)
  | Thrown _ s' =>
      exists k, List.filter is_update (new_events s s')
                = map EvUpdate (take k (subs_of d s))
  | OutOfFuel => True
  end
  /\ ((forall w, w ∈ subs_of d s -> deferred w s = true) ->
      exists s', Dep_notify exec fuel d s = Ok tt s').
Proof.
  split.
  - unfold Dep_notify. unfold bind at 1, emit at 1, modify at 1.
    unfold bind at 1, gets at 1. rewrite toArray_id.
    change (subs_of d (upd_log _ s)) with (subs_of d s).
    match goal with |- context [for_each _ _ ?s0] =>
      pose proof (for_each_update_log exec fuel (subs_of d s) s0) as H;
      destruct (for_each _ _ s0) as [[] s'|e s'|]; [| |done] end.
    + destruct H as (l & E & F). simpl in E.
      rewrite (new_events_app s s' (EvNotify d :: l)) by (by rewrite E, <- app_assoc).
      simpl. exact F.
    + destruct H as (l & k & E & F). exists k. simpl in E.
      rewrite (new_events_app s s' (EvNotify d :: l)) by (by rewrite E, <- app_assoc).
      simpl. exact F.
  - intros Hd. destruct (Dep_notify_deferred d s Hd) as (s' & E & _). eauto.
Qed.
End Deferred.

(** ** Registering a dependency *)

Lemma Watcher_addDep_eq w d s : Watcher_addDep w d s = Ok tt (addDep_state w d s).
Proof.
  unfold Watcher_addDep, addDep_state, Dep_addSub. munfold.
  destruct (bool_decide (d ∈ w_newDepIds (watcher_of w s))); [done|].
  by destruct (bool_decide (d ∈ w_depIds (watcher_of w s))).
Qed.

Lemma collects_refl w s : collects w s s.
Proof. by repeat split. Qed.

Lemma collects_trans w s1 s2 s3 :
  collects w s1 s2 -> collects w s2 s3 -> collects w s1 s3.
Proof.
  intros (?&?&?&?&?) (?&?&?&?&?).
  repeat split; try congruence; set_solver.
Qed.

Lemma addDep_state_collects w d s :
  collects w s (addDep_state w d s)
  /\ d ∈ w_newDepIds (watcher_of w (addDep_state w d s)).
Proof.
  unfold addDep_state.
  destruct (bool_decide (d ∈ w_newDepIds (watcher_of w s))) eqn:Hin.
  - apply bool_decide_eq_true in Hin. split; [apply collects_refl | done].
  - destruct (bool_decide (d ∈ w_depIds (watcher_of w s)));
      (split; [repeat split; try done|]);
      change (watcher_of w (set_subs ?a ?b ?c)) with (watcher_of w c);
      rewrite watcher_of_upd_watcher_eq; simpl; set_solver.
Qed.

Lemma Dep_depend_recording w d s :
  target s = Some w ->
  exists s', Dep_depend d s = Ok tt s' /\ collects w s s'
             /\ d ∈ w_newDepIds (watcher_of w s').
Proof.
  intros Ht. unfold Dep_depend. unfold bind at 1, emit at 1, modify at 1.
  unfold bind at 1, gets at 1. simpl. rewrite Ht. rewrite Watcher_addDep_eq.
  eexists. split; [done|].
  destruct (addDep_state_collects w d (upd_log (fun l => l ++ [EvDepend d]) s))
    as [Hc Hd].
  split; [|done]. eapply collects_trans; [|exact Hc]. by repeat split.
Qed.

Lemma depend_on_element_recording w e s :
  target s = Some w ->
  exists s', depend_on_element e s = Ok tt s' /\ collects w s s'.
Proof.
  intros Ht. destruct e; simpl; try (exists s; split; [done|apply collects_refl]).
  munfold. destruct (o_ob (obj_of l s)) as [ob|].
  - destruct (Dep_depend_recording w (ob_dep (observer_of ob s)) s Ht)
      as (s' & E & Hc & _). eauto.
  - exists s. split; [done|apply collects_refl].
Qed.

Lemma for_each_depend_recording w es s :
  target s = Some w ->
  exists s', for_each depend_on_element es s = Ok tt s' /\ collects w s s'.
Proof.
  revert s. induction es as [|e es IH]; intros s Ht; simpl.
  - exists s. split; [done|apply collects_refl].
  - destruct (depend_on_element_recording w e s Ht) as (s1 & E1 & C1).
    destruct (IH s1) as (s2 & E2 & C2).
    { destruct C1 as (-> & _). done. }
    exists s2. split; [by rewrite (bind_ok _ _ _ _ _ E1)|].
    by eapply collects_trans.
Qed.

Section DependPrecondition.
Variable exec : script -> M value.

(** C10. [Dep.depend] dereferences [Dep.target] as it is: with no watcher
    recording it throws a [TypeError]; with one it returns and the Dep is
    among the dependencies collected for that watcher.  [beforeGet] makes
    the watcher the target, and the reactive getter of a property calls
    [depend] only after testing [Dep.target], so it returns the value in
    both cases. *)
Theorem C10_depend_needs_target (n c d w0 : nat) (s : World)
    (Hplain : c_getter (cell_of c s) = None) :
  match target s with
  | None =>
      Dep_depend d s = Thrown TypeError (upd_log (fun l => l ++ [EvDepend d]) s)
      /\ reactiveGetter exec (S n) c s = Ok (c_val (cell_of c s)) s
  | Some w =>
      (exists s', Dep_depend d s = Ok tt s' /\ target s' = Some w
                  /\ d ∈ w_newDepIds (watcher_of w s'))
      /\ (exists s', reactiveGetter exec (S n) c s = Ok (c_val (cell_of c s)) s'
                     /\ c_dep (cell_of c s) ∈ w_newDepIds (watcher_of w s'))
  end
  /\ target (upd_target (fun _ => Some w0) s) = Some w0
  /\ Watcher_beforeGet w0 s = Ok tt (upd_target (fun _ => Some w0) s).
Proof.
  split; [|done].
  destruct (target s) as [w|] eqn:Ht.
  - split.
    + destruct (Dep_depend_recording w d s Ht) as (s' & E & (Ht' & _) & Hd).
      exists s'. repeat split; [done | congruence | done].
    + simpl. unfold bind at 1, gets at 1. unfold current_value. rewrite Hplain.
      unfold bind at 1, ret at 1. unfold bind at 1, gets at 1. rewrite Ht.
      destruct (Dep_depend_recording w (c_dep (cell_of c s)) s Ht)
        as (s1 & E1 & C1 & D1).
      unfold bind at 1. unfold bind at 1. rewrite E1.
      unfold bind at 1, gets at 1.
      assert (T1 : target s1 = Some w) by (destruct C1 as (-> & _); done).
      assert (exists s2, match c_childOb (cell_of c s1) with
                         | Some ob => obr <- gets (observer_of ob);;
                                      Dep_depend (ob_dep obr)
                         | None => ret tt
                         end s1 = Ok tt s2 /\ collects w s1 s2) as (s2 & E2 & C2).
      { destruct (c_childOb (cell_of c s1)) as [ob|].
        - munfold. destruct (Dep_depend_recording w (ob_dep (observer_of ob s1)) s1 T1)
            as (s2 & E & Hc & _). eauto.
        - exists s1. split; [done|apply collects_refl]. }
      unfold bind at 1. rewrite E2.
      assert (T2 : target s2 = Some w) by (destruct C2 as (-> & _); done).
      assert (exists s3, (isA <- is_class CArray (c_val (cell_of c s));;
                          if isA then
                            match c_val (cell_of c s) with
                            | VRef l => es <- gets (fun s => o_elems (obj_of l s));;
                                        for_each depend_on_element es
                            | _ => ret tt
                            end
                          else ret tt) s2 = Ok tt s3 /\ collects w s2 s3)
        as (s3 & E3 & C3).
      { destruct (c_val (cell_of c s)) as [| | | | | |l]; simpl;
          try (exists s2; split; [done|apply collects_refl]).
        munfold. destruct (bool_decide _).
        - destruct (for_each_depend_recording w (o_elems (obj_of l s2)) s2 T2)
            as (s3 & E & Hc). eauto.
        - exists s2. split; [done|apply collects_refl]. }
      rewrite E3. exists s3. split; [done|].
      destruct C2 as (_&_&_&_&I2), C3 as (_&_&_&_&I3). set_solver.
  - split.
    + unfold Dep_depend. munfold. simpl. by rewrite Ht.
    + simpl. unfold current_value. munfold. rewrite Hplain, Ht. done.
Qed.
End DependPrecondition.

(** ** Subscriber lists *)

Lemma occ_app w l1 l2 : occ w (l1 ++ l2) = occ w l1 + occ w l2.
Proof. unfold occ. by rewrite List.filter_app, length_app. Qed.

Lemma occ_cons w x l : occ w (x :: l) = (if decide (w = x) then 1 else 0) + occ w l.
Proof.
  unfold occ. simpl. destruct (Nat.eqb_spec w x), (decide (w = x)); done.
Qed.

Lemma occ_zero w l : occ w l = 0 <-> w ∉ l.
Proof.
  induction l as [|x l IH]; [by split; [intros _; apply not_elem_of_nil|]|].
  rewrite occ_cons, not_elem_of_cons. destruct (decide (w = x)); [|naive_solver lia].
  split; [lia | naive_solver].
Qed.

Lemma occ_pos w l : 0 < occ w l <-> w ∈ l.
Proof.
  destruct (decide (w ∈ l)) as [H|H].
  - split; [done|]. intros _. destruct (occ w l) eqn:E; [|lia].
    by apply occ_zero in E.
  - split; [|done]. apply occ_zero in H. lia.
Qed.

Lemma indexOf_from_Some i l x j :
  indexOf_from i l x = Some j -> l !! j = Some x /\ j < i.
Proof.
  induction i as [|i IH]; simpl; [done|].
  destruct (bool_decide (l !! i = Some x)) eqn:E.
  - intros [= <-]. apply bool_decide_eq_true in E. split; [done|lia].
  - intros H. destruct (IH H). split; [done|lia].
Qed.

Lemma indexOf_from_None i l x :
  indexOf_from i l x = None -> forall j, j < i -> l !! j <> Some x.
Proof.
  induction i as [|i IH]; simpl; [intros; lia|].
  destruct (bool_decide (l !! i = Some x)) eqn:E; [done|].
  apply bool_decide_eq_false in E. intros H j Hj.
  destruct (decide (j = i)) as [->|]; [done|]. apply IH; [done|lia].
Qed.

Lemma indexOf_None_not_elem l x : indexOf l x = None -> x ∉ l.
Proof.
  intros H Hin. apply list_elem_of_lookup in Hin as [j Hj].
  eapply (indexOf_from_None _ _ _ H j); [|done].
  by eapply lookup_lt_Some.
Qed.

Lemma occ_delete w w' l i :
  l !! i = Some w ->
  occ w' (delete i l) = occ w' l - (if decide (w' = w) then 1 else 0).
Proof.
  intros Hi. rewrite delete_take_drop.
  rewrite <- (take_drop_middle l i w Hi) at 3.
  rewrite !occ_app, occ_cons. destruct (decide (w' = w)); lia.
Qed.

(** [$remove] takes one occurrence of the item away and leaves the others. *)
Lemma occ_array_remove w w' l :
  occ w' (array_remove l w) = occ w' l - (if decide (w' = w) then 1 else 0).
Proof.
  unfold array_remove. destruct (bool_decide (length l = 0)) eqn:E.
  - apply bool_decide_eq_true in E. destruct l; [|done]. by destruct (decide _).
  - destruct (indexOf l w) as [i|] eqn:Hi.
    + apply indexOf_from_Some in Hi as [Hi _]. by apply occ_delete.
    + apply indexOf_None_not_elem in Hi. destruct (decide (w' = w)) as [->|]; [|lia].
      apply occ_zero in Hi. lia.
Qed.

(** ** The dependency sets of a watcher *)

Lemma consistent_subscribed w s d :
  consistent w s -> (w ∈ subs_of d s <-> d ∈ w_deps (watcher_of w s)).
Proof.
  intros [Hc Hn]. rewrite <- occ_pos, (col_subs _ _ Hc d), Hn.
  case_bool_decide as H.
  - split; [|lia]. intros _. destruct H as [H|H]; [done|]. by apply elem_of_nil in H.
  - split; [lia|]. intros Hd. destruct H. by left.
Qed.

Lemma addDep_state_collecting w d s :
  collecting w s -> collecting w (addDep_state w d s).
Proof.
  intros [Hi Hn Hd Hnd Hs]. unfold addDep_state.
  case_bool_decide as Hnew; [done|].
  assert (d ∉ w_newDeps (watcher_of w s)) as Hnew' by (by rewrite <- Hn).
  case_bool_decide as Hold.
  - constructor; rewrite ?watcher_of_upd_watcher_eq; simpl; try done.
    + intros d'. rewrite elem_of_union, elem_of_singleton, elem_of_app, list_elem_of_singleton.
      rewrite Hn. naive_solver.
    + apply NoDup_app. split; [done|]. split; [|apply NoDup_singleton].
      intros x Hx ->%list_elem_of_singleton. done.
    + intros d'. change (subs_of d' (upd_watcher _ _ s)) with (subs_of d' s).
      rewrite Hs. apply Hi in Hold.
      repeat case_bool_decide; try done; set_solver.
  - assert (d ∉ w_deps (watcher_of w s)) as Hold' by (by rewrite <- Hi).
    constructor;
      change (watcher_of w (set_subs ?a ?b ?c)) with (watcher_of w c);
      rewrite ?watcher_of_upd_watcher_eq; simpl; try done.
    + intros d'. rewrite elem_of_union, elem_of_singleton, elem_of_app, list_elem_of_singleton.
      rewrite Hn. naive_solver.
    + apply NoDup_app. split; [done|]. split; [|apply NoDup_singleton].
      intros x Hx ->%list_elem_of_singleton. done.
    + intros d'. rewrite subs_of_set_subs.
      change (subs_of ?a (upd_watcher _ _ s)) with (subs_of a s).
      destruct (decide (d' = d)) as [->|Hne].
      * rewrite occ_app, Hs. rewrite bool_decide_eq_false_2 by naive_solver.
        rewrite bool_decide_eq_true_2 by set_solver.
        rewrite occ_cons. by rewrite decide_True.
      * rewrite Hs. repeat case_bool_decide; try done; set_solver.
Qed.

Lemma addDep_state_newDeps w d s d' :
  collecting w s ->
  d' ∈ w_newDeps (watcher_of w (addDep_state w d s))
  <-> d' = d \/ d' ∈ w_newDeps (watcher_of w s).
Proof.
  intros Hc. unfold addDep_state. case_bool_decide as Hnew.
  - apply (col_newIds _ _ Hc) in Hnew. naive_solver.
  - case_bool_decide;
      change (watcher_of w (set_subs ?a ?b ?c)) with (watcher_of w c);
      rewrite watcher_of_upd_watcher_eq; simpl;
      rewrite elem_of_app, list_elem_of_singleton; naive_solver.
Qed.

Lemma addDep_state_frame w d s :
  target (addDep_state w d s) = target s
  /\ w_deps (watcher_of w (addDep_state w d s)) = w_deps (watcher_of w s)
  /\ log (addDep_state w d s) = log s.
Proof.
  unfold addDep_state. repeat case_bool_decide; try done;
    change (watcher_of w (set_subs ?a ?b ?c)) with (watcher_of w c);
    rewrite ?watcher_of_upd_watcher_eq; done.
Qed.

(** A run of [depend] calls made while [w] records. *)
Lemma for_each_depend_collecting w ds s :
  target s = Some w -> collecting w s ->
  exists s', for_each Dep_depend ds s = Ok tt s'
    /\ target s' = Some w /\ collecting w s'
    /\ w_deps (watcher_of w s') = w_deps (watcher_of w s)
    /\ (forall d, d ∈ w_newDeps (watcher_of w s')
                  <-> d ∈ ds \/ d ∈ w_newDeps (watcher_of w s)).
Proof.
  revert s. induction ds as [|d ds IH]; intros s Ht Hc; simpl.
  - exists s. do 4 (split; [done|]). intros d'. set_solver.
  - unfold bind at 1. unfold Dep_depend at 1.
    unfold bind at 1, emit at 1, modify at 1. unfold bind at 1, gets at 1.
    simpl. rewrite Ht, Watcher_addDep_eq.
    set (s0 := upd_log (fun l => l ++ [EvDepend d]) s).
    assert (collecting w s0) as Hc0 by (destruct Hc; by constructor).
    destruct (addDep_state_frame w d s0) as (T1 & D1 & _).
    destruct (IH (addDep_state w d s0)) as (s' & E & T' & C' & D' & N').
    { by rewrite T1. }
    { by apply addDep_state_collecting. }
    exists s'. do 3 (split; [done|]). split; [by rewrite D', D1|].
    intros d'. rewrite N', addDep_state_newDeps by done.
    change (watcher_of w s0) with (watcher_of w s). set_solver.
Qed.

(** ** Reconciliation *)

Lemma for_each_modify {A} (f : A -> World -> World) (l : list A) s :
  for_each (fun x => modify (f x)) l s = Ok tt (foldl (fun s x => f x s) s l).
Proof.
  revert s. induction l as [|x l IH]; intros s; simpl; [done|].
  unfold bind, modify at 1. by rewrite IH.
Qed.

Lemma for_each_ext_modify w keep l s :
  for_each (fun d => if bool_decide (d ∈ keep) then ret tt else Dep_removeSub d w) l s
  = Ok tt (remove_stale w keep l s).
Proof.
  unfold remove_stale. rewrite <- for_each_modify.
  revert s. induction l as [|d l IH]; intros s; simpl; [done|].
  unfold bind. unfold drop_stale at 1, Dep_removeSub at 1.
  case_bool_decide; unfold ret at 1, modify at 1; apply IH.
Qed.

Lemma Watcher_afterGet_eq w s : Watcher_afterGet w s = Ok tt (afterGet_state w s).
Proof.
  unfold Watcher_afterGet, afterGet_state, for_each_rev.
  unfold bind at 1, modify at 1. unfold bind at 1, gets at 1.
  change (watcher_of w (upd_target _ s)) with (watcher_of w s).
  unfold bind at 1.
  rewrite (for_each_ext_modify w (w_newDepIds (watcher_of w s))).
  done.
Qed.

Lemma elem_of_rev (x : nat) l : x ∈ rev l <-> x ∈ l.
Proof. rewrite !list_elem_of_In. symmetry. apply in_rev. Qed.

Lemma NoDup_rev_list (l : list nat) : NoDup l -> NoDup (rev l).
Proof. rewrite !NoDup_ListNoDup. apply List.NoDup_rev. Qed.

Lemma drop_stale_frame w keep d s :
  watchers (drop_stale w keep d s) = watchers s
  /\ target (drop_stale w keep d s) = target s
  /\ log (drop_stale w keep d s) = log s.
Proof. unfold drop_stale. by case_bool_decide. Qed.

Lemma remove_stale_frame w keep l s :
  watchers (remove_stale w keep l s) = watchers s
  /\ target (remove_stale w keep l s) = target s
  /\ log (remove_stale w keep l s) = log s.
Proof.
  unfold remove_stale. revert s. induction l as [|d l IH]; intros s; simpl; [done|].
  destruct (IH (drop_stale w keep d s)) as (-> & -> & ->).
  apply drop_stale_frame.
Qed.

Lemma drop_stale_occ w w' keep d d' s :
  occ w' (subs_of d' (drop_stale w keep d s))
  = occ w' (subs_of d' s)
    - (if bool_decide (w' = w /\ d' = d /\ d ∉ keep) then 1 else 0).
Proof.
  unfold drop_stale. case_bool_decide as Hk.
  - rewrite bool_decide_eq_false_2 by naive_solver. lia.
  - rewrite subs_of_set_subs. destruct (decide (d' = d)) as [->|Hne].
    + rewrite occ_array_remove.
      destruct (decide (w' = w)); case_bool_decide; naive_solver.
    + rewrite bool_decide_eq_false_2 by naive_solver. lia.
Qed.

Lemma remove_stale_occ w w' keep l d' s :
  NoDup l ->
  occ w' (subs_of d' (remove_stale w keep l s))
  = occ w' (subs_of d' s)
    - (if bool_decide (w' = w /\ d' ∈ l /\ d' ∉ keep) then 1 else 0).
Proof.
  unfold remove_stale. intros Hnd. revert s.
  induction Hnd as [|d l Hd Hnd IH]; intros s; simpl.
  - rewrite bool_decide_eq_false_2; [lia|]. intros (_ & H & _). by apply elem_of_nil in H.
  - rewrite IH, drop_stale_occ.
    repeat case_bool_decide; try lia; exfalso; set_solver.
Qed.

Lemma afterGet_state_target w s : target (afterGet_state w s) = None.
Proof.
  unfold afterGet_state. change (target (upd_watcher ?a ?b ?x)) with (target x).
  match goal with |- target (remove_stale ?a ?b ?c ?d) = _ =>
    by destruct (remove_stale_frame a b c d) as (_ & -> & _) end.
Qed.

(** After [afterGet] the dependencies collected are the current ones, the
    scratch lists are empty, and the watcher stands in the subscribers of
    exactly those Deps. *)
Lemma afterGet_state_consistent w s :
  collecting w s ->
  consistent w (afterGet_state w s)
  /\ w_deps (watcher_of w (afterGet_state w s)) = w_newDeps (watcher_of w s)
  /\ w_depIds (watcher_of w (afterGet_state w s)) = w_newDepIds (watcher_of w s)
  /\ w_newDepIds (watcher_of w (afterGet_state w s)) = ∅
  /\ target (afterGet_state w s) = None.
Proof.
  intros [Hi Hn Hd Hnd Hs]. unfold afterGet_state.
  set (keep := w_newDepIds (watcher_of w s)).
  set (s1 := remove_stale w keep (rev (w_deps (watcher_of w s))) _).
  destruct (remove_stale_frame w keep (rev (w_deps (watcher_of w s)))
              (upd_target (fun _ => None) s)) as (HW & HT & HL).
  fold s1 in HW, HT, HL.
  assert (watcher_of w s1 = watcher_of w s) as Hw1.
  { unfold watcher_of. by rewrite HW. }
  rewrite watcher_of_upd_watcher_eq, Hw1. simpl.
  split; [|done]. split; [|by rewrite watcher_of_upd_watcher_eq].
  constructor; rewrite watcher_of_upd_watcher_eq, Hw1; simpl.
  - exact Hn.
  - intros d. set_solver.
  - exact Hnd.
  - constructor.
  - intros d. change (subs_of d (upd_watcher _ _ s1)) with (subs_of d s1).
    subst s1. rewrite remove_stale_occ by (by apply NoDup_rev_list).
    change (subs_of d (upd_target _ s)) with (subs_of d s). rewrite Hs.
    subst keep.
    destruct (decide (d ∈ w_deps (watcher_of w s))) as [HA|HA];
      destruct (decide (d ∈ w_newDeps (watcher_of w s))) as [HB|HB];
      repeat first
        [ rewrite bool_decide_eq_true_2
            by (rewrite ?elem_of_rev, ?Hn, ?elem_of_nil; tauto)
        | rewrite bool_decide_eq_false_2
            by (rewrite ?elem_of_rev, ?Hn, ?elem_of_nil; tauto) ];
      done.
Qed.

(** ** What a notification can reach *)

Lemma Dep_notify_footprint exec fuel d s :
  match Dep_notify exec fuel d s with
  | Ok _ s' | Thrown _ s' =>
      extends_with (allowed (among (subs_of d s)) (among (subs_of d s))
                      (among (subs_of d s)) (only d) false false) s s'
  | OutOfFuel => True
  end.
Proof.
  set (K := allowed _ _ _ _ _ _).
  assert (emits K (emit (EvNotify d);;;
                   for_each (fun w => Watcher_update exec fuel w false) (subs_of d s)))
    as H.
  { apply emits_bind; [apply emits_emit; apply only_refl|]. intros _.
    apply emits_for_each_in. intros w Hw.
    apply Watcher_update_emits; by apply among_elem. }
  specialize (H s). unfold Dep_notify.
  unfold bind at 1, emit at 1, modify at 1. unfold bind at 1, gets at 1.
  rewrite toArray_id. exact H.
Qed.

Lemma Dep_notify_spares exec fuel w d s :
  w ∉ subs_of d s ->
  match Dep_notify exec fuel d s with
  | Ok _ s' | Thrown _ s' =>
      Forall (fun e => concerns w e = false) (new_events s s')
  | OutOfFuel => True
  end.
Proof.
  intros Hw. pose proof (Dep_notify_footprint exec fuel d s) as H.
  assert (forall e, allowed (among (subs_of d s)) (among (subs_of d s))
                      (among (subs_of d s)) (only d) false false e = true -> concerns w e = false) as HK.
  { intros [] He; simpl in *; try done;
      apply bool_decide_eq_false; intros ->;
      unfold among in He; by apply bool_decide_eq_true in He. }
  destruct (Dep_notify exec fuel d s) as [[] s'|e s'|]; [| |done];
    destruct H as (l & E & F); rewrite (new_events_app _ _ _ E);
    (eapply Forall_impl; [exact F | exact HK]).
Qed.

(** ** The reactive setter *)

Lemma filter_app_nil (P : Event -> bool) l1 l2 :
  List.filter P l1 = [] -> List.filter P (l1 ++ l2) = List.filter P l2.
Proof. intros H. by rewrite List.filter_app, H. Qed.

Lemma extends_no_notify upd run cb obs ntv s s' :
  extends_with (allowed upd run cb none obs ntv) s s' ->
  exists l, log s' = log s ++ l /\ List.filter is_notify l = [].
Proof.
  intros (l & E & F). exists l. split; [done|].
  eapply filter_none; [|exact F]. by intros [].
Qed.

Section Setter.
Variable exec : script -> M value.
Variable fuel : nat.

Lemma Dep_notify_log d s :
  match Dep_notify exec fuel d s with
  | Ok _ s' | Thrown _ s' =>
      exists l, log s' = log s ++ EvNotify d :: l /\ List.filter is_notify l = []
  | OutOfFuel => True
  end.
Proof.
  unfold Dep_notify. unfold bind at 1, emit at 1, modify at 1.
  match goal with |- match ?m ?s0 with _ => _ end =>
    assert (Hm : emits (allowed (fun _ => true) (fun _ => true) (fun _ => true) none false false) m)
      by emits_auto;
    specialize (Hm s0); destruct (m s0) as [a s1|e s1|]; [| |done] end;
    apply extends_no_notify in Hm as (l & E & F); exists l; simpl in E;
    (split; [by rewrite E, <- app_assoc | done]).
Qed.

Lemma observe_and_notify_log c d newVal s :
  match observe_and_notify exec fuel c d newVal s with
  | Ok _ s' =>
      exists l, log s' = log s ++ l /\ List.filter is_notify l = [EvNotify d]
  | _ => True
  end.
Proof.
  unfold observe_and_notify. unfold bind at 1.
  pose proof (observe_emits exec fuel none none none none true false fuel newVal None
                eq_refl s) as Ho.
  destruct (observe exec fuel fuel newVal None s) as [ob s1|e s1|]; [|done|done].
  apply extends_no_notify in Ho as (l1 & E1 & F1).
  unfold bind at 1, modify at 1.
  match goal with |- match Dep_notify _ _ _ ?s2 with _ => _ end =>
    pose proof (Dep_notify_log d s2) as Hn;
    destruct (Dep_notify exec fuel d s2) as [[] s3|e s3|]; [|done|done] end.
  destruct Hn as (l2 & E2 & F2). simpl in E2. exists (l1 ++ EvNotify d :: l2).
  split; [by rewrite E2, E1, <- app_assoc|].
  rewrite filter_app_nil by done. simpl. by rewrite F2.
Qed.

Lemma observe_primitive k v vm s :
  0 < k -> isObject v = false ->
  observe exec fuel k v vm s
  = Ok None (upd_log (fun l => l ++ [EvObserve v]) s).
Proof.
  intros Hk Hv. destruct k as [|k]; [lia|]. simpl. unfold observe_body. munfold.
  destruct v; simpl in *; rewrite ?orb_true_r; done.
Qed.

(** C3, as the code has it.  The setter compares with [===], under which
    [NaN] differs from itself.  When the new value is [===] the current one
    the setter returns and nothing else happens; otherwise, also when both
    are [NaN], it stores the value through the captured setter or in the
    closure variable, observes it and notifies the Dep of the property,
    once.  With a primitive value, no captured setter and deferred
    subscribers the setter returns with the value stored. *)
Theorem C3_setter_equality_short_circuit (n c : nat) (newVal cur : value)
    (s s0 : World)
    (Hcur : current_value exec (reactiveGetter exec n) (cell_of c s) s
            = Ok cur s0) :
  let cl := cell_of c s in
  (strict_eq newVal cur = true ->
     reactiveSetter exec fuel (S n) c newVal s = Ok tt s0)
  /\ (strict_eq newVal cur = false ->
      reactiveSetter exec fuel (S n) c newVal s
      = (match c_setter cl with
         | Some (SUser f) => call_user exec (f newVal);;; ret tt
         | Some (SReactive c') => reactiveSetter exec fuel n c' newVal
         | None => modify (upd_cell c (set_c_val newVal))
         end;;;
         observe_and_notify exec fuel c (c_dep cl) newVal) s0
      /\ match c_setter cl, reactiveSetter exec fuel (S n) c newVal s with
         | Some (SReactive _), _ => True
         | _, Ok _ s' =>
             List.filter is_notify (new_events s0 s') = [EvNotify (c_dep cl)]
         | _, _ => True
         end)
  /\ (cur = VNaN -> strict_eq newVal cur = false)
  /\ (strict_eq newVal cur = false -> c_setter cl = None ->
      isObject newVal = false -> 0 < fuel ->
      (forall w, w ∈ subs_of (c_dep cl) s0 -> deferred w s0 = true) ->
      exists s', reactiveSetter exec fuel (S n) c newVal s = Ok tt s'
                 /\ c_val (cell_of c s') = newVal
                 /\ c_childOb (cell_of c s') = None).
Proof.
  intros cl.
  assert (forall b, strict_eq newVal cur = b ->
            reactiveSetter exec fuel (S n) c newVal s
            = if b then Ok tt s0
              else (match c_setter cl with
                    | Some (SUser f) => call_user exec (f newVal);;; ret tt
                    | Some (SReactive c') => reactiveSetter exec fuel n c' newVal
                    | None => modify (upd_cell c (set_c_val newVal))
                    end;;;
                    observe_and_notify exec fuel c (c_dep cl) newVal) s0) as Heq.
  { intros b Hb. subst cl. simpl. unfold bind at 1, gets at 1.
    unfold bind at 1. rewrite Hcur, Hb. by destruct b. }
  split; [intros Hb; by rewrite (Heq true Hb)|].
  split.
  { intros Hb. split; [by rewrite (Heq false Hb)|]. rewrite (Heq false Hb).
    destruct (c_setter cl) as [[f|c']|] eqn:Hs; [|done|].
    - unfold bind at 1. unfold bind at 1.
      pose proof (emits_call_user (allowed none none none none false false) exec
                    (f newVal) (allowed_user _ _ _ _ _ _) s0) as Hu.
      destruct (call_user exec (f newVal) s0) as [v s1|e s1|]; [|done|done].
      unfold ret at 1. apply extends_no_notify in Hu as (l1 & E1 & F1).
      pose proof (observe_and_notify_log c (c_dep cl) newVal s1) as Ht.
      destruct (observe_and_notify exec fuel c (c_dep cl) newVal s1) as [[] s2|e s2|];
        [|done|done].
      destruct Ht as (l2 & E2 & F2).
      rewrite (new_events_app s0 s2 (l1 ++ l2)) by (by rewrite E2, E1, <- app_assoc).
      by rewrite filter_app_nil.
    - unfold bind at 1, modify at 1.
      match goal with |- context [observe_and_notify exec fuel _ _ _ ?s1] =>
        pose proof (observe_and_notify_log c (c_dep cl) newVal s1) as Ht;
        destruct (observe_and_notify exec fuel c (c_dep cl) newVal s1) as [[] s2|e s2|];
          [|done|done] end.
      destruct Ht as (l2 & E2 & F2). simpl in E2.
      by rewrite (new_events_app s0 s2 l2). }
  split; [intros ->; by destruct newVal|].
  intros Hb Hs Hv Hf Hd. rewrite (Heq false Hb), Hs.
  unfold bind at 1, modify at 1. unfold observe_and_notify.
  unfold bind at 1. rewrite observe_primitive by done.
  unfold bind at 1, modify at 1.
  match goal with |- context [Dep_notify _ _ _ ?s1] =>
    destruct (Dep_notify_deferred exec fuel (c_dep cl) s1) as (s' & E & HS);
    [|set (s1' := s1) in *] end.
  { intros w Hw. rewrite <- (Hd w); [done|]. exact Hw. }
  exists s'. split; [done|].
  destruct HS as (_ & HC & _). unfold cell_of. rewrite HC. subst s1'. simpl.
  rewrite lookup_total_insert_eq. simpl. split; [|done].
  unfold cell_of. simpl. by rewrite lookup_total_insert_eq.
Qed.
End Setter.

(** ** Callbacks, at any depth of the log *)

Lemma cb_count_user w l : cb_count w (EvUser l) = cb_total w l.
Proof. induction l as [|e l IH]; simpl in *; [done|]. by rewrite IH. Qed.

Lemma cb_total_app w l1 l2 : cb_total w (l1 ++ l2) = cb_total w l1 + cb_total w l2.
Proof. induction l1 as [|e l1 IH]; simpl; [done|]. rewrite IH. lia. Qed.

(** ** A watcher that has been torn down *)

Lemma stays_gone_refl w s : stays_gone w s s.
Proof. by intros H. Qed.

Lemma stays_gone_trans w s1 s2 s3 :
  stays_gone w s1 s2 -> stays_gone w s2 s3 -> stays_gone w s1 s3.
Proof.
  intros H1 H2 G1. destruct (H1 G1) as [G2 E2]. destruct (H2 G2) as [G3 E3].
  split; [done | congruence].
Qed.

Global Instance stays_gone_preorder w : PreOrder (stays_gone w).
Proof.
  split; [intros s; apply stays_gone_refl | intros s1 s2 s3; apply stays_gone_trans].
Qed.

Lemma stays_gone_frame w s s' :
  watchers s' = watchers s -> target s' = target s -> deps s' = deps s ->
  log s' = log s -> stays_gone w s s'.
Proof.
  intros HW HT HD HL (A & C & T & S). unfold gone, watcher_of, subs_of.
  rewrite HW, HT, HD, HL. done.
Qed.

Lemma stays_gone_upd_watcher w w' f s :
  (forall x, w_active x = false -> w_cb x = None ->
             w_active (f x) = false /\ w_cb (f x) = None) ->
  stays_gone w s (upd_watcher w' f s).
Proof.
  intros Hf (A & C & T & S). split; [|done]. unfold gone.
  rewrite watcher_of_upd_watcher. destruct (decide (w = w')) as [<-|Hne].
  - destruct (Hf _ A C) as [-> ->]; done.
  - done.
Qed.

Lemma stays_gone_emit w e s :
  cb_count w e = 0 -> stays_gone w s (upd_log (fun l => l ++ [e]) s).
Proof.
  intros He G. split; [done|]. simpl. rewrite cb_total_app. simpl. lia.
Qed.

Lemma stays_gone_set_subs w d l s :
  w ∉ l -> stays_gone w s (set_subs d l s).
Proof.
  intros Hl (A & C & T & S). split; [|done]. repeat split; try done.
  intros d'. rewrite subs_of_set_subs. by destruct (decide (d' = d)).
Qed.

Lemma stays_gone_target w t s :
  t <> Some w -> stays_gone w s (upd_target (fun _ => t) s).
Proof. intros Ht (A & C & T & S). by repeat split. Qed.

Lemma array_remove_subseteq l x : array_remove l x ⊆ l.
Proof.
  unfold array_remove. case_bool_decide; [done|].
  destruct (indexOf l x); [|done]. intros y. apply list_elem_of_delete_inv.
Qed.

(** Closes the side conditions of a state change. *)
Ltac gone_modify :=
  intros;
  first
    [ apply stays_gone_frame; reflexivity
    | apply stays_gone_emit; reflexivity
    | apply stays_gone_emit; simpl; by rewrite bool_decide_eq_false_2
    | apply stays_gone_upd_watcher; intros; simpl; by split
    | apply stays_gone_target; done ].

Ltac gone_auto := respects_with gone_modify ltac:(eauto 3 with gone); eauto with gone.

Create HintDb gone discriminated.

Section StaysGone.
Variable exec : script -> M value.
Variable original : NativeOp.
Variable fuel : nat.
Variable w : nat.
Hypothesis exec_gone : forall sc, respects (stays_gone w) (exec sc).
Local Abbreviation R := (stays_gone w).

Lemma call_user_gone sc : respects R (call_user exec sc).
Proof using exec_gone.
  intros s. unfold call_user.
  pose proof (exec_gone sc (upd_log (fun _ => []) s)) as H.
  destruct (exec sc _) as [v s1|e s1|]; [| |done]; intros G;
    (destruct H as [G1 E1]; [by destruct G as (?&?&?&?)|]);
    (split; [by destruct G1 as (?&?&?&?)|]);
    change (cb_total w (log s ++ [EvUser (log s1)]) = cb_total w (log s));
    rewrite cb_total_app;
    change (cb_total w [EvUser (log s1)]) with (cb_count w (EvUser (log s1)) + 0);
    rewrite cb_count_user; simpl in E1; lia.
Qed.
#[local] Hint Resolve call_user_gone : gone.

Lemma Dep_removeSub_gone d w' : respects R (Dep_removeSub d w').
Proof.
  unfold Dep_removeSub. refine (respects_modify _ _ _). intros s G.
  apply stays_gone_set_subs; [|done]. destruct G as (_&_&_&S).
  intros H. apply (S d). by apply array_remove_subseteq in H.
Qed.

Lemma Dep_new_gone : respects R Dep_new.
Proof.
  intros s G. unfold Dep_new.
  eapply (stays_gone_trans _ _ (upd_dep_uid S s)); [| |exact G].
  - by apply stays_gone_frame.
  - apply stays_gone_set_subs. apply not_elem_of_nil.
Qed.

Lemma fresh_ref_gone : respects R fresh_ref.
Proof. intros s. by apply stays_gone_frame. Qed.

Lemma alloc_gone o : respects R (alloc o).
Proof. intros s. by apply stays_gone_frame. Qed.

Lemma Observer_init_gone l : respects R (Observer_init l).
Proof.
  intros s G. unfold Observer_init.
  eapply (stays_gone_trans _ _ (upd_dep_uid S (upd_next_ref S s))); [| |exact G].
  - by apply stays_gone_frame.
  - intros G'. eapply (stays_gone_trans _ _ (set_subs (dep_uid s) [] _)); [| |exact G'].
    + apply stays_gone_set_subs. apply not_elem_of_nil.
    + by apply stays_gone_frame.
Qed.
#[local] Hint Resolve Dep_removeSub_gone Dep_new_gone fresh_ref_gone alloc_gone
  Observer_init_gone : gone.

Lemma Watcher_addDep_gone w' d : w' <> w -> respects R (Watcher_addDep w' d).
Proof.
  intros Hne. unfold Watcher_addDep. gone_auto.
  unfold Dep_addSub. refine (respects_modify _ _ _). intros s G.
  apply stays_gone_set_subs; [|done]. destruct G as (_&_&_&S).
  rewrite elem_of_app, list_elem_of_singleton. intros [H| ->]; [by apply (S d)|done].
Qed.

Lemma Dep_depend_gone d : respects R (Dep_depend d).
Proof.
  unfold Dep_depend. refine (respects_bind _ _ _ _ _); [gone_auto|].
  intros _ s. unfold bind, gets. destruct (target s) as [w'|] eqn:Ht.
  - destruct (decide (w' = w)) as [->|Hne].
    + destruct (Watcher_addDep w d s); [| |done]; intros (_&_&T&_); done.
    + by apply Watcher_addDep_gone.
  - apply stays_gone_refl.
Qed.
#[local] Hint Resolve Dep_depend_gone : gone.

Lemma Watcher_afterGet_gone w' : respects R (Watcher_afterGet w').
Proof. unfold Watcher_afterGet. gone_auto. Qed.

Lemma Watcher_beforeGet_gone w' : w' <> w -> respects R (Watcher_beforeGet w').
Proof.
  intros Hne. unfold Watcher_beforeGet. refine (respects_modify _ _ _). intros s.
  apply stays_gone_target. congruence.
Qed.
#[local] Hint Resolve Watcher_afterGet_gone Watcher_beforeGet_gone : gone.

Lemma depend_on_element_gone e : respects R (depend_on_element e).
Proof. unfold depend_on_element. gone_auto. Qed.

Lemma is_class_gone c v : respects R (is_class c v).
Proof. unfold is_class. gone_auto. Qed.
#[local] Hint Resolve depend_on_element_gone is_class_gone : gone.

Lemma current_value_gone rec cl :
  (forall c, respects R (rec c)) -> respects R (current_value exec rec cl).
Proof using exec_gone. intros H. unfold current_value. gone_auto. Qed.
#[local] Hint Resolve current_value_gone : gone.

Lemma reactiveGetter_gone n c : respects R (reactiveGetter exec n c).
Proof using exec_gone.
  revert c. induction n as [|n IH]; intros c; simpl; gone_auto.
Qed.
#[local] Hint Resolve reactiveGetter_gone : gone.

Lemma js_get_gone o key : respects R (js_get exec fuel o key).
Proof using exec_gone. unfold js_get. gone_auto. Qed.
#[local] Hint Resolve js_get_gone : gone.

Lemma traverse_gone n top v : respects R (traverse exec fuel n top v).
Proof using exec_gone.
  revert top v. induction n as [|n IH]; intros top v; simpl; gone_auto.
Qed.
#[local] Hint Resolve traverse_gone : gone.

Lemma apply_hook_gone h v : respects R (apply_hook exec h v).
Proof using exec_gone. unfold apply_hook. gone_auto. Qed.

Lemma pushWatcher_gone w' : respects R (pushWatcher w').
Proof. unfold pushWatcher, nextTick_flush. gone_auto. Qed.
#[local] Hint Resolve apply_hook_gone pushWatcher_gone : gone.

Lemma Watcher_teardown_gone w' : respects R (Watcher_teardown w').
Proof.
  unfold Watcher_teardown. gone_auto.
Qed.
#[local] Hint Resolve Watcher_teardown_gone : gone.

Lemma Watcher_get_gone w' : w' <> w -> respects R (Watcher_get exec fuel w').
Proof using exec_gone. intros Hne. unfold Watcher_get. gone_auto. Qed.
#[local] Hint Resolve Watcher_get_gone : gone.

Lemma call_cb_gone w' a b : w' <> w -> respects R (call_cb exec w' a b).
Proof using exec_gone.
  intros Hne. unfold call_cb. gone_auto.
Qed.
#[local] Hint Resolve call_cb_gone : gone.

Lemma Watcher_run_gone w' : respects R (Watcher_run exec fuel w').
Proof using exec_gone.
  destruct (decide (w' = w)) as [->|Hne].
  - intros s. unfold Watcher_run. unfold bind at 1, emit at 1, modify at 1.
    unfold bind at 1, gets at 1.
    change (watcher_of w (upd_log _ s)) with (watcher_of w s).
    destruct (w_active (watcher_of w s)) eqn:Ha.
    + match goal with |- match ?m with _ => _ end =>
        destruct m; [| |done]; intros (A&_); congruence end.
    + by apply stays_gone_emit.
  - unfold Watcher_run. gone_auto.
Qed.
#[local] Hint Resolve Watcher_run_gone : gone.

Lemma Watcher_update_gone w' sh : respects R (Watcher_update exec fuel w' sh).
Proof using exec_gone. unfold Watcher_update. gone_auto. Qed.
#[local] Hint Resolve Watcher_update_gone : gone.

Lemma Dep_notify_gone d : respects R (Dep_notify exec fuel d).
Proof using exec_gone. unfold Dep_notify. gone_auto. Qed.
#[local] Hint Resolve Dep_notify_gone : gone.

Lemma defineProperty_gone l key d : respects R (defineProperty l key d).
Proof. unfold defineProperty. gone_auto. Qed.
#[local] Hint Resolve defineProperty_gone : gone.

Section ObserveGone.
Variable observe_rec : value -> M (option nat).
Hypothesis Hrec : forall v, respects R (observe_rec v).

Lemma defineReactive_gone o key v :
  respects R (defineReactive observe_rec o key v).
Proof using Hrec. unfold defineReactive. gone_auto. Qed.
#[local] Hint Resolve defineReactive_gone : gone.

Lemma Observer_observeArray_gone items :
  respects R (Observer_observeArray observe_rec items).
Proof using Hrec. unfold Observer_observeArray. gone_auto. Qed.

Lemma Observer_walk_gone ob l :
  respects R (Observer_walk exec fuel observe_rec ob l).
Proof using Hrec exec_gone. unfold Observer_walk. gone_auto. Qed.
#[local] Hint Resolve Observer_observeArray_gone Observer_walk_gone : gone.

Lemma Observer_new_gone l :
  respects R (Observer_new exec fuel observe_rec l).
Proof using Hrec exec_gone. unfold Observer_new. gone_auto. Qed.

Lemma Observer_addVm_gone ob vm : respects R (Observer_addVm ob vm).
Proof. unfold Observer_addVm. gone_auto. Qed.
#[local] Hint Resolve Observer_new_gone Observer_addVm_gone : gone.

Lemma observe_body_gone v vm :
  respects R (observe_body exec fuel observe_rec v vm).
Proof using Hrec exec_gone. unfold observe_body. gone_auto. Qed.
End ObserveGone.

Lemma observe_gone n v vm : respects R (observe exec fuel n v vm).
Proof using exec_gone.
  revert v vm. induction n as [|n IH]; intros v vm; simpl.
  - apply respects_out_of_fuel.
  - apply observe_body_gone. intros v'. apply IH.
Qed.
#[local] Hint Resolve observe_gone : gone.

Lemma reactiveSetter_gone n c v : respects R (reactiveSetter exec fuel n c v).
Proof using exec_gone.
  revert c v. induction n as [|n IH]; intros c v; simpl; gone_auto.
Qed.
#[local] Hint Resolve reactiveSetter_gone : gone.

Lemma js_set_gone o key v : respects R (js_set exec fuel o key v).
Proof using exec_gone. unfold js_set. gone_auto. Qed.

Lemma native_call_gone a m args : respects R (native_call original a m args).
Proof. unfold native_call. gone_auto. Qed.
#[local] Hint Resolve js_set_gone native_call_gone : gone.

Lemma mutator_gone a m args : respects R (mutator exec original fuel a m args).
Proof using exec_gone.
  unfold mutator. gone_auto.
  apply Observer_observeArray_gone. intros v'. apply observe_gone.
Qed.
#[local] Hint Resolve mutator_gone : gone.

Lemma call_method_gone a m args :
  respects R (call_method exec original fuel a m args).
Proof using exec_gone. unfold call_method. gone_auto. Qed.
#[local] Hint Resolve call_method_gone : gone.

Lemma exec_here_gone sc : respects R (exec_here exec original fuel sc).
Proof using exec_gone. induction sc; simpl; gone_auto. Qed.

Lemma resetBatcherState_gone : respects R resetBatcherState.
Proof. unfold resetBatcherState. gone_auto. Qed.
#[local] Hint Resolve resetBatcherState_gone : gone.

Lemma runBatcherQueue_from_gone n user i :
  respects R (runBatcherQueue_from exec fuel n user i).
Proof using exec_gone.
  revert i. induction n as [|n IH]; intros i; simpl; gone_auto.
Qed.
#[local] Hint Resolve runBatcherQueue_from_gone : gone.

Lemma runBatcherQueue_gone n user :
  respects R (runBatcherQueue exec fuel n user).
Proof using exec_gone. unfold runBatcherQueue. destruct user; gone_auto. Qed.
#[local] Hint Resolve runBatcherQueue_gone : gone.

Lemma flushBatcherQueue_gone n : respects R (flushBatcherQueue exec fuel n).
Proof using exec_gone. induction n as [|n IH]; simpl; gone_auto. Qed.
End StaysGone.

(** User code, at every depth, leaves a watcher that is gone as it is. *)
Lemma interp_gone original w n sc :
  respects (stays_gone w) (interp original n sc).
Proof.
  revert sc. induction n as [|n IH]; intros sc; simpl.
  - apply respects_out_of_fuel.
  - by apply exec_here_gone.
Qed.

(** ** A watcher that has been torn down, wherever [teardown] ran *)

Lemma stays_spent_refl w s : stays_spent w s s.
Proof. by intros H. Qed.

Lemma stays_spent_trans w s1 s2 s3 :
  stays_spent w s1 s2 -> stays_spent w s2 s3 -> stays_spent w s1 s3.
Proof.
  intros H1 H2 G1. destruct (H1 G1) as [G2 E2]. destruct (H2 G2) as [G3 E3].
  split; [done | congruence].
Qed.

Global Instance stays_spent_preorder w : PreOrder (stays_spent w).
Proof.
  split; [intros s; apply stays_spent_refl | intros s1 s2 s3; apply stays_spent_trans].
Qed.

Lemma stays_spent_frame w s s' :
  watchers s' = watchers s -> log s' = log s -> stays_spent w s s'.
Proof.
  intros HW HL (A & C). unfold spent, watcher_of.
  rewrite HW, HL. done.
Qed.

Lemma stays_spent_upd_watcher w w' f s :
  (forall x, w_active x = false -> w_cb x = None ->
             w_active (f x) = false /\ w_cb (f x) = None) ->
  stays_spent w s (upd_watcher w' f s).
Proof.
  intros Hf (A & C). split; [|done]. unfold spent.
  rewrite watcher_of_upd_watcher. destruct (decide (w = w')) as [<-|Hne].
  - destruct (Hf _ A C) as [-> ->]; done.
  - done.
Qed.

Lemma stays_spent_emit w e s :
  cb_count w e = 0 -> stays_spent w s (upd_log (fun l => l ++ [e]) s).
Proof.
  intros He G. split; [done|]. simpl. rewrite cb_total_app. simpl. lia.
Qed.

(** Closes the side conditions of a state change. *)
Ltac spent_modify :=
  intros;
  first
    [ apply stays_spent_frame; reflexivity
    | apply stays_spent_emit; reflexivity
    | apply stays_spent_emit; simpl; by rewrite bool_decide_eq_false_2
    | apply stays_spent_upd_watcher; intros; simpl; by split ].

Ltac spent_auto := respects_with spent_modify ltac:(eauto 3 with spent); eauto with spent.

Create HintDb spent discriminated.

Section StaysSpent.
Variable exec : script -> M value.
Variable original : NativeOp.
Variable fuel : nat.
Variable w : nat.
Hypothesis exec_spent : forall sc, respects (stays_spent w) (exec sc).
Local Abbreviation R := (stays_spent w).

Lemma call_user_spent sc : respects R (call_user exec sc).
Proof using exec_spent.
  intros s. unfold call_user.
  pose proof (exec_spent sc (upd_log (fun _ => []) s)) as H.
  destruct (exec sc _) as [v s1|e s1|]; [| |done]; intros G;
    (destruct H as [G1 E1]; [by destruct G as (?&?)|]);
    (split; [by destruct G1 as (?&?)|]);
    change (cb_total w (log s ++ [EvUser (log s1)]) = cb_total w (log s));
    rewrite cb_total_app;
    change (cb_total w [EvUser (log s1)]) with (cb_count w (EvUser (log s1)) + 0);
    rewrite cb_count_user; simpl in E1; lia.
Qed.
#[local] Hint Resolve call_user_spent : spent.

Lemma Dep_removeSub_spent d w' : respects R (Dep_removeSub d w').
Proof.
  unfold Dep_removeSub. refine (respects_modify _ _ _). intros s.
  by apply stays_spent_frame.
Qed.

Lemma Dep_new_spent : respects R Dep_new.
Proof.
  intros s. unfold Dep_new. by apply stays_spent_frame.
Qed.

Lemma fresh_ref_spent : respects R fresh_ref.
Proof. intros s. by apply stays_spent_frame. Qed.

Lemma alloc_spent o : respects R (alloc o).
Proof. intros s. by apply stays_spent_frame. Qed.

Lemma Observer_init_spent l : respects R (Observer_init l).
Proof.
  intros s. unfold Observer_init. by apply stays_spent_frame.
Qed.
#[local] Hint Resolve Dep_removeSub_spent Dep_new_spent fresh_ref_spent alloc_spent
  Observer_init_spent : spent.

Lemma Watcher_addDep_spent w' d : respects R (Watcher_addDep w' d).
Proof.
  unfold Watcher_addDep, Dep_addSub. spent_auto.
Qed.
#[local] Hint Resolve Watcher_addDep_spent : spent.

Lemma Dep_depend_spent d : respects R (Dep_depend d).
Proof. unfold Dep_depend. spent_auto. Qed.
#[local] Hint Resolve Dep_depend_spent : spent.

Lemma Watcher_afterGet_spent w' : respects R (Watcher_afterGet w').
Proof. unfold Watcher_afterGet. spent_auto. Qed.

Lemma Watcher_beforeGet_spent w' : respects R (Watcher_beforeGet w').
Proof. unfold Watcher_beforeGet. spent_auto. Qed.
#[local] Hint Resolve Watcher_afterGet_spent Watcher_beforeGet_spent : spent.

Lemma depend_on_element_spent e : respects R (depend_on_element e).
Proof. unfold depend_on_element. spent_auto. Qed.

Lemma is_class_spent c v : respects R (is_class c v).
Proof. unfold is_class. spent_auto. Qed.
#[local] Hint Resolve depend_on_element_spent is_class_spent : spent.

Lemma current_value_spent rec cl :
  (forall c, respects R (rec c)) -> respects R (current_value exec rec cl).
Proof using exec_spent. intros H. unfold current_value. spent_auto. Qed.
#[local] Hint Resolve current_value_spent : spent.

Lemma reactiveGetter_spent n c : respects R (reactiveGetter exec n c).
Proof using exec_spent.
  revert c. induction n as [|n IH]; intros c; simpl; spent_auto.
Qed.
#[local] Hint Resolve reactiveGetter_spent : spent.

Lemma js_get_spent o key : respects R (js_get exec fuel o key).
Proof using exec_spent. unfold js_get. spent_auto. Qed.
#[local] Hint Resolve js_get_spent : spent.

Lemma traverse_spent n top v : respects R (traverse exec fuel n top v).
Proof using exec_spent.
  revert top v. induction n as [|n IH]; intros top v; simpl; spent_auto.
Qed.
#[local] Hint Resolve traverse_spent : spent.

Lemma apply_hook_spent h v : respects R (apply_hook exec h v).
Proof using exec_spent. unfold apply_hook. spent_auto. Qed.

Lemma pushWatcher_spent w' : respects R (pushWatcher w').
Proof. unfold pushWatcher, nextTick_flush. spent_auto. Qed.
#[local] Hint Resolve apply_hook_spent pushWatcher_spent : spent.

Lemma Watcher_teardown_spent w' : respects R (Watcher_teardown w').
Proof.
  unfold Watcher_teardown. spent_auto.
Qed.
#[local] Hint Resolve Watcher_teardown_spent : spent.

Lemma Watcher_get_spent w' : respects R (Watcher_get exec fuel w').
Proof using exec_spent. unfold Watcher_get. spent_auto. Qed.
#[local] Hint Resolve Watcher_get_spent : spent.

Lemma call_cb_spent w' a b : respects R (call_cb exec w' a b).
Proof using exec_spent.
  destruct (decide (w' = w)) as [->|Hne].
  - intros s. unfold call_cb. unfold bind at 1, gets at 1.
    destruct (w_cb (watcher_of w s)) eqn:Hcb.
    + match goal with |- match ?m with _ => _ end =>
        destruct m; [| |done]; intros (_&C); congruence end.
    + apply stays_spent_refl.
  - unfold call_cb. spent_auto.
Qed.
#[local] Hint Resolve call_cb_spent : spent.

Lemma Watcher_run_spent w' : respects R (Watcher_run exec fuel w').
Proof using exec_spent. unfold Watcher_run. spent_auto. Qed.
#[local] Hint Resolve Watcher_run_spent : spent.

Lemma Watcher_update_spent w' sh : respects R (Watcher_update exec fuel w' sh).
Proof using exec_spent. unfold Watcher_update. spent_auto. Qed.
#[local] Hint Resolve Watcher_update_spent : spent.

Lemma Dep_notify_spent d : respects R (Dep_notify exec fuel d).
Proof using exec_spent. unfold Dep_notify. spent_auto. Qed.
#[local] Hint Resolve Dep_notify_spent : spent.

Lemma defineProperty_spent l key d : respects R (defineProperty l key d).
Proof. unfold defineProperty. spent_auto. Qed.
#[local] Hint Resolve defineProperty_spent : spent.

Section ObserveSpent.
Variable observe_rec : value -> M (option nat).
Hypothesis Hrec : forall v, respects R (observe_rec v).

Lemma defineReactive_spent o key v :
  respects R (defineReactive observe_rec o key v).
Proof using Hrec. unfold defineReactive. spent_auto. Qed.
#[local] Hint Resolve defineReactive_spent : spent.

Lemma Observer_observeArray_spent items :
  respects R (Observer_observeArray observe_rec items).
Proof using Hrec. unfold Observer_observeArray. spent_auto. Qed.

Lemma Observer_walk_spent ob l :
  respects R (Observer_walk exec fuel observe_rec ob l).
Proof using Hrec exec_spent. unfold Observer_walk. spent_auto. Qed.
#[local] Hint Resolve Observer_observeArray_spent Observer_walk_spent : spent.

Lemma Observer_new_spent l :
  respects R (Observer_new exec fuel observe_rec l).
Proof using Hrec exec_spent. unfold Observer_new. spent_auto. Qed.

Lemma Observer_addVm_spent ob vm : respects R (Observer_addVm ob vm).
Proof. unfold Observer_addVm. spent_auto. Qed.
#[local] Hint Resolve Observer_new_spent Observer_addVm_spent : spent.

Lemma observe_body_spent v vm :
  respects R (observe_body exec fuel observe_rec v vm).
Proof using Hrec exec_spent. unfold observe_body. spent_auto. Qed.
End ObserveSpent.

Lemma observe_spent n v vm : respects R (observe exec fuel n v vm).
Proof using exec_spent.
  revert v vm. induction n as [|n IH]; intros v vm; simpl.
  - apply respects_out_of_fuel.
  - apply observe_body_spent. intros v'. apply IH.
Qed.
#[local] Hint Resolve observe_spent : spent.

Lemma reactiveSetter_spent n c v : respects R (reactiveSetter exec fuel n c v).
Proof using exec_spent.
  revert c v. induction n as [|n IH]; intros c v; simpl; spent_auto.
Qed.
#[local] Hint Resolve reactiveSetter_spent : spent.

Lemma js_set_spent o key v : respects R (js_set exec fuel o key v).
Proof using exec_spent. unfold js_set. spent_auto. Qed.

Lemma native_call_spent a m args : respects R (native_call original a m args).
Proof. unfold native_call. spent_auto. Qed.
#[local] Hint Resolve js_set_spent native_call_spent : spent.

Lemma mutator_spent a m args : respects R (mutator exec original fuel a m args).
Proof using exec_spent.
  unfold mutator. spent_auto.
  apply Observer_observeArray_spent. intros v'. apply observe_spent.
Qed.
#[local] Hint Resolve mutator_spent : spent.

Lemma call_method_spent a m args :
  respects R (call_method exec original fuel a m args).
Proof using exec_spent. unfold call_method. spent_auto. Qed.
#[local] Hint Resolve call_method_spent : spent.

Lemma exec_here_spent sc : respects R (exec_here exec original fuel sc).
Proof using exec_spent. induction sc; simpl; spent_auto. Qed.

Lemma resetBatcherState_spent : respects R resetBatcherState.
Proof. unfold resetBatcherState. spent_auto. Qed.
#[local] Hint Resolve resetBatcherState_spent : spent.

Lemma runBatcherQueue_from_spent n user i :
  respects R (runBatcherQueue_from exec fuel n user i).
Proof using exec_spent.
  revert i. induction n as [|n IH]; intros i; simpl; spent_auto.
Qed.
#[local] Hint Resolve runBatcherQueue_from_spent : spent.

Lemma runBatcherQueue_spent n user :
  respects R (runBatcherQueue exec fuel n user).
Proof using exec_spent. unfold runBatcherQueue. destruct user; spent_auto. Qed.
#[local] Hint Resolve runBatcherQueue_spent : spent.

Lemma flushBatcherQueue_spent n : respects R (flushBatcherQueue exec fuel n).
Proof using exec_spent. induction n as [|n IH]; simpl; spent_auto. Qed.
End StaysSpent.

(** User code, at every depth, leaves a watcher that is inactive as it is
    and does not call its callback. *)
Lemma interp_spent original w n sc :
  respects (stays_spent w) (interp original n sc).
Proof.
  revert sc. induction n as [|n IH]; intros sc; simpl.
  - apply respects_out_of_fuel.
  - by apply exec_here_spent.
Qed.

Lemma for_each_removeSub w l s :
  for_each (fun d => Dep_removeSub d w) l s = Ok tt (remove_stale w ∅ l s).
Proof.
  rewrite <- (for_each_ext_modify w ∅ l s).
  revert s. induction l as [|d l IH]; intros s; simpl; [done|].
  unfold bind. rewrite bool_decide_eq_false_2 by apply not_elem_of_empty.
  destruct (Dep_removeSub d w s); [apply IH|done|done].
Qed.

Lemma Watcher_teardown_eq w v s :
  w_active (watcher_of w s) = true -> w_vm (watcher_of w s) = Some v ->
  Watcher_teardown w s = Ok tt (teardown_state w v s).
Proof.
  intros Ha Hv. unfold Watcher_teardown, teardown_state, for_each_rev.
  unfold bind at 1, gets at 1. rewrite Ha, Hv.
  unfold bind at 1. unfold bind at 1, gets at 1. unfold when.
  destruct (negb (vm_isBeingDestroyed (vm_of v s)) && negb (vm_vForRemoving (vm_of v s))).
  - unfold modify at 1. unfold bind at 1. rewrite for_each_removeSub. done.
  - unfold ret at 1. unfold bind at 1. rewrite for_each_removeSub. done.
Qed.

Lemma teardown_state_gone w v s :
  consistent w s -> target s <> Some w -> gone w (teardown_state w v s).
Proof.
  intros [Hcol Hnew] Ht. unfold teardown_state.
  match goal with |- context [remove_stale w ∅ _ ?x] => set (s1 := x) end.
  assert (watchers s1 = watchers s /\ target s1 = target s /\ deps s1 = deps s)
    as (HW1 & HT1 & HD1) by (subst s1; by destruct (_ && _)).
  set (l := rev (w_deps (watcher_of w s))).
  destruct (remove_stale_frame w ∅ l s1) as (HW & HT & _).
  unfold gone. rewrite watcher_of_upd_watcher_eq. simpl.
  split; [done|]. split; [done|]. split; [congruence|].
  intros d. change (subs_of d (upd_watcher _ _ ?x)) with (subs_of d x).
  apply occ_zero. subst l. rewrite remove_stale_occ by (apply NoDup_rev_list, Hcol).
  assert (subs_of d s1 = subs_of d s) as -> by (unfold subs_of; by rewrite HD1).
  rewrite (col_subs _ _ Hcol d), Hnew.
  repeat case_bool_decide; try lia. exfalso.
  match goal with H : ¬ (_ /\ _ /\ _) |- _ => apply H end.
  split; [done|]. split; [|apply not_elem_of_empty]. rewrite elem_of_rev.
  match goal with H : _ \/ _ |- _ => destruct H as [H|H]; [done|] end.
  by apply elem_of_nil in H.
Qed.

Lemma teardown_state_spent w v s : spent w (teardown_state w v s).
Proof.
  unfold teardown_state, spent. by rewrite watcher_of_upd_watcher_eq.
Qed.

Lemma remove_stale_other w keep l d s :
  d ∉ l -> subs_of d (remove_stale w keep l s) = subs_of d s.
Proof.
  unfold remove_stale. revert s. induction l as [|d0 l IH]; intros s Hd; simpl; [done|].
  apply not_elem_of_cons in Hd as [Hne Hd]. rewrite IH by done.
  unfold drop_stale. case_bool_decide; [done|].
  rewrite subs_of_set_subs. by destruct (decide (d = d0)).
Qed.

(** [teardown] walks [this.deps] only. *)
Lemma teardown_state_other w v s d :
  d ∉ w_deps (watcher_of w s) ->
  subs_of d (teardown_state w v s) = subs_of d s.
Proof.
  intros Hd. unfold teardown_state.
  change (subs_of d (upd_watcher _ _ ?x)) with (subs_of d x).
  rewrite remove_stale_other by (by rewrite elem_of_rev).
  by destruct (_ && _).
Qed.

Lemma teardown_state_occ w v s d :
  NoDup (w_deps (watcher_of w s)) ->
  d ∈ w_deps (watcher_of w s) ->
  occ w (subs_of d (teardown_state w v s)) = occ w (subs_of d s) - 1.
Proof.
  intros Hnd Hd. unfold teardown_state.
  change (subs_of d (upd_watcher _ _ ?x)) with (subs_of d x).
  rewrite remove_stale_occ by (by apply NoDup_rev_list).
  rewrite bool_decide_eq_true_2.
  - by destruct (_ && _).
  - split; [done|]. split; [by rewrite elem_of_rev | apply not_elem_of_empty].
Qed.


(** ** An evaluation whose getter throws *)

Section EvalError.
Variable exec : script -> M value.
Variable fuel : nat.

Lemma traverse_undefined k s :
  0 < k -> traverse exec fuel k true VUndef s
           = Ok tt (upd_seenObjects (fun _ => ∅) s).
Proof. intros Hk. destruct k; [lia|]. done. Qed.

Lemma apply_hooks_bind {B} x v (g : value -> M B) s :
  (v1 <- apply_hook exec (w_preProcess x) v;;
   v2 <- apply_hook exec (w_filters x) v1;;
   v3 <- apply_hook exec (w_postProcess x) v2;;
   g v3) s
  = (r <- apply_hooks exec x v;; g r) s.
Proof.
  unfold apply_hooks, bind.
  destruct (apply_hook _ _ _ s) as [v1 s1| |]; [|done|done].
  destruct (apply_hook _ _ v1 s1) as [v2 s2| |]; [|done|done].
  by destruct (apply_hook _ _ v2 s2).
Qed.

(** When the getter throws, [get] goes on after the [catch] with
    [undefined]: the hooks are applied to it and [afterGet] runs. *)
Lemma Watcher_get_getter_throws w s e s2 :
  exec (w_getter (watcher_of w s))
       (upd_log (fun _ => []) (upd_target (fun _ => Some w) s)) = Thrown e s2 ->
  w_deep (watcher_of w s) = false \/ 0 < fuel ->
  Watcher_get exec fuel w s
  = (v <- apply_hooks exec (watcher_of w s) VUndef;; Watcher_afterGet w;;; ret v)
      (eval_caught_state w s s2).
Proof.
  intros Hthrow Hdeep.
  unfold Watcher_get, eval_caught_state.
  unfold bind at 1, Watcher_beforeGet at 1, modify at 1.
  unfold bind at 1, gets at 1. unfold bind at 1, gets at 1.
  change (watcher_of w (upd_target _ s)) with (watcher_of w s).
  change (config (upd_target _ s)) with (config s).
  unfold bind at 1, try_catch at 1, call_user at 1. rewrite Hthrow.
  change (log (upd_target _ s)) with (log s).
  set (sw := upd_log _ s2).
  set (x := watcher_of w s).
  assert (forall sd, (when (w_deep x) (traverse exec fuel fuel true VUndef);;;
                      value <- apply_hook exec (w_preProcess x) VUndef;;
                      value0 <- apply_hook exec (w_filters x) value;;
                      value1 <- apply_hook exec (w_postProcess x) value0;;
                      Watcher_afterGet w;;; ret value1) sd
                     = (v <- apply_hooks exec x VUndef;; Watcher_afterGet w;;; ret v)
                         (if w_deep x then upd_seenObjects (fun _ => ∅) sd else sd))
    as Hrest.
  { intros sd. unfold when. unfold bind at 1.
    destruct (w_deep x) eqn:Hd.
    - destruct Hdeep as [Hf|Hf]; [unfold x in Hd; congruence|].
      rewrite traverse_undefined by done.
      apply apply_hooks_bind.
    - unfold ret at 1. apply apply_hooks_bind. }
  unfold when at 1. destruct (cfg_dev (config s)).
  - unfold bind at 1. unfold bind at 1, emit at 1, modify at 1. unfold ret at 1.
    apply Hrest.
  - unfold bind at 1. unfold bind at 1, ret at 1. unfold ret at 1. apply Hrest.
Qed.

Lemma apply_hooks_none x v s :
  w_preProcess x = None -> w_filters x = None -> w_postProcess x = None ->
  apply_hooks exec x v s = Ok v s.
Proof. intros H1 H2 H3. unfold apply_hooks. by rewrite H1, H2, H3. Qed.

Lemma runBatcherQueue_from_next n user i w sq s5 :
  queue_of user sq !! i = Some w ->
  Watcher_run exec fuel w (upd_has (fun m => delete w m) sq) = Ok tt s5 ->
  cfg_dev (config s5) = false ->
  runBatcherQueue_from exec fuel (S n) user i sq
  = runBatcherQueue_from exec fuel n user (S i) s5.
Proof.
  intros Hq Hrun Hdev. simpl. unfold bind at 1, gets at 1.
  rewrite Hq.
  unfold bind at 1, modify at 1. unfold bind at 1. rewrite Hrun.
  unfold bind at 1, gets at 1. by rewrite Hdev.
Qed.

(** C5, as the code has it.  When the getter throws, [get] catches the
    exception and goes on with [undefined]: the hooks [preProcess],
    [filters] and [postProcess] the watcher has are applied to it, and
    [afterGet] runs.  When the hooks return (a watcher that has none gets
    [undefined] back in the same world), [get] returns their result with
    [Dep.target] cleared and the dependency sets reconciled, and [run]
    treats that result as the new value: unless it counts as unchanged, it
    stores it and calls the callback with it and the previous value.  An
    exception thrown by a hook is not caught: it leaves [get] before
    [afterGet], and [run].  When [run] returns the flush goes on with the
    next watcher in the queue. *)
Theorem C5_getter_error_recovery (w : nat) (s0 : World) (e : value) (s2 : World) :
  let s := upd_log (fun l => l ++ [EvRun w]) s0 in
  let x := watcher_of w s in
  let sc := eval_caught_state w s s2 in
  exec (w_getter x)
       (upd_log (fun _ => []) (upd_target (fun _ => Some w) s)) = Thrown e s2 ->
  w_deep x = false \/ 0 < fuel ->
  w_active (watcher_of w s0) = true ->
  Watcher_get exec fuel w s
  = (v <- apply_hooks exec x VUndef;; Watcher_afterGet w;;; ret v) sc
  /\ (forall v s3,
        apply_hooks exec x VUndef sc = Ok v s3 ->
        let s4 := afterGet_state w s3 in
        let old := w_value (watcher_of w s4) in
        Watcher_get exec fuel w s = Ok v s4
        /\ target s4 = None
        /\ w_newDeps (watcher_of w s4) = []
        /\ Watcher_run exec fuel w s0
           = ((if value_changed v (watcher_of w s4)
               then modify (upd_watcher w (set_w_value v));;;
                    call_cb exec w v old
               else ret tt);;;
              modify (upd_watcher w (fun x => set_w_shallow false (set_w_queued false x))))
             s4
        /\ (forall f, strict_eq v old = false ->
              w_cb (watcher_of w s4) = Some f ->
              Watcher_run exec fuel w s0
              = (call_user exec (f v old);;;
                 modify (upd_watcher w (fun x => set_w_shallow false (set_w_queued false x))))
                (upd_log (fun l => l ++ [EvCallback w v old])
                   (upd_watcher w (set_w_value v) s4))))
  /\ (w_preProcess x = None -> w_filters x = None -> w_postProcess x = None ->
        apply_hooks exec x VUndef sc = Ok VUndef sc)
  /\ (forall e' s3,
        apply_hooks exec x VUndef sc = Thrown e' s3 ->
        Watcher_get exec fuel w s = Thrown e' s3
        /\ Watcher_run exec fuel w s0 = Thrown e' s3)
  /\ (forall n user i sq s5,
        queue_of user sq !! i = Some w ->
        s0 = upd_has (fun m => delete w m) sq ->
        Watcher_run exec fuel w s0 = Ok tt s5 ->
        cfg_dev (config s5) = false ->
        runBatcherQueue_from exec fuel (S n) user i sq
        = runBatcherQueue_from exec fuel n user (S i) s5).
Proof.
  intros s x sc Hthrow Hdeep Hact.
  pose proof (Watcher_get_getter_throws w s e s2 Hthrow Hdeep) as Hget.
  fold x sc in Hget.
  assert (forall r, Watcher_get exec fuel w s = r ->
            Watcher_run exec fuel w s0
            = match r with
              | Ok value s4 =>
                  ((if value_changed value (watcher_of w s4)
                    then modify (upd_watcher w (set_w_value value));;;
                         call_cb exec w value (w_value (watcher_of w s4))
                    else ret tt);;;
                   modify (upd_watcher w
                     (fun x => set_w_shallow false (set_w_queued false x)))) s4
              | Thrown e' s3 => Thrown e' s3
              | OutOfFuel => OutOfFuel
              end) as Hrun.
  { intros r Hr. unfold Watcher_run. unfold bind at 1, emit at 1, modify at 1. fold s.
    unfold bind at 1, gets at 1.
    change (watcher_of w s) with (watcher_of w s0). rewrite Hact.
    unfold bind at 1. rewrite Hr. destruct r; [|done|done].
    unfold bind at 1, gets at 1. done. }
  split; [done|]. split.
  { intros v s3 Hh s4 old.
    assert (Watcher_get exec fuel w s = Ok v s4) as Hg.
    { rewrite Hget. unfold bind at 1. rewrite Hh.
      unfold bind at 1. by rewrite Watcher_afterGet_eq. }
    split; [done|]. split; [apply afterGet_state_target|]. split.
    { unfold s4, afterGet_state. by rewrite watcher_of_upd_watcher_eq. }
    split; [exact (Hrun _ Hg)|].
    intros f Hne Hcb. rewrite (Hrun _ Hg). unfold value_changed. fold old.
    rewrite Hne. simpl.
    unfold bind at 1. unfold bind at 1, modify at 1. unfold call_cb.
    unfold bind at 1, gets at 1. rewrite watcher_of_upd_watcher_eq. simpl.
    rewrite Hcb. unfold bind at 1, emit at 1, modify at 1.
    unfold bind at 2. unfold bind at 1.
    destruct (call_user exec (f v old) _); done. }
  split; [apply apply_hooks_none|]. split.
  - intros e' s3 Hh.
    assert (Watcher_get exec fuel w s = Thrown e' s3) as Hg.
    { rewrite Hget. unfold bind at 1. by rewrite Hh. }
    split; [done|]. exact (Hrun _ Hg).
  - intros n user i sq s5 Hq Hs Hr Hdev. rewrite Hs in Hr.
    by apply (runBatcherQueue_from_next n user i w sq s5).
Qed.
End EvalError.

(** ** A watcher that makes itself dirty again *)

Lemma replicate_snoc (n : nat) (x : nat) : replicate n x ++ [x] = replicate (S n) x.
Proof. induction n as [|n IH]; simpl; [done|]. by rewrite IH. Qed.

Lemma lookup_replicate_last (n : nat) (x : nat) : replicate (S n) x !! n = Some x.
Proof. apply lookup_replicate_2. lia. Qed.

Lemma queue_of_upd_circular u f s : queue_of u (upd_circular f s) = queue_of u s.
Proof. by destruct u. Qed.

Lemma queue_of_upd_log u f s : queue_of u (upd_log f s) = queue_of u s.
Proof. by destruct u. Qed.

Section Runaway.
Variable exec : script -> M value.
Variable fuel : nat.
Variable Inv : World -> Prop.
Variable user : bool.
Variable w : nat.

(** Counting a run keeps [Inv]; a run of [w], made as the loop makes it,
    returns with [w] appended to its queue and nothing else changed in the
    batcher. *)
Hypothesis I_count : forall s f, Inv s -> Inv (upd_circular f s).
Hypothesis run_requeues :
  forall s, Inv s ->
    exists s', Watcher_run exec fuel w (upd_has (fun m => delete w m) s) = Ok tt s'
      /\ Inv s'
      /\ queue_of user s' = queue_of user s ++ [w]
      /\ queue_of (negb user) s' = queue_of (negb user) s
      /\ config s' = config s
      /\ circular s' = circular s.

Lemma spinning_production n i cfg s :
  cfg_dev cfg = false -> spinning Inv user w i cfg s ->
  runBatcherQueue_from exec fuel n user i s = OutOfFuel.
Proof.
  intros Hdev. revert i s. induction n as [|n IH]; intros i s [HI Hq Ho Hc Hn]; [done|].
  simpl. unfold bind at 1, gets at 1. rewrite Hq, lookup_replicate_last.
  unfold bind at 1, modify at 1.
  destruct (run_requeues s HI) as (s' & E & HI' & Hq' & Ho' & Hc' & Hn').
  unfold bind at 1. rewrite E. unfold bind at 1, gets at 1.
  rewrite Hc', Hc, Hdev. apply (IH (S i)).
  constructor; try done.
  - by rewrite Hq', Hq, replicate_snoc.
  - by rewrite Ho'.
  - congruence.
  - intros H. congruence.
Qed.

Lemma spinning_development k : forall i cfg s n,
  cfg_dev cfg = true -> cfg_maxUpdateCount cfg = i + k -> k < n ->
  spinning Inv user w i cfg s ->
  exists s', runBatcherQueue_from exec fuel n user i s = Ok tt s'
    /\ circular s' !! w = Some (S (cfg_maxUpdateCount cfg))
    /\ last (log s') = Some (EvWarn w)
    /\ queue_of (negb user) s' = []
    /\ config s' = cfg.
Proof.
  induction k as [|k IH]; intros i cfg s n Hdev Hmax Hn [HI Hq Ho Hc Hcount];
    (destruct n as [|n]; [lia|]);
    simpl; unfold bind at 1, gets at 1; rewrite Hq, lookup_replicate_last;
    unfold bind at 1, modify at 1;
    destruct (run_requeues s HI) as (s' & E & HI' & Hq' & Ho' & Hc' & Hn');
    unfold bind at 1; rewrite E; unfold bind at 1, gets at 1;
    rewrite Hc', Hc, Hdev;
    unfold bind at 1, modify at 1; unfold bind at 1, gets at 1;
    rewrite Hmax; simpl; rewrite lookup_insert_eq; simpl;
    rewrite Hn', (Hcount Hdev).
  - rewrite (bool_decide_eq_true_2 (i + 0 < i + 1)) by lia. unfold emit, modify.
    eexists. split; [done|]. simpl. rewrite lookup_insert_eq.
    split; [rewrite Hn', (Hcount Hdev); f_equal; lia|]. split; [by rewrite last_snoc|].
    split; [by rewrite queue_of_upd_log, queue_of_upd_circular, Ho', Ho | simpl; congruence].
  - rewrite (bool_decide_eq_false_2 (i + S k < i + 1)) by lia.
    match goal with |- context [runBatcherQueue_from _ _ _ _ _ ?s1] =>
      destruct (IH (S i) cfg s1 n Hdev) as (s2 & E2 & H2); [lia | lia | |] end.
    + constructor.
      * by apply I_count.
      * by rewrite queue_of_upd_circular, Hq', Hq, replicate_snoc.
      * by rewrite queue_of_upd_circular, Ho', Ho.
      * simpl. congruence.
      * intros _. simpl. rewrite lookup_insert_eq. simpl. rewrite Hn', (Hcount Hdev). lia.
    + exists s2. split; [done|]. rewrite Hmax in H2. exact H2.
Qed.

Lemma runBatcherQueue_empty n u s :
  0 < n -> queue_of u s = [] -> runBatcherQueue exec fuel n u s = Ok tt s.
Proof.
  intros Hn Hq. destruct n; [lia|]. unfold runBatcherQueue. simpl.
  unfold bind at 1. unfold bind at 1, gets at 1. rewrite Hq. simpl.
  unfold ret, modify. f_equal.
  destruct s, u; simpl in *; by subst.
Qed.

(** Without the guard the loop over a spinning watcher uses up any fuel, and
    so does the flush. *)
Lemma spinning_flush_production s :
  cfg_dev (config s) = false -> spinning Inv user w 0 (config s) s ->
  forall n, runBatcherQueue exec fuel n user s = OutOfFuel
            /\ flushBatcherQueue exec fuel n s = OutOfFuel.
Proof.
  intros Hdev Hspin n.
  assert (runBatcherQueue exec fuel n user s = OutOfFuel) as Hloop.
  { unfold runBatcherQueue. unfold bind.
    by rewrite (spinning_production n 0 (config s) s Hdev Hspin). }
  split; [done|]. destruct n as [|n']; [done|]. simpl.
  destruct Hspin as [_ _ Hother _ _].
  destruct user eqn:Hu.
  - unfold bind at 1. rewrite (runBatcherQueue_empty (S n') false s) by (lia || done).
    unfold bind at 1. by rewrite Hloop.
  - unfold bind at 1. by rewrite Hloop.
Qed.

(** C4, as the code has it.  In the bundle, a production build, the guard
    of [runBatcherQueue] is dead code: the loop over a watcher that queues
    itself again on every run never ends, and neither does the flush.  With
    the guard compiled in, the loop stops with a warning when the count of
    runs of the watcher exceeds [_maxUpdateCount], that is after one run
    more than the threshold, and the flush returns with the batcher
    reset. *)
Theorem C4_runaway_update_guard (s : World)
    (Hspin : spinning Inv user w 0 (config s) s) :
  (if cfg_dev (config s)
   then forall n, cfg_maxUpdateCount (config s) < n ->
        (exists s1, runBatcherQueue exec fuel n user s = Ok tt s1
           /\ circular s1 !! w = Some (S (cfg_maxUpdateCount (config s)))
           /\ last (log s1) = Some (EvWarn w)
           /\ queue_of user s1 = [])
        /\ (exists s2, flushBatcherQueue exec fuel n s = Ok tt s2
              /\ queue s2 = [] /\ userQueue s2 = [] /\ waiting s2 = false)
   else forall n, runBatcherQueue exec fuel n user s = OutOfFuel
                  /\ flushBatcherQueue exec fuel n s = OutOfFuel)
  /\ cfg_dev production = false
  /\ cfg_maxUpdateCount production = 100.
Proof.
  split; [|done].
  destruct (cfg_dev (config s)) eqn:Hdev.
  - intros n Hn.
    destruct (spinning_development (cfg_maxUpdateCount (config s)) 0 (config s) s n
                Hdev eq_refl Hn Hspin) as (s' & E & Hc & Hl & Ho & Hcfg).
    assert (exists s1, runBatcherQueue exec fuel n user s = Ok tt s1
              /\ circular s1 !! w = Some (S (cfg_maxUpdateCount (config s)))
              /\ last (log s1) = Some (EvWarn w)
              /\ queue_of user s1 = [] /\ queue_of (negb user) s1 = [])
      as (s1 & E1 & Hc1 & Hl1 & Hq1 & Ho1).
    { unfold runBatcherQueue. unfold bind. rewrite E. unfold modify.
      eexists. split; [done|]. destruct user; simpl in *; done. }
    split; [by exists s1|].
    destruct n as [|n']; [lia|]. simpl.
    destruct Hspin as [_ _ Hother _ _].
    destruct user eqn:Hu.
    + (* a user watcher: the primary queue is empty *)
      unfold bind at 1. rewrite (runBatcherQueue_empty (S n') false s) by (lia || done).
      unfold bind at 1. rewrite E1. unfold bind at 1, gets at 1.
      simpl in Ho1. rewrite Ho1. unfold resetBatcherState, modify.
      eexists. by split.
    + unfold bind at 1. rewrite E1.
      unfold bind at 1. rewrite (runBatcherQueue_empty (S n') true s1) by (lia || done).
      unfold bind at 1, gets at 1. simpl in Hq1. rewrite Hq1.
      unfold resetBatcherState, modify. eexists. by split.
  - by apply spinning_flush_production.
Qed.
End Runaway.

(** ** The queues only grow while user code runs *)

Global Instance queues_grow_preorder : PreOrder queues_grow.
Proof.
  split.
  - intros s. by repeat split.
  - intros s1 s2 s3 (H1 & H2 & H3) (H4 & H5 & H6).
    split; [by etrans|]. split; [by etrans | congruence].
Qed.

Lemma queues_grow_queue_of u s s' :
  queues_grow s s' -> queue_of u s `prefix_of` queue_of u s'.
Proof. intros (H1 & H2 & _). by destruct u. Qed.

Ltac grow_modify :=
  intros; split; [|split]; simpl; first [reflexivity | by apply prefix_app_r].
Ltac grow_auto :=
  respects_with grow_modify ltac:(eauto 3 with grow); eauto with grow.

Create HintDb grow discriminated.

Section QueuesGrow.
Variable exec : script -> M value.
Variable original : NativeOp.
Variable fuel : nat.
Hypothesis exec_grow : forall sc, respects queues_grow (exec sc).
Local Abbreviation R := queues_grow.

Lemma call_user_grow sc : respects R (call_user exec sc).
Proof.
  intros s. unfold call_user.
  pose proof (exec_grow sc (upd_log (fun _ => []) s)) as H.
  destruct (exec sc _) as [v s1|e s1|]; done.
Qed.
#[local] Hint Resolve call_user_grow : grow.

Lemma Dep_new_grow : respects R Dep_new.
Proof. intros s. by repeat split. Qed.
Lemma fresh_ref_grow : respects R fresh_ref.
Proof. intros s. by repeat split. Qed.
Lemma alloc_grow o : respects R (alloc o).
Proof. intros s. by repeat split. Qed.
Lemma Observer_init_grow l : respects R (Observer_init l).
Proof. intros s. by repeat split. Qed.
#[local] Hint Resolve Dep_new_grow fresh_ref_grow alloc_grow Observer_init_grow : grow.

Lemma Dep_removeSub_grow d w' : respects R (Dep_removeSub d w').
Proof. unfold Dep_removeSub. grow_auto. Qed.
Lemma Dep_addSub_grow d w' : respects R (Dep_addSub d w').
Proof. unfold Dep_addSub. grow_auto. Qed.
#[local] Hint Resolve Dep_removeSub_grow Dep_addSub_grow : grow.

Lemma Watcher_addDep_grow w' d : respects R (Watcher_addDep w' d).
Proof. unfold Watcher_addDep. grow_auto. Qed.
#[local] Hint Resolve Watcher_addDep_grow : grow.

Lemma Dep_depend_grow d : respects R (Dep_depend d).
Proof. unfold Dep_depend. grow_auto. Qed.
#[local] Hint Resolve Dep_depend_grow : grow.

Lemma Watcher_afterGet_grow w' : respects R (Watcher_afterGet w').
Proof. unfold Watcher_afterGet. grow_auto. Qed.
Lemma Watcher_beforeGet_grow w' : respects R (Watcher_beforeGet w').
Proof. unfold Watcher_beforeGet. grow_auto. Qed.
#[local] Hint Resolve Watcher_afterGet_grow Watcher_beforeGet_grow : grow.

Lemma depend_on_element_grow e : respects R (depend_on_element e).
Proof. unfold depend_on_element. grow_auto. Qed.
Lemma is_class_grow c v : respects R (is_class c v).
Proof. unfold is_class. grow_auto. Qed.
#[local] Hint Resolve depend_on_element_grow is_class_grow : grow.

Lemma current_value_grow rec cl :
  (forall c, respects R (rec c)) -> respects R (current_value exec rec cl).
Proof. intros H. unfold current_value. grow_auto. Qed.
#[local] Hint Resolve current_value_grow : grow.

Lemma reactiveGetter_grow n c : respects R (reactiveGetter exec n c).
Proof. revert c. induction n as [|n IH]; intros c; simpl; grow_auto. Qed.
#[local] Hint Resolve reactiveGetter_grow : grow.

Lemma js_get_grow o key : respects R (js_get exec fuel o key).
Proof. unfold js_get. grow_auto. Qed.
#[local] Hint Resolve js_get_grow : grow.

Lemma traverse_grow n top v : respects R (traverse exec fuel n top v).
Proof. revert top v. induction n as [|n IH]; intros top v; simpl; grow_auto. Qed.
#[local] Hint Resolve traverse_grow : grow.

Lemma apply_hook_grow h v : respects R (apply_hook exec h v).
Proof. unfold apply_hook. grow_auto. Qed.
Lemma pushWatcher_grow w' : respects R (pushWatcher w').
Proof. unfold pushWatcher, nextTick_flush. grow_auto. Qed.
#[local] Hint Resolve apply_hook_grow pushWatcher_grow : grow.

Lemma Watcher_teardown_grow w' : respects R (Watcher_teardown w').
Proof. unfold Watcher_teardown. grow_auto. Qed.
#[local] Hint Resolve Watcher_teardown_grow : grow.

Lemma Watcher_get_grow w' : respects R (Watcher_get exec fuel w').
Proof. unfold Watcher_get. grow_auto. Qed.
#[local] Hint Resolve Watcher_get_grow : grow.

Lemma call_cb_grow w' a b : respects R (call_cb exec w' a b).
Proof. unfold call_cb. grow_auto. Qed.
#[local] Hint Resolve call_cb_grow : grow.

Lemma Watcher_run_grow w' : respects R (Watcher_run exec fuel w').
Proof. unfold Watcher_run. grow_auto. Qed.
#[local] Hint Resolve Watcher_run_grow : grow.

Lemma Watcher_update_grow w' sh : respects R (Watcher_update exec fuel w' sh).
Proof. unfold Watcher_update. grow_auto. Qed.
#[local] Hint Resolve Watcher_update_grow : grow.

Lemma Dep_notify_grow d : respects R (Dep_notify exec fuel d).
Proof. unfold Dep_notify. grow_auto. Qed.
#[local] Hint Resolve Dep_notify_grow : grow.

Lemma defineProperty_grow l key d : respects R (defineProperty l key d).
Proof. unfold defineProperty. grow_auto. Qed.
#[local] Hint Resolve defineProperty_grow : grow.

Section ObserveGrow.
Variable observe_rec : value -> M (option nat).
Hypothesis Hrec : forall v, respects R (observe_rec v).

Lemma defineReactive_grow o key v :
  respects R (defineReactive observe_rec o key v).
Proof using Hrec. unfold defineReactive. grow_auto. Qed.
#[local] Hint Resolve defineReactive_grow : grow.

Lemma Observer_observeArray_grow items :
  respects R (Observer_observeArray observe_rec items).
Proof using Hrec. unfold Observer_observeArray. grow_auto. Qed.

Lemma Observer_walk_grow ob l :
  respects R (Observer_walk exec fuel observe_rec ob l).
Proof using Hrec exec_grow. unfold Observer_walk. grow_auto. Qed.
#[local] Hint Resolve Observer_observeArray_grow Observer_walk_grow : grow.

Lemma Observer_new_grow l :
  respects R (Observer_new exec fuel observe_rec l).
Proof using Hrec exec_grow. unfold Observer_new. grow_auto. Qed.

Lemma Observer_addVm_grow ob vm : respects R (Observer_addVm ob vm).
Proof. unfold Observer_addVm. grow_auto. Qed.
#[local] Hint Resolve Observer_new_grow Observer_addVm_grow : grow.

Lemma observe_body_grow v vm :
  respects R (observe_body exec fuel observe_rec v vm).
Proof using Hrec exec_grow. unfold observe_body. grow_auto. Qed.
End ObserveGrow.

Lemma observe_grow n v vm : respects R (observe exec fuel n v vm).
Proof.
  revert v vm. induction n as [|n IH]; intros v vm; simpl.
  - apply respects_out_of_fuel.
  - apply observe_body_grow. intros v'. apply IH.
Qed.
#[local] Hint Resolve observe_grow : grow.

Lemma reactiveSetter_grow n c v : respects R (reactiveSetter exec fuel n c v).
Proof. revert c v. induction n as [|n IH]; intros c v; simpl; grow_auto. Qed.
#[local] Hint Resolve reactiveSetter_grow : grow.

Lemma js_set_grow o key v : respects R (js_set exec fuel o key v).
Proof. unfold js_set. grow_auto. Qed.
Lemma native_call_grow a m args : respects R (native_call original a m args).
Proof. unfold native_call. grow_auto. Qed.
#[local] Hint Resolve js_set_grow native_call_grow : grow.

Lemma mutator_grow a m args : respects R (mutator exec original fuel a m args).
Proof.
  unfold mutator. grow_auto.
  apply Observer_observeArray_grow. intros v'. apply observe_grow.
Qed.
#[local] Hint Resolve mutator_grow : grow.

Lemma call_method_grow a m args :
  respects R (call_method exec original fuel a m args).
Proof. unfold call_method. grow_auto. Qed.
#[local] Hint Resolve call_method_grow : grow.

Lemma exec_here_grow sc : respects R (exec_here exec original fuel sc).
Proof. induction sc; simpl; grow_auto. Qed.
End QueuesGrow.

Lemma interp_grow original n sc : respects queues_grow (interp original n sc).
Proof.
  revert sc. induction n as [|n IH]; intros sc; simpl.
  - apply respects_out_of_fuel.
  - by apply exec_here_grow.
Qed.

(** ** Scheduling *)

Lemma pushWatcher_queued w i s : has s !! w = Some i -> pushWatcher w s = Ok tt s.
Proof. intros H. unfold pushWatcher. munfold. by rewrite H. Qed.

Lemma pushWatcher_fresh w s :
  has s !! w = None ->
  exists s', pushWatcher w s = Ok tt s'
    /\ scheduling_only s s'
    /\ queue_of (w_user (watcher_of w s)) s'
       = queue_of (w_user (watcher_of w s)) s ++ [w]
    /\ queue_of (negb (w_user (watcher_of w s))) s'
       = queue_of (negb (w_user (watcher_of w s))) s
    /\ has s' !! w = Some (length (queue_of (w_user (watcher_of w s)) s))
    /\ waiting s' = true
    /\ ticks s' = (if waiting s then ticks s else S (ticks s))
    /\ log s' = log s.
Proof.
  intros H. unfold pushWatcher, nextTick_flush. munfold. rewrite H.
  destruct (w_user (watcher_of w s)); simpl;
    destruct (waiting s) eqn:Hw; simpl; eexists; (split; [done|]);
    simpl; rewrite ?lookup_insert_eq; repeat split; done.
Qed.

Section Batching.
Variable exec : script -> M value.
Variable fuel : nat.

Lemma Watcher_update_batched w sh s :
  batched w s = true ->
  Watcher_update exec fuel w sh s
  = pushWatcher w
      (upd_watcher w (fun x =>
           set_w_queued true
             (set_w_shallow (if w_queued x then (if sh then w_shallow x else false)
                             else sh) x))
         (upd_log (fun l => l ++ [EvUpdate w]) s)).
Proof.
  unfold batched. intros H. apply andb_true_iff in H as [H Ha].
  apply andb_true_iff in H as [Hl Hs]. apply negb_true_iff in Hl, Hs.
  unfold Watcher_update. munfold. simpl.
  change (watcher_of w (upd_log _ s)) with (watcher_of w s).
  by rewrite Hl, Hs, Ha.
Qed.

(** [k] further triggers of a watcher that is already queued change
    nothing in the batcher. *)
Lemma triggers_queued k w s i :
  batched w s = true -> has s !! w = Some i ->
  exists s', for_each (fun x => Watcher_update exec fuel x false) (replicate k w) s
             = Ok tt s'
    /\ scheduling_only s s'
    /\ queue s' = queue s /\ userQueue s' = userQueue s /\ has s' = has s
    /\ waiting s' = waiting s /\ ticks s' = ticks s.
Proof.
  revert s. induction k as [|k IH]; intros s Hb Hh; simpl.
  - exists s. split; [done|]. split; [apply scheduling_only_refl|done].
  - unfold bind at 1. rewrite Watcher_update_batched by done.
    match goal with |- context [pushWatcher w ?s0] => set (s1 := s0) end.
    assert (scheduling_only s s1) as HS1.
    { subst s1. eapply scheduling_only_trans;
        [|apply scheduling_only_upd_watcher; done]. by repeat split. }
    rewrite (pushWatcher_queued w i s1) by done.
    destruct (IH s1) as (s' & E & HS & Hq & Hu & Hha & Hw & Ht).
    { unfold batched in *. destruct HS1 as (_&_&_&_&_&Hc&_&Hw).
      rewrite Hc. pose proof (f_equal w_lazy (Hw w)) as H1.
      pose proof (f_equal w_sync (Hw w)) as H2.
      unfold unscheduled, set_w_dirty, set_w_queued, set_w_shallow in H1, H2.
      simpl in H1, H2. by rewrite H1, H2. }
    { done. }
    exists s'. split; [done|]. split; [by eapply scheduling_only_trans|].
    by rewrite Hq, Hu, Hha, Hw, Ht.
Qed.

(** [N] triggers of a watcher that is not queued yet queue it once. *)
Lemma triggers_fresh N w s :
  0 < N -> batched w s = true -> has s !! w = None ->
  let u := w_user (watcher_of w s) in
  exists s', for_each (fun x => Watcher_update exec fuel x false) (replicate N w) s
             = Ok tt s'
    /\ scheduling_only s s'
    /\ queue_of u s' = queue_of u s ++ [w]
    /\ queue_of (negb u) s' = queue_of (negb u) s
    /\ has s' !! w = Some (length (queue_of u s))
    /\ waiting s' = true
    /\ ticks s' = (if waiting s then ticks s else S (ticks s)).
Proof.
  intros HN Hb Hh u. destruct N as [|k]; [lia|]. simpl.
  unfold bind at 1. rewrite Watcher_update_batched by done.
  match goal with |- context [pushWatcher w ?s0] => set (s1 := s0) end.
  assert (scheduling_only s s1) as HS1.
  { subst s1. eapply scheduling_only_trans;
      [|apply scheduling_only_upd_watcher; done]. by repeat split. }
  assert (w_user (watcher_of w s1) = u) as Hu1.
  { subst s1 u. rewrite watcher_of_upd_watcher_eq. done. }
  destruct (pushWatcher_fresh w s1) as (s2 & E2 & HS2 & Hq2 & Ho2 & Hh2 & Hw2 & Ht2 & _);
    [done|]. rewrite Hu1 in *. rewrite E2.
  assert (batched w s2 = true) as Hb2.
  { unfold batched in *. pose proof (scheduling_only_trans _ _ _ HS1 HS2) as HS.
    destruct HS as (_&_&_&_&_&Hc&_&Hw). rewrite Hc.
    pose proof (f_equal w_lazy (Hw w)) as H1.
    pose proof (f_equal w_sync (Hw w)) as H2.
    unfold unscheduled, set_w_dirty, set_w_queued, set_w_shallow in H1, H2.
    simpl in H1, H2. by rewrite H1, H2. }
  destruct (triggers_queued k w s2 _ Hb2 Hh2) as (s' & E & HS & Hq & Huq & Hha & Hw & Ht).
  exists s'. split; [done|].
  split; [eapply scheduling_only_trans; [|exact HS]; by eapply scheduling_only_trans|].
  assert (forall b, queue_of b s' = queue_of b s2) as Hqo
    by (intros []; simpl; done).
  assert (forall b, queue_of b s1 = queue_of b s) as Hq1 by (by intros []).
  rewrite !Hqo, Hq2, Ho2, !Hq1, Hha, Hh2, Hq1, Hw, Ht, Hw2, Ht2. done.
Qed.
End Batching.

Section Flush.
Variable exec : script -> M value.
Variable fuel : nat.

Lemma Watcher_run_log w s :
  match Watcher_run exec fuel w s with
  | Ok _ s' | Thrown _ s' =>
      exists l, log s' = log s ++ EvRun w :: l /\ List.filter is_run l = []
  | OutOfFuel => True
  end.
Proof.
  unfold Watcher_run. unfold bind at 1, emit at 1, modify at 1.
  match goal with |- match ?m ?s0 with _ => _ end =>
    assert (Hm : emits (allowed none none (only w) none false false) m)
      by emits_auto;
    specialize (Hm s0); destruct (m s0) as [a s1|e s1|]; [| |done] end;
    destruct Hm as (l & E & F); exists l; simpl in E;
    (split; [by rewrite E, <- app_assoc
            | eapply filter_none; [|exact F]; by intros []]).
Qed.

(** One pass of the production build over a queue: the watchers are run in
    the order of the queue, those that the runs append included. *)
Lemma runBatcherQueue_from_fifo n user i s :
  (forall sc, respects queues_grow (exec sc)) ->
  cfg_dev (config s) = false ->
  match runBatcherQueue_from exec fuel n user i s with
  | Ok _ s' =>
      queues_grow s s'
      /\ exists l, log s' = log s ++ l
           /\ List.filter is_run l = map EvRun (drop i (queue_of user s'))
  | _ => True
  end.
Proof.
  intros Hexec. revert i s. induction n as [|n IH]; intros i s Hdev; [done|].
  simpl. unfold bind at 1, gets at 1.
  destruct (queue_of user s !! i) as [w|] eqn:Hq.
  - unfold bind at 1, modify at 1. unfold bind at 1.
    set (s0 := upd_has _ s).
    pose proof (Watcher_run_log w s0) as Hlog.
    pose proof (Watcher_run_grow exec fuel Hexec w s0) as Hgrow.
    destruct (Watcher_run exec fuel w s0) as [[] s1|e s1|]; [|done|done].
    destruct Hlog as (l1 & E1 & F1).
    assert (queues_grow s s1) as Hg1 by (destruct Hgrow as (?&?&?); by repeat split).
    assert (cfg_dev (config s1) = false) as Hdev1
      by (destruct Hg1 as (_&_&->); done).
    unfold bind at 1, gets at 1. rewrite Hdev1.
    specialize (IH (S i) s1 Hdev1).
    destruct (runBatcherQueue_from exec fuel n user (S i) s1) as [[] s2|e s2|];
      [|done|done].
    destruct IH as (Hg2 & l2 & E2 & F2).
    assert (queues_grow s s2) as Hg by (by etrans).
    split; [done|]. exists (EvRun w :: l1 ++ l2).
    split; [by rewrite E2, E1, <- app_assoc|].
    simpl. rewrite List.filter_app, F1, F2. simpl.
    assert (queue_of user s2 !! i = Some w) as Hi.
    { eapply prefix_lookup_Some; [exact Hq|]. by apply queues_grow_queue_of. }
    by rewrite (drop_S _ _ _ Hi).
  - unfold ret. split; [reflexivity|]. exists []. rewrite app_nil_r.
    split; [done|]. apply lookup_ge_None in Hq. by rewrite drop_ge.
Qed.

(** A flush that returns leaves the batcher as [resetBatcherState] makes
    it. *)
Lemma flushBatcherQueue_resets n s s' :
  flushBatcherQueue exec fuel n s = Ok tt s' ->
  queue s' = [] /\ userQueue s' = [] /\ has s' = ∅ /\ circular s' = ∅
  /\ waiting s' = false.
Proof.
  revert s. induction n as [|n IH]; intros s; [done|]. simpl.
  intros H. apply bind_inv_ok in H as ([] & s1 & _ & H).
  apply bind_inv_ok in H as ([] & s2 & _ & H).
  unfold bind, gets in H. destruct (queue s2).
  - unfold resetBatcherState, modify in H. by injection H as <-.
  - by apply IH in H.
Qed.

(** A flush of the production build that returns: a pass over the primary
    queue, the queue is emptied, a pass over the user queue, which is
    emptied; the watchers run are those of the primary queue, then those of
    the user queue, in order; then the batcher is reset, or the flush starts
    again when the second pass has put watchers in the primary queue. *)
Lemma flushBatcherQueue_passes n s s' :
  (forall sc, respects queues_grow (exec sc)) ->
  cfg_dev (config s) = false ->
  flushBatcherQueue exec fuel (S n) s = Ok tt s' ->
  exists s1 s2,
    runBatcherQueue_from exec fuel (S n) false 0 s = Ok tt s1
    /\ runBatcherQueue_from exec fuel (S n) true 0 (upd_queue (fun _ => []) s1)
       = Ok tt s2
    /\ List.filter is_run (new_events s s2) = map EvRun (queue s1 ++ userQueue s2)
    /\ match queue s2 with
       | [] => resetBatcherState (upd_userQueue (fun _ => []) s2) = Ok tt s'
       | _ :: _ =>
           flushBatcherQueue exec fuel n (upd_userQueue (fun _ => []) s2) = Ok tt s'
       end.
Proof.
  intros Hexec Hdev H.
  change (flushBatcherQueue exec fuel (S n))
    with (runBatcherQueue exec fuel (S n) false;;;
          runBatcherQueue exec fuel (S n) true;;;
          q <- gets queue;;
          match q with
          | _ :: _ => flushBatcherQueue exec fuel n
          | [] => resetBatcherState
          end) in H.
  apply bind_inv_ok in H as ([] & sa & Ha & H).
  apply bind_inv_ok in H as ([] & sb & Hb & H).
  unfold runBatcherQueue in Ha, Hb.
  apply bind_inv_ok in Ha as ([] & s1 & E1 & Ha).
  apply bind_inv_ok in Hb as ([] & s2 & E2 & Hb).
  unfold modify in Ha, Hb. injection Ha as <-. injection Hb as <-.
  exists s1, s2. split; [done|]. split; [done|].
  pose proof (runBatcherQueue_from_fifo (S n) false 0 s Hexec Hdev) as F1.
  rewrite E1 in F1. destruct F1 as (G1 & l1 & L1 & F1).
  assert (cfg_dev (config (upd_queue (fun _ => []) s1)) = false) as Hdev1.
  { simpl. by destruct G1 as (_ & _ & ->). }
  pose proof (runBatcherQueue_from_fifo (S n) true 0 _ Hexec Hdev1) as F2.
  rewrite E2 in F2. destruct F2 as (G2 & l2 & L2 & F2).
  rewrite drop_0 in F1, F2. simpl in F1, F2, L2.
  split.
  - rewrite (new_events_app s s2 (l1 ++ l2)).
    + by rewrite List.filter_app, F1, F2, map_app.
    + by rewrite L2, L1, app_assoc.
  - unfold bind, gets in H. simpl in H. by destruct (queue s2).
Qed.

(** The callback in a [run]: called once with the value [get] returned and
    the previous one when the value counts as changed, not called
    otherwise. *)
Lemma Watcher_run_callbacks w s v sg :
  w_active (watcher_of w s) = true ->
  Watcher_get exec fuel w (upd_log (fun l => l ++ [EvRun w]) s) = Ok v sg ->
  match Watcher_run exec fuel w s with
  | Ok _ s' =>
      List.filter is_callback (new_events s s')
      = if value_changed v (watcher_of w sg)
        then [EvCallback w v (w_value (watcher_of w sg))]
        else []
  | _ => True
  end.
Proof.
  intros Ha Hget. unfold Watcher_run.
  unfold bind at 1, emit at 1, modify at 1. unfold bind at 1, gets at 1.
  change (watcher_of w (upd_log _ s)) with (watcher_of w s). rewrite Ha.
  unfold bind at 1. rewrite Hget. unfold bind at 1, gets at 1.
  pose proof (Watcher_get_emits exec fuel none none none none false false w
                (upd_log (fun l => l ++ [EvRun w]) s)) as Hg.
  rewrite Hget in Hg. destruct Hg as (l1 & E1 & F1). simpl in E1.
  assert (List.filter is_callback l1 = []) as F1'
    by (eapply filter_none; [|exact F1]; by intros []).
  fold (value_changed v (watcher_of w sg)).
  destruct (value_changed v (watcher_of w sg)).
  - unfold bind at 1. unfold bind at 1, modify at 1. unfold call_cb.
    unfold bind at 1, gets at 1. rewrite watcher_of_upd_watcher_eq. simpl.
    destruct (w_cb (watcher_of w sg)) as [cb|]; [|done].
    unfold bind at 1, emit at 1, modify at 1. unfold bind at 1.
    match goal with |- context [call_user exec ?sc ?s0] =>
      pose proof (emits_call_user (allowed none none none none false false) exec sc
                    (allowed_user _ _ _ _ _ _) s0) as Hu;
      destruct (call_user exec sc s0) as [r s2|e s2|]; [|done|done] end.
    unfold ret at 1. unfold modify. destruct Hu as (l2 & E2 & F2). simpl in E2.
    assert (List.filter is_callback l2 = []) as F2'
      by (eapply filter_none; [|exact F2]; by intros []).
    rewrite (new_events_app s _
               (EvRun w :: l1 ++ EvCallback w v (w_value (watcher_of w sg)) :: l2)).
    + simpl. rewrite List.filter_app, F1'. simpl. by rewrite F2'.
    + simpl. rewrite E2, E1. by rewrite <- !app_assoc.
  - unfold bind at 1, ret at 1. unfold modify.
    rewrite (new_events_app s _ (EvRun w :: l1)).
    + simpl. by rewrite F1'.
    + simpl. rewrite E1. by rewrite <- app_assoc.
Qed.
End Flush.

(** C2, as the code has it.  However many times a batched watcher is
    triggered before the flush, it is queued once ([pushWatcher] does
    nothing for a watcher that [has] records) and one flush is scheduled.
    A pass of the flush runs the watchers of its queue in the order they
    were queued, those appended by the runs included: a watcher is run as
    many times as it stands in the queue.  The pass forgets the watcher in
    [has] before it runs it, so that an [update] from then on queues the
    watcher again.  A flush that returns has made a pass over the primary
    queue, then one over the user queue, has started again if the primary
    queue was not empty then, and has ended with the batcher reset.  A run
    evaluates the watcher then, after every trigger, and calls the callback
    with that value and the previous one when the value counts as changed;
    it does not call it when the value is unchanged. *)
Theorem C2_batching_and_deduplication (original : NativeOp) (k fuel w : nat) :
  let exec := interp original k in
  (forall N s, 0 < N -> batched w s = true -> has s !! w = None ->
     let u := w_user (watcher_of w s) in
     exists s',
       for_each (fun x => Watcher_update exec fuel x false) (replicate N w) s
       = Ok tt s'
       /\ queue_of u s' = queue_of u s ++ [w]
       /\ queue_of (negb u) s' = queue_of (negb u) s
       /\ has s' !! w = Some (length (queue_of u s))
       /\ waiting s' = true
       /\ ticks s' = (if waiting s then ticks s else S (ticks s)))
  /\ (forall s i, has s !! w = Some i -> pushWatcher w s = Ok tt s)
  /\ (forall n user s, cfg_dev (config s) = false ->
        match runBatcherQueue_from exec fuel n user 0 s with
        | Ok _ s' =>
            queue_of user s `prefix_of` queue_of user s'
            /\ List.filter is_run (new_events s s') = map EvRun (queue_of user s')
        | _ => True
        end)
  /\ (forall s, batched w s = true ->
        let u := w_user (watcher_of w s) in
        exists s',
          Watcher_update exec fuel w false (upd_has (fun m => delete w m) s)
          = Ok tt s'
          /\ queue_of u s' = queue_of u s ++ [w])
  /\ (forall n s s', cfg_dev (config s) = false ->
        flushBatcherQueue exec fuel (S n) s = Ok tt s' ->
        exists s1 s2,
          runBatcherQueue_from exec fuel (S n) false 0 s = Ok tt s1
          /\ runBatcherQueue_from exec fuel (S n) true 0
               (upd_queue (fun _ => []) s1) = Ok tt s2
          /\ List.filter is_run (new_events s s2)
             = map EvRun (queue s1 ++ userQueue s2)
          /\ match queue s2 with
             | [] => resetBatcherState (upd_userQueue (fun _ => []) s2) = Ok tt s'
             | _ :: _ =>
                 flushBatcherQueue exec fuel n (upd_userQueue (fun _ => []) s2)
                 = Ok tt s'
             end)
  /\ (forall n s s', flushBatcherQueue exec fuel n s = Ok tt s' ->
        queue s' = [] /\ userQueue s' = [] /\ has s' = ∅ /\ waiting s' = false)
  /\ (forall s v sg,
        w_active (watcher_of w s) = true ->
        Watcher_get exec fuel w (upd_log (fun l => l ++ [EvRun w]) s) = Ok v sg ->
        match Watcher_run exec fuel w s with
        | Ok _ s' =>
            List.filter is_callback (new_events s s')
            = if value_changed v (watcher_of w sg)
              then [EvCallback w v (w_value (watcher_of w sg))]
              else []
        | _ => True
        end).
Proof.
  intros exec. split.
  { intros N s HN Hb Hh u.
    destruct (triggers_fresh exec fuel N w s HN Hb Hh)
      as (s' & E & _ & Hq & Ho & Hha & Hw & Ht).
    exists s'. by repeat split. }
  split; [intros s i; apply pushWatcher_queued|].
  split.
  { intros n user s Hdev.
    pose proof (runBatcherQueue_from_fifo exec fuel n user 0 s
                  (interp_grow original k) Hdev) as H.
    destruct (runBatcherQueue_from exec fuel n user 0 s) as [[] s'|e s'|];
      [|done|done].
    destruct H as (Hg & l & E & F). split; [by apply queues_grow_queue_of|].
    rewrite (new_events_app _ _ _ E). by rewrite F, drop_0. }
  split.
  { intros s Hb u.
    destruct (triggers_fresh exec fuel 1 w (upd_has (fun m => delete w m) s))
      as (s' & E & _ & Hq & _); [lia | done | apply lookup_delete_eq |].
    simpl in E. unfold bind in E.
    destruct (Watcher_update exec fuel w false _) as [[] s1| |]; [|done|done].
    unfold ret in E. injection E as ->. exists s'. split; [done|].
    change (watcher_of w (upd_has _ s)) with (watcher_of w s) in Hq.
    fold u in Hq. rewrite Hq. by destruct u. }
  split.
  { intros n s s' Hdev H.
    exact (flushBatcherQueue_passes exec fuel n s s' (interp_grow original k) Hdev H). }
  split.
  { intros n s s' H.
    destruct (flushBatcherQueue_resets exec fuel n s s' H) as (?&?&?&?&?).
    by repeat split. }
  intros s v sg Ha Hg. by apply Watcher_run_callbacks.
Qed.

(** ** Observers stay *)

Global Instance keeps_observers_preorder : PreOrder keeps_observers.
Proof.
  split.
  - intros s. by repeat split.
  - intros s1 s2 s3 (N1 & O1 & D1) (N2 & O2 & D2). split; [lia|]. split.
    + intros l Hl Hs. rewrite O2, O1; try done; [lia|]. by rewrite O1.
    + intros ob Hob. rewrite D2, D1; [done|done|lia].
Qed.

Lemma keeps_observers_frame s s' :
  next_ref s' = next_ref s -> heap s' = heap s -> observers s' = observers s ->
  keeps_observers s s'.
Proof.
  intros HN HH HO. unfold keeps_observers, obj_of, observer_of.
  rewrite HN, HH, HO. by repeat split.
Qed.

Lemma obj_of_upd_obj l l' f s :
  obj_of l' (upd_obj l f s) = if decide (l' = l) then f (obj_of l s) else obj_of l' s.
Proof.
  unfold obj_of, upd_obj. simpl. destruct (decide (l' = l)) as [->|Hne].
  - by rewrite lookup_total_insert_eq.
  - by rewrite lookup_total_insert_ne.
Qed.

Lemma keeps_observers_upd_obj l f s :
  (forall x, o_ob (f x) = o_ob x) -> keeps_observers s (upd_obj l f s).
Proof.
  intros Hf. split; [done|]. split; [|done].
  intros l' _ _. rewrite obj_of_upd_obj. by destruct (decide (l' = l)) as [->|].
Qed.

Lemma keeps_observers_fresh s : keeps_observers s (upd_next_ref S s).
Proof. split; [simpl; lia|]. by split. Qed.

Lemma keeps_observers_alloc o s :
  keeps_observers s
    (upd_heap (fun h => <[next_ref s := o]> h) (upd_next_ref S s)).
Proof.
  split; [simpl; lia|]. split; [|done].
  intros l Hl _. unfold obj_of. simpl. rewrite lookup_total_insert_ne; [done|lia].
Qed.

Lemma keeps_observers_upd_observer ob f s :
  (forall x, ob_dep (f x) = ob_dep x) -> keeps_observers s (upd_observer ob f s).
Proof.
  intros Hf. split; [done|]. split; [done|].
  intros ob' _. unfold observer_of, upd_observer. simpl.
  destruct (decide (ob' = ob)) as [->|Hne].
  - rewrite lookup_total_insert_eq. apply Hf.
  - by rewrite lookup_total_insert_ne.
Qed.

Lemma keeps_observers_attach l ob s :
  o_ob (obj_of l s) = None ->
  keeps_observers s (upd_obj l (set_o_ob (Some ob)) s).
Proof.
  intros Hn. split; [done|]. split; [|done].
  intros l' _ Hs. rewrite obj_of_upd_obj. destruct (decide (l' = l)) as [->|]; [|done].
  rewrite Hn in Hs. by destruct Hs.
Qed.

Lemma Observer_init_eq l s :
  Observer_init l s
  = Ok (next_ref s)
       (upd_observers (fun m => <[next_ref s := mkObserver l (dep_uid s) []]> m)
          (set_subs (dep_uid s) [] (upd_dep_uid S (upd_next_ref S s)))).
Proof. reflexivity. Qed.

Lemma keeps_observers_init l s :
  keeps_observers s
    (upd_observers (fun m => <[next_ref s := mkObserver l (dep_uid s) []]> m)
       (set_subs (dep_uid s) [] (upd_dep_uid S (upd_next_ref S s)))).
Proof.
  split; [simpl; lia|]. split; [done|].
  intros ob Hob. unfold observer_of. simpl. rewrite lookup_total_insert_ne; [done|lia].
Qed.

Ltac keep_modify :=
  intros;
  first
    [ apply keeps_observers_frame; reflexivity
    | apply keeps_observers_upd_obj; intros; reflexivity
    | apply keeps_observers_upd_observer; intros; reflexivity ].
Ltac keep_auto :=
  respects_with keep_modify ltac:(eauto 3 with keep); eauto with keep.

Create HintDb keep discriminated.

Section KeepsObservers.
Variable exec : script -> M value.
Variable original : NativeOp.
Variable fuel : nat.
Hypothesis exec_keep : forall sc, respects keeps_observers (exec sc).
Local Abbreviation R := keeps_observers.

Lemma call_user_keep sc : respects R (call_user exec sc).
Proof.
  intros s. unfold call_user.
  pose proof (exec_keep sc (upd_log (fun _ => []) s)) as H.
  destruct (exec sc _) as [v s1|e s1|]; done.
Qed.
#[local] Hint Resolve call_user_keep : keep.

Lemma Dep_new_keep : respects R Dep_new.
Proof. intros s. by repeat split. Qed.
Lemma fresh_ref_keep : respects R fresh_ref.
Proof. intros s. apply keeps_observers_fresh. Qed.
Lemma alloc_keep o : respects R (alloc o).
Proof. intros s. apply keeps_observers_alloc. Qed.
Lemma Observer_init_keep l : respects R (Observer_init l).
Proof. intros s. rewrite Observer_init_eq. apply keeps_observers_init. Qed.
#[local] Hint Resolve Dep_new_keep fresh_ref_keep alloc_keep Observer_init_keep : keep.

Lemma Dep_removeSub_keep d w' : respects R (Dep_removeSub d w').
Proof. unfold Dep_removeSub. keep_auto. Qed.
Lemma Dep_addSub_keep d w' : respects R (Dep_addSub d w').
Proof. unfold Dep_addSub. keep_auto. Qed.
#[local] Hint Resolve Dep_removeSub_keep Dep_addSub_keep : keep.

Lemma Watcher_addDep_keep w' d : respects R (Watcher_addDep w' d).
Proof. unfold Watcher_addDep. keep_auto. Qed.
#[local] Hint Resolve Watcher_addDep_keep : keep.

Lemma Dep_depend_keep d : respects R (Dep_depend d).
Proof. unfold Dep_depend. keep_auto. Qed.
#[local] Hint Resolve Dep_depend_keep : keep.

Lemma Watcher_afterGet_keep w' : respects R (Watcher_afterGet w').
Proof. unfold Watcher_afterGet. keep_auto. Qed.
Lemma Watcher_beforeGet_keep w' : respects R (Watcher_beforeGet w').
Proof. unfold Watcher_beforeGet. keep_auto. Qed.
#[local] Hint Resolve Watcher_afterGet_keep Watcher_beforeGet_keep : keep.

Lemma depend_on_element_keep e : respects R (depend_on_element e).
Proof. unfold depend_on_element. keep_auto. Qed.
Lemma is_class_keep c v : respects R (is_class c v).
Proof. unfold is_class. keep_auto. Qed.
#[local] Hint Resolve depend_on_element_keep is_class_keep : keep.

Lemma current_value_keep rec cl :
  (forall c, respects R (rec c)) -> respects R (current_value exec rec cl).
Proof. intros H. unfold current_value. keep_auto. Qed.
#[local] Hint Resolve current_value_keep : keep.

Lemma reactiveGetter_keep n c : respects R (reactiveGetter exec n c).
Proof. revert c. induction n as [|n IH]; intros c; simpl; keep_auto. Qed.
#[local] Hint Resolve reactiveGetter_keep : keep.

Lemma js_get_keep o key : respects R (js_get exec fuel o key).
Proof. unfold js_get. keep_auto. Qed.
#[local] Hint Resolve js_get_keep : keep.

Lemma traverse_keep n top v : respects R (traverse exec fuel n top v).
Proof. revert top v. induction n as [|n IH]; intros top v; simpl; keep_auto. Qed.
#[local] Hint Resolve traverse_keep : keep.

Lemma apply_hook_keep h v : respects R (apply_hook exec h v).
Proof. unfold apply_hook. keep_auto. Qed.
Lemma pushWatcher_keep w' : respects R (pushWatcher w').
Proof. unfold pushWatcher, nextTick_flush. keep_auto. Qed.
#[local] Hint Resolve apply_hook_keep pushWatcher_keep : keep.

Lemma Watcher_teardown_keep w' : respects R (Watcher_teardown w').
Proof. unfold Watcher_teardown. keep_auto. Qed.
#[local] Hint Resolve Watcher_teardown_keep : keep.

Lemma Watcher_get_keep w' : respects R (Watcher_get exec fuel w').
Proof. unfold Watcher_get. keep_auto. Qed.
#[local] Hint Resolve Watcher_get_keep : keep.

Lemma call_cb_keep w' a b : respects R (call_cb exec w' a b).
Proof. unfold call_cb. keep_auto. Qed.
#[local] Hint Resolve call_cb_keep : keep.

Lemma Watcher_run_keep w' : respects R (Watcher_run exec fuel w').
Proof. unfold Watcher_run. keep_auto. Qed.
#[local] Hint Resolve Watcher_run_keep : keep.

Lemma Watcher_update_keep w' sh : respects R (Watcher_update exec fuel w' sh).
Proof. unfold Watcher_update. keep_auto. Qed.
#[local] Hint Resolve Watcher_update_keep : keep.

Lemma Dep_notify_keep d : respects R (Dep_notify exec fuel d).
Proof. unfold Dep_notify. keep_auto. Qed.
#[local] Hint Resolve Dep_notify_keep : keep.

Lemma defineProperty_keep l key d : respects R (defineProperty l key d).
Proof. unfold defineProperty. keep_auto. Qed.
#[local] Hint Resolve defineProperty_keep : keep.

Section ObserveKeep.
Variable observe_rec : value -> M (option nat).
Hypothesis Hrec : forall v, respects R (observe_rec v).

Lemma defineReactive_keep o key v :
  respects R (defineReactive observe_rec o key v).
Proof using Hrec. unfold defineReactive. keep_auto. Qed.
#[local] Hint Resolve defineReactive_keep : keep.

Lemma Observer_observeArray_keep items :
  respects R (Observer_observeArray observe_rec items).
Proof using Hrec. unfold Observer_observeArray. keep_auto. Qed.

Lemma Observer_walk_keep ob l :
  respects R (Observer_walk exec fuel observe_rec ob l).
Proof using Hrec exec_keep. unfold Observer_walk. keep_auto. Qed.
#[local] Hint Resolve Observer_observeArray_keep Observer_walk_keep : keep.

Lemma Observer_fill_keep l ob : respects R (Observer_fill exec fuel observe_rec l ob).
Proof using Hrec exec_keep. unfold Observer_fill. keep_auto. Qed.

Lemma Observer_new_eq l s :
  Observer_new exec fuel observe_rec l s =
  Observer_fill exec fuel observe_rec l (next_ref s)
    (upd_obj l (set_o_ob (Some (next_ref s)))
       (upd_observers (fun m => <[next_ref s := mkObserver l (dep_uid s) []]> m)
          (set_subs (dep_uid s) [] (upd_dep_uid S (upd_next_ref S s))))).
Proof. reflexivity. Qed.

(** An object without an Observer gets one; nothing observed before is
    touched. *)
Lemma Observer_new_keep l s :
  o_ob (obj_of l s) = None ->
  match Observer_new exec fuel observe_rec l s with
  | Ok _ s' | Thrown _ s' => R s s'
  | OutOfFuel => True
  end.
Proof using Hrec exec_keep.
  intros Hn. rewrite Observer_new_eq.
  set (s1 := upd_observers _ _). set (s2 := upd_obj _ _ _).
  assert (R s s2) as H2.
  { etrans; [apply (keeps_observers_init l s)|]. apply keeps_observers_attach. exact Hn. }
  pose proof (Observer_fill_keep l (next_ref s) s2) as Hf.
  destruct (Observer_fill _ _ _ _ _ _); [| |done]; by etrans.
Qed.

Lemma Observer_addVm_keep ob vm : respects R (Observer_addVm ob vm).
Proof. unfold Observer_addVm. keep_auto. Qed.
#[local] Hint Resolve Observer_addVm_keep : keep.

Lemma observe_finish_keep ob vm : respects R (observe_finish ob vm).
Proof. unfold observe_finish. keep_auto. Qed.

Lemma observe_body_keep v vm :
  respects R (observe_body exec fuel observe_rec v vm).
Proof using Hrec exec_keep.
  intros s. unfold observe_body.
  destruct (negb (truthy v) || negb (typeof_object v)) eqn:Hv.
  { munfold. by apply keeps_observers_frame. }
  destruct v as [| | | | | |l]; try (munfold; by apply keeps_observers_frame).
  set (s0 := upd_log (fun l0 => l0 ++ [EvObserve (VRef l)]) s).
  assert (R s s0) as H0 by (by apply keeps_observers_frame).
  change (match
    (o <- gets (obj_of l);; sc <- gets shouldConvert;;
     ob <- match o_ob o with
           | Some ob => ret (Some ob)
           | None =>
               if sc && (bool_decide (o_class o = CArray)
                         || bool_decide (o_class o = CPlain))
                  && o_extensible o && negb (o_isVue o)
               then ob <- Observer_new exec fuel observe_rec l;; ret (Some ob)
               else ret None
           end;;
     observe_finish ob vm)%js s0
  with Ok _ s' | Thrown _ s' => R s s' | OutOfFuel => True end).
  unfold bind at 1 2, gets.
  destruct (o_ob (obj_of l s0)) as [ob|] eqn:Hob.
  - unfold bind, ret. pose proof (observe_finish_keep (Some ob) vm s0) as Hf.
    destruct (observe_finish _ _ _); [| |done]; by etrans.
  - destruct (_ && _ && _ && _).
    + unfold bind at 1 2. pose proof (Observer_new_keep l s0 Hob) as Hn.
      destruct (Observer_new _ _ _ _ _) as [ob s1|e s1|]; [| by etrans | done].
      unfold ret at 1.
      pose proof (observe_finish_keep (Some ob) vm s1) as Hf.
      destruct (observe_finish _ _ _); [| |done]; etrans; [|exact Hf| |exact Hf]; by etrans.
    + unfold bind, ret. pose proof (observe_finish_keep None vm s0) as Hf.
      destruct (observe_finish _ _ _); [| |done]; by etrans.
Qed.
End ObserveKeep.

Lemma observe_keep n v vm : respects R (observe exec fuel n v vm).
Proof.
  revert v vm. induction n as [|n IH]; intros v vm; simpl.
  - apply respects_out_of_fuel.
  - apply observe_body_keep. intros v'. apply IH.
Qed.
#[local] Hint Resolve observe_keep : keep.

Lemma reactiveSetter_keep n c v : respects R (reactiveSetter exec fuel n c v).
Proof. revert c v. induction n as [|n IH]; intros c v; simpl; keep_auto. Qed.
#[local] Hint Resolve reactiveSetter_keep : keep.

Lemma js_set_keep o key v : respects R (js_set exec fuel o key v).
Proof. unfold js_set. keep_auto. Qed.
Lemma native_call_keep a m args : respects R (native_call original a m args).
Proof. unfold native_call. keep_auto. Qed.
#[local] Hint Resolve js_set_keep native_call_keep : keep.

Lemma mutator_keep a m args : respects R (mutator exec original fuel a m args).
Proof.
  unfold mutator. keep_auto.
  apply Observer_observeArray_keep. intros v'. apply observe_keep.
Qed.
#[local] Hint Resolve mutator_keep : keep.

Lemma call_method_keep a m args :
  respects R (call_method exec original fuel a m args).
Proof. unfold call_method. keep_auto. Qed.
#[local] Hint Resolve call_method_keep : keep.

Lemma exec_here_keep sc : respects R (exec_here exec original fuel sc).
Proof. induction sc; simpl; keep_auto. Qed.
End KeepsObservers.


Lemma interp_keep original n sc : respects keeps_observers (interp original n sc).
Proof.
  revert sc. induction n as [|n IH]; intros sc; simpl.
  - apply respects_out_of_fuel.
  - by apply exec_here_keep.
Qed.

(** ** The intercepted array methods *)

Lemma native_call_eq original a m args s :
  native_call original a m args s
  = Ok (native_value original a m args s) (native_state original a m args s).
Proof.
  unfold native_call, native_value, native_state. munfold. simpl.
  change (obj_of a (upd_log _ s)) with (obj_of a s).
  destruct (original m (o_elems (obj_of a s)) args) as [elems [v| |es]]; done.
Qed.

Lemma native_state_keeps original a m args s :
  keeps_observers s (native_state original a m args s).
Proof.
  pose proof (native_call_keep original a m args s) as H.
  by rewrite native_call_eq in H.
Qed.

Lemma native_state_frame original a m args s :
  let s1 := native_state original a m args s in
  log s1 = log s ++ [EvNative a m args]
  /\ deps s1 = deps s /\ watchers s1 = watchers s /\ config s1 = config s.
Proof.
  unfold native_state. simpl.
  destruct (original m _ args) as [elems [v| |es]]; done.
Qed.

Section ArrayMethods.
Variable original : NativeOp.
Variable k fuel : nat.
Local Abbreviation exec := (interp original k).
Local Abbreviation Kobs := (allowed none none none none true false).
Local Abbreviation Kupd :=
  (allowed (fun _ => true) (fun _ => true) (fun _ => true) none false false).

Lemma observe_inserted_keep inserted :
  respects keeps_observers (observe_inserted original k fuel inserted).
Proof.
  apply Observer_observeArray_keep.
  intros v. apply observe_keep. apply interp_keep.
Qed.

Lemma observe_inserted_log inserted s s' :
  observe_inserted original k fuel inserted s = Ok tt s' ->
  exists evs, log s' = log s ++ evs
    /\ Forall (fun e => Kobs e = true) evs
    /\ Forall (fun v => EvObserve v ∈ evs) inserted
    /\ (inserted = [] -> evs = []).
Proof.
  unfold observe_inserted. revert s.
  induction inserted as [|v l IH]; intros s; simpl.
  - unfold ret. intros [= <-]. exists []. by rewrite app_nil_r.
  - intros H. apply bind_inv_ok in H as ([] & s1 & H1 & H2).
    apply bind_inv_ok in H1 as (ob & s0 & H0 & [= <-]).
    pose proof (observe_first exec fuel none none none none true false fuel v None s
                  eq_refl) as Hf.
    rewrite H0 in Hf. destruct Hf as (l1 & E1 & F1).
    destruct (IH _ H2) as (l2 & E2 & F2 & M2 & _).
    exists (EvObserve v :: l1 ++ l2). split; [by rewrite E2, E1, <- app_assoc|].
    split; [constructor; [done | by apply Forall_app]|].
    split; [|done]. constructor; [by left|].
    eapply Forall_impl; [exact M2|]. intros x Hx. right. apply elem_of_app. by right.
Qed.

Lemma observeArray_primitives n items s :
  0 < n -> Forall (fun v => isObject v = false) items ->
  Observer_observeArray (fun v => observe exec fuel n v None) items s
  = Ok tt (upd_log (fun l => l ++ map EvObserve items) s).
Proof.
  intros Hn Hp. unfold Observer_observeArray. revert s.
  induction Hp as [|v l Hv _ IH]; intros s.
  - cbn [for_each map]. unfold ret. f_equal. destruct s; unfold upd_log; simpl.
    by rewrite app_nil_r.
  - cbn [for_each map]. unfold bind at 1. unfold bind at 1.
    rewrite observe_primitive by done.
    unfold ret at 1. rewrite IH. f_equal. destruct s; unfold upd_log; simpl.
    by rewrite <- app_assoc.
Qed.

Lemma observe_inserted_primitives inserted s :
  0 < fuel -> Forall (fun v => isObject v = false) inserted ->
  observe_inserted original k fuel inserted s
  = Ok tt (upd_log (fun l => l ++ map EvObserve inserted) s).
Proof. apply observeArray_primitives. Qed.

Lemma Dep_notify_events d s :
  match Dep_notify exec fuel d s with
  | Ok _ s' | Thrown _ s' =>
      exists l, log s' = log s ++ EvNotify d :: l /\ Forall (fun e => Kupd e = true) l
  | OutOfFuel => True
  end.
Proof.
  unfold Dep_notify. unfold bind at 1, emit at 1, modify at 1.
  match goal with |- match ?m ?s0 with _ => _ end =>
    assert (Hm : emits Kupd m) by emits_auto;
    specialize (Hm s0); destruct (m s0) as [x s1|e s1|]; [| |done] end;
    destruct Hm as (l & E & F); exists l; simpl in E;
    (split; [by rewrite E, <- app_assoc | done]).
Qed.

End ArrayMethods.

(** ** [observe] *)

Lemma with_vm_keeps ob vm s : keeps_observers s (with_vm ob vm s).
Proof.
  destruct vm as [vm'|]; simpl; [|reflexivity].
  by apply keeps_observers_upd_observer.
Qed.

Section ObserveContract.
Variable original : NativeOp.
Variable k fuel : nat.
Local Abbreviation exec := (interp original k).

(** An object that has an Observer: [observe] returns it and walks
    nothing, whatever else is true of the object. *)
Lemma observe_existing n l ob vm s :
  o_ob (obj_of l s) = Some ob ->
  observe exec fuel (S n) (VRef l) vm s
  = Ok (Some ob) (with_vm ob vm (upd_log (fun lg => lg ++ [EvObserve (VRef l)]) s)).
Proof.
  intros Hob. simpl. unfold observe_body. simpl.
  unfold bind at 1, emit at 1, modify at 1.
  unfold bind at 1, gets at 1. unfold bind at 1, gets at 1.
  change (obj_of l (upd_log _ s)) with (obj_of l s). rewrite Hob.
  unfold bind at 1, ret at 1. by destruct vm.
Qed.

Lemma observe_refused n l vm s :
  o_ob (obj_of l s) = None -> eligible (obj_of l s) s = false ->
  observe exec fuel (S n) (VRef l) vm s
  = Ok None (upd_log (fun lg => lg ++ [EvObserve (VRef l)]) s).
Proof.
  intros Hob He. simpl. unfold observe_body. simpl.
  unfold bind at 1, emit at 1, modify at 1.
  unfold bind at 1, gets at 1. unfold bind at 1, gets at 1.
  change (obj_of l (upd_log _ s)) with (obj_of l s). rewrite Hob.
  change (shouldConvert (upd_log _ s)) with (shouldConvert s).
  unfold eligible in He. rewrite He. by destruct vm.
Qed.

(** The first call on an eligible object. *)
Lemma observe_attaches n l vm s :
  o_ob (obj_of l s) = None -> eligible (obj_of l s) s = true ->
  observe exec fuel (S n) (VRef l) vm s
  = (ob <- Observer_new exec fuel (fun v' => observe exec fuel n v' None) l;;
     observe_finish (Some ob) vm)
      (upd_log (fun lg => lg ++ [EvObserve (VRef l)]) s).
Proof.
  intros Hob He. simpl. unfold observe_body. simpl.
  unfold bind at 1, emit at 1, modify at 1.
  unfold bind at 1, gets at 1. unfold bind at 1, gets at 1.
  change (obj_of l (upd_log _ s)) with (obj_of l s). rewrite Hob.
  change (shouldConvert (upd_log _ s)) with (shouldConvert s).
  unfold eligible in He. rewrite He.
  unfold bind, ret, observe_finish.
  by destruct (Observer_new _ _ _ l _).
Qed.

Lemma observe_attaches_result n l vm s r s' :
  o_ob (obj_of l s) = None -> eligible (obj_of l s) s = true ->
  l < next_ref s ->
  observe exec fuel (S n) (VRef l) vm s = Ok r s' ->
  r = Some (next_ref s)
  /\ o_ob (obj_of l s') = Some (next_ref s)
  /\ l < next_ref s'.
Proof.
  intros Hob He Hl Hr. rewrite observe_attaches in Hr by done.
  apply bind_inv_ok in Hr as (ob & s3 & H3 & Hf).
  rewrite Observer_new_eq in H3.
  match type of H3 with Observer_fill _ _ _ _ _ ?x = _ =>
    set (s2 := x) in *;
    pose proof (Observer_fill_keep exec fuel (interp_keep original k) _
                  (fun v' => observe_keep exec fuel (interp_keep original k) n v' None)
                  l (next_ref s) s2) as K3 end.
  change (next_ref (upd_log _ s)) with (next_ref s) in *.
  rewrite H3 in K3.
  assert (ob = next_ref s) as ->.
  { unfold Observer_fill in H3. apply bind_inv_ok in H3 as (o & s4 & _ & H3).
    apply bind_inv_ok in H3 as ([] & s5 & _ & H3). by injection H3 as <- _. }
  unfold observe_finish in Hf. apply bind_inv_ok in Hf as ([] & s4 & H4 & [= <- <-]).
  assert (keeps_observers s3 s4) as K4.
  { destruct vm as [vm'|]; [|by injection H4 as <-].
    pose proof (Observer_addVm_keep (next_ref s) vm' s3) as K. by rewrite H4 in K. }
  assert (keeps_observers s2 s4) as (KN & KO & KD) by (by etrans).
  assert (o_ob (obj_of l s2) = Some (next_ref s)) as H2.
  { subst s2. rewrite obj_of_upd_obj. by rewrite decide_True. }
  assert (next_ref s2 = S (next_ref s)) as HN by done.
  split; [done|]. split; [rewrite KO; [done|lia|by rewrite H2]|].
  lia.
Qed.

(** An array of primitive values is observed as soon as there is fuel for
    its elements. *)
Lemma observe_array_returns n l s :
  o_ob (obj_of l s) = None -> eligible (obj_of l s) s = true ->
  o_class (obj_of l s) = CArray ->
  Forall (fun v => isObject v = false) (o_elems (obj_of l s)) ->
  exists s', observe exec fuel (S (S n)) (VRef l) None s = Ok (Some (next_ref s)) s'.
Proof.
  intros Hob He Hc Hp. rewrite observe_attaches by done.
  unfold bind at 1. rewrite Observer_new_eq.
  change (next_ref (upd_log _ s)) with (next_ref s).
  match goal with |- context [Observer_fill _ _ _ _ _ ?x] => set (s2 := x) end.
  assert (obj_of l s2 = set_o_ob (Some (next_ref s)) (obj_of l s)) as H2.
  { subst s2. rewrite obj_of_upd_obj. by rewrite decide_True. }
  unfold Observer_fill. unfold bind at 1, gets at 1. rewrite H2. simpl.
  rewrite Hc. rewrite bool_decide_eq_true_2 by done.
  unfold bind at 1. unfold bind at 1, modify at 1.
  rewrite (observeArray_primitives original k fuel (S n)) by (done || lia).
  unfold ret, observe_finish, bind. eauto.
Qed.

(** C8, as the code has it.  [observe] returns nothing and changes nothing
    but the call log for a value that is not an object or is [null].  An
    object that has an Observer gets that Observer back, without a walk,
    also when it is no longer extensible or carries [_isVue].  An object
    without an Observer that is not extensible, carries [_isVue], is
    neither an array nor a plain object, or is seen while conversion is
    switched off, gets nothing and stays as it is.  On an eligible object
    the call that returns has attached a new Observer under [__ob__], and
    every later call returns that Observer and changes the call log and
    the Observer's list of [vm]s only. *)
Theorem C8_observe_contract_and_idempotence (n : nat) (v : value)
    (vm : option nat) (s : World) :
  let s0 := upd_log (fun lg => lg ++ [EvObserve v]) s in
  (isObject v = false -> observe exec fuel (S n) v vm s = Ok None s0)
  /\ (forall l, v = VRef l ->
      let o := obj_of l s in
      (forall ob, o_ob o = Some ob ->
         observe exec fuel (S n) v vm s = Ok (Some ob) (with_vm ob vm s0))
      /\ (o_ob o = None ->
          (shouldConvert s = false \/ o_extensible o = false \/ o_isVue o = true
           \/ (o_class o <> CArray /\ o_class o <> CPlain)) ->
          observe exec fuel (S n) v vm s = Ok None s0)
      /\ (o_ob o = None -> eligible o s = true -> l < next_ref s ->
          forall r s', observe exec fuel (S n) v vm s = Ok r s' ->
            r = Some (next_ref s)
            /\ o_ob (obj_of l s') = Some (next_ref s)
            /\ forall n' vm' s'', keeps_observers s' s'' ->
                 observe exec fuel (S n') v vm' s''
                 = Ok (Some (next_ref s))
                      (with_vm (next_ref s) vm'
                         (upd_log (fun lg => lg ++ [EvObserve v]) s'')))
      /\ (o_ob o = None -> eligible o s = true -> o_class o = CArray ->
          Forall (fun x => isObject x = false) (o_elems o) ->
          exists s', observe exec fuel (S (S n)) v None s
                     = Ok (Some (next_ref s)) s')).
Proof.
  intros s0. split; [intros Hv; by apply observe_primitive; [lia|]|].
  intros l -> o. split; [intros ob Hob; by apply observe_existing|].
  split.
  { intros Hob Hno. apply observe_refused; [done|]. fold o. unfold eligible.
    destruct Hno as [->|[->|[->|[H1 H2]]]]; rewrite ?andb_false_r; try done.
    rewrite !bool_decide_eq_false_2 by done. simpl. by rewrite andb_false_r. }
  split; [|intros; by apply observe_array_returns].
  intros Hob He Hl r s' Hr.
  destruct (observe_attaches_result n l vm s r s' Hob He Hl Hr) as (-> & Ho' & Hl').
  split; [done|]. split; [done|].
  intros n' vm' s'' (_ & KO & _). apply observe_existing.
  rewrite KO; [done|done|by rewrite Ho'].
Qed.
End ObserveContract.

(** ** The LRU cache *)

Lemma entry_of_upd_entry x y f c :
  entry_of x (upd_entry y f c)
  = if decide (x = y) then f (entry_of y c) else entry_of x c.
Proof.
  unfold entry_of, upd_entry. simpl. destruct (decide (x = y)) as [->|Hne].
  - by rewrite lookup_total_insert_eq.
  - by rewrite lookup_total_insert_ne.
Qed.

Lemma entry_of_set_ca_head x h c : entry_of x (set_ca_head h c) = entry_of x c.
Proof. reflexivity. Qed.

Lemma entry_of_set_ca_tail x t c : entry_of x (set_ca_tail t c) = entry_of x c.
Proof. reflexivity. Qed.

Lemma entry_of_set_ca_size x n c : entry_of x (set_ca_size n c) = entry_of x c.
Proof. reflexivity. Qed.

Lemma entry_of_set_ca_keymap x m c : entry_of x (set_ca_keymap m c) = entry_of x c.
Proof. reflexivity. Qed.

(** Reads an entry of a cache that is given by its assignments. *)
Ltac read_entry :=
  repeat first
    [ rewrite entry_of_set_ca_head
    | rewrite entry_of_set_ca_tail
    | rewrite entry_of_set_ca_size
    | rewrite entry_of_set_ca_keymap
    | rewrite entry_of_upd_entry;
      first [ rewrite decide_True by done | rewrite decide_False by done ] ];
  cbn [en_key en_value en_newer en_older set_en_value set_en_newer set_en_older].

Lemma linked_ext_links c c' prev l next :
  (forall x, x ∈ l -> en_newer (entry_of x c') = en_newer (entry_of x c)
                      /\ en_older (entry_of x c') = en_older (entry_of x c)) ->
  linked c prev l next -> linked c' prev l next.
Proof.
  revert prev. induction l as [|e l IH]; intros prev Hx; simpl; [done|].
  intros (Ho & Hn & Hl). destruct (Hx e) as [-> ->]; [by left|].
  split; [done|]. split; [done|]. apply IH; [|done].
  intros x Hin. apply Hx. by right.
Qed.

Lemma linked_ext c c' prev l next :
  (forall x, x ∈ l -> entry_of x c' = entry_of x c) ->
  linked c prev l next -> linked c' prev l next.
Proof.
  intros Hx. apply linked_ext_links. intros x Hin. by rewrite (Hx x Hin).
Qed.

Lemma linked_app c prev l1 l2 next :
  linked c prev (l1 ++ l2) next
  <-> linked c prev l1 (from_option Some next (head l2))
      /\ linked c (from_option Some prev (last l1)) l2 next.
Proof.
  revert prev. induction l1 as [|e l1 IH]; intros prev; simpl.
  - tauto.
  - rewrite IH. destruct l1 as [|e' l1]; simpl.
    + destruct l2; simpl; tauto.
    + destruct (last (e' :: l1)) eqn:Hl; [simpl; tauto|].
      by apply last_None in Hl.
Qed.

Lemma linked_frame c x f prev l next :
  x ∉ l -> linked c prev l next -> linked (upd_entry x f c) prev l next.
Proof.
  intros Hx. apply linked_ext. intros y Hy. rewrite entry_of_upd_entry.
  destruct (decide (y = x)) as [->|]; done.
Qed.

Lemma linked_set_older c x prev prev' l next :
  head l = Some x -> NoDup l -> linked c prev l next ->
  linked (upd_entry x (set_en_older prev') c) prev' l next.
Proof.
  destruct l as [|e l]; [done|]. intros [= ->] [Hx Hnd]%NoDup_cons (Ho & Hn & Hl).
  simpl. rewrite entry_of_upd_entry, decide_True by done. simpl.
  split; [done|]. split; [done|]. by apply linked_frame.
Qed.

Lemma linked_set_newer c x prev l next next' :
  last l = Some x -> NoDup l -> linked c prev l next ->
  linked (upd_entry x (set_en_newer next') c) prev l next'.
Proof.
  revert prev. induction l as [|e l IH]; intros prev; [done|].
  intros Hlast [He Hnd]%NoDup_cons (Ho & Hn & Hl).
  destruct l as [|e' l].
  - injection Hlast as ->. simpl.
    rewrite entry_of_upd_entry, decide_True by done. done.
  - assert (e <> x) as Hne.
    { intros ->. apply He. rewrite last_cons_cons in Hlast.
      by apply last_Some_elem_of in Hlast. }
    cbn [linked]. rewrite entry_of_upd_entry, decide_False by done.
    split; [done|]. split; [done|]. apply IH; try done.
Qed.

Lemma relinked_refl c : relinked c c.
Proof. by repeat split. Qed.

Lemma relinked_trans c1 c2 c3 : relinked c1 c2 -> relinked c2 c3 -> relinked c1 c3.
Proof.
  intros (K1 & S1 & L1 & N1 & E1) (K2 & S2 & L2 & N2 & E2).
  repeat split; try congruence.
  - destruct (E1 x), (E2 x). congruence.
  - destruct (E1 x), (E2 x). congruence.
Qed.

Lemma relinked_upd_entry c x f :
  (forall e, en_key (f e) = en_key e /\ en_value (f e) = en_value e) ->
  relinked c (upd_entry x f c).
Proof.
  intros Hf. repeat split; try done; rewrite entry_of_upd_entry;
    destruct (decide (x0 = x)) as [->|]; try done; apply Hf.
Qed.

Lemma relinked_set_head c h : relinked c (set_ca_head h c).
Proof. by repeat split. Qed.

Lemma relinked_set_tail c t : relinked c (set_ca_tail t c).
Proof. by repeat split. Qed.

Lemma contents_relinked c c' l : relinked c c' -> contents c' l = contents c l.
Proof.
  intros (_ & _ & _ & _ & E). unfold contents. apply map_ext. intros x.
  by destruct (E x) as [-> ->].
Qed.

Lemma keymap_get_relinked c c' k : relinked c c' -> keymap_get k c' = keymap_get k c.
Proof. intros (K & _). unfold keymap_get. by rewrite K. Qed.

(** The same entries, chained in another order. *)
Lemma represents_relinked c c' l l' :
  represents c l -> relinked c c' -> l' ≡ₚ l ->
  linked c' None l' None -> ca_head c' = head l' -> ca_tail c' = last l' ->
  represents c' l'.
Proof.
  intros [Hh Ht Hl Hnd Hk Hm Hs Ha] R P Hl' Hh' Ht'.
  pose proof R as (K & S & L & N & E).
  constructor; try done.
  - by rewrite P.
  - assert (map (fun e => en_key (entry_of e c')) l'
            = map (fun e => en_key (entry_of e c)) l') as ->.
    { apply map_ext. intros x. by destruct (E x). }
    by rewrite P.
  - intros k e. rewrite (keymap_get_relinked c c') by done.
    rewrite Hm, P. by destruct (E e) as [-> _].
  - by rewrite S, Hs, P.
  - intros e He. rewrite N. apply Ha. by rewrite <- P.
Qed.

Lemma last_app_cons {A} (l1 : list A) x l2 : last (l1 ++ x :: l2) = last (x :: l2).
Proof.
  induction l1 as [|y l1 IH]; [done|]. simpl app.
  destruct (l1 ++ x :: l2) eqn:E; [by destruct l1|]. rewrite last_cons_cons. by rewrite <- IH.
Qed.

Lemma last_is_Some {A} (x : A) l : exists t, last (x :: l) = Some t.
Proof.
  destruct (last (x :: l)) eqn:E; [eauto|]. by apply last_None in E.
Qed.

(** [get] takes the entry out of the chain and puts it at the end. *)
Lemma Cache_get_eq key b c :
  Cache_get key b c
  = match keymap_get key c with
    | None => (CUndefined, c)
    | Some entry =>
        if bool_decide (ca_tail c = Some entry) then (get_result b entry c, c)
        else (get_result b entry (get_append entry (get_unlink entry c)),
              get_append entry (get_unlink entry c))
    end.
Proof. reflexivity. Qed.

Lemma get_unlink_spec c l1 e l2 :
  linked c None (l1 ++ e :: l2) None -> NoDup (l1 ++ e :: l2) -> l2 <> [] ->
  ca_head c = head (l1 ++ e :: l2) ->
  linked (get_unlink e c) None (l1 ++ l2) None
  /\ ca_head (get_unlink e c) = head (l1 ++ l2)
  /\ ca_tail (get_unlink e c) = ca_tail c
  /\ relinked c (get_unlink e c).
Proof.
  intros Hl Hnd Hne Hh. destruct l2 as [|n l2]; [done|]. clear Hne.
  apply NoDup_app in Hnd as (Hnd1 & Hdisj & Hnd2).
  apply NoDup_cons in Hnd2 as (He2 & Hnd2).
  assert (e <> n) as Hen by (intros ->; apply He2; by left).
  assert (e ∉ l1) as He1 by (intros H; apply (Hdisj e H); by left).
  assert (n ∉ l1) as Hn1 by (intros H; apply (Hdisj n H); right; by left).
  apply linked_app in Hl as (Hl1 & Hl2). cbn [head from_option] in Hl1.
  destruct Hl2 as (Heo & Hen' & Hl2).
  unfold get_unlink. rewrite Hen'. cbv zeta.
  set (c0 := if bool_decide (ca_head c = Some e) then set_ca_head (Some n) c else c).
  assert (forall x, entry_of x c0 = entry_of x c) as E0
    by (intros x; subst c0; by destruct (bool_decide _)).
  assert (ca_tail c0 = ca_tail c) as T0 by (subst c0; by destruct (bool_decide _)).
  assert (relinked c c0) as R0
    by (subst c0; destruct (bool_decide _); [apply relinked_set_head | apply relinked_refl]).
  assert (ca_head c0 = head (l1 ++ n :: l2)) as H0.
  { subst c0. destruct l1 as [|x l1]; simpl in *.
    - by rewrite bool_decide_eq_true_2.
    - rewrite bool_decide_eq_false_2; [done|]. rewrite Hh. intros [= ->].
      apply He1. by left. }
  rewrite E0, Heo. set (c1 := upd_entry n _ c0).
  assert (entry_of e c1 = entry_of e c) as E1.
  { subst c1. by rewrite entry_of_upd_entry, decide_False, E0. }
  rewrite E1, Heo, Hen'.
  assert (linked c1 (from_option Some None (last l1)) (n :: l2) None) as L2.
  { subst c1. eapply linked_set_older; [done|done|].
    eapply linked_ext; [|exact Hl2]. intros; apply E0. }
  assert (linked c1 None l1 (Some e)) as L1.
  { subst c1. apply linked_frame; [done|]. eapply linked_ext; [|exact Hl1]. intros; apply E0. }
  assert (relinked c c1) as R1.
  { eapply relinked_trans; [exact R0|]. subst c1. by apply relinked_upd_entry. }
  destruct (last l1) as [p|] eqn:Hp; cbn [from_option] in *.
  - assert (p ∈ l1) as Hp1 by (by apply last_Some_elem_of).
    assert (p ∉ n :: l2) as Hp2 by (intros H; apply (Hdisj p Hp1); by right).
    split; [|split; [|split]].
    + apply linked_app. cbn [head from_option]. rewrite Hp. cbn [from_option].
      split; [by eapply linked_set_newer | by apply linked_frame].
    + done.
    + simpl. subst c1. by rewrite <- T0.
    + eapply relinked_trans; [exact R1|]. by apply relinked_upd_entry.
  - apply last_None in Hp as ->. simpl in *.
    split; [done|]. split; [done|]. split; [by rewrite <- T0 | done].
Qed.

Lemma get_append_spec c l e t :
  linked c None l None -> NoDup l -> e ∉ l -> last l = Some t ->
  ca_tail c = Some t ->
  linked (get_append e c) None (l ++ [e]) None
  /\ ca_tail (get_append e c) = Some e
  /\ ca_head (get_append e c) = ca_head c
  /\ relinked c (get_append e c).
Proof.
  intros Hl Hnd He Hlast Ht. unfold get_append. cbv zeta.
  cbn [ca_tail upd_entry set_ca_entries]. rewrite Ht.
  assert (t ∈ l) as Htl by (by apply last_Some_elem_of).
  assert (e <> t) as Het by (intros ->; done).
  split; [|split; [done|split; [done|]]].
  - apply linked_app. cbn [head from_option]. rewrite Hlast. cbn [from_option].
    split.
    + eapply linked_ext; [|eapply (linked_set_newer _ t); [done|done|]].
      * intros x Hx. reflexivity.
      * apply linked_frame; [done|]. apply linked_frame; [done|]. exact Hl.
    + cbn [linked]. by read_entry.
  - eapply relinked_trans; [|apply relinked_set_tail].
    eapply relinked_trans; [|by apply relinked_upd_entry].
    eapply relinked_trans; [|by apply relinked_upd_entry].
    by apply relinked_upd_entry.
Qed.

(** A hit moves the entry to the end of the list. *)
Lemma Cache_get_hit c l1 e l2 b :
  represents c (l1 ++ e :: l2) ->
  exists c', Cache_get (en_key (entry_of e c)) b c = (get_result b e c', c')
    /\ represents c' (l1 ++ l2 ++ [e]) /\ relinked c c'.
Proof.
  intros Hr. pose proof Hr as [Hh Ht Hl Hnd Hk Hm Hs Ha].
  assert (keymap_get (en_key (entry_of e c)) c = Some e) as Hget.
  { apply Hm. split; [|done]. apply elem_of_app. right. by left. }
  rewrite Cache_get_eq, Hget. rewrite last_app_cons in Ht.
  destruct l2 as [|n l2].
  { exists c. simpl in Ht. rewrite bool_decide_eq_true_2 by done.
    split; [done|]. split; [done | apply relinked_refl]. }
  destruct (last_is_Some n l2) as (t & Hlast).
  change (last (e :: n :: l2)) with (last (n :: l2)) in Ht. rewrite Hlast in Ht.
  assert (e ∉ l1 ++ n :: l2) as Hnotin.
  { apply NoDup_app in Hnd as (_ & Hdisj & Hnd2).
    apply NoDup_cons in Hnd2 as (He2 & _).
    intros [H|H]%elem_of_app; [|done]. apply (Hdisj e H). by left. }
  assert (NoDup (l1 ++ n :: l2)) as Hnd'.
  { apply NoDup_app in Hnd as (Hnd1 & Hdisj & Hnd2).
    apply NoDup_cons in Hnd2 as (_ & Hnd2). apply NoDup_app.
    split; [done|]. split; [|done]. intros x Hx Hx'. apply (Hdisj x Hx). by right. }
  rewrite bool_decide_eq_false_2.
  2:{ rewrite Ht. intros [= ->]. apply Hnotin. apply elem_of_app. right.
      by apply last_Some_elem_of. }
  destruct (get_unlink_spec c l1 e (n :: l2) Hl Hnd ltac:(done) Hh)
    as (L2 & H2 & T2 & R2).
  destruct (get_append_spec (get_unlink e c) (l1 ++ n :: l2) e t L2 Hnd' Hnotin)
    as (L6 & T6 & H6 & R6).
  { by rewrite last_app_cons. }
  { by rewrite T2. }
  eexists. split; [done|].
  assert (relinked c (get_append e (get_unlink e c))) as R by (by eapply relinked_trans).
  split; [|done].
  eapply represents_relinked; [exact Hr | exact R | | | |].
  - f_equiv. by rewrite (Permutation_app_comm (n :: l2) [e]).
  - by rewrite app_assoc.
  - rewrite H6, H2. by destruct l1.
  - rewrite T6. by rewrite app_assoc, last_snoc.
Qed.

Lemma Cache_get_miss c l k b :
  represents c l -> (forall e, e ∈ l -> en_key (entry_of e c) <> k) ->
  Cache_get k b c = (CUndefined, c).
Proof.
  intros Hr Hk. rewrite Cache_get_eq.
  destruct (keymap_get k c) as [e|] eqn:He; [|done].
  apply (rep_keymap _ _ Hr) in He as (Hin & Hkey). by destruct (Hk e Hin).
Qed.

Lemma keymap_get_insert k k' v c :
  keymap_get k' (set_ca_keymap (<[k := v]> (ca_keymap c)) c)
  = if decide (k' = k) then v else keymap_get k' c.
Proof.
  unfold keymap_get. simpl. destruct (decide (k' = k)) as [->|Hne].
  - by rewrite lookup_insert_eq.
  - by rewrite lookup_insert_ne.
Qed.

(** A new entry goes to the end of the list. *)
Lemma put_new_spec c l k v removed :
  represents c l -> (forall e, e ∈ l -> en_key (entry_of e c) <> k) ->
  exists c', put_new k v removed c = CReturn removed c'
    /\ represents c' (l ++ [ca_next c])
    /\ contents c' (l ++ [ca_next c]) = contents c l ++ [(k, v)]
    /\ ca_limit c' = ca_limit c
    /\ (forall x, x ∉ l -> x <> ca_next c -> entry_of x c' = entry_of x c).
Proof.
  intros [Hh Ht Hl Hnd Hk Hm Hs Ha] Hnew.
  set (e := ca_next c).
  assert (e ∉ l) as Hel by (intros H; apply Ha in H; subst e; lia).
  unfold put_new. cbv zeta. fold e. eexists. split; [reflexivity|].
  set (c1 := set_ca_next (S e) (set_ca_entries (<[e := mkEntry k VUndef None None]> (ca_entries c)) c)).
  assert (forall x, x <> e -> entry_of x c1 = entry_of x c) as E1.
  { intros x Hx. unfold entry_of, c1. simpl. by rewrite lookup_total_insert_ne. }
  assert (entry_of e c1 = mkEntry k VUndef None None) as E1e.
  { unfold entry_of, c1. simpl. by rewrite lookup_total_insert_eq. }
  assert (linked c1 None l None) as L1.
  { eapply linked_ext; [|exact Hl]. intros x Hx. apply E1. by intros ->. }
  set (c2 := set_ca_keymap (<[k := Some e]> (ca_keymap c1)) c1).
  change (ca_tail c2) with (ca_tail c). rewrite Ht.
  set (c3 := match last l with
             | Some t => _
             | None => set_ca_head (Some e) c2
             end).
  assert (linked c3 None (l ++ [e]) None /\ ca_head c3 = head (l ++ [e])
          /\ en_key (entry_of e c3) = k /\ en_value (entry_of e c3) = VUndef
          /\ (forall x, x <> e -> en_key (entry_of x c3) = en_key (entry_of x c)
                                  /\ en_value (entry_of x c3) = en_value (entry_of x c))
          /\ (forall x, x ∉ l -> x <> e -> entry_of x c3 = entry_of x c)
          /\ ca_keymap c3 = ca_keymap c2 /\ ca_size c3 = ca_size c
          /\ ca_next c3 = S e /\ ca_limit c3 = ca_limit c)
    as (L3 & H3 & K3 & V3 & F3 & G3 & M3 & S3 & N3 & Li3).
  { subst c3. destruct (last l) as [t|] eqn:Hlast.
    - assert (t ∈ l) as Htl by (by apply last_Some_elem_of).
      assert (t <> e) as Hte by (by intros ->).
      assert (e <> t) as Het by (by intros ->).
      assert (forall x, entry_of x c2 = entry_of x c1) as E2 by done.
      cbn [ca_tail upd_entry set_ca_entries]. change (ca_tail c2) with (ca_tail c).
      rewrite Ht. split; [|split; [|split; [|split; [|split; [|split]]]]].
      + apply linked_app. cbn [head from_option]. rewrite Hlast. cbn [from_option].
        split.
        * apply linked_frame; [done|]. eapply linked_set_newer; [done|done|].
          eapply linked_ext; [|exact L1]. intros; reflexivity.
        * cbn [linked]. read_entry. by rewrite E2, E1e.
      + simpl. rewrite Hh. by destruct l.
      + read_entry. by rewrite E2, E1e.
      + read_entry. by rewrite E2, E1e.
      + intros x Hx. read_entry. destruct (decide (x = t)) as [->|Hxt]; read_entry.
        * by rewrite E2, E1.
        * by rewrite E2, E1.
      + intros x Hx Hxe. assert (x <> t) as Hxt by (by intros ->).
        read_entry. by rewrite E2, E1.
      + done.
    - apply last_None in Hlast as ->.
      assert (forall x, entry_of x (set_ca_head (Some e) c2) = entry_of x c1) as E2 by done.
      cbn [app linked head]. rewrite !E2, E1e.
      split; [done|]. split; [done|]. split; [done|]. split; [done|].
      split; [|split; [|done]].
      + intros x Hx. by rewrite E2, E1.
      + intros x _ Hx. by rewrite E2, E1. }
  split; [|split; [|split]].
  - constructor.
    + simpl. exact H3.
    + simpl. by rewrite last_snoc.
    + eapply linked_ext_links; [|exact L3]. intros x Hx.
      rewrite entry_of_upd_entry. by destruct (decide (x = e)) as [->|Hne].
    + apply NoDup_app. split; [done|]. split; [|apply NoDup_singleton].
      intros x Hx ->%list_elem_of_singleton. done.
    + rewrite map_app. apply NoDup_app. split; [|split].
      * erewrite map_ext_in; [exact Hk|]. intros x Hx%list_elem_of_In.
        read_entry. destruct (decide (x = e)) as [->|Hne]; [done|].
        read_entry. by destruct (F3 x Hne).
      * intros key Hkey Hkey'. simpl in Hkey'. apply list_elem_of_singleton in Hkey'.
        apply list_elem_of_fmap in Hkey as (x & Hx1 & Hx2).
        assert (x <> e) as Hne by (by intros ->).
        revert Hx1. read_entry. rewrite Hkey'. read_entry. rewrite K3.
        rewrite (proj1 (F3 x Hne)). intros Heq. by apply (Hnew x).
      * simpl. apply NoDup_singleton.
    + intros k' e'. unfold keymap_get. cbn [ca_keymap upd_entry set_ca_entries set_ca_size set_ca_tail].
      rewrite M3. unfold c2. cbn [ca_keymap set_ca_keymap]. unfold c1. cbn [ca_keymap set_ca_next set_ca_entries].
      destruct (decide (k' = k)) as [->|Hkk].
      * rewrite lookup_insert_eq. simpl. split.
        -- intros [= <-]. split; [apply elem_of_app; right; by left|]. by read_entry.
        -- intros (Hin & Hkey). apply elem_of_app in Hin as [Hin|Hin%list_elem_of_singleton];
             [|by rewrite Hin].
           assert (e' <> e) as Hne by (by intros ->).
           revert Hkey. read_entry. rewrite (proj1 (F3 e' Hne)). intros Hkey.
           by destruct (Hnew e' Hin).
      * rewrite lookup_insert_ne by done. fold (keymap_get k' c). rewrite Hm. split.
        -- intros (Hin & Hkey). split; [apply elem_of_app; by left|].
           assert (e' <> e) as Hne by (by intros ->).
           read_entry. by rewrite (proj1 (F3 e' Hne)).
        -- intros (Hin & Hkey). apply elem_of_app in Hin as [Hin|Hin%list_elem_of_singleton].
           ++ assert (e' <> e) as Hne by (by intros ->).
              revert Hkey. read_entry. by rewrite (proj1 (F3 e' Hne)).
           ++ rewrite Hin in Hkey. revert Hkey. read_entry. rewrite K3. by intros <-.
    + simpl. rewrite S3, Hs, length_app. simpl. lia.
    + intros x Hx. simpl. rewrite N3.
      apply elem_of_app in Hx as [Hx|Hx%list_elem_of_singleton]; [|lia].
      apply Ha in Hx. subst e. lia.
  - unfold contents. rewrite map_app. f_equal.
    + apply map_ext_in. intros x Hx%list_elem_of_In.
      assert (x <> e) as Hne by (by intros ->).
      read_entry. by destruct (F3 x Hne) as [-> ->].
    + simpl. read_entry. by rewrite K3.
  - simpl. exact Li3.
  - intros x Hx Hxe. read_entry. by apply G3.
Qed.

Lemma elem_of_map_keys {A B} (f : A -> B) (l : list A) x :
  x ∈ l -> f x ∈ map f l.
Proof. rewrite !list_elem_of_In. apply in_map. Qed.

(** With two entries or more [shift] takes the first off the list. *)
Lemma Cache_shift_spec c e0 e1 l :
  represents c (e0 :: e1 :: l) ->
  exists c', Cache_shift c = CReturn (CEntry e0) c'
    /\ represents c' (e1 :: l)
    /\ contents c' (e1 :: l) = contents c (e1 :: l)
    /\ ca_limit c' = ca_limit c
    /\ entry_of e0 c'
       = mkEntry (en_key (entry_of e0 c)) (en_value (entry_of e0 c)) None None
    /\ ca_next c' = ca_next c
    /\ (forall x, x <> e0 -> en_key (entry_of x c') = en_key (entry_of x c)).
Proof.
  intros [Hh Ht Hl Hnd Hk Hm Hs Ha].
  destruct Hl as (Ho0 & Hn0 & Hl).
  apply NoDup_cons in Hnd as (He0 & Hnd).
  assert (e0 <> e1) as H01 by (intros ->; apply He0; by left).
  assert (e1 <> e0) as H10 by done.
  unfold Cache_shift. rewrite Hh. cbn [head]. cbn [ca_head set_ca_head].
  rewrite Hn0. cbv zeta. eexists. split; [reflexivity|].
  assert (forall x, x <> e0 ->
            en_key (entry_of x (upd_entry e0 (set_en_newer None)
                      (upd_entry e0 (set_en_older None)
                         (upd_entry e1 (set_en_older None)
                            (set_ca_head (Some e1) c)))))
            = en_key (entry_of x c)
            /\ en_value (entry_of x (upd_entry e0 (set_en_newer None)
                      (upd_entry e0 (set_en_older None)
                         (upd_entry e1 (set_en_older None)
                            (set_ca_head (Some e1) c)))))
               = en_value (entry_of x c)) as F.
  { intros x Hx. read_entry. destruct (decide (x = e1)) as [->|]; by read_entry. }
  set (c4 := upd_entry e0 _ _) in *.
  assert (entry_of e0 c4
          = mkEntry (en_key (entry_of e0 c)) (en_value (entry_of e0 c)) None None) as E0.
  { unfold c4. read_entry. by destruct (entry_of e0 c). }
  assert (linked c4 None (e1 :: l) None) as L4.
  { unfold c4. apply linked_frame; [done|]. apply linked_frame; [done|].
    eapply linked_set_older; [done|done|]. eapply linked_ext; [|exact Hl]. done. }
  split; [|split; [|split; [|split; [|split]]]].
  - constructor.
    + done.
    + simpl. rewrite Ht. done.
    + eapply linked_ext; [|exact L4]. done.
    + done.
    + change (NoDup (en_key (entry_of e0 c)
                     :: map (fun e => en_key (entry_of e c)) (e1 :: l))) in Hk.
      apply NoDup_cons in Hk as (_ & Hk).
      erewrite map_ext_in; [exact Hk|]. intros x Hx%list_elem_of_In.
      rewrite entry_of_set_ca_size, entry_of_set_ca_keymap.
      apply F. by intros ->.
    + intros k e. rewrite entry_of_set_ca_size, entry_of_set_ca_keymap.
      unfold keymap_get at 1. cbn [ca_keymap set_ca_size set_ca_keymap].
      rewrite E0. cbn [en_key].
      change (ca_keymap c4) with (ca_keymap c).
      destruct (decide (k = en_key (entry_of e0 c))) as [->|Hkk].
      * rewrite lookup_insert_eq. simpl. split; [done|].
        intros (Hin & Hkey). exfalso.
        change (NoDup (en_key (entry_of e0 c)
                       :: map (fun e => en_key (entry_of e c)) (e1 :: l))) in Hk.
        apply NoDup_cons in Hk as (Hk0 & _). apply Hk0.
        rewrite <- Hkey, (proj1 (F e ltac:(by intros ->))).
        by apply (elem_of_map_keys (fun e => en_key (entry_of e c))).
      * rewrite lookup_insert_ne by done. fold (keymap_get k c). rewrite Hm. split.
        -- intros (Hin & Hkey). apply elem_of_cons in Hin as [->|Hin]; [done|].
           split; [done|]. rewrite <- Hkey. apply F. by intros ->.
        -- intros (Hin & Hkey). split; [by right|]. rewrite <- Hkey. symmetry.
           apply F. by intros ->.
    + cbn [ca_size set_ca_size]. change (ca_size (set_ca_keymap _ c4)) with (ca_size c).
      rewrite Hs. cbn [length]. lia.
    + intros x Hx. change (x < ca_next c). apply Ha. by right.
  - unfold contents. apply map_ext_in. intros x Hx%list_elem_of_In.
    rewrite entry_of_set_ca_size, entry_of_set_ca_keymap.
    assert (x <> e0) as Hne by (by intros ->). by destruct (F x Hne) as [-> ->].
  - done.
  - by rewrite entry_of_set_ca_size, entry_of_set_ca_keymap.
  - done.
  - intros x Hx. rewrite entry_of_set_ca_size, entry_of_set_ca_keymap. by apply F.
Qed.

Lemma Cache_shift_single c e0 :
  represents c [e0] -> Cache_shift c = CThrow TypeError (set_ca_head None c).
Proof.
  intros [Hh Ht Hl Hnd Hk Hm Hs Ha]. destruct Hl as (_ & Hn & _).
  unfold Cache_shift. rewrite Hh. cbn [head ca_head set_ca_head]. by rewrite Hn.
Qed.

Lemma Cache_shift_empty c :
  represents c [] -> Cache_shift c = CReturn CUndefined c.
Proof. intros [Hh _ _ _ _ _ _ _]. unfold Cache_shift. by rewrite Hh. Qed.

(** *** The list of pairs *)

Lemma lru_find_None k kvs : lru_find k kvs = None <-> k ∉ kvs.*1.
Proof.
  induction kvs as [|[k' v] kvs IH]; simpl.
  - split; [intros _; apply not_elem_of_nil | done].
  - destruct (decide (k' = k)) as [->|Hne].
    + split; [done|]. intros H. destruct H. by left.
    + rewrite IH. rewrite not_elem_of_cons. naive_solver.
Qed.

Lemma lru_without_notin k kvs : k ∉ kvs.*1 -> lru_without k kvs = kvs.
Proof.
  induction kvs as [|[k' v] kvs IH]; simpl; [done|].
  rewrite not_elem_of_cons. intros [Hne Hk].
  rewrite decide_False by done. by rewrite IH.
Qed.

Lemma lru_split k v kvs1 kvs2 :
  NoDup ((kvs1 ++ (k, v) :: kvs2).*1) ->
  lru_find k (kvs1 ++ (k, v) :: kvs2) = Some v
  /\ lru_without k (kvs1 ++ (k, v) :: kvs2) = kvs1 ++ kvs2.
Proof.
  induction kvs1 as [|[k' v'] kvs1 IH]; simpl.
  - intros [Hk _]%NoDup_cons. rewrite !decide_True by done.
    split; [done|]. by apply lru_without_notin.
  - intros [Hk Hnd]%NoDup_cons.
    assert (k' <> k) as Hne.
    { intros ->. apply Hk. rewrite fmap_app. apply elem_of_app. right. by left. }
    rewrite !decide_False by done. destruct (IH Hnd) as [-> ->]. done.
Qed.

Lemma lru_find_Some k v kvs :
  lru_find k kvs = Some v -> exists kvs1 kvs2, kvs = kvs1 ++ (k, v) :: kvs2.
Proof.
  induction kvs as [|[k' v'] kvs IH]; simpl; [done|].
  destruct (decide (k' = k)) as [->|Hne].
  - intros [= ->]. by exists [], kvs.
  - intros (kvs1 & kvs2 & ->)%IH. by exists ((k', v') :: kvs1), kvs2.
Qed.

Lemma contents_keys c l : (contents c l).*1 = map (fun e => en_key (entry_of e c)) l.
Proof. unfold contents. induction l as [|e l IH]; [done|]. simpl. f_equal. exact IH. Qed.

Lemma holds_NoDup c kvs : holds c kvs -> NoDup kvs.*1.
Proof. intros (l & Hr & <-). rewrite contents_keys. apply (rep_keys _ _ Hr). Qed.

Lemma holds_length c kvs : holds c kvs -> ca_size c = Z.of_nat (length kvs).
Proof.
  intros (l & Hr & <-). unfold contents. rewrite length_map. apply (rep_size _ _ Hr).
Qed.

Lemma contents_split c l kvs1 k v kvs2 :
  contents c l = kvs1 ++ (k, v) :: kvs2 ->
  exists l1 e l2, l = l1 ++ e :: l2 /\ contents c l1 = kvs1 /\ contents c l2 = kvs2
    /\ en_key (entry_of e c) = k /\ en_value (entry_of e c) = v.
Proof.
  revert l. induction kvs1 as [|p kvs1 IH]; intros [|e l] H; try done.
  - injection H as Hk Hv H. by exists [], e, l.
  - injection H as Hp H. destruct (IH l H) as (l1 & e' & l2 & -> & C1 & C2 & Hk & Hv).
    exists (e :: l1), e', l2. split; [done|]. split; [|done].
    simpl. by rewrite C1, Hp.
Qed.

Lemma Cache_get_holds c kvs k :
  holds c kvs ->
  exists c', Cache_get k false c
             = (from_option CValue CUndefined (lru_find k kvs), c')
    /\ holds c' (lru_get k kvs)
    /\ ca_size c' = ca_size c /\ ca_limit c' = ca_limit c /\ ca_next c' = ca_next c.
Proof.
  intros Hh. pose proof (holds_NoDup _ _ Hh) as Hnd. destruct Hh as (l & Hr & Hc).
  unfold lru_get. destruct (lru_find k kvs) as [v|] eqn:Hf.
  - apply lru_find_Some in Hf as (kvs1 & kvs2 & ->).
    destruct (lru_split k v kvs1 kvs2 Hnd) as [_ ->].
    destruct (contents_split _ _ _ _ _ _ Hc) as (l1 & e & l2 & -> & C1 & C2 & Hk & Hv).
    destruct (Cache_get_hit c l1 e l2 false Hr) as (c' & E & Hr' & R).
    rewrite Hk in E. exists c'. rewrite E. split.
    + unfold get_result. simpl.
      destruct R as (_ & _ & _ & _ & R). destruct (R e) as [_ ->]. by rewrite Hv.
    + split; [|by destruct R as (? & ? & ? & ? & _)].
      exists (l1 ++ l2 ++ [e]). split; [done|].
      rewrite (contents_relinked c c') by done.
      unfold contents in *. rewrite !map_app. simpl. by rewrite C1, C2, Hk, Hv, app_assoc.
  - exists c. apply lru_find_None in Hf.
    rewrite (Cache_get_miss c l k false Hr).
    + split; [done|]. split; [by exists l|done].
    + intros e He Hk. apply Hf. subst kvs. rewrite contents_keys, <- Hk.
      by apply (elem_of_map_keys (fun e => en_key (entry_of e c))).
Qed.

Lemma represents_set_value c l e v :
  represents c l -> represents (upd_entry e (set_en_value v) c) l.
Proof.
  intros [Hh Ht Hl Hnd Hk Hm Hs Ha].
  assert (forall x, en_key (entry_of x (upd_entry e (set_en_value v) c))
                    = en_key (entry_of x c)) as K.
  { intros x. rewrite entry_of_upd_entry. by destruct (decide (x = e)) as [->|]. }
  constructor; try done.
  - eapply linked_ext_links; [|exact Hl]. intros x _.
    rewrite entry_of_upd_entry. by destruct (decide (x = e)) as [->|].
  - erewrite map_ext; [exact Hk|]. intros x. apply K.
  - intros k' e'. rewrite K. apply Hm.
Qed.

(** [put], on the list of pairs.  It returns unless one pair is there, the
    limit is one and the key is new. *)
Lemma Cache_put_holds c kvs k v :
  holds c kvs ->
  (lru_find k kvs = None -> ca_limit c = 1%Z -> length kvs <> 1) ->
  exists r c', Cache_put k v c = CReturn r c'
    /\ holds c' (lru_put (ca_limit c) k v kvs)
    /\ ca_limit c' = ca_limit c
    /\ match evicted (ca_limit c) k kvs with
       | Some (k0, v0) => exists e, r = CEntry e
                                   /\ entry_of e c' = mkEntry k0 v0 None None
       | None => r = CUndefined
       end.
Proof.
  intros Hh Hok. pose proof (holds_NoDup _ _ Hh) as Hnd.
  pose proof (holds_length _ _ Hh) as Hlen. destruct Hh as (l & Hr & Hc).
  unfold Cache_put, lru_put, evicted. destruct (lru_find k kvs) as [v0|] eqn:Hf.
  - apply lru_find_Some in Hf as (kvs1 & kvs2 & ->).
    destruct (lru_split k v0 kvs1 kvs2 Hnd) as [_ ->].
    destruct (contents_split _ _ _ _ _ _ Hc) as (l1 & e & l2 & -> & C1 & C2 & Hk & Hv).
    destruct (Cache_get_hit c l1 e l2 true Hr) as (c' & E & Hr' & R).
    rewrite Hk in E. rewrite E. cbn [get_result].
    eexists _, _. split; [reflexivity|].
    split; [|split; [by destruct R as (? & ? & ? & ? & _)|done]].
    exists (l1 ++ l2 ++ [e]). split; [by apply represents_set_value|].
    assert (e ∉ l1 ++ l2) as Hnotin.
    { pose proof (rep_nodup _ _ Hr) as Hn.
      apply NoDup_app in Hn as (_ & Hdisj & Hn2). apply NoDup_cons in Hn2 as (He2 & _).
      intros [H|H]%elem_of_app; [|done]. apply (Hdisj e H). by left. }
    destruct R as (_ & _ & _ & _ & R).
    unfold contents in *. rewrite !app_assoc, map_app. f_equal.
    + rewrite <- C1, <- C2, <- map_app. apply map_ext_in.
      intros x Hx%list_elem_of_In. read_entry.
      assert (x <> e) as Hne by (by intros ->). read_entry.
      by destruct (R x) as [-> ->].
    + simpl. read_entry. destruct (R e) as [-> _]. by rewrite Hk.
  - apply lru_find_None in Hf.
    assert (forall e, e ∈ l -> en_key (entry_of e c) <> k) as Hnew.
    { intros e He Hk. apply Hf. subst kvs. rewrite contents_keys, <- Hk.
      by apply (elem_of_map_keys (fun e => en_key (entry_of e c))). }
    rewrite (Cache_get_miss c l k true Hr Hnew).
    assert (length kvs = length l) as Hll by (subst kvs; apply length_map).
    destruct (decide (Z.of_nat (length kvs) = ca_limit c)) as [Hfull|Hroom].
    + rewrite bool_decide_eq_true_2 by congruence.
      destruct l as [|e0 [|e1 l]].
      * (* an empty cache of limit zero *)
        rewrite (Cache_shift_empty c Hr). subst kvs. simpl.
        destruct (put_new_spec c [] k v CUndefined Hr Hnew) as (c' & E & Hr' & C' & L' & _).
        eexists _, _. split; [exact E|]. split; [by exists [ca_next c]|]. done.
      * exfalso. apply Hok; [done| |by rewrite Hll].
        rewrite <- Hfull, Hll. done.
      * destruct (Cache_shift_spec c e0 e1 l Hr) as (c2 & E2 & Hr2 & C2 & L2 & E0 & N2 & K2).
        rewrite E2.
        pose proof (rep_nodup _ _ Hr) as Hn. apply NoDup_cons in Hn as (Hn0 & _).
        assert (forall e, e ∈ e1 :: l -> en_key (entry_of e c2) <> k) as Hnew2.
        { intros e He. rewrite K2 by (by intros ->). apply Hnew. by right. }
        destruct (put_new_spec c2 (e1 :: l) k v (CEntry e0) Hr2 Hnew2)
          as (c' & E & Hr' & C' & L' & G').
        eexists _, _. split; [exact E|].
        split; [|split; [congruence|]].
        -- exists ((e1 :: l) ++ [ca_next c2]). split; [done|].
           rewrite C', C2. subst kvs. done.
        -- subst kvs. simpl. exists e0. split; [done|].
           rewrite G', E0; [done|done|].
           pose proof (rep_alloc _ _ Hr e0 ltac:(by left)). rewrite N2. lia.
    + rewrite bool_decide_eq_false_2 by congruence.
      destruct (put_new_spec c l k v CUndefined Hr Hnew) as (c' & E & Hr' & C' & L' & _).
      eexists _, _. split; [exact E|]. split; [|done].
      exists (l ++ [ca_next c]). split; [done|]. by rewrite C', Hc.
Qed.

Lemma Cache_new_holds limit : holds (Cache_new limit) [].
Proof.
  exists []. split; [|done]. constructor; try done.
  - apply NoDup_nil_2.
  - apply NoDup_nil_2.
  - intros k e. split; [done|]. by intros [?%elem_of_nil _].
  - intros e ?%elem_of_nil. done.
Qed.

Lemma lru_get_length k kvs : NoDup kvs.*1 -> length (lru_get k kvs) = length kvs.
Proof.
  intros Hnd. unfold lru_get. destruct (lru_find k kvs) as [v|] eqn:Hf; [|done].
  apply lru_find_Some in Hf as (kvs1 & kvs2 & ->).
  destruct (lru_split k v kvs1 kvs2 Hnd) as [_ ->].
  rewrite !length_app. simpl. lia.
Qed.

Lemma lru_put_length limit k v kvs :
  NoDup kvs.*1 -> (1 <= limit)%Z -> (Z.of_nat (length kvs) <= limit)%Z ->
  (Z.of_nat (length (lru_put limit k v kvs)) <= limit)%Z.
Proof.
  intros Hnd Hl Hlen. unfold lru_put. destruct (lru_find k kvs) as [v0|] eqn:Hf.
  - apply lru_find_Some in Hf as (kvs1 & kvs2 & ->).
    destruct (lru_split k v0 kvs1 kvs2 Hnd) as [_ ->].
    rewrite !length_app in *. simpl in *. lia.
  - destruct (decide (Z.of_nat (length kvs) = limit)) as [Hfull|Hroom].
    + rewrite length_app, length_drop. simpl. lia.
    + rewrite length_app. simpl. lia.
Qed.

Lemma Cache_run_refines limit ops : forall c kvs,
  (2 <= limit)%Z -> holds c kvs -> ca_limit c = limit ->
  (Z.of_nat (length kvs) <= limit)%Z ->
  exists c', Cache_run ops c = (Some (lru_run limit ops kvs).1, c')
    /\ holds c' (lru_run limit ops kvs).2
    /\ ca_limit c' = limit
    /\ (Z.of_nat (length (lru_run limit ops kvs).2) <= limit)%Z.
Proof.
  induction ops as [|[k|k v] ops IH]; intros c kvs Hl Hh Hlim Hlen.
  - exists c. done.
  - cbn [Cache_run lru_run].
    destruct (Cache_get_holds c kvs k Hh) as (c1 & E & Hh1 & _ & L1 & _).
    rewrite E.
    destruct (IH c1 (lru_get k kvs) Hl Hh1) as (c' & E' & Hh' & L' & B').
    { congruence. }
    { rewrite lru_get_length; [done|]. by eapply holds_NoDup. }
    rewrite E'. destruct (lru_run limit ops (lru_get k kvs)) as [rs kvs'].
    exists c'. done.
  - cbn [Cache_run lru_run].
    destruct (Cache_put_holds c kvs k v Hh) as (r & c1 & E & Hh1 & L1 & _).
    { intros _ H1. lia. }
    rewrite E. rewrite Hlim in Hh1.
    destruct (IH c1 (lru_put limit k v kvs) Hl Hh1) as (c' & E' & Hh' & L' & B').
    { congruence. }
    { apply lru_put_length; [by eapply holds_NoDup|lia|done]. }
    exists c'. done.
Qed.

Lemma Cache_put_single_throws c k0 v0 k v :
  holds c [(k0, v0)] -> ca_limit c = 1%Z -> k <> k0 ->
  Cache_put k v c = CThrow TypeError (set_ca_head None c)
  /\ Cache_get k0 false (set_ca_head None c) = (CValue v0, set_ca_head None c)
  /\ Cache_get k false (set_ca_head None c) = (CUndefined, set_ca_head None c).
Proof.
  intros Hh Hlim Hk. pose proof (holds_length _ _ Hh) as Hs.
  destruct Hh as ([|e0 [|e1 l]] & Hr & Hc); try done.
  injection Hc as Hk0 Hv0.
  assert (forall e, e ∈ [e0] -> en_key (entry_of e c) <> k) as Hnew.
  { intros e ->%list_elem_of_singleton. congruence. }
  assert (keymap_get k c = None) as Hmiss.
  { destruct (keymap_get k c) as [e|] eqn:He; [|done].
    apply (rep_keymap _ _ Hr) in He as (Hin & Hkey). by destruct (Hnew e Hin). }
  assert (keymap_get k0 c = Some e0) as Hhit.
  { apply (rep_keymap _ _ Hr). split; [by left|done]. }
  split; [|split].
  - unfold Cache_put. rewrite (Cache_get_miss c [e0] k true Hr Hnew).
    rewrite bool_decide_eq_true_2 by (rewrite Hs, Hlim; done).
    by rewrite (Cache_shift_single c e0 Hr).
  - rewrite Cache_get_eq. change (keymap_get k0 (set_ca_head None c)) with (keymap_get k0 c).
    rewrite Hhit. cbn [ca_tail set_ca_head]. rewrite (rep_tail _ _ Hr).
    rewrite bool_decide_eq_true_2 by done. unfold get_result.
    by rewrite entry_of_set_ca_head, Hv0.
  - rewrite Cache_get_eq. change (keymap_get k (set_ca_head None c)) with (keymap_get k c).
    by rewrite Hmiss.
Qed.

Lemma Cache_get_last c kvs k v :
  holds c (kvs ++ [(k, v)]) -> Cache_get k false c = (CValue v, c).
Proof.
  intros (l & Hr & Hc).
  destruct (contents_split _ _ _ _ _ _ Hc) as (l1 & e & l2 & -> & _ & C2 & Hk & Hv).
  destruct l2; [|done].
  rewrite Cache_get_eq.
  assert (keymap_get k c = Some e) as ->.
  { apply (rep_keymap _ _ Hr). split; [|done]. apply elem_of_app. right. by left. }
  rewrite (rep_tail _ _ Hr), last_snoc, bool_decide_eq_true_2 by done.
  unfold get_result. by rewrite Hv.
Qed.

Lemma lru_put_last limit k v kvs : exists kvs', lru_put limit k v kvs = kvs' ++ [(k, v)].
Proof.
  unfold lru_put. destruct (lru_find k kvs); [eauto|].
  destruct (decide _); eauto.
Qed.

Lemma holds_after_put c kvs k v r c' :
  holds c kvs -> Cache_put k v c = CReturn r c' ->
  holds c' (lru_put (ca_limit c) k v kvs).
Proof.
  intros Hh E.
  destruct (decide (lru_find k kvs = None /\ ca_limit c = 1%Z /\ length kvs = 1))
    as [(Hf & Hl & Hlen)|Hok].
  - destruct kvs as [|[k0 v0] [|? ?]]; try done.
    simpl in Hf. destruct (decide (k0 = k)) as [|Hne]; [done|].
    destruct (Cache_put_single_throws c k0 v0 k v Hh Hl) as (E' & _); [done|].
    congruence.
  - destruct (Cache_put_holds c kvs k v Hh) as (r' & c'' & E' & Hh' & _).
    { intros ? ? ?. apply Hok. done. }
    congruence.
Qed.

(** X1.  [get] of a key that is cached returns its value and makes the
    pair the most recently used, the others keeping their order; [get] of
    any other key returns [undefined] and leaves the cache as it is.  The
    number of entries does not change. *)
Theorem Cache_get_marks_recent (c : Cache) (kvs : list (string * value))
    (k : string) (Hh : holds c kvs) :
  exists c',
    Cache_get k false c = (from_option CValue CUndefined (lru_find k kvs), c')
    /\ holds c' (lru_get k kvs)
    /\ (k ∉ kvs.*1 -> c' = c)
    /\ ca_size c' = ca_size c.
Proof.
  destruct (Cache_get_holds c kvs k Hh) as (c' & E & Hh' & Hs & _).
  exists c'. split; [done|]. split; [done|]. split; [|done].
  intros Hk. destruct Hh as (l & Hr & Hc).
  rewrite (Cache_get_miss c l k false Hr) in E; [congruence|].
  intros e He Hkey. apply Hk. subst kvs. rewrite contents_keys, <- Hkey.
  by apply (elem_of_map_keys (fun e => en_key (entry_of e c))).
Qed.

(** X2.  [put] of a key that is cached stores the value and makes the pair
    the most recently used.  [put] of a new key appends the pair; when
    [size] equals [limit] the least recently used pair leaves first and
    its entry, unlinked, is returned; otherwise [undefined] is returned.
    This holds unless the cache has one entry, the limit is one and the
    key is new. *)
Theorem Cache_put_evicts_least_recent (c : Cache) (kvs : list (string * value))
    (k : string) (v : value) (Hh : holds c kvs)
    (Hok : lru_find k kvs = None -> ca_limit c = 1%Z -> length kvs <> 1) :
  exists r c',
    Cache_put k v c = CReturn r c'
    /\ holds c' (lru_put (ca_limit c) k v kvs)
    /\ ca_limit c' = ca_limit c
    /\ match evicted (ca_limit c) k kvs with
       | Some (k0, v0) =>
           exists e, r = CEntry e /\ entry_of e c' = mkEntry k0 v0 None None
       | None => r = CUndefined
       end.
Proof. by apply Cache_put_holds. Qed.

(** X3.  Whenever [put(key, value)] returns, [get(key)] gives [value] back
    and leaves the cache as it is. *)
Theorem Cache_put_get_round_trip (c : Cache) (kvs : list (string * value))
    (k : string) (v : value) (r : CacheResult) (c' : Cache)
    (Hh : holds c kvs) (Hput : Cache_put k v c = CReturn r c') :
  Cache_get k false c' = (CValue v, c').
Proof.
  pose proof (holds_after_put c kvs k v r c' Hh Hput) as Hh'.
  destruct (lru_put_last (ca_limit c) k v kvs) as (kvs' & E). rewrite E in Hh'.
  by eapply Cache_get_last.
Qed.

(** X4.  In a cache of limit one that holds one entry, [put] of another
    key throws a [TypeError]: [shift] assigns to a property of
    [this.head.newer], which is [undefined].  The new key is not stored,
    the old entry is still found, and [head] is left [undefined]. *)
Theorem Cache_put_throws_at_limit_one (c : Cache) (k0 k : string) (v0 v : value)
    (Hh : holds c [(k0, v0)]) (Hlim : ca_limit c = 1%Z) (Hk : k <> k0) :
  exists c',
    Cache_put k v c = CThrow TypeError c'
    /\ ca_head c' = None
    /\ Cache_get k0 false c' = (CValue v0, c')
    /\ Cache_get k false c' = (CUndefined, c').
Proof.
  destruct (Cache_put_single_throws c k0 v0 k v Hh Hlim Hk) as (E1 & E2 & E3).
  exists (set_ca_head None c). done.
Qed.

(** X5.  A new cache of limit two or more never throws and behaves as the
    list of pairs: after any calls of [get] and [put] the results of the
    [get]s and the pairs held, in order of use, are those of the list, and
    no more than [limit] pairs are held. *)
Theorem Cache_refines_lru (limit : Z) (ops : list CacheOp) (Hl : (2 <= limit)%Z) :
  exists c',
    Cache_run ops (Cache_new limit) = (Some (lru_run limit ops []).1, c')
    /\ holds c' (lru_run limit ops []).2
    /\ (Z.of_nat (length (lru_run limit ops []).2) <= limit)%Z.
Proof.
  destruct (Cache_run_refines limit ops (Cache_new limit) [] Hl
              (Cache_new_holds limit) eq_refl) as (c' & E & Hh & _ & B).
  { simpl. lia. }
  exists c'. done.
Qed.

(** X6.  A cache whose limit is zero or negative never removes an entry:
    [size] equals [limit] only while the cache is empty, where [shift]
    has nothing to remove. *)
Theorem Cache_without_limit_keeps_all (c : Cache) (kvs : list (string * value))
    (k : string) (v : value) (Hh : holds c kvs) (Hlim : (ca_limit c <= 0)%Z) :
  exists c',
    Cache_put k v c = CReturn CUndefined c'
    /\ holds c' (lru_without k kvs ++ [(k, v)])
    /\ ca_limit c' = ca_limit c.
Proof.
  destruct (Cache_put_holds c kvs k v Hh) as (r & c' & E & Hh' & L & Hr).
  { intros _ H1. lia. }
  exists c'. unfold lru_put, evicted in *.
  destruct (lru_find k kvs) as [v0|] eqn:Hf.
  - subst r. done.
  - apply lru_find_None in Hf. rewrite lru_without_notin by done.
    destruct (decide (Z.of_nat (length kvs) = ca_limit c)) as [Hfull|Hroom].
    + destruct kvs as [|? ?]; [|simpl in Hfull; lia]. simpl in Hr. subst r. done.
    + subst r. done.
Qed.

(** ** [indexOf], [$remove] and the subscriber lists *)

Lemma indexOf_from_last i l x j :
  indexOf_from i l x = Some j -> forall k, j < k -> k < i -> l !! k <> Some x.
Proof.
  induction i as [|i IH]; simpl; [done|].
  destruct (bool_decide (l !! i = Some x)) eqn:E.
  - intros [= <-] k ? ?. lia.
  - apply bool_decide_eq_false in E. intros H k Hj Hk.
    destruct (decide (k = i)) as [->|]; [done|]. apply IH; [done|done|lia].
Qed.

Lemma indexOf_split l x i :
  indexOf l x = Some i ->
  exists l1 l2, l = l1 ++ x :: l2 /\ (x ∉ l2) /\ length l1 = i.
Proof.
  intros H. destruct (indexOf_from_Some _ _ _ _ H) as [Hi Hlt].
  exists (take i l), (drop (S i) l). split; [by rewrite take_drop_middle|].
  split; [|by rewrite length_take; lia].
  intros Hin. apply list_elem_of_lookup in Hin as [k Hk].
  rewrite lookup_drop in Hk.
  apply (indexOf_from_last _ _ _ _ H (S i + k)); [lia| |done].
  by apply lookup_lt_Some in Hk.
Qed.

Lemma array_remove_app l1 l2 x :
  x ∉ l2 -> array_remove (l1 ++ x :: l2) x = l1 ++ l2.
Proof.
  intros Hx. unfold array_remove.
  rewrite bool_decide_eq_false_2 by (rewrite length_app; simpl; lia).
  destruct (indexOf (l1 ++ x :: l2) x) as [i|] eqn:E.
  - destruct (indexOf_split _ _ _ E) as (k1 & k2 & E' & Hk2 & Hlen).
    assert (k2 = l2 /\ k1 = l1) as [-> ->].
    { clear E Hlen. revert l2 k2 Hx Hk2 E'.
      assert (forall (a b c d : list nat), x ∉ b -> x ∉ d ->
                a ++ x :: b = c ++ x :: d -> length b <= length d -> d = b /\ c = a) as Hgen.
      { intros a b c d Hb Hd Heq Hle.
        assert (length a = length c \/ length c < length a) as [Hl|Hl].
        { apply (f_equal length) in Heq. rewrite !length_app in Heq. simpl in Heq. lia. }
        - apply app_inj_1 in Heq as [-> [= ->]]; done.
        - exfalso. apply Hb.
          assert ((a ++ x :: b) !! length a = Some x) as H1 by (by rewrite list_lookup_middle).
          assert ((c ++ x :: d) !! length c = Some x) as H2 by (by rewrite list_lookup_middle).
          rewrite <- Heq in H2. rewrite lookup_app_l in H2 by done.
          assert (x ∈ drop (S (length c)) (c ++ x :: d)) as H3.
          { rewrite <- Heq. apply list_elem_of_lookup.
            exists (length a - S (length c)). rewrite lookup_drop.
            replace (S (length c) + (length a - S (length c))) with (length a) by lia.
            done. }
          rewrite drop_app_ge in H3 by lia.
          replace (S (length c) - length c) with 1 in H3 by lia.
          simpl in H3. by rewrite drop_0 in H3. }
      intros l2 k2 Hx Hk2 E'.
      destruct (decide (length l2 <= length k2)).
      - by apply Hgen.
      - symmetry in E'. destruct (Hgen _ _ _ _ Hk2 Hx E') as [-> ->]; [lia|done]. }
    subst i. rewrite delete_take_drop, take_app_length.
    rewrite drop_app_ge by lia. by replace (S (length l1) - length l1) with 1 by lia.
  - apply indexOf_None_not_elem in E. destruct E. apply elem_of_app. right. by left.
Qed.

Lemma array_remove_absent l x : x ∉ l -> array_remove l x = l.
Proof.
  intros Hx. unfold array_remove. case_bool_decide; [done|].
  destruct (indexOf l x) as [i|] eqn:E; [|done].
  destruct (indexOf_from_Some _ _ _ _ E) as [Hi _].
  destruct Hx. by eapply list_elem_of_lookup_2.
Qed.

(** X7.  [indexOf] of [util/lang.js] scans from the end: it gives the
    index of the last occurrence of the item, and [-1] exactly when the
    item does not occur. *)
Theorem indexOf_finds_last (arr : list nat) (x : nat) :
  match indexOf arr x with
  | Some i => arr !! i = Some x /\ forall j, i < j -> arr !! j <> Some x
  | None => x ∉ arr
  end.
Proof.
  destruct (indexOf arr x) as [i|] eqn:E.
  - destruct (indexOf_from_Some _ _ _ _ E) as [Hi _]. split; [done|].
    intros j Hj Hx. apply (indexOf_from_last _ _ _ _ E j Hj); [|done].
    by apply lookup_lt_Some in Hx.
  - by apply indexOf_None_not_elem.
Qed.

(** X8.  [$remove] takes the last occurrence of the item out of the array
    and keeps every other element in place; an array without the item is
    left as it is. *)
Theorem array_remove_takes_last (l : list nat) (x : nat) :
  ((x ∉ l) /\ array_remove l x = l)
  \/ (exists l1 l2, l = l1 ++ x :: l2 /\ (x ∉ l2) /\ array_remove l x = l1 ++ l2).
Proof.
  destruct (indexOf l x) as [i|] eqn:E.
  - right. destruct (indexOf_split _ _ _ E) as (l1 & l2 & -> & Hx & _).
    exists l1, l2. split; [done|]. split; [done|]. by apply array_remove_app.
  - left. apply indexOf_None_not_elem in E. split; [done|].
    by apply array_remove_absent.
Qed.

(** X9.  [addSub] does not look for the watcher in [subs], and [removeSub]
    takes the last occurrence out: [removeSub] after [addSub] gives the
    subscriber list back as it was, an earlier subscription of the same
    watcher included. *)
Theorem Dep_addSub_removeSub (d w : nat) (s : World) :
  exists s',
    (Dep_addSub d w;;; Dep_removeSub d w) s = Ok tt s'
    /\ subs_of d s' = subs_of d s
    /\ (forall d', d' <> d -> subs_of d' s' = subs_of d' s)
    /\ (is_Some (deps s !! d) -> s' = s).
Proof.
  unfold Dep_addSub, Dep_removeSub. munfold. eexists. split; [done|].
  rewrite !subs_of_set_subs_eq.
  rewrite (array_remove_app (subs_of d s) [] w) by apply not_elem_of_nil.
  rewrite app_nil_r.
  split; [done|].
  split; [intros d' Hd; by rewrite !subs_of_set_subs_ne|].
  intros [l Hl]. destruct s. unfold set_subs, upd_deps, subs_of. simpl in *. f_equal.
  rewrite insert_insert_eq. apply insert_id. by rewrite lookup_total_alt, Hl.
Qed.

(** ** [toArray] *)

Lemma toArray_fill_lookup i l start ret k :
  i <= length ret ->
  toArray_fill i l start ret !! k
  = if decide (k < i) then Some (element_at l (Z.of_nat k + start)) else ret !! k.
Proof.
  revert ret. induction i as [|i IH]; intros ret Hi; cbn [toArray_fill].
  - by rewrite decide_False by lia.
  - rewrite IH by (rewrite length_insert; lia).
    destruct (decide (k < i)); [by rewrite decide_True by lia|].
    destruct (decide (k = i)) as [->|].
    + rewrite decide_True by lia. by rewrite list_lookup_insert_eq by lia.
    + rewrite decide_False by lia. by rewrite list_lookup_insert_ne.
Qed.

Lemma toArray_fill_length i l start ret :
  length (toArray_fill i l start ret) = length ret.
Proof.
  revert ret. induction i as [|i IH]; intros ret; simpl; [done|].
  by rewrite IH, length_insert.
Qed.

(** X10.  [toArray(list, start)] returns a new array with the elements of
    [list] from [start] on; a negative [start] puts that many [undefined]
    in front, and a [start] beyond the length throws a [RangeError], as
    [new Array] is given a negative length. *)
Theorem toArray_start_drops (l : list value) (start : Z) (s : World) :
  toArray_start l start s
  = if ((Z.of_nat (length l) <? start) || (4294967295 + start <? Z.of_nat (length l)))%Z
    then Thrown RangeError s
    else Ok (replicate (Z.to_nat (- start)) VUndef ++ drop (Z.to_nat start) l) s.
Proof.
  unfold toArray_start. cbv zeta.
  remember (Z.of_nat (length l) - start)%Z as i eqn:Hi.
  destruct (Z.ltb_spec i 0), (Z.ltb_spec 4294967295 i),
    (Z.ltb_spec (Z.of_nat (length l)) start),
    (Z.ltb_spec (4294967295 + start) (Z.of_nat (length l)));
    simpl; try done; try lia.
  unfold ret. f_equal. apply list_eq. intros k.
  rewrite toArray_fill_lookup by (by rewrite length_replicate).
  destruct (decide (k < Z.to_nat i)) as [Hk|Hk].
  - unfold element_at. destruct (Z.ltb_spec (Z.of_nat k + start) 0) as [Hlt|Hge].
    + rewrite lookup_app_l by (rewrite length_replicate; lia).
      symmetry. apply lookup_replicate_2. lia.
    + destruct (decide (0 <= start)%Z).
      * replace (Z.to_nat (- start)) with 0 by lia. simpl.
        rewrite lookup_drop.
        replace (Z.to_nat start + k) with (Z.to_nat (Z.of_nat k + start)) by lia.
        destruct (l !! Z.to_nat (Z.of_nat k + start)) eqn:E; [done|].
        apply lookup_ge_None in E. lia.
      * replace (Z.to_nat start) with 0 by lia. rewrite drop_0.
        rewrite lookup_app_r by (rewrite length_replicate; lia).
        rewrite length_replicate.
        replace (k - Z.to_nat (- start)) with (Z.to_nat (Z.of_nat k + start)) by lia.
        destruct (l !! Z.to_nat (Z.of_nat k + start)) eqn:E; [done|].
        apply lookup_ge_None in E. lia.
  - rewrite (proj1 (lookup_replicate_None _ _ _)) by lia. symmetry. apply lookup_ge_None.
    rewrite length_app, length_replicate, length_drop. lia.
Qed.

(** ** [$set] and [$remove] *)

Lemma indexOf_value_from_Some i arr x j :
  indexOf_value_from i arr x = Some j ->
  j < i /\ strict_eq (arr !!! j) x = true
  /\ forall k, j < k -> k < i -> strict_eq (arr !!! k) x = false.
Proof.
  induction i as [|i IH]; simpl; [done|].
  destruct (strict_eq (arr !!! i) x) eqn:E.
  - intros [= <-]. split; [lia|]. split; [done|]. intros; lia.
  - intros H. destruct (IH H) as (Hj & Hx & Hk). split; [lia|]. split; [done|].
    intros k ? ?. destruct (decide (k = i)) as [->|]; [done|]. apply Hk; lia.
Qed.

Lemma indexOf_value_from_None i arr x :
  indexOf_value_from i arr x = None ->
  forall k, k < i -> strict_eq (arr !!! k) x = false.
Proof.
  induction i as [|i IH]; simpl; [intros; lia|].
  destruct (strict_eq (arr !!! i) x) eqn:E; [done|].
  intros H k Hk. destruct (decide (k = i)) as [->|]; [done|]. apply IH; [done|lia].
Qed.

Lemma indexOf_value_absent arr x :
  Forall (fun y => strict_eq y x = false) arr -> indexOf_value arr x = None.
Proof.
  intros Hall. destruct (indexOf_value arr x) as [j|] eqn:E; [|done].
  destruct (indexOf_value_from_Some _ _ _ _ E) as (Hj & Hx & _).
  rewrite Forall_lookup in Hall.
  destruct (lookup_lt_is_Some_2 arr j Hj) as [y Hy].
  rewrite (list_lookup_total_correct _ _ _ Hy) in Hx.
  by rewrite (Hall _ _ Hy) in Hx.
Qed.

Lemma indexOf_value_last l1 y l2 x :
  strict_eq y x = true -> Forall (fun z => strict_eq z x = false) l2 ->
  indexOf_value (l1 ++ y :: l2) x = Some (length l1).
Proof.
  intros Hy Hl2. rewrite Forall_lookup in Hl2.
  assert ((l1 ++ y :: l2) !!! length l1 = y) as Hmid.
  { apply list_lookup_total_correct. by rewrite list_lookup_middle. }
  destruct (indexOf_value (l1 ++ y :: l2) x) as [j|] eqn:E.
  - destruct (indexOf_value_from_Some _ _ _ _ E) as (Hj & Hx & Hk).
    rewrite length_app in Hj. simpl in Hj.
    destruct (lt_eq_lt_dec j (length l1)) as [[Hlt| ->]|Hgt]; [|done|].
    + specialize (Hk (length l1) Hlt). rewrite Hmid, Hy in Hk.
      discriminate Hk. rewrite length_app. simpl. lia.
    + assert (l2 !! (j - S (length l1)) = Some ((l1 ++ y :: l2) !!! j)) as Hj2.
      { destruct (lookup_lt_is_Some_2 (l1 ++ y :: l2) j) as [z Hz];
          [rewrite length_app; simpl; lia|].
        rewrite (list_lookup_total_correct _ _ _ Hz).
        rewrite lookup_app_r in Hz by lia.
        destruct (j - length l1) as [|n] eqn:En; [lia|]. simpl in Hz.
        by replace (j - S (length l1)) with n by lia. }
      by rewrite (Hl2 _ _ Hj2) in Hx.
  - pose proof (indexOf_value_from_None _ _ _ E (length l1)) as H.
    rewrite Hmid, Hy in H. discriminate H. rewrite length_app. simpl. lia.
Qed.

(** [splice(index, 1, ...items)] of the native array, for an index of the
    array. *)
Lemma native_splice_at l1 x l2 items :
  native_splice (l1 ++ x :: l2) (VNum (Z.of_nat (length l1)) :: VNum 1 :: items)
  = (l1 ++ items ++ l2, NRFresh [x]).
Proof.
  unfold native_splice. cbn [lookup list_lookup to_integer drop].
  rewrite length_app. cbn [length].
  rewrite (proj2 (Z.ltb_ge _ _)) by lia.
  rewrite Z.min_l by lia. rewrite Nat2Z.id.
  rewrite Z.max_l by lia. rewrite Z.min_l by lia.
  change (Z.to_nat 1) with 1.
  rewrite take_app_length.
  rewrite drop_app_ge by lia. replace (length l1 + 1 - length l1) with 1 by lia.
  rewrite drop_app_length. by rewrite drop_0.
Qed.

Section ArrayHelpers.
Variable k fuel : nat.
Local Abbreviation exec := (interp js_native k).

(** The intercepted [splice(index, 1, ...items)] on an observed array,
    with primitive items and subscribers that are deferred. *)
Lemma splice_observed a ob l1 x l2 items s :
  a < next_ref s -> ob < next_ref s -> 0 < fuel ->
  o_ob (obj_of a s) = Some ob ->
  o_augmented (obj_of a s) = true ->
  o_elems (obj_of a s) = l1 ++ x :: l2 ->
  Forall (fun v => isObject v = false) items ->
  (forall w, w ∈ subs_of (ob_dep (observer_of ob s)) s -> deferred w s = true) ->
  let args := VNum (Z.of_nat (length l1)) :: VNum 1 :: items in
  exists s',
    call_method exec js_native fuel a Msplice args s = Ok (VRef (next_ref s)) s'
    /\ scheduling_only
         (upd_log (fun lg => lg ++ map EvObserve items)
            (native_state js_native a Msplice args s)) s'
    /\ o_elems (obj_of a s') = l1 ++ items ++ l2
    /\ obj_of (next_ref s) s' = array_object [x]
    /\ List.filter is_notify (new_events s s') = [EvNotify (ob_dep (observer_of ob s))].
Proof.
  intros Ha Hob Hf Hobs Haug Hel Hprim Hdef args.
  set (d := ob_dep (observer_of ob s)) in *.
  set (s1 := native_state js_native a Msplice args s).
  pose proof (native_state_keeps js_native a Msplice args s) as K1. fold s1 in K1.
  destruct (native_state_frame js_native a Msplice args s) as (L1 & D1 & W1 & C1).
  fold s1 in L1, D1, W1, C1.
  assert (o_ob (obj_of a s1) = Some ob) as Hob1.
  { destruct K1 as (_ & K1 & _). rewrite K1; [done|done|]. by rewrite Hobs. }
  assert (ob_dep (observer_of ob s1) = d) as Hd1.
  { destruct K1 as (_ & _ & K1). by apply K1. }
  assert (heap s1 = <[next_ref s := array_object [x]]>
                      (<[a := set_o_elems (l1 ++ items ++ l2) (obj_of a s)]> (heap s))) as Hheap.
  { subst s1. unfold native_state. cbv zeta.
    change (obj_of a (upd_log ?f s)) with (obj_of a s).
    change (js_native Msplice (o_elems (obj_of a s)) args)
      with (native_splice (o_elems (obj_of a s)) args).
    subst args. rewrite Hel, native_splice_at. simpl. done. }
  set (s2 := upd_log (fun lg => lg ++ map EvObserve items) s1).
  destruct (Dep_notify_deferred exec fuel d s2) as (s3 & E3 & S3).
  { intros w Hw. unfold deferred, watcher_of.
    change (watchers s2) with (watchers s1). change (config s2) with (config s1).
    rewrite W1, C1. apply Hdef. revert Hw. unfold subs_of.
    change (deps s2) with (deps s1). by rewrite D1. }
  exists s3.
  assert (heap s3 = heap s1) as Hheap3 by (by destruct S3 as (_&_&->&_)).
  split.
  { unfold call_method. unfold bind at 1, gets at 1. rewrite Haug.
    unfold mutator. rewrite (bind_ok _ _ _ _ _ (native_call_eq js_native a Msplice args s)).
    fold s1. unfold bind at 1, gets at 1. rewrite Hob1.
    cbn [inserted_of args drop].
    unfold bind at 1. unfold bind at 1. rewrite drop_0.
    rewrite (observeArray_primitives js_native k fuel fuel items s1 Hf Hprim).
    fold s2. unfold gets at 1.
    change (observer_of ob s2) with (observer_of ob s1). rewrite Hd1.
    unfold bind at 1. rewrite E3. done. }
  split; [done|].
  split.
  { unfold obj_of. rewrite Hheap3, Hheap.
    rewrite lookup_total_insert_ne by lia. by rewrite lookup_total_insert_eq. }
  split.
  { unfold obj_of. rewrite Hheap3, Hheap. by rewrite lookup_total_insert_eq. }
  pose proof (Dep_notify_log exec fuel d s2) as HL. rewrite E3 in HL.
  destruct HL as (l & El & Fl).
  rewrite (new_events_app s s3 (EvNative a Msplice args :: map EvObserve items
                                  ++ EvNotify d :: l)).
  - cbn [List.filter is_notify]. rewrite List.filter_app.
    assert (List.filter is_notify (map EvObserve items) = []) as ->.
    { clear. induction items; [done|]. simpl. done. }
    simpl. by rewrite Fl.
  - rewrite El. change (log s2) with (log s1 ++ map EvObserve items).
    rewrite L1. by rewrite <- !app_assoc.
Qed.

End ArrayHelpers.

(** X11.  [$remove] of an item that no element of the array is [===] to
    ([NaN], for one) returns [undefined] and does nothing: [splice] is not
    called, so no Dep is notified and nothing is logged. *)
Theorem dollar_remove_absent (exec : script -> M value) (original : NativeOp)
    (fuel a : nat) (item : value) (s : World)
    (Habs : Forall (fun y => strict_eq y item = false) (o_elems (obj_of a s))) :
  dollar_remove exec original fuel a item s = Ok VUndef s.
Proof.
  unfold dollar_remove. unfold bind at 1, gets at 1.
  case_bool_decide; [done|]. by rewrite indexOf_value_absent.
Qed.

Section ArrayApi.
Variable k fuel : nat.
Local Abbreviation exec := (interp js_native k).

(** X12.  [$remove] on an observed array takes out the last element that
    is [===] to the item, through the intercepted [splice]: the other
    elements keep their places, the result is a new array holding the
    removed element, and the Dep of the array's Observer is notified
    once. *)
Theorem dollar_remove_last_match (a ob : nat) (item x : value)
    (l1 l2 : list value) (s : World)
    (Ha : a < next_ref s) (Hob : ob < next_ref s) (Hf : 0 < fuel)
    (Hobs : o_ob (obj_of a s) = Some ob)
    (Haug : o_augmented (obj_of a s) = true)
    (Hel : o_elems (obj_of a s) = l1 ++ x :: l2)
    (Hx : strict_eq x item = true)
    (Hl2 : Forall (fun y => strict_eq y item = false) l2)
    (Hdef : forall w, w ∈ subs_of (ob_dep (observer_of ob s)) s -> deferred w s = true) :
  exists s',
    dollar_remove exec js_native fuel a item s = Ok (VRef (next_ref s)) s'
    /\ o_elems (obj_of a s') = l1 ++ l2
    /\ obj_of (next_ref s) s' = array_object [x]
    /\ List.filter is_notify (new_events s s') = [EvNotify (ob_dep (observer_of ob s))].
Proof.
  destruct (splice_observed k fuel a ob l1 x l2 [] s Ha Hob Hf Hobs Haug Hel
              (Forall_nil_2 _) Hdef) as (s' & E & _ & He & Hn & Hlog).
  exists s'. split; [|done].
  unfold dollar_remove. unfold bind at 1, gets at 1. rewrite Hel.
  rewrite bool_decide_eq_false_2 by (rewrite length_app; simpl; lia).
  by rewrite (indexOf_value_last l1 x l2 item Hx Hl2).
Qed.

(** X13.  [$set(index, val)] with an index of an observed array puts the
    primitive [val] in the place of the element, leaves the others where
    they are, returns the element replaced and notifies the Dep of the
    array's Observer once. *)
Theorem dollar_set_replaces (a ob : nat) (val x : value)
    (l1 l2 : list value) (s : World)
    (Ha : a < next_ref s) (Hob : ob < next_ref s) (Hf : 0 < fuel)
    (Hobs : o_ob (obj_of a s) = Some ob)
    (Haug : o_augmented (obj_of a s) = true)
    (Hel : o_elems (obj_of a s) = l1 ++ x :: l2)
    (Hval : isObject val = false)
    (Hdef : forall w, w ∈ subs_of (ob_dep (observer_of ob s)) s -> deferred w s = true) :
  exists s',
    dollar_set exec js_native fuel a (Z.of_nat (length l1)) val s = Ok x s'
    /\ o_elems (obj_of a s') = l1 ++ val :: l2
    /\ List.filter is_notify (new_events s s') = [EvNotify (ob_dep (observer_of ob s))].
Proof.
  destruct (splice_observed k fuel a ob l1 x l2 [val] s Ha Hob Hf Hobs Haug Hel)
    as (s' & E & _ & He & Hn & Hlog); [by repeat constructor|done|].
  exists s'. split; [|done].
  unfold dollar_set. unfold bind at 1, gets at 1. rewrite Hel.
  rewrite bool_decide_eq_false_2 by (rewrite length_app; simpl; lia).
  unfold bind at 1, ret at 1. unfold bind at 1. rewrite E.
  unfold first_of. unfold bind at 1, gets at 1. rewrite Hn. done.
Qed.


End ArrayApi.

(** ** Lazy watchers and computed properties *)

Lemma addDep_state_settled t d s w :
  settled (watcher_of w (addDep_state t d s)) = settled (watcher_of w s).
Proof.
  unfold addDep_state. case_bool_decide; [done|].
  case_bool_decide;
    change (watcher_of w (set_subs ?a ?b ?c)) with (watcher_of w c);
    rewrite watcher_of_upd_watcher; destruct (decide (w = t)) as [->|]; done.
Qed.

Lemma for_each_depend_settled t ds s s' :
  target s = Some t -> for_each Dep_depend ds s = Ok tt s' ->
  (forall w, settled (watcher_of w s') = settled (watcher_of w s))
  /\ log s' = log s ++ map EvDepend ds.
Proof.
  revert s. induction ds as [|d ds IH]; intros s Ht; simpl.
  - intros [= <-]. by rewrite app_nil_r.
  - unfold bind at 1. unfold Dep_depend at 1.
    unfold bind at 1, emit at 1, modify at 1. unfold bind at 1, gets at 1.
    simpl. rewrite Ht, Watcher_addDep_eq.
    set (s0 := upd_log (fun l => l ++ [EvDepend d]) s).
    destruct (addDep_state_frame t d s0) as (T1 & _ & L1).
    intros H. apply IH in H as [Hw Hl]; [|by rewrite T1].
    split.
    + intros w. by rewrite Hw, addDep_state_settled.
    + rewrite Hl, L1. subst s0. simpl. by rewrite <- app_assoc.
Qed.

Lemma settled_value x y : settled x = settled y -> w_value x = w_value y.
Proof. intros H. by apply (f_equal w_value) in H. Qed.

Lemma settled_deps x y : settled x = settled y -> w_deps x = w_deps y.
Proof. intros H. by apply (f_equal w_deps) in H. Qed.

Lemma settled_dirty x y : settled x = settled y -> w_dirty x = w_dirty y.
Proof. intros H. by apply (f_equal w_dirty) in H. Qed.

Lemma collecting_subscribed t s d :
  collecting t s -> d ∈ w_newDeps (watcher_of t s) -> t ∈ subs_of d s.
Proof.
  intros Hc Hd. apply occ_pos. rewrite (col_subs _ _ Hc d).
  rewrite bool_decide_eq_true_2; [lia|]. by right.
Qed.

(** The calls of [depend] made by [Watcher.prototype.depend] while [t]
    records. *)
Lemma Watcher_depend_recording w t s :
  target s = Some t -> collecting t s ->
  exists s',
    Watcher_depend w s = Ok tt s'
    /\ target s' = Some t
    /\ collecting t s'
    /\ (forall d, d ∈ w_newDeps (watcher_of t s')
                  <-> d ∈ w_deps (watcher_of w s) \/ d ∈ w_newDeps (watcher_of t s))
    /\ (forall w', settled (watcher_of w' s') = settled (watcher_of w' s))
    /\ log s' = log s ++ map EvDepend (rev (w_deps (watcher_of w s))).
Proof.
  intros Ht Hc. unfold Watcher_depend, for_each_rev. unfold bind at 1, gets at 1.
  destruct (for_each_depend_collecting t (rev (w_deps (watcher_of w s))) s Ht Hc)
    as (s' & E & T' & C' & _ & N').
  exists s'. split; [done|]. split; [done|]. split; [done|].
  split; [intros d; by rewrite N', elem_of_rev|].
  by apply (for_each_depend_settled t).
Qed.

(** X15.  [Watcher.prototype.depend], called while the watcher [t] is
    recording, hands every Dep of the watcher over to [t]: the Deps
    collected for [t] are then those it had and the Deps of the watcher,
    and [t] stands in the subscribers of each of them.  No getter is
    run. *)
Theorem Watcher_depend_propagates (w t : nat) (s : World)
    (Ht : target s = Some t) (Hc : collecting t s) :
  exists s',
    Watcher_depend w s = Ok tt s'
    /\ target s' = Some t
    /\ collecting t s'
    /\ (forall d, d ∈ w_newDeps (watcher_of t s')
                  <-> d ∈ w_deps (watcher_of w s) \/ d ∈ w_newDeps (watcher_of t s))
    /\ (forall d, d ∈ w_deps (watcher_of w s) -> t ∈ subs_of d s')
    /\ new_events s s' = map EvDepend (rev (w_deps (watcher_of w s))).
Proof.
  destruct (Watcher_depend_recording w t s Ht Hc) as (s' & E & T' & C' & N' & _ & L').
  exists s'. do 4 (split; [done|]). split.
  - intros d Hd. apply (collecting_subscribed _ _ _ C'). apply N'. by left.
  - by apply new_events_app.
Qed.

Section Computed.
Variable exec : script -> M value.
Variable fuel : nat.

(** X16.  A computed property whose watcher is not dirty is served from
    the cache: [computedGetter] returns [watcher.value] without running
    the getter.  With no watcher recording the world is left as it is;
    while [t] records, [t] is handed the Deps of the computed watcher. *)
Theorem computedGetter_cached (w : nat) (s : World)
    (Hclean : w_dirty (watcher_of w s) = false) :
  match target s with
  | None => computedGetter exec fuel w s = Ok (w_value (watcher_of w s)) s
  | Some t =>
      collecting t s ->
      exists s',
        computedGetter exec fuel w s = Ok (w_value (watcher_of w s)) s'
        /\ new_events s s' = map EvDepend (rev (w_deps (watcher_of w s)))
        /\ forall d, d ∈ w_deps (watcher_of w s) ->
                     d ∈ w_newDeps (watcher_of t s') /\ t ∈ subs_of d s'
  end.
Proof.
  assert (computedGetter exec fuel w s
          = (match target s with
             | Some _ => Watcher_depend w
             | None => ret tt
             end;;; gets (fun s0 => w_value (watcher_of w s0))) s) as ->.
  { unfold computedGetter. unfold bind at 1, gets at 1. rewrite Hclean.
    unfold when. unfold bind at 1, ret at 1. by unfold bind at 1, gets at 1. }
  destruct (target s) as [t|] eqn:Ht; [|done].
  intros Hc.
  destruct (Watcher_depend_recording w t s Ht Hc) as (s' & E & T' & C' & N' & V' & L').
  exists s'. split.
  { unfold bind at 1. rewrite E. unfold gets. f_equal. by apply settled_value. }
  split; [by apply new_events_app|].
  intros d Hd. assert (d ∈ w_newDeps (watcher_of t s')) by (apply N'; by left).
  split; [done|]. by apply (collecting_subscribed _ _ _ C').
Qed.

(** X17.  A computed property whose watcher is dirty is evaluated when it
    is read: if the evaluation returns [v], [computedGetter] stores and
    returns [v], clears [dirty], and puts [Dep.target] back to the watcher
    [t] that was recording, which is then handed the Deps that the
    evaluation collected. *)
Theorem computedGetter_evaluates (w t : nat) (v : value) (s s1 : World)
    (Hdirty : w_dirty (watcher_of w s) = true)
    (Ht : target s = Some t)
    (Hget : Watcher_get exec fuel w s = Ok v s1)
    (Hc : collecting t s1) :
  exists s',
    computedGetter exec fuel w s = Ok v s'
    /\ target s' = Some t
    /\ w_value (watcher_of w s') = v
    /\ w_dirty (watcher_of w s') = false
    /\ forall d, d ∈ w_deps (watcher_of w s1) ->
                 d ∈ w_newDeps (watcher_of t s') /\ t ∈ subs_of d s'.
Proof.
  set (s2 := upd_target (fun _ => Some t)
               (upd_watcher w (set_w_dirty false)
                  (upd_watcher w (set_w_value v) s1))).
  assert (Watcher_evaluate exec fuel w s = Ok tt s2) as Hev.
  { unfold Watcher_evaluate. unfold bind at 1, gets at 1. rewrite Ht.
    unfold bind at 1. rewrite Hget. done. }
  assert (forall w', settled (watcher_of w' s2)
                     = settled (if decide (w' = w)
                                then set_w_dirty false (set_w_value v (watcher_of w s1))
                                else watcher_of w' s1)) as Hw2.
  { intros w'. subst s2. change (watcher_of w' (upd_target ?f ?x)) with (watcher_of w' x).
    rewrite !watcher_of_upd_watcher.
    destruct (decide (w' = w)) as [->|]; [by rewrite decide_True|done]. }
  assert (collecting t s2) as Hc2.
  { destruct Hc as [Hi Hn Hd Hnd Hs].
    assert (forall w', w_deps (watcher_of w' s2) = w_deps (watcher_of w' s1)
                       /\ w_newDeps (watcher_of w' s2) = w_newDeps (watcher_of w' s1)
                       /\ w_depIds (watcher_of w' s2) = w_depIds (watcher_of w' s1)
                       /\ w_newDepIds (watcher_of w' s2) = w_newDepIds (watcher_of w' s1))
      as Hsame.
    { intros w'. subst s2. change (watcher_of w' (upd_target ?f ?x)) with (watcher_of w' x).
      rewrite !watcher_of_upd_watcher.
      destruct (decide (w' = w)) as [->|]; [by rewrite decide_True|done]. }
    destruct (Hsame t) as (E1 & E2 & E3 & E4).
    constructor; rewrite ?E1, ?E2, ?E3, ?E4; try done. }
  destruct (Watcher_depend_recording w t s2 eq_refl Hc2)
    as (s' & E & T' & C' & N' & V' & L').
  exists s'. split.
  { unfold computedGetter. unfold bind at 1, gets at 1. rewrite Hdirty.
    unfold when. unfold bind at 1. rewrite Hev.
    unfold bind at 1, gets at 1. change (target s2) with (Some t).
    unfold bind at 1. rewrite E. unfold gets. f_equal.
    rewrite (settled_value _ _ (V' w)), (settled_value _ _ (Hw2 w)).
    by rewrite decide_True. }
  split; [done|].
  split.
  { rewrite (settled_value _ _ (V' w)), (settled_value _ _ (Hw2 w)).
    by rewrite decide_True. }
  split.
  { rewrite (settled_dirty _ _ (V' w)), (settled_dirty _ _ (Hw2 w)).
    by rewrite decide_True. }
  intros d Hd.
  assert (d ∈ w_deps (watcher_of w s2)) as Hd2.
  { rewrite (settled_deps _ _ (Hw2 w)). by rewrite decide_True. }
  assert (d ∈ w_newDeps (watcher_of t s')) by (apply N'; by left).
  split; [done|]. by apply (collecting_subscribed _ _ _ C').
Qed.

End Computed.

(** ** Invalidation *)

Lemma stays_dirty_refl s : stays_dirty s s.
Proof. by intros w. Qed.

Lemma stays_dirty_trans s1 s2 s3 :
  stays_dirty s1 s2 -> stays_dirty s2 s3 -> stays_dirty s1 s3.
Proof. intros H1 H2 w Hw. by apply H2, H1. Qed.

Lemma pushWatcher_frame w s :
  exists s', pushWatcher w s = Ok tt s'
             /\ watchers s' = watchers s /\ log s' = log s.
Proof.
  unfold pushWatcher, nextTick_flush. munfold.
  destruct (has s !! w); [by eexists|].
  destruct (w_user (watcher_of w s)); simpl; destruct (waiting s); simpl; by eexists.
Qed.

Section Invalidation.
Variable exec : script -> M value.
Variable fuel : nat.

Lemma Watcher_update_marks w sh s :
  deferred w s = true ->
  exists s',
    Watcher_update exec fuel w sh s = Ok tt s'
    /\ scheduling_only s s' /\ stays_dirty s s'
    /\ (w_lazy (watcher_of w s) = true -> w_dirty (watcher_of w s') = true)
    /\ log s' = log s ++ [EvUpdate w].
Proof.
  intros Hd.
  destruct (Watcher_update_deferred exec fuel w sh s Hd) as (s' & E & HS).
  exists s'. split; [done|]. split; [done|].
  revert E. unfold Watcher_update. unfold deferred in Hd.
  unfold bind at 1. unfold emit at 1, modify at 1.
  unfold bind at 1, gets at 1. unfold bind at 1, gets at 1.
  change (watcher_of w (upd_log _ s)) with (watcher_of w s).
  change (config (upd_log _ s)) with (config s).
  destruct (w_lazy (watcher_of w s)) eqn:Hl.
  - unfold modify. intros [= <-]. split; [|split; [|done]].
    + intros w' Hw'. rewrite watcher_of_upd_watcher.
      destruct (decide (w' = w)); [done|]. done.
    + intros _. by rewrite watcher_of_upd_watcher_eq.
  - simpl in Hd. apply andb_true_iff in Hd as [Hs Ha].
    apply negb_true_iff in Hs. rewrite Hs, Ha. simpl.
    unfold bind at 1, modify at 1.
    match goal with |- context [pushWatcher w ?s0] =>
      destruct (pushWatcher_frame w s0) as (s1 & E1 & W1 & L1) end.
    rewrite E1. intros [= <-]. split; [|split; [done|]].
    + intros w' Hw'. unfold watcher_of. rewrite W1.
      fold (watcher_of w' (upd_watcher w (fun x =>
              set_w_queued true
                (set_w_shallow (if w_queued x then if sh then w_shallow x else false
                                else sh) x))
              (upd_log (fun l => l ++ [EvUpdate w]) s))).
      rewrite watcher_of_upd_watcher. destruct (decide (w' = w)) as [->|]; done.
    + by rewrite L1.
Qed.

Lemma for_each_update_marks ws s :
  (forall w, w ∈ ws -> deferred w s = true) ->
  exists s',
    for_each (fun w => Watcher_update exec fuel w false) ws s = Ok tt s'
    /\ scheduling_only s s' /\ stays_dirty s s'
    /\ (forall w, w ∈ ws -> w_lazy (watcher_of w s) = true ->
                  w_dirty (watcher_of w s') = true)
    /\ log s' = log s ++ map EvUpdate ws.
Proof.
  revert s. induction ws as [|w ws IH]; intros s Hws; simpl.
  - exists s. split; [done|]. split; [apply scheduling_only_refl|].
    split; [apply stays_dirty_refl|]. split; [by intros w ?%elem_of_nil|].
    by rewrite app_nil_r.
  - destruct (Watcher_update_marks w false s) as (s1 & E1 & M1 & D1 & Z1 & L1).
    { apply Hws. by left. }
    destruct (IH s1) as (s2 & E2 & M2 & D2 & Z2 & L2).
    { intros w' Hw'. rewrite (scheduling_only_deferred _ _ _ M1). apply Hws. by right. }
    exists s2. split; [by rewrite (bind_ok _ _ _ _ _ E1)|].
    split; [by eapply scheduling_only_trans|].
    split; [by eapply stays_dirty_trans|].
    split.
    + intros w' Hw' Hl. apply elem_of_cons in Hw' as [->|Hw'].
      * by apply D2, Z1.
      * apply Z2; [done|]. destruct M1 as (_&_&_&_&_&_&_&Hw1).
        pose proof (f_equal w_lazy (Hw1 w')) as H. simpl in H. by rewrite H.
    + rewrite L2, L1. by rewrite <- app_assoc.
Qed.

(** X18.  [notify] on a Dep whose subscribers are lazy, or asynchronous
    under [config.async], runs no getter and no callback: it calls
    [update] on each subscriber, in order, and nothing else.  A lazy
    subscriber, the watcher of a computed property, is then [dirty] and
    still holds its old value; a watcher that was dirty stays dirty. *)
Theorem Dep_notify_invalidates (d : nat) (s : World)
    (Hdef : forall w, w ∈ subs_of d s -> deferred w s = true) :
  exists s',
    Dep_notify exec fuel d s = Ok tt s'
    /\ new_events s s' = EvNotify d :: map EvUpdate (subs_of d s)
    /\ (forall w, w ∈ subs_of d s -> w_lazy (watcher_of w s) = true ->
          w_dirty (watcher_of w s') = true
          /\ w_value (watcher_of w s') = w_value (watcher_of w s))
    /\ stays_dirty s s'.
Proof.
  unfold Dep_notify. unfold bind at 1, emit at 1, modify at 1.
  unfold bind at 1, gets at 1. rewrite toArray_id.
  change (subs_of d (upd_log _ s)) with (subs_of d s).
  set (s0 := upd_log (fun l => l ++ [EvNotify d]) s).
  destruct (for_each_update_marks (subs_of d s) s0) as (s' & E & HS & HD & HZ & HL).
  { intros w Hw. by apply Hdef. }
  exists s'. split; [done|].
  split; [apply new_events_app; rewrite HL; subst s0; simpl; by rewrite <- app_assoc|].
  split; [|done].
  intros w Hw Hl. split; [by apply HZ|].
  destruct HS as (_&_&_&_&_&_&_&Hw1).
  pose proof (f_equal w_value (Hw1 w)) as H. simpl in H. done.
Qed.

End Invalidation.

(** ** Reading back what was assigned *)

Lemma strict_eq_true a b : strict_eq a b = true -> a = b.
Proof.
  unfold strict_eq. destruct a, b; try done; by intros ?%bool_decide_eq_true.
Qed.

Section RoundTrip.
Variable exec : script -> M value.
Variable fuel : nat.

(** The reactive getter of a property without a captured getter returns
    the value of the closure, whoever is recording. *)
Lemma reactiveGetter_plain n c s :
  c_getter (cell_of c s) = None ->
  isObject (c_val (cell_of c s)) = false ->
  exists s',
    reactiveGetter exec (S n) c s = Ok (c_val (cell_of c s)) s'
    /\ (target s = None -> s' = s).
Proof.
  intros Hg Hv. simpl. unfold bind at 1, gets at 1. unfold current_value. rewrite Hg.
  unfold bind at 1, ret at 1. unfold bind at 1, gets at 1.
  destruct (target s) as [t|] eqn:Ht; [|by exists s].
  destruct (Dep_depend_recording t (c_dep (cell_of c s)) s Ht) as (s1 & E1 & C1 & _).
  unfold bind at 1. unfold bind at 1. rewrite E1.
  unfold bind at 1, gets at 1.
  assert (T1 : target s1 = Some t) by (destruct C1 as (-> & _); done).
  assert (exists s2, match c_childOb (cell_of c s1) with
                     | Some ob => obr <- gets (observer_of ob);;
                                  Dep_depend (ob_dep obr)
                     | None => ret tt
                     end s1 = Ok tt s2) as (s2 & E2).
  { destruct (c_childOb (cell_of c s1)) as [ob|]; [|by exists s1].
    munfold. destruct (Dep_depend_recording t (ob_dep (observer_of ob s1)) s1 T1)
      as (s2 & E & _). eauto. }
  unfold bind at 1. rewrite E2. exists s2. split; [|done].
  destruct (c_val (cell_of c s)); try done.
Qed.

(** X19.  A reactive property that [defineReactive] made of a data
    property reads back what was assigned to it: after [obj[key] = v] with
    a primitive [v], [obj[key]] is [v], whether the assignment changed the
    value or was cut short because the value was the same, and whether or
    not a watcher is recording the read.  The subscribers of the property
    are deferred, so the assignment itself runs no user code. *)
Theorem reactive_set_get_round_trip (o c : nat) (key : string) (cfg : bool)
    (newVal : value) (s : World)
    (Hprop : lookup_prop key (o_props (obj_of o s))
             = Some (AccessorProp (Some (GReactive c)) (Some (SReactive c)) cfg))
    (Hget : c_getter (cell_of c s) = None)
    (Hset : c_setter (cell_of c s) = None)
    (Hval : isObject newVal = false)
    (Hfuel : 0 < fuel)
    (Hdef : forall w, w ∈ subs_of (c_dep (cell_of c s)) s -> deferred w s = true) :
  exists s' s'',
    js_set exec fuel o key newVal s = Ok tt s'
    /\ js_get exec fuel o key s' = Ok newVal s''
    /\ (target s = None -> s'' = s').
Proof.
  destruct fuel as [|n]; [lia|].
  assert (exists s', reactiveSetter exec (S n) (S n) c newVal s = Ok tt s'
                     /\ heap s' = heap s /\ target s' = target s
                     /\ c_getter (cell_of c s') = None
                     /\ c_val (cell_of c s') = newVal) as (s' & E & Hh & Ht & Hg & Hv).
  { cbn [reactiveSetter]. unfold bind at 1, gets at 1. unfold current_value.
    rewrite Hget. unfold bind at 1, ret at 1.
    destruct (strict_eq newVal (c_val (cell_of c s))) eqn:Heq.
    - exists s. apply strict_eq_true in Heq. by rewrite Heq.
    - rewrite Hset. unfold bind at 1. unfold bind at 1, modify at 1.
      unfold bind at 1. rewrite observe_primitive by (done || lia).
      unfold modify at 1.
      match goal with |- context [Dep_notify _ _ _ ?s1] =>
        destruct (Dep_notify_deferred exec (S n) (c_dep (cell_of c s)) s1)
          as (s' & E & HS); [|set (s1' := s1) in *] end.
      { intros w Hw. rewrite <- (Hdef w); [done|]. exact Hw. }
      exists s'. split; [done|].
      destruct HS as (_ & HC & HH & _ & HT & _).
      split; [by rewrite HH|]. split; [by rewrite HT|].
      unfold cell_of. rewrite HC. subst s1'. simpl.
      rewrite lookup_total_insert_eq. simpl.
      unfold cell_of. simpl. rewrite lookup_total_insert_eq. simpl.
      fold (cell_of c s). by rewrite Hget. }
  destruct (reactiveGetter_plain n c s' Hg) as (s'' & E' & Hsame);
    [by rewrite Hv|].
  exists s', s''. split.
  { unfold js_set. unfold bind at 1, gets at 1. by rewrite Hprop. }
  split.
  { unfold js_get. unfold bind at 1, gets at 1. unfold obj_of. rewrite Hh.
    fold (obj_of o s). rewrite Hprop, E'. by rewrite Hv. }
  intros Hnone. apply Hsame. by rewrite Ht.
Qed.

End RoundTrip.

(** ** The conversion of a plain object *)

Lemma lookup_replace_prop key key' d ps :
  lookup_prop key' (replace_prop key d ps)
  = if decide (key' = key)
    then match lookup_prop key ps with Some _ => Some d | None => None end
    else lookup_prop key' ps.
Proof.
  induction ps as [|[k0 d0] ps IH]; simpl.
  - by destruct (decide (key' = key)).
  - destruct (decide (k0 = key)) as [->|Hk].
    + rewrite !bool_decide_eq_true_2 by done. simpl.
      destruct (decide (key' = key)) as [->|Hne].
      * by rewrite bool_decide_eq_true_2.
      * by rewrite bool_decide_eq_false_2 by done.
    + rewrite (bool_decide_eq_false_2 (k0 = key)) by done. simpl. rewrite IH.
      destruct (decide (key' = key)) as [->|Hne].
      * by rewrite bool_decide_eq_false_2.
      * done.
Qed.

Lemma keys_replace_prop key d ps : map fst (replace_prop key d ps) = map fst ps.
Proof.
  induction ps as [|[k0 d0] ps IH]; simpl; [done|].
  case_bool_decide; simpl; [by subst|by rewrite IH].
Qed.

Lemma lookup_prop_elem key ps d :
  lookup_prop key ps = Some d -> (key, d) ∈ ps.
Proof.
  induction ps as [|[k0 d0] ps IH]; simpl; [done|].
  case_bool_decide as Hk.
  - intros [= ->]. subst. by left.
  - intros H. right. by apply IH.
Qed.

Lemma lookup_prop_key key ps :
  key ∈ map fst ps -> is_Some (lookup_prop key ps).
Proof.
  induction ps as [|[k0 d0] ps IH]; simpl; [by intros ?%elem_of_nil|].
  intros [->|H]%elem_of_cons.
  - by rewrite bool_decide_eq_true_2.
  - case_bool_decide; [done|]. by apply IH.
Qed.

Lemma engine_kept_refl s : engine_kept s s.
Proof. by repeat split. Qed.

Lemma engine_kept_trans s1 s2 s3 :
  engine_kept s1 s2 -> engine_kept s2 s3 -> engine_kept s1 s3.
Proof.
  intros (C1 & W1 & U1 & D1) (C2 & W2 & U2 & D2).
  split; [congruence|]. split; [congruence|]. split; [lia|].
  intros d Hd. rewrite D2 by lia. by apply D1.
Qed.

Lemma engine_kept_Dep_new s : engine_kept s (set_subs (dep_uid s) [] (upd_dep_uid S s)).
Proof.
  split; [done|]. split; [done|]. split; [simpl; lia|].
  intros d Hd. rewrite subs_of_set_subs_ne by lia. done.
Qed.

Lemma engine_kept_defineReactive_state l key v s :
  engine_kept s (defineReactive_state l key v s).
Proof.
  split; [done|]. split; [done|]. split; [simpl; lia|].
  intros d Hd. unfold defineReactive_state, subs_of. simpl.
  rewrite lookup_total_insert_ne by lia. done.
Qed.

Section Walk.
Variable exec : script -> M value.
Variable fuel n : nat.
Hypothesis Hn : 0 < n.
Local Abbreviation observe_rec := (fun v' => observe exec fuel n v' None).

(** One turn of the loop of [walk]: [convert(key, obj[key])]. *)
Lemma convert_data_prop ob l key v cfg s :
  ob_value (observer_of ob s) = l ->
  lookup_prop key (o_props (obj_of l s)) = Some (DataProp v cfg) ->
  isObject v = false ->
  (val <- js_get exec fuel l key;;
   this_value <- gets (fun s => ob_value (observer_of ob s));;
   defineReactive observe_rec this_value key val) s
  = Ok tt (if cfg then defineReactive_state l key v s
           else set_subs (dep_uid s) [] (upd_dep_uid S s)).
Proof using Hn.
  intros Hob Hp Hv.
  unfold bind at 1. unfold js_get. unfold bind at 1, gets at 1. rewrite Hp.
  unfold ret at 1. unfold bind at 1, gets at 1. rewrite Hob.
  unfold defineReactive. unfold bind at 1, Dep_new at 1.
  unfold bind at 1, gets at 1.
  change (obj_of l (set_subs ?a ?b ?c)) with (obj_of l c).
  change (obj_of l (upd_dep_uid ?f s)) with (obj_of l s).
  rewrite Hp. simpl. destruct cfg; simpl; [|done].
  unfold bind at 1. rewrite observe_primitive by done.
  unfold bind at 1, fresh_ref at 1.
  unfold bind at 1, modify at 1.
  unfold defineProperty. unfold bind at 1, gets at 1.
  match goal with |- context [lookup_prop key (o_props (obj_of l ?x))] =>
    change (obj_of l x) with (obj_of l s) end.
  rewrite Hp. done.
Qed.

Lemma defineReactive_state_frame l key v s :
  let s' := defineReactive_state l key v s in
  next_ref s' = S (next_ref s)
  /\ (forall c, c <> next_ref s -> cell_of c s' = cell_of c s)
  /\ cell_of (next_ref s) s' = mkCell l (dep_uid s) v None None None
  /\ observers s' = observers s /\ target s' = target s
  /\ shouldConvert s' = shouldConvert s
  /\ (forall l', l' <> l -> obj_of l' s' = obj_of l' s)
  /\ obj_of l s'
     = set_o_props (replace_prop key
                      (AccessorProp (Some (GReactive (next_ref s)))
                         (Some (SReactive (next_ref s))) true)
                      (o_props (obj_of l s))) (obj_of l s).
Proof.
  unfold defineReactive_state. cbv zeta.
  split; [done|]. split.
  { intros c Hc. unfold cell_of. simpl. by rewrite lookup_total_insert_ne. }
  split; [unfold cell_of; simpl; by rewrite lookup_total_insert_eq|].
  split; [done|]. split; [done|]. split; [done|]. split.
  { intros l' Hl. rewrite obj_of_upd_obj. by rewrite decide_False. }
  rewrite obj_of_upd_obj. by rewrite decide_True.
Qed.

Lemma reads_as_kept l key v s s' :
  reads_as l key v s ->
  lookup_prop key (o_props (obj_of l s')) = lookup_prop key (o_props (obj_of l s)) ->
  next_ref s <= next_ref s' ->
  (forall c, c < next_ref s -> cell_of c s' = cell_of c s) ->
  reads_as l key v s'.
Proof.
  unfold reads_as. intros H -> Hn' Hc.
  destruct (lookup_prop key (o_props (obj_of l s))) as [[v' cfg|[[sc|c]|] [[f|c']|] cfg]|];
    try done.
  destruct H as (-> & Hlt & H). rewrite (Hc c Hlt). split; [done|]. split; [lia|done].
Qed.

(** The loop of [walk] over keys that name data properties with primitive
    values. *)
Lemma walk_data_props ob l keys s :
  ob_value (observer_of ob s) = l ->
  NoDup keys ->
  (forall key, key ∈ keys ->
     exists v cfg, lookup_prop key (o_props (obj_of l s)) = Some (DataProp v cfg)
                   /\ isObject v = false) ->
  exists s',
    for_each (fun key =>
        val <- js_get exec fuel l key;;
        this_value <- gets (fun s => ob_value (observer_of ob s));;
        defineReactive observe_rec this_value key val) keys s = Ok tt s'
    /\ next_ref s <= next_ref s'
    /\ (forall c, c < next_ref s -> cell_of c s' = cell_of c s)
    /\ observers s' = observers s /\ target s' = target s
    /\ engine_kept s s'
    /\ o_ob (obj_of l s') = o_ob (obj_of l s)
    /\ map fst (o_props (obj_of l s')) = map fst (o_props (obj_of l s))
    /\ (forall key, key ∉ keys ->
          lookup_prop key (o_props (obj_of l s')) = lookup_prop key (o_props (obj_of l s)))
    /\ (forall key v cfg, key ∈ keys ->
          lookup_prop key (o_props (obj_of l s)) = Some (DataProp v cfg) ->
          reads_as l key v s'
          /\ (cfg = true ->
              exists c, lookup_prop key (o_props (obj_of l s'))
                        = Some (AccessorProp (Some (GReactive c)) (Some (SReactive c)) true))).
Proof using Hn.
  revert s. induction keys as [|key keys IH]; intros s Hob Hnd Hdata.
  - exists s. simpl. split; [done|]. do 4 (split; [done|]).
    split; [apply engine_kept_refl|]. do 3 (split; [done|]).
    by intros key v cfg ?%elem_of_nil.
  - apply NoDup_cons in Hnd as [Hnotin Hnd].
    destruct (Hdata key) as (v & cfg & Hp & Hv); [by left|].
    cbn [for_each]. unfold bind at 1.
    rewrite (convert_data_prop ob l key v cfg s Hob Hp Hv).
    set (s1 := if cfg then defineReactive_state l key v s
               else set_subs (dep_uid s) [] (upd_dep_uid S s)).
    assert (next_ref s <= next_ref s1
            /\ (forall c, c < next_ref s -> cell_of c s1 = cell_of c s)
            /\ observers s1 = observers s /\ target s1 = target s
            /\ engine_kept s s1
            /\ o_ob (obj_of l s1) = o_ob (obj_of l s)
            /\ map fst (o_props (obj_of l s1)) = map fst (o_props (obj_of l s))
            /\ (forall key', key' <> key ->
                  lookup_prop key' (o_props (obj_of l s1))
                  = lookup_prop key' (o_props (obj_of l s)))
            /\ reads_as l key v s1
            /\ (cfg = true ->
                lookup_prop key (o_props (obj_of l s1))
                = Some (AccessorProp (Some (GReactive (next_ref s)))
                          (Some (SReactive (next_ref s))) true)))
      as (N1 & C1 & O1 & T1 & G1 & B1 & K1 & F1 & R1 & A1).
    { subst s1. destruct cfg.
      - destruct (defineReactive_state_frame l key v s)
          as (HN & HC & HC' & HO & HT & _ & HL' & HL).
        split; [lia|]. split; [intros c Hc; apply HC; lia|].
        split; [done|]. split; [done|].
        split; [apply engine_kept_defineReactive_state|].
        rewrite HL. simpl. split; [done|]. split; [apply keys_replace_prop|].
        split.
        { intros key' Hne. rewrite lookup_replace_prop. by rewrite decide_False. }
        assert (lookup_prop key
                  (replace_prop key
                     (AccessorProp (Some (GReactive (next_ref s)))
                        (Some (SReactive (next_ref s))) true)
                     (o_props (obj_of l s)))
                = Some (AccessorProp (Some (GReactive (next_ref s)))
                          (Some (SReactive (next_ref s))) true)) as Hacc.
        { rewrite lookup_replace_prop, decide_True by done. by rewrite Hp. }
        split; [|done].
        unfold reads_as. rewrite HL. simpl. rewrite Hacc, HC', ?HN. simpl.
        split; [done|]. split; [lia|done].
      - split; [done|]. split; [done|]. split; [done|]. split; [done|].
        split; [apply engine_kept_Dep_new|].
        split; [done|]. split; [done|]. split; [done|].
        split; [|done]. unfold reads_as.
        change (obj_of l (set_subs ?a ?b ?c)) with (obj_of l c).
        change (obj_of l (upd_dep_uid ?f s)) with (obj_of l s). by rewrite Hp. }
    destruct (IH s1) as (s' & E & N' & C' & O' & T' & G' & B' & K' & F' & R'); [| done |..].
    { unfold observer_of. rewrite O1. exact Hob. }
    { intros key' Hk'. rewrite F1 by (intros ->; done). apply Hdata. by right. }
    exists s'. split; [done|]. split; [lia|].
    split; [intros c Hc; rewrite C' by lia; by apply C1|].
    split; [congruence|]. split; [congruence|].
    split; [by eapply engine_kept_trans|].
    split; [congruence|]. split; [congruence|].
    split.
    { intros key' Hk'. apply not_elem_of_cons in Hk' as [Hne Hk'].
      rewrite F' by done. by apply F1. }
    intros key' v' cfg' Hk' Hp'. apply elem_of_cons in Hk' as [->|Hk'].
    + rewrite Hp in Hp'. injection Hp' as <- <-. split.
      * apply (reads_as_kept l key v s1 s'); [done|by apply F'|done|done].
      * intros Hcfg. exists (next_ref s). rewrite F' by done. by apply A1.
    + apply R'; [done|]. rewrite F1; [done|]. intros ->. done.
Qed.

End Walk.

Lemma js_get_reads_as exec fuel l key v s :
  reads_as l key v s -> isObject v = false -> 0 < fuel ->
  exists s'', js_get exec fuel l key s = Ok v s'' /\ (target s = None -> s'' = s).
Proof.
  unfold reads_as. intros H Hv Hf. unfold js_get. unfold bind at 1, gets at 1.
  destruct (lookup_prop key (o_props (obj_of l s))) as [[v' cfg|[[sc|c]|] [[f|c']|] cfg]|];
    try done.
  - subst v'. by exists s.
  - destruct H as (_ & _ & Hg & _ & _ & <-). destruct fuel as [|m]; [lia|].
    by apply reactiveGetter_plain.
Qed.

Section Conversion.
Variable original : NativeOp.
Variable k fuel : nat.
Local Abbreviation exec := (interp original k).

(** The conversion of a plain object with data properties that hold
    primitive values. *)
Lemma observe_plain_converts (n l : nat) (s : World)
    (Hob : o_ob (obj_of l s) = None)
    (He : eligible (obj_of l s) s = true)
    (Hc : o_class (obj_of l s) = CPlain)
    (Hnd : NoDup (map fst (o_props (obj_of l s))))
    (Hdata : Forall (fun p => match p.2 with
                              | DataProp v _ => isObject v = false
                              | AccessorProp _ _ _ => False
                              end) (o_props (obj_of l s))) :
  exists s',
    observe exec fuel (S (S n)) (VRef l) None s = Ok (Some (next_ref s)) s'
    /\ o_ob (obj_of l s') = Some (next_ref s)
    /\ map fst (o_props (obj_of l s')) = map fst (o_props (obj_of l s))
    /\ target s' = target s
    /\ engine_kept s s'
    /\ (forall c, c < next_ref s -> cell_of c s' = cell_of c s)
    /\ forall key v cfg,
         lookup_prop key (o_props (obj_of l s)) = Some (DataProp v cfg) ->
         reads_as l key v s'
         /\ (cfg = true ->
             exists c, lookup_prop key (o_props (obj_of l s'))
                       = Some (AccessorProp (Some (GReactive c)) (Some (SReactive c)) true)).
Proof.
  rewrite observe_attaches by done.
  unfold bind at 1. rewrite Observer_new_eq.
  change (next_ref (upd_log _ s)) with (next_ref s).
  match goal with |- context [Observer_fill _ _ _ _ _ ?x] => set (s2 := x) end.
  assert (obj_of l s2 = set_o_ob (Some (next_ref s)) (obj_of l s)) as H2.
  { subst s2. rewrite obj_of_upd_obj. by rewrite decide_True. }
  assert (ob_value (observer_of (next_ref s) s2) = l) as Hv2.
  { subst s2. unfold observer_of. simpl. by rewrite lookup_total_insert_eq. }
  assert (engine_kept s s2) as G2.
  { split; [done|]. split; [done|]. split; [simpl; lia|].
    intros d Hd. subst s2. unfold subs_of. simpl.
    rewrite lookup_total_insert_ne by lia. done. }
  destruct (walk_data_props exec fuel (S n) (Nat.lt_0_succ n) (next_ref s) l
              (map fst (o_props (obj_of l s2))) s2 Hv2)
    as (s' & E & N' & C' & O' & T' & G' & B' & K' & F' & R').
  { rewrite H2. exact Hnd. }
  { intros key Hk. rewrite H2 in Hk |- *. simpl in Hk |- *.
    destruct (lookup_prop_key _ _ Hk) as [d Hd]. rewrite Hd.
    apply lookup_prop_elem in Hd. rewrite Forall_forall in Hdata.
    specialize (Hdata _ Hd). simpl in Hdata.
    destruct d as [v cfg|]; [|done]. eauto. }
  exists s'. split.
  { unfold Observer_fill. unfold bind at 1, gets at 1. rewrite H2.
    change (o_class (set_o_ob ?x (obj_of l s))) with (o_class (obj_of l s)).
    rewrite Hc. rewrite bool_decide_eq_false_2 by done.
    unfold bind at 1. unfold Observer_walk. unfold bind at 1, gets at 1.
    rewrite E. done. }
  split; [by rewrite B', H2|].
  split; [by rewrite K', H2|].
  split; [by rewrite T'|].
  split; [by eapply engine_kept_trans|].
  split.
  { intros c Hc'. rewrite C' by (simpl; lia). done. }
  intros key v cfg Hp.
  assert (lookup_prop key (o_props (obj_of l s2)) = Some (DataProp v cfg)) as Hp2
    by (by rewrite H2).
  apply (R' key v cfg); [|done].
  rewrite H2. simpl. apply list_elem_of_fmap. exists (key, DataProp v cfg).
  split; [done|]. by apply lookup_prop_elem.
Qed.

(** X20.  [observe] of a plain object whose properties are data
    properties with primitive values returns a new Observer and is
    transparent to reads: the object keeps its keys in their order, every
    configurable property has become a reactive property, and every
    property still reads as the value it had. *)
Theorem observe_plain_transparent (n l : nat) (s : World)
    (Hob : o_ob (obj_of l s) = None)
    (He : eligible (obj_of l s) s = true)
    (Hc : o_class (obj_of l s) = CPlain)
    (Hnd : NoDup (map fst (o_props (obj_of l s))))
    (Hdata : Forall (fun p => match p.2 with
                              | DataProp v _ => isObject v = false
                              | AccessorProp _ _ _ => False
                              end) (o_props (obj_of l s)))
    (Hfuel : 0 < fuel) :
  exists s',
    observe exec fuel (S (S n)) (VRef l) None s = Ok (Some (next_ref s)) s'
    /\ o_ob (obj_of l s') = Some (next_ref s)
    /\ map fst (o_props (obj_of l s')) = map fst (o_props (obj_of l s))
    /\ forall key v cfg,
         lookup_prop key (o_props (obj_of l s)) = Some (DataProp v cfg) ->
         (cfg = true ->
          exists c, lookup_prop key (o_props (obj_of l s'))
                    = Some (AccessorProp (Some (GReactive c)) (Some (SReactive c)) true))
         /\ exists s'', js_get exec fuel l key s' = Ok v s''
                        /\ (target s = None -> s'' = s').
Proof.
  destruct (observe_plain_converts n l s Hob He Hc Hnd Hdata)
    as (s' & E & B' & K' & T' & _ & _ & R').
  exists s'. do 3 (split; [done|]).
  intros key v cfg Hp. destruct (R' key v cfg Hp) as [Hr Ha].
  split; [done|].
  destruct (js_get_reads_as exec fuel l key v s' Hr) as (s'' & E'' & Hs''); [|done|].
  { apply lookup_prop_elem in Hp. rewrite Forall_forall in Hdata.
    by specialize (Hdata _ Hp). }
  exists s''. split; [done|]. intros Ht. apply Hs''. by rewrite T'.
Qed.

(** X21.  A plain object assigned to a reactive property becomes
    reactive itself: the setter stores the reference, [observe] attaches
    a new Observer to the object and converts its properties, the
    Observer is kept as [childOb] of the property, and the Dep of the
    property is notified once. *)
Theorem reactiveSetter_observes_object (n m c l : nat) (s : World)
    (Hfuel : fuel = S (S m))
    (Hget : c_getter (cell_of c s) = None)
    (Hset : c_setter (cell_of c s) = None)
    (Hneq : c_val (cell_of c s) <> VRef l)
    (Hcell : c < next_ref s)
    (Hdep : c_dep (cell_of c s) < dep_uid s)
    (Hob : o_ob (obj_of l s) = None)
    (He : eligible (obj_of l s) s = true)
    (Hc : o_class (obj_of l s) = CPlain)
    (Hnd : NoDup (map fst (o_props (obj_of l s))))
    (Hdata : Forall (fun p => match p.2 with
                              | DataProp v _ => isObject v = false
                              | AccessorProp _ _ _ => False
                              end) (o_props (obj_of l s)))
    (Hdef : forall w, w ∈ subs_of (c_dep (cell_of c s)) s -> deferred w s = true) :
  exists s',
    reactiveSetter exec fuel (S n) c (VRef l) s = Ok tt s'
    /\ c_val (cell_of c s') = VRef l
    /\ c_childOb (cell_of c s') = Some (next_ref s)
    /\ o_ob (obj_of l s') = Some (next_ref s)
    /\ map fst (o_props (obj_of l s')) = map fst (o_props (obj_of l s))
    /\ List.filter is_notify (new_events s s') = [EvNotify (c_dep (cell_of c s))].
Proof.
  set (d := c_dep (cell_of c s)) in *.
  set (s1 := upd_cell c (set_c_val (VRef l)) s).
  destruct (observe_plain_converts m l s1) as (s2 & E2 & B2 & K2 & T2 & G2 & C2 & _);
    try done.
  set (s3 := upd_cell c (set_c_childOb (Some (next_ref s))) s2).
  destruct (Dep_notify_deferred exec fuel d s3) as (s' & E' & S').
  { destruct G2 as (GC & GW & _ & GD).
    intros w Hw. unfold deferred, watcher_of.
    change (watchers s3) with (watchers s2). change (config s3) with (config s2).
    rewrite GW, GC. apply Hdef.
    change (subs_of d s3) with (subs_of d s2) in Hw. by rewrite GD in Hw. }
  assert (reactiveSetter exec fuel (S n) c (VRef l) s
          = observe_and_notify exec fuel c d (VRef l) s1) as Heq.
  { cbn [reactiveSetter]. unfold bind at 1, gets at 1. unfold current_value.
    rewrite Hget. unfold bind at 1, ret at 1.
    assert (strict_eq (VRef l) (c_val (cell_of c s)) = false) as ->.
    { unfold strict_eq. destruct (c_val (cell_of c s)); try done;
        by rewrite bool_decide_eq_false_2 by congruence. }
    rewrite Hset. unfold bind at 1, modify at 1. done. }
  assert (observe_and_notify exec fuel c d (VRef l) s1 = Ok tt s') as Hrun.
  { unfold observe_and_notify. unfold bind at 1. rewrite Hfuel at 2. rewrite E2.
    unfold bind at 1, modify at 1. exact E'. }
  exists s'. split; [by rewrite Heq|].
  destruct S' as (_ & HC & HH & _).
  assert (cell_of c s' = set_c_childOb (Some (next_ref s)) (cell_of c s2)) as Hcs.
  { unfold cell_of at 1. rewrite HC. subst s3. unfold cell_of. simpl.
    by rewrite lookup_total_insert_eq. }
  assert (cell_of c s2 = set_c_val (VRef l) (cell_of c s)) as Hc2.
  { rewrite C2 by done. subst s1. unfold cell_of. simpl.
    by rewrite lookup_total_insert_eq. }
  split; [by rewrite Hcs, Hc2|]. split; [by rewrite Hcs|].
  split; [unfold obj_of; rewrite HH; exact B2|].
  split; [unfold obj_of; rewrite HH; exact K2|].
  pose proof (observe_and_notify_log exec fuel c d (VRef l) s1) as HL.
  rewrite Hrun in HL. destruct HL as (lg & EL & FL).
  by rewrite (new_events_app s s' lg).
Qed.

End Conversion.

(** ** [withoutConversion] *)

Global Instance conversion_kept_preorder : PreOrder conversion_kept.
Proof.
  split.
  - intros s. by repeat split.
  - intros s1 s2 s3 (F1 & N1 & O1) (F2 & N2 & O2). split; [congruence|].
    split; [lia|]. intros Hoff l Hl.
    rewrite O2, O1; [done|done|done|congruence|lia].
Qed.

Lemma conversion_kept_frame s s' :
  next_ref s' = next_ref s -> heap s' = heap s ->
  shouldConvert s' = shouldConvert s -> conversion_kept s s'.
Proof.
  intros HN HH HF. unfold conversion_kept, obj_of. rewrite HN, HH, HF.
  by repeat split.
Qed.

Lemma conversion_kept_upd_obj l f s :
  (forall x, o_ob (f x) = o_ob x) -> conversion_kept s (upd_obj l f s).
Proof.
  intros Hf. split; [done|]. split; [done|].
  intros _ l' _. rewrite obj_of_upd_obj. by destruct (decide (l' = l)) as [->|].
Qed.

Lemma conversion_kept_fresh s : conversion_kept s (upd_next_ref S s).
Proof. split; [done|]. split; [simpl; lia|]. done. Qed.

Lemma conversion_kept_alloc o s :
  conversion_kept s
    (upd_heap (fun h => <[next_ref s := o]> h) (upd_next_ref S s)).
Proof.
  split; [done|]. split; [simpl; lia|].
  intros _ l Hl. unfold obj_of. simpl. rewrite lookup_total_insert_ne; [done|lia].
Qed.

Lemma conversion_kept_init l s :
  conversion_kept s
    (upd_observers (fun m => <[next_ref s := mkObserver l (dep_uid s) []]> m)
       (set_subs (dep_uid s) [] (upd_dep_uid S (upd_next_ref S s)))).
Proof. split; [done|]. split; [simpl; lia|]. done. Qed.

Ltac conv_modify :=
  intros;
  first
    [ apply conversion_kept_frame; reflexivity
    | apply conversion_kept_upd_obj; intros; reflexivity ].
Ltac conv_auto :=
  respects_with conv_modify ltac:(eauto 3 with conv); eauto with conv.

Create HintDb conv discriminated.

Section ConversionKept.
Variable exec : script -> M value.
Variable original : NativeOp.
Variable fuel : nat.
Hypothesis exec_conv : forall sc, respects conversion_kept (exec sc).
Local Abbreviation R := conversion_kept.

Lemma call_user_conv sc : respects R (call_user exec sc).
Proof.
  intros s. unfold call_user.
  pose proof (exec_conv sc (upd_log (fun _ => []) s)) as H.
  destruct (exec sc _) as [v s1|e s1|]; done.
Qed.
#[local] Hint Resolve call_user_conv : conv.

Lemma Dep_new_conv : respects R Dep_new.
Proof. intros s. by repeat split. Qed.
Lemma fresh_ref_conv : respects R fresh_ref.
Proof. intros s. apply conversion_kept_fresh. Qed.
Lemma alloc_conv o : respects R (alloc o).
Proof. intros s. apply conversion_kept_alloc. Qed.
Lemma Observer_init_conv l : respects R (Observer_init l).
Proof. intros s. rewrite Observer_init_eq. apply conversion_kept_init. Qed.
#[local] Hint Resolve Dep_new_conv fresh_ref_conv alloc_conv Observer_init_conv : conv.

Lemma Dep_removeSub_conv d w' : respects R (Dep_removeSub d w').
Proof. unfold Dep_removeSub. conv_auto. Qed.
Lemma Dep_addSub_conv d w' : respects R (Dep_addSub d w').
Proof. unfold Dep_addSub. conv_auto. Qed.
#[local] Hint Resolve Dep_removeSub_conv Dep_addSub_conv : conv.

Lemma Watcher_addDep_conv w' d : respects R (Watcher_addDep w' d).
Proof. unfold Watcher_addDep. conv_auto. Qed.
#[local] Hint Resolve Watcher_addDep_conv : conv.

Lemma Dep_depend_conv d : respects R (Dep_depend d).
Proof. unfold Dep_depend. conv_auto. Qed.
#[local] Hint Resolve Dep_depend_conv : conv.

Lemma Watcher_afterGet_conv w' : respects R (Watcher_afterGet w').
Proof. unfold Watcher_afterGet. conv_auto. Qed.
Lemma Watcher_beforeGet_conv w' : respects R (Watcher_beforeGet w').
Proof. unfold Watcher_beforeGet. conv_auto. Qed.
#[local] Hint Resolve Watcher_afterGet_conv Watcher_beforeGet_conv : conv.

Lemma depend_on_element_conv e : respects R (depend_on_element e).
Proof. unfold depend_on_element. conv_auto. Qed.
Lemma is_class_conv c v : respects R (is_class c v).
Proof. unfold is_class. conv_auto. Qed.
#[local] Hint Resolve depend_on_element_conv is_class_conv : conv.

Lemma current_value_conv rec cl :
  (forall c, respects R (rec c)) -> respects R (current_value exec rec cl).
Proof. intros H. unfold current_value. conv_auto. Qed.
#[local] Hint Resolve current_value_conv : conv.

Lemma reactiveGetter_conv n c : respects R (reactiveGetter exec n c).
Proof. revert c. induction n as [|n IH]; intros c; simpl; conv_auto. Qed.
#[local] Hint Resolve reactiveGetter_conv : conv.

Lemma js_get_conv o key : respects R (js_get exec fuel o key).
Proof. unfold js_get. conv_auto. Qed.
#[local] Hint Resolve js_get_conv : conv.

Lemma traverse_conv n top v : respects R (traverse exec fuel n top v).
Proof. revert top v. induction n as [|n IH]; intros top v; simpl; conv_auto. Qed.
#[local] Hint Resolve traverse_conv : conv.

Lemma apply_hook_conv h v : respects R (apply_hook exec h v).
Proof. unfold apply_hook. conv_auto. Qed.
Lemma pushWatcher_conv w' : respects R (pushWatcher w').
Proof. unfold pushWatcher, nextTick_flush. conv_auto. Qed.
#[local] Hint Resolve apply_hook_conv pushWatcher_conv : conv.

Lemma Watcher_teardown_conv w' : respects R (Watcher_teardown w').
Proof. unfold Watcher_teardown. conv_auto. Qed.
#[local] Hint Resolve Watcher_teardown_conv : conv.

Lemma Watcher_get_conv w' : respects R (Watcher_get exec fuel w').
Proof. unfold Watcher_get. conv_auto. Qed.
#[local] Hint Resolve Watcher_get_conv : conv.

Lemma call_cb_conv w' a b : respects R (call_cb exec w' a b).
Proof. unfold call_cb. conv_auto. Qed.
#[local] Hint Resolve call_cb_conv : conv.

Lemma Watcher_run_conv w' : respects R (Watcher_run exec fuel w').
Proof. unfold Watcher_run. conv_auto. Qed.
#[local] Hint Resolve Watcher_run_conv : conv.

Lemma Watcher_update_conv w' sh : respects R (Watcher_update exec fuel w' sh).
Proof. unfold Watcher_update. conv_auto. Qed.
#[local] Hint Resolve Watcher_update_conv : conv.

Lemma Dep_notify_conv d : respects R (Dep_notify exec fuel d).
Proof. unfold Dep_notify. conv_auto. Qed.
#[local] Hint Resolve Dep_notify_conv : conv.

Lemma defineProperty_conv l key d : respects R (defineProperty l key d).
Proof. unfold defineProperty. conv_auto. Qed.
#[local] Hint Resolve defineProperty_conv : conv.

Section ObserveConv.
Variable observe_rec : value -> M (option nat).
Hypothesis Hrec : forall v, respects R (observe_rec v).

Lemma defineReactive_conv o key v :
  respects R (defineReactive observe_rec o key v).
Proof using Hrec. unfold defineReactive. conv_auto. Qed.
#[local] Hint Resolve defineReactive_conv : conv.

Lemma Observer_observeArray_conv items :
  respects R (Observer_observeArray observe_rec items).
Proof using Hrec. unfold Observer_observeArray. conv_auto. Qed.

Lemma Observer_walk_conv ob l :
  respects R (Observer_walk exec fuel observe_rec ob l).
Proof using Hrec exec_conv. unfold Observer_walk. conv_auto. Qed.
#[local] Hint Resolve Observer_observeArray_conv Observer_walk_conv : conv.

Lemma Observer_fill_conv l ob : respects R (Observer_fill exec fuel observe_rec l ob).
Proof using Hrec exec_conv. unfold Observer_fill. conv_auto. Qed.



(** An Observer is attached only while conversion is on. *)
Lemma Observer_new_conv l s :
  shouldConvert s = true ->
  match Observer_new exec fuel observe_rec l s with
  | Ok _ s' | Thrown _ s' => R s s'
  | OutOfFuel => True
  end.
Proof using Hrec exec_conv.
  intros Hsc. rewrite Observer_new_eq.
  set (s1 := upd_observers _ _). set (s2 := upd_obj _ _ _).
  assert (R s s2) as H2.
  { split; [done|]. split; [simpl; lia|]. intros Hoff. congruence. }
  pose proof (Observer_fill_conv l (next_ref s) s2) as Hf.
  destruct (Observer_fill _ _ _ _ _ _); [| |done]; by etrans.
Qed.

Lemma Observer_addVm_conv ob vm : respects R (Observer_addVm ob vm).
Proof. unfold Observer_addVm. conv_auto. Qed.
#[local] Hint Resolve Observer_addVm_conv : conv.

Lemma observe_finish_conv ob vm : respects R (observe_finish ob vm).
Proof. unfold observe_finish. conv_auto. Qed.

Lemma observe_body_conv v vm :
  respects R (observe_body exec fuel observe_rec v vm).
Proof using Hrec exec_conv.
  intros s. unfold observe_body.
  destruct (negb (truthy v) || negb (typeof_object v)) eqn:Hv.
  { munfold. by apply conversion_kept_frame. }
  destruct v as [| | | | | |l]; try (munfold; by apply conversion_kept_frame).
  set (s0 := upd_log (fun l0 => l0 ++ [EvObserve (VRef l)]) s).
  assert (R s s0) as H0 by (by apply conversion_kept_frame).
  change (match
    (o <- gets (obj_of l);; sc <- gets shouldConvert;;
     ob <- match o_ob o with
           | Some ob => ret (Some ob)
           | None =>
               if sc && (bool_decide (o_class o = CArray)
                         || bool_decide (o_class o = CPlain))
                  && o_extensible o && negb (o_isVue o)
               then ob <- Observer_new exec fuel observe_rec l;; ret (Some ob)
               else ret None
           end;;
     observe_finish ob vm)%js s0
  with Ok _ s' | Thrown _ s' => R s s' | OutOfFuel => True end).
  unfold bind at 1 2, gets.
  destruct (o_ob (obj_of l s0)) as [ob|] eqn:Hob.
  - unfold bind, ret. pose proof (observe_finish_conv (Some ob) vm s0) as Hf.
    destruct (observe_finish _ _ _); [| |done]; by etrans.
  - change (shouldConvert s0) with (shouldConvert s).
    destruct (shouldConvert s) eqn:Hsc; simpl.
    + destruct (_ && _ && _).
      * unfold bind at 1 2. pose proof (Observer_new_conv l s0 Hsc) as Hn.
        destruct (Observer_new _ _ _ _ _) as [ob s1|e s1|]; [| by etrans | done].
        unfold ret at 1.
        pose proof (observe_finish_conv (Some ob) vm s1) as Hf.
        destruct (observe_finish _ _ _); [| |done]; etrans; [|exact Hf| |exact Hf]; by etrans.
      * unfold bind, ret. pose proof (observe_finish_conv None vm s0) as Hf.
        destruct (observe_finish _ _ _); [| |done]; by etrans.
    + unfold bind, ret. exact H0.
Qed.
End ObserveConv.

Lemma observe_conv n v vm : respects R (observe exec fuel n v vm).
Proof.
  revert v vm. induction n as [|n IH]; intros v vm; simpl.
  - apply respects_out_of_fuel.
  - apply observe_body_conv. intros v'. apply IH.
Qed.
#[local] Hint Resolve observe_conv : conv.

Lemma reactiveSetter_conv n c v : respects R (reactiveSetter exec fuel n c v).
Proof. revert c v. induction n as [|n IH]; intros c v; simpl; conv_auto. Qed.
#[local] Hint Resolve reactiveSetter_conv : conv.

Lemma js_set_conv o key v : respects R (js_set exec fuel o key v).
Proof. unfold js_set. conv_auto. Qed.
Lemma native_call_conv a m args : respects R (native_call original a m args).
Proof. unfold native_call. conv_auto. Qed.
#[local] Hint Resolve js_set_conv native_call_conv : conv.

Lemma mutator_conv a m args : respects R (mutator exec original fuel a m args).
Proof.
  unfold mutator. conv_auto.
  apply Observer_observeArray_conv. intros v'. apply observe_conv.
Qed.
#[local] Hint Resolve mutator_conv : conv.

Lemma call_method_conv a m args :
  respects R (call_method exec original fuel a m args).
Proof. unfold call_method. conv_auto. Qed.
#[local] Hint Resolve call_method_conv : conv.

Lemma exec_here_conv sc : respects R (exec_here exec original fuel sc).
Proof. induction sc; simpl; conv_auto. Qed.
End ConversionKept.


Lemma interp_conv original n sc : respects conversion_kept (interp original n sc).
Proof.
  revert sc. induction n as [|n IH]; intros sc; simpl.
  - apply respects_out_of_fuel.
  - by apply exec_here_conv.
Qed.

(** X22.  [withoutConversion(fn)] for user code [fn]: while [fn] runs no
    object gets an Observer, whatever [fn] assigns or pushes.  When [fn]
    returns, conversion is on, also if it was off before the call.  When
    [fn] throws, the exception goes through and conversion stays off:
    every later [observe] of an object without an Observer returns
    [undefined] and attaches nothing. *)
Theorem withoutConversion_converts_nothing (original : NativeOp) (k : nat)
    (fn : script) (s : World) :
  match withoutConversion (interp original k fn) s with
  | Ok _ s' =>
      shouldConvert s' = true
      /\ forall l, l < next_ref s -> o_ob (obj_of l s') = o_ob (obj_of l s)
  | Thrown e s' =>
      interp original k fn (upd_shouldConvert (fun _ => false) s) = Thrown e s'
      /\ shouldConvert s' = false
      /\ (forall l, l < next_ref s -> o_ob (obj_of l s') = o_ob (obj_of l s))
      /\ forall fuel n l vm,
           o_ob (obj_of l s') = None ->
           observe (interp original k) fuel (S n) (VRef l) vm s'
           = Ok None (upd_log (fun lg => lg ++ [EvObserve (VRef l)]) s')
  | OutOfFuel => True
  end.
Proof.
  unfold withoutConversion. unfold bind at 1, modify at 1.
  set (s0 := upd_shouldConvert (fun _ => false) s).
  pose proof (interp_conv original k fn s0) as H.
  unfold bind at 1.
  destruct (interp original k fn s0) as [v s1|e s1|] eqn:E; [| |done].
  - destruct H as (HF & HN & HO). unfold modify. split; [done|].
    intros l Hl. apply (HO eq_refl l Hl).
  - destruct H as (HF & HN & HO). split; [done|]. split; [done|].
    split; [intros l Hl; apply (HO eq_refl l Hl)|].
    intros fuel n l vm Hnone. apply observe_refused; [done|].
    unfold eligible. by rewrite HF.
Qed.

(** ** What a read collects *)

Lemma collects_newDepIds t s s' d :
  collects t s s' -> d ∈ w_newDepIds (watcher_of t s) -> d ∈ w_newDepIds (watcher_of t s').
Proof. intros (_&_&_&_&H) Hd. by apply H. Qed.

Lemma collects_obj t s s' l : collects t s s' -> obj_of l s' = obj_of l s.
Proof. intros (_&_&H&_). unfold obj_of. by rewrite H. Qed.

Lemma collects_observer t s s' ob : collects t s s' -> observer_of ob s' = observer_of ob s.
Proof. intros (_&_&_&H&_). unfold observer_of. by rewrite H. Qed.

Lemma collects_cell t s s' c : collects t s s' -> cell_of c s' = cell_of c s.
Proof. intros (_&H&_). unfold cell_of. by rewrite H. Qed.

Lemma collects_target t s s' : collects t s s' -> target s' = target s.
Proof. by intros (H&_). Qed.

Lemma depend_on_element_collects t e s :
  target s = Some t ->
  exists s', depend_on_element e s = Ok tt s' /\ collects t s s'
    /\ forall d, element_dep e s = Some d -> d ∈ w_newDepIds (watcher_of t s').
Proof.
  intros Ht. destruct e; simpl;
    try (exists s; split; [done|]; split; [apply collects_refl|done]).
  munfold. destruct (o_ob (obj_of l s)) as [ob|]; simpl.
  - destruct (Dep_depend_recording t (ob_dep (observer_of ob s)) s Ht)
      as (s' & E & Hc & Hd). exists s'. split; [done|]. split; [done|].
    by intros d [= <-].
  - exists s. split; [done|]. split; [apply collects_refl|done].
Qed.

Lemma element_dep_collects t e s s' :
  collects t s s' -> element_dep e s' = element_dep e s.
Proof.
  intros Hc. destruct e; try done. simpl.
  rewrite (collects_obj _ _ _ l Hc). destruct (o_ob (obj_of l s)); [|done].
  simpl. by rewrite (collects_observer _ _ _ _ Hc).
Qed.

Lemma for_each_depend_elements t es s :
  target s = Some t ->
  exists s', for_each depend_on_element es s = Ok tt s' /\ collects t s s'
    /\ forall e d, e ∈ es -> element_dep e s = Some d ->
                   d ∈ w_newDepIds (watcher_of t s').
Proof.
  revert s. induction es as [|e es IH]; intros s Ht; simpl.
  - exists s. split; [done|]. split; [apply collects_refl|].
    by intros e d ?%elem_of_nil.
  - destruct (depend_on_element_collects t e s Ht) as (s1 & E1 & C1 & D1).
    destruct (IH s1) as (s2 & E2 & C2 & D2).
    { by rewrite (collects_target _ _ _ C1). }
    exists s2. split; [by rewrite (bind_ok _ _ _ _ _ E1)|].
    split; [by eapply collects_trans|].
    intros e' d [->|He']%elem_of_cons Hd.
    + eapply collects_newDepIds; [exact C2|]. by apply D1.
    + apply (D2 e'); [done|]. by rewrite (element_dep_collects _ _ _ _ C1).
Qed.

Lemma elem_of_rev_key (x : string) l : x ∈ rev l <-> x ∈ l.
Proof. rewrite !list_elem_of_In. symmetry. apply in_rev. Qed.

Section Collecting.
Variable exec : script -> M value.

(** A read of a reactive property while [t] records. *)
Lemma reactiveGetter_recording (n c t : nat) (s : World)
    (Ht : target s = Some t)
    (Hplain : c_getter (cell_of c s) = None) :
  let cl := cell_of c s in
  exists s',
    reactiveGetter exec (S n) c s = Ok (c_val cl) s'
    /\ collects t s s'
    /\ c_dep cl ∈ w_newDepIds (watcher_of t s')
    /\ (forall ob, c_childOb cl = Some ob ->
          ob_dep (observer_of ob s) ∈ w_newDepIds (watcher_of t s'))
    /\ (forall l e d, c_val cl = VRef l -> o_class (obj_of l s) = CArray ->
          e ∈ o_elems (obj_of l s) -> element_dep e s = Some d ->
          d ∈ w_newDepIds (watcher_of t s')).
Proof.
  intros cl. subst cl.
  simpl. unfold bind at 1, gets at 1. unfold current_value. rewrite Hplain.
  unfold bind at 1, ret at 1. unfold bind at 1, gets at 1. rewrite Ht.
  destruct (Dep_depend_recording t (c_dep (cell_of c s)) s Ht) as (s1 & E1 & C1 & D1).
  unfold bind at 1. unfold bind at 1. rewrite E1.
  unfold bind at 1, gets at 1.
  assert (T1 : target s1 = Some t) by (by rewrite (collects_target _ _ _ C1)).
  rewrite (collects_cell _ _ _ c C1).
  assert (exists s2, match c_childOb (cell_of c s) with
                     | Some ob => obr <- gets (observer_of ob);;
                                  Dep_depend (ob_dep obr)
                     | None => ret tt
                     end s1 = Ok tt s2 /\ collects t s1 s2
                     /\ forall ob, c_childOb (cell_of c s) = Some ob ->
                          ob_dep (observer_of ob s) ∈ w_newDepIds (watcher_of t s2))
    as (s2 & E2 & C2 & D2).
  { destruct (c_childOb (cell_of c s)) as [ob|].
    - munfold. destruct (Dep_depend_recording t (ob_dep (observer_of ob s1)) s1 T1)
        as (s2 & E & Hc & Hd). exists s2. split; [done|]. split; [done|].
      intros ob' [= <-]. by rewrite <- (collects_observer _ _ _ ob C1).
    - exists s1. split; [done|]. split; [apply collects_refl|done]. }
  unfold bind at 1. rewrite E2.
  assert (T2 : target s2 = Some t) by (by rewrite (collects_target _ _ _ C2)).
  assert (collects t s s2) as C02 by (by eapply collects_trans).
  assert (exists s3, (isA <- is_class CArray (c_val (cell_of c s));;
                      if isA then
                        match c_val (cell_of c s) with
                        | VRef l => es <- gets (fun s => o_elems (obj_of l s));;
                                    for_each depend_on_element es
                        | _ => ret tt
                        end
                      else ret tt) s2 = Ok tt s3 /\ collects t s2 s3
                     /\ forall l e d, c_val (cell_of c s) = VRef l ->
                          o_class (obj_of l s) = CArray ->
                          e ∈ o_elems (obj_of l s) -> element_dep e s = Some d ->
                          d ∈ w_newDepIds (watcher_of t s3))
    as (s3 & E3 & C3 & D3).
  { destruct (c_val (cell_of c s)) as [| | | | | |l]; simpl;
      try (exists s2; split; [done|]; split; [apply collects_refl|done]).
    munfold. rewrite (collects_obj _ _ _ l C02).
    case_bool_decide as Hcl.
    - destruct (for_each_depend_elements t (o_elems (obj_of l s)) s2 T2)
        as (s3 & E & Hc & Hd). exists s3.
      split; [by rewrite (collects_obj _ _ _ l C02)|]. split; [done|].
      intros l' e d [= <-] _ He Hed. apply (Hd e d He).
      by rewrite (element_dep_collects _ _ _ _ C02).
    - exists s2. split; [done|]. split; [apply collects_refl|].
      intros l' e d [= <-] Hcl'. done. }
  rewrite E3. exists s3. split; [done|].
  split; [eapply collects_trans; [exact C02|exact C3]|].
  split.
  { eapply collects_newDepIds; [exact C3|]. eapply collects_newDepIds; [exact C2|done]. }
  split.
  { intros ob Hob. eapply collects_newDepIds; [exact C3|]. by apply D2. }
  done.
Qed.

(** X23.  While a watcher [t] records, reading a reactive property that
    has no captured getter returns the value of the closure and collects
    for [t] the Dep of the property, the Dep of the Observer of the value
    and, when the value is an array, the Dep of the Observer of every
    element that has one.  Nothing else changes. *)
Theorem reactiveGetter_collects (n c t : nat) (s : World)
    (Ht : target s = Some t)
    (Hplain : c_getter (cell_of c s) = None) :
  let cl := cell_of c s in
  exists s',
    reactiveGetter exec (S n) c s = Ok (c_val cl) s'
    /\ target s' = Some t /\ cells s' = cells s /\ heap s' = heap s
    /\ observers s' = observers s
    /\ w_newDepIds (watcher_of t s) ⊆ w_newDepIds (watcher_of t s')
    /\ c_dep cl ∈ w_newDepIds (watcher_of t s')
    /\ (forall ob, c_childOb cl = Some ob ->
          ob_dep (observer_of ob s) ∈ w_newDepIds (watcher_of t s'))
    /\ (forall l e d, c_val cl = VRef l -> o_class (obj_of l s) = CArray ->
          e ∈ o_elems (obj_of l s) -> element_dep e s = Some d ->
          d ∈ w_newDepIds (watcher_of t s')).
Proof.
  intros cl.
  destruct (reactiveGetter_recording n c t s Ht Hplain)
    as (s' & E & (HT & HC & HH & HO & HI) & D1 & D2 & D3).
  exists s'. split; [done|]. split; [by rewrite HT|]. by repeat split.
Qed.

Variable fuel : nat.

(** The loop of [traverse] over the keys of an object whose properties
    are reactive and hold primitive values. *)
Lemma traverse_keys n t l keys s :
  target s = Some t -> 0 < fuel ->
  (forall key, key ∈ keys ->
     exists c sr cfg,
       lookup_prop key (o_props (obj_of l s))
       = Some (AccessorProp (Some (GReactive c)) sr cfg)
       /\ c_getter (cell_of c s) = None
       /\ isObject (c_val (cell_of c s)) = false) ->
  exists s',
    for_each (fun key => e <- js_get exec fuel l key;; traverse exec fuel (S n) false e)
      keys s = Ok tt s'
    /\ collects t s s'
    /\ forall key c sr cfg, key ∈ keys ->
         lookup_prop key (o_props (obj_of l s))
         = Some (AccessorProp (Some (GReactive c)) sr cfg) ->
         c_dep (cell_of c s) ∈ w_newDepIds (watcher_of t s').
Proof.
  intros Ht Hf. destruct fuel as [|m]; [lia|]. clear Hf.
  revert s Ht. induction keys as [|key keys IH]; intros s Ht Hk.
  - exists s. split; [done|]. split; [apply collects_refl|].
    by intros key c sr cfg ?%elem_of_nil.
  - destruct (Hk key) as (c & sr & cfg & Hp & Hg & Hv); [by left|].
    destruct (reactiveGetter_recording m c t s Ht Hg) as (s1 & E1 & C1 & D1 & _).
    assert ((e <- js_get exec (S m) l key;; traverse exec (S m) (S n) false e) s
            = Ok tt s1) as Hstep.
    { unfold bind at 1. unfold js_get. unfold bind at 1, gets at 1. rewrite Hp, E1.
      cbn [traverse]. unfold when. unfold bind at 1, ret at 1.
      by destruct (c_val (cell_of c s)). }
    destruct (IH s1) as (s2 & E2 & C2 & D2).
    { by rewrite (collects_target _ _ _ C1). }
    { intros key' Hk'. destruct (Hk key') as (c' & sr' & cfg' & Hp' & Hg' & Hv'); [by right|].
      exists c', sr', cfg'. rewrite (collects_obj _ _ _ l C1), (collects_cell _ _ _ c' C1).
      done. }
    exists s2. split; [cbn [for_each]; by rewrite (bind_ok _ _ _ _ _ Hstep)|].
    split; [by eapply collects_trans|].
    intros key' c' sr' cfg' [->|Hk']%elem_of_cons Hp'.
    + rewrite Hp in Hp'. injection Hp' as <- _ _.
      by eapply collects_newDepIds.
    + rewrite <- (collects_cell _ _ _ c' C1). apply (D2 key' c' sr' cfg' Hk').
      by rewrite (collects_obj _ _ _ l C1).
Qed.

(** X24.  The traversal that a deep watcher [t] makes of the value of its
    getter: on an observed plain object whose properties are reactive and
    hold primitive values it reads every property, so the Dep of every
    property is collected for [t], although the getter itself has read
    none of them.  Nothing but the collection and the set of objects seen
    changes. *)
Theorem traverse_collects_properties (n t l ob : nat) (s : World)
    (Ht : target s = Some t) (Hf : 0 < fuel)
    (Hext : o_extensible (obj_of l s) = true)
    (Hob : o_ob (obj_of l s) = Some ob)
    (Hcl : o_class (obj_of l s) = CPlain)
    (Hprops : Forall (fun p =>
                exists c sr cfg,
                  p.2 = AccessorProp (Some (GReactive c)) sr cfg
                  /\ c_getter (cell_of c s) = None
                  /\ isObject (c_val (cell_of c s)) = false)
                (o_props (obj_of l s))) :
  exists s',
    traverse exec fuel (S (S n)) true (VRef l) s = Ok tt s'
    /\ target s' = Some t /\ cells s' = cells s /\ heap s' = heap s
    /\ forall key c sr cfg,
         lookup_prop key (o_props (obj_of l s))
         = Some (AccessorProp (Some (GReactive c)) sr cfg) ->
         c_dep (cell_of c s) ∈ w_newDepIds (watcher_of t s').
Proof.
  set (s0 := upd_seenObjects (fun x => {[ob_dep (observer_of ob s)]} ∪ x)
               (upd_seenObjects (fun _ => ∅) s)).
  destruct (traverse_keys n t l (rev (map fst (o_props (obj_of l s)))) s0 Ht Hf)
    as (s' & E & C' & D').
  { intros key Hk. apply (proj1 (elem_of_rev_key _ _)) in Hk.
    change (obj_of l s0) with (obj_of l s).
    destruct (lookup_prop_key _ _ Hk) as [d Hd]. rewrite Hd.
    apply lookup_prop_elem in Hd. rewrite Forall_forall in Hprops.
    destruct (Hprops _ Hd) as (c & sr & cfg & Hd' & Hg & Hv). simpl in Hd'. subst d.
    by exists c, sr, cfg. }
  exists s'. split.
  { cbn [traverse]. unfold when. unfold bind at 1, modify at 1.
    unfold bind at 1, gets at 1.
    change (obj_of l (upd_seenObjects ?f s)) with (obj_of l s).
    rewrite Hext, Hob. unfold bind at 1. unfold bind at 1, gets at 1.
    unfold bind at 1, gets at 1.
    change (seenObjects (upd_seenObjects (fun _ => ∅) s)) with (∅ : gset nat).
    rewrite bool_decide_eq_false_2 by set_solver.
    unfold bind at 1, modify at 1. unfold ret at 1.
    change (observer_of ob (upd_seenObjects ?f s)) with (observer_of ob s).
    fold s0. rewrite Hcl. rewrite bool_decide_eq_false_2 by done.
    unfold for_each_rev. exact E. }
  destruct C' as (HT & HC & HH & HO & HI).
  split; [by rewrite HT|]. split; [done|]. split; [done|].
  intros key c sr cfg Hp.
  apply (D' key c sr cfg); [|done].
  apply (proj2 (elem_of_rev_key _ _)). apply list_elem_of_fmap.
  exists (key, AccessorProp (Some (GReactive c)) sr cfg). split; [done|].
  by apply lookup_prop_elem.
Qed.

End Collecting.

(** ** Shallow updates *)

Section Shallow.
Variable exec : script -> M value.
Variable fuel : nat.

(** One [update] of a watcher that goes to the queue. *)
Lemma Watcher_update_queues w sh s :
  deferred w s = true -> w_lazy (watcher_of w s) = false ->
  exists s',
    Watcher_update exec fuel w sh s = Ok tt s'
    /\ scheduling_only s s'
    /\ watcher_of w s'
       = set_w_queued true
           (set_w_shallow (if w_queued (watcher_of w s)
                           then (if sh then w_shallow (watcher_of w s) else false)
                           else sh) (watcher_of w s)).
Proof.
  intros Hd Hl.
  destruct (Watcher_update_deferred exec fuel w sh s Hd) as (s' & E & HS).
  exists s'. split; [done|]. split; [done|].
  revert E. unfold Watcher_update. unfold deferred in Hd.
  unfold bind at 1. unfold emit at 1, modify at 1.
  unfold bind at 1, gets at 1. unfold bind at 1, gets at 1.
  change (watcher_of w (upd_log _ s)) with (watcher_of w s).
  change (config (upd_log _ s)) with (config s).
  rewrite Hl in Hd |- *. simpl in Hd. apply andb_true_iff in Hd as [Hs Ha].
  apply negb_true_iff in Hs. rewrite Hs, Ha. simpl.
  unfold bind at 1, modify at 1.
  match goal with |- context [pushWatcher w ?s0] =>
    destruct (pushWatcher_frame w s0) as (s1 & E1 & W1 & L1) end.
  rewrite E1. intros [= <-]. unfold watcher_of at 1. rewrite W1.
  match goal with |- watchers (upd_watcher w ?f ?x) !!! w = _ =>
    change (watcher_of w (upd_watcher w f x) = set_w_queued true
              (set_w_shallow (if w_queued (watcher_of w s)
                              then (if sh then w_shallow (watcher_of w s) else false)
                              else sh) (watcher_of w s))) end.
  by rewrite watcher_of_upd_watcher_eq.
Qed.

(** X25.  The [shallow] flag of a queued watcher: a watcher that is not
    lazy and whose updates are deferred is, after any number of calls of
    [update] before the flush, marked [queued], and it is marked [shallow]
    exactly when every one of those calls was shallow and, if it was
    queued already, it was shallow then.  One change that is not shallow
    makes the run a full one. *)
Theorem Watcher_update_shallow (w : nat) (flags : list bool) (s : World)
    (Hd : deferred w s = true)
    (Hl : w_lazy (watcher_of w s) = false)
    (Hne : flags <> []) :
  exists s',
    for_each (fun sh => Watcher_update exec fuel w sh) flags s = Ok tt s'
    /\ w_queued (watcher_of w s') = true
    /\ w_shallow (watcher_of w s')
       = (if w_queued (watcher_of w s) then w_shallow (watcher_of w s) else true)
         && forallb id flags.
Proof.
  revert s Hd Hl. induction flags as [|sh flags IH]; intros s Hd Hl; [done|]. clear Hne.
  destruct (Watcher_update_queues w sh s Hd Hl) as (s1 & E1 & S1 & W1).
  assert (deferred w s1 = true) as Hd1 by (by rewrite (scheduling_only_deferred _ _ _ S1)).
  assert (w_lazy (watcher_of w s1) = false) as Hl1 by (by rewrite W1).
  cbn [for_each]. rewrite (bind_ok _ _ _ _ _ E1).
  destruct flags as [|sh' flags].
  - exists s1. split; [done|]. rewrite W1. simpl. split; [done|].
    destruct (w_queued (watcher_of w s)), sh, (w_shallow (watcher_of w s)); done.
  - destruct (IH ltac:(done) s1 Hd1 Hl1) as (s' & E & Q & Sh).
    exists s'. split; [done|]. split; [done|].
    rewrite Sh, W1. cbn [w_queued w_shallow set_w_queued set_w_shallow forallb id].
    destruct (w_queued (watcher_of w s)), sh, (w_shallow (watcher_of w s)); done.
Qed.

End Shallow.
(** ** An evaluation that only reads *)

Lemma reads_done_refl w s :
  target s = Some w -> collecting w s -> reads_done w [] s s.
Proof.
  intros Ht Hc. do 6 (split; [done|]). intros d. split.
  - intros H. by right.
  - intros [H|H]; [by apply elem_of_nil in H | done].
Qed.

Lemma reads_done_trans w ds1 ds2 s1 s2 s3 :
  reads_done w ds1 s1 s2 -> reads_done w ds2 s2 s3 ->
  reads_done w (ds1 ++ ds2) s1 s3.
Proof.
  intros (T1 & C1 & Hc1 & Hh1 & Ho1 & D1 & N1) (T2 & C2 & Hc2 & Hh2 & Ho2 & D2 & N2).
  split; [done|]. split; [done|]. do 4 (split; [congruence|]). intros d. split.
  - intros H. apply N2 in H. rewrite elem_of_app. rewrite N1 in H. tauto.
  - intros H. apply N2. rewrite N1. rewrite elem_of_app in H. tauto.
Qed.

(** The log is no part of it. *)
Lemma reads_done_log w ds f g s s' :
  reads_done w ds (upd_log f s) s' -> reads_done w ds s (upd_log g s').
Proof.
  intros (T & C & Hc & Hh & Ho & D & N).
  split; [done|]. split; [destruct C; by constructor|]. by do 4 (split; [done|]).
Qed.

Lemma reads_done_log_r w ds g s s' :
  reads_done w ds s s' -> reads_done w ds s (upd_log g s').
Proof.
  intros (T & C & Hc & Hh & Ho & D & N).
  split; [done|]. split; [destruct C; by constructor|]. by do 4 (split; [done|]).
Qed.

Lemma collecting_log w f s : collecting w s -> collecting w (upd_log f s).
Proof. intros C. destruct C. by constructor. Qed.

Lemma Dep_depend_reads w d s :
  target s = Some w -> collecting w s ->
  exists s', Dep_depend d s = Ok tt s' /\ reads_done w [d] s s'.
Proof.
  intros Ht Hc.
  destruct (for_each_depend_collecting w [d] s Ht Hc) as (s' & E & T & C & D & N).
  destruct (Dep_depend_recording w d s Ht) as (s1 & E1 & (_ & Hce & Hh & Ho & _) & _).
  simpl in E. unfold bind in E. rewrite E1 in E. unfold ret in E.
  injection E as <-. exists s1. split; [done|]. by do 6 (split; [done|]).
Qed.

Lemma element_dep_ext e s s' :
  heap s' = heap s -> observers s' = observers s ->
  element_dep e s' = element_dep e s.
Proof.
  intros Hh Ho. destruct e; try done. unfold element_dep, obj_of, observer_of.
  by rewrite Hh, Ho.
Qed.

Lemma element_deps_ext (es : list value) s s' :
  heap s' = heap s -> observers s' = observers s ->
  omap (fun e => element_dep e s') es = omap (fun e => element_dep e s) es.
Proof.
  intros Hh Ho. induction es as [|e es IH]; simpl; [done|].
  unfold omap in IH. by rewrite (element_dep_ext e s s' Hh Ho), IH.
Qed.

Lemma elements_reads w es s :
  target s = Some w -> collecting w s ->
  exists s', for_each depend_on_element es s = Ok tt s'
    /\ reads_done w (omap (fun e => element_dep e s) es) s s'.
Proof.
  revert s. induction es as [|e es IH]; intros s Ht Hc.
  - exists s. split; [done|]. by apply reads_done_refl.
  - assert (exists s1, depend_on_element e s = Ok tt s1
              /\ reads_done w (option_list (element_dep e s)) s s1)
      as (s1 & E1 & R1).
    { destruct e; simpl; try (exists s; split; [done|]; by apply reads_done_refl).
      unfold bind at 1, gets at 1.
      destruct (o_ob (obj_of l s)) as [ob|]; simpl.
      - unfold bind at 1, gets at 1. by apply Dep_depend_reads.
      - exists s. split; [done|]. by apply reads_done_refl. }
    pose proof R1 as (T1 & C1 & _ & Hh1 & Ho1 & _).
    destruct (IH s1 T1 C1) as (s2 & E2 & R2).
    exists s2. split.
    { simpl. by rewrite (bind_ok _ _ _ _ _ E1). }
    rewrite (element_deps_ext es s s1 Hh1 Ho1) in R2.
    assert (omap (fun e0 => element_dep e0 s) (e :: es)
            = option_list (element_dep e s)
              ++ omap (fun e0 => element_dep e0 s) es) as ->.
    { simpl. by destruct (element_dep e s). }
    by eapply reads_done_trans.
Qed.

Section Reads.
Variable exec : script -> M value.

(** A read of a reactive property made from a data property, while [w]
    records. *)
Lemma reactiveGetter_reads n c w s :
  target s = Some w -> collecting w s ->
  c_getter (cell_of c s) = None ->
  exists s', reactiveGetter exec (S n) c s = Ok (c_val (cell_of c s)) s'
    /\ reads_done w (cell_deps c s) s s'.
Proof.
  intros Ht Hc Hplain.
  simpl. unfold bind at 1, gets at 1. unfold current_value. rewrite Hplain.
  unfold bind at 1, ret at 1. unfold bind at 1, gets at 1. rewrite Ht.
  destruct (Dep_depend_reads w (c_dep (cell_of c s)) s Ht Hc) as (s1 & E1 & R1).
  pose proof R1 as (T1 & C1 & Hc1 & Hh1 & Ho1 & _).
  unfold bind at 1. unfold bind at 1. rewrite E1.
  unfold bind at 1, gets at 1.
  assert (cell_of c s1 = cell_of c s) as -> by (unfold cell_of; by rewrite Hc1).
  set (obdeps := match c_childOb (cell_of c s) with
                 | Some ob => [ob_dep (observer_of ob s)]
                 | None => []
                 end).
  assert (exists s2, match c_childOb (cell_of c s) with
                     | Some ob => obr <- gets (observer_of ob);;
                                  Dep_depend (ob_dep obr)
                     | None => ret tt
                     end s1 = Ok tt s2 /\ reads_done w obdeps s1 s2)
    as (s2 & E2 & R2).
  { subst obdeps. destruct (c_childOb (cell_of c s)) as [ob|].
    - unfold bind at 1, gets at 1.
      assert (observer_of ob s1 = observer_of ob s) as ->
        by (unfold observer_of; by rewrite Ho1).
      by apply Dep_depend_reads.
    - exists s1. split; [done|]. by apply reads_done_refl. }
  pose proof R2 as (T2 & C2 & Hc2 & Hh2 & Ho2 & _).
  unfold bind at 1. rewrite E2.
  set (eldeps := match c_val (cell_of c s) with
                 | VRef l =>
                     if bool_decide (o_class (obj_of l s) = CArray)
                     then omap (fun e => element_dep e s) (o_elems (obj_of l s))
                     else []
                 | _ => []
                 end).
  assert (exists s3, (isA <- is_class CArray (c_val (cell_of c s));;
                      if isA then
                        match c_val (cell_of c s) with
                        | VRef l => es <- gets (fun s => o_elems (obj_of l s));;
                                    for_each depend_on_element es
                        | _ => ret tt
                        end
                      else ret tt) s2 = Ok tt s3 /\ reads_done w eldeps s2 s3)
    as (s3 & E3 & R3).
  { subst eldeps. unfold is_class.
    destruct (c_val (cell_of c s)) as [| | | | | |l];
      try (exists s2; split; [done|]; by apply reads_done_refl).
    unfold bind at 1, gets at 1.
    assert (obj_of l s2 = obj_of l s) as Hobj
      by (unfold obj_of; by rewrite Hh2, Hh1).
    rewrite Hobj. case_bool_decide.
    - unfold bind at 1, gets at 1. rewrite Hobj.
      destruct (elements_reads w (o_elems (obj_of l s)) s2 T2 C2) as (s3 & E3 & R3).
      exists s3. split; [done|].
      rewrite (element_deps_ext _ s s2) in R3 by congruence. done.
    - exists s2. split; [done|]. by apply reads_done_refl. }
  rewrite E3. unfold ret.
  exists s3. split; [done|].
  unfold cell_deps. fold obdeps eldeps.
  eapply reads_done_trans; [exact R1|]. by eapply reads_done_trans.
Qed.

Lemma prop_reads_ext s s' o key :
  cells s' = cells s -> heap s' = heap s -> observers s' = observers s ->
  prop_reads s' o key = prop_reads s o key.
Proof.
  intros Hc Hh Ho. unfold prop_reads, cell_deps, obj_of, cell_of, observer_of.
  rewrite Hc, Hh, Ho.
  destruct (lookup_prop key _) as [[|[[]|]]|]; try done.
  destruct (c_getter _); [done|]. f_equal. f_equal. f_equal. f_equal.
  destruct (c_val _); try done. case_bool_decide; [|done].
  apply element_deps_ext; done.
Qed.

Lemma script_reads_ext s s' sc :
  cells s' = cells s -> heap s' = heap s -> observers s' = observers s ->
  script_reads s' sc = script_reads s sc.
Proof.
  intros Hc Hh Ho. induction sc as [| |o key k IH| | |]; simpl; try done.
  rewrite (prop_reads_ext s s') by done.
  destruct (prop_reads s o key) as [[ds v]|]; [|done]. by rewrite IH.
Qed.

(** [obj[key]] for a plain read, while [w] records. *)
Lemma js_get_reads n o key w s ds v :
  target s = Some w -> collecting w s ->
  prop_reads s o key = Some (ds, v) ->
  exists s', js_get exec (S n) o key s = Ok v s' /\ reads_done w ds s s'.
Proof.
  intros Ht Hc Hp. unfold prop_reads in Hp. unfold js_get.
  unfold bind at 1, gets at 1.
  destruct (lookup_prop key (o_props (obj_of o s))) as [[v0 cf|[[sc|c]|] st cf]|];
    try done.
  - injection Hp as <- <-. exists s. split; [done|]. by apply reads_done_refl.
  - destruct (c_getter (cell_of c s)) eqn:Hg; [done|]. injection Hp as <- <-.
    by apply reactiveGetter_reads.
  - injection Hp as <- <-. exists s. split; [done|]. by apply reads_done_refl.
  - injection Hp as <- <-. exists s. split; [done|]. by apply reads_done_refl.
Qed.

(** User code that only reads, run by the engine at the depth [S n]. *)
Lemma exec_here_reads original n sc w s ds r :
  target s = Some w -> collecting w s ->
  script_reads s sc = Some (ds, r) ->
  exists s', outcome_is r s' (exec_here exec original (S n) sc s)
    /\ reads_done w ds s s'.
Proof.
  revert s ds r. induction sc as [v|e|o key k IH| | |]; intros s ds r Ht Hc Hr;
    simpl in Hr; try done.
  - injection Hr as <- <-. exists s. split; [done|]. by apply reads_done_refl.
  - injection Hr as <- <-. exists s. split; [done|]. by apply reads_done_refl.
  - destruct (prop_reads s o key) as [[ds1 v]|] eqn:Hp; [|done].
    destruct (script_reads s (k v)) as [[ds2 r2]|] eqn:Hk; [|done].
    injection Hr as <- <-.
    destruct (js_get_reads n o key w s ds1 v Ht Hc Hp) as (s1 & E1 & R1).
    pose proof R1 as (T1 & C1 & Hc1 & Hh1 & Ho1 & _).
    rewrite <- (script_reads_ext s s1 (k v) Hc1 Hh1 Ho1) in Hk.
    destruct (IH v s1 ds2 r2 T1 C1 Hk) as (s2 & E2 & R2).
    exists s2. split; [|by eapply reads_done_trans].
    simpl. by rewrite (bind_ok _ _ _ _ _ E1).
Qed.
End Reads.

Section Evaluation.
Variable original : NativeOp.
Variable k : nat.
Local Abbreviation exec := (interp original (S (S k))).

Lemma call_user_reads sc w s ds r :
  target s = Some w -> collecting w s ->
  script_reads s sc = Some (ds, r) ->
  exists s', outcome_is r s' (call_user exec sc s) /\ reads_done w ds s s'.
Proof.
  intros Ht Hc Hr.
  destruct (exec_here_reads (interp original (S k)) original k sc w
              (upd_log (fun _ => []) s) ds r) as (s1 & E1 & R1);
    [done | by apply collecting_log | by rewrite <- Hr; apply script_reads_ext |].
  exists (upd_log (fun inner => log s ++ [EvUser inner]) s1).
  split; [|by eapply reads_done_log].
  unfold call_user.
  change (interp original (S (S k)) sc)
    with (exec_here (interp original (S k)) original (S k) sc).
  destruct r; simpl in E1 |- *; by rewrite E1.
Qed.

Lemma apply_hook_reads h v w s ds v' :
  target s = Some w -> collecting w s ->
  hook_reads s h v = Some (ds, v') ->
  exists s', apply_hook exec h v s = Ok v' s' /\ reads_done w ds s s'.
Proof.
  intros Ht Hc Hr. destruct h as [f|]; simpl in Hr |- *.
  - destruct (script_reads s (f v)) as [[ds1 [v1|e]]|] eqn:Hs; try done.
    injection Hr as <- <-.
    destruct (call_user_reads (f v) w s ds1 (inl v1) Ht Hc Hs) as (s1 & E1 & R1).
    exists s1. by split.
  - injection Hr as <- <-. exists s. split; [done|]. by apply reads_done_refl.
Qed.

Lemma hook_reads_ext s s' h v :
  cells s' = cells s -> heap s' = heap s -> observers s' = observers s ->
  hook_reads s' h v = hook_reads s h v.
Proof.
  intros Hc Hh Ho. destruct h as [f|]; simpl; [|done].
  by rewrite (script_reads_ext s s').
Qed.

(** The evaluation of a watcher that is not deep and whose getter and
    hooks only read: [get] returns the value, in the world [afterGet]
    makes of the one in which the Deps read have been registered. *)
Lemma Watcher_get_reads fuel w s ds v :
  collecting w s ->
  w_deep (watcher_of w s) = false ->
  eval_reads s (watcher_of w s) = Some (ds, v) ->
  exists s1,
    Watcher_get exec fuel w s = Ok v (afterGet_state w s1)
    /\ reads_done w ds (upd_target (fun _ => Some w) s) s1.
Proof.
  intros Hc Hdeep Hr. unfold eval_reads in Hr.
  set (x := watcher_of w s) in *.
  set (s0 := upd_target (fun _ => Some w) s).
  assert (target s0 = Some w) as T0 by done.
  assert (collecting w s0) as C0 by (destruct Hc; by constructor).
  destruct (script_reads s (w_getter x)) as [[ds0 r]|] eqn:Hg; [|done].
  set (v0 := match r with inl v => v | inr _ => VUndef end) in Hr.
  destruct (hook_reads s (w_preProcess x) v0) as [[ds1 v1]|] eqn:H1; [|done].
  destruct (hook_reads s (w_filters x) v1) as [[ds2 v2]|] eqn:H2; [|done].
  destruct (hook_reads s (w_postProcess x) v2) as [[ds3 v3]|] eqn:H3; [|done].
  injection Hr as <- <-.
  (* the getter *)
  assert (script_reads s0 (w_getter x) = Some (ds0, r)) as Hg0
    by (rewrite <- Hg; by apply script_reads_ext).
  destruct (call_user_reads (w_getter x) w s0 ds0 r T0 C0 Hg0) as (sg & Eg & Rg).
  assert (exists sc, try_catch (call_user exec (w_getter x))
                       (fun e => when (cfg_dev (config s0)) (emit (EvWarn w));;;
                                 ret VUndef) s0 = Ok v0 sc
                     /\ reads_done w ds0 s0 sc) as (sc & Ec & Rc).
  { unfold try_catch. destruct r as [vr|e]; unfold outcome_is in Eg; rewrite Eg.
    - exists sg. by split.
    - unfold when. destruct (cfg_dev (config s0)).
      + eexists. split; [reflexivity|]. by apply reads_done_log_r.
      + exists sg. by split. }
  pose proof Rc as (Tc & Cc & Hcc & Hhc & Hoc & _).
  change (cells s0) with (cells s) in Hcc. change (heap s0) with (heap s) in Hhc.
  change (observers s0) with (observers s) in Hoc.
  (* the hooks *)
  destruct (apply_hook_reads (w_preProcess x) v0 w sc ds1 v1 Tc Cc) as (sp & Ep & Rp).
  { by rewrite (hook_reads_ext s sc). }
  pose proof Rp as (Tp & Cp & Hcp & Hhp & Hop & _).
  rewrite Hcc in Hcp. rewrite Hhc in Hhp. rewrite Hoc in Hop.
  destruct (apply_hook_reads (w_filters x) v1 w sp ds2 v2 Tp Cp) as (sf & Ef & Rf).
  { by rewrite (hook_reads_ext s sp). }
  pose proof Rf as (Tf & Cf & Hcf & Hhf & Hof & _).
  rewrite Hcp in Hcf. rewrite Hhp in Hhf. rewrite Hop in Hof.
  destruct (apply_hook_reads (w_postProcess x) v2 w sf ds3 v3 Tf Cf) as (so & Eo & Ro).
  { by rewrite (hook_reads_ext s sf). }
  exists so. split.
  - unfold Watcher_get.
    unfold bind at 1, Watcher_beforeGet at 1, modify at 1. fold s0.
    unfold bind at 1, gets at 1. unfold bind at 1, gets at 1.
    change (watcher_of w s0) with x.
    unfold bind at 1. rewrite Ec.
    rewrite Hdeep. unfold when at 1. unfold bind at 1, ret at 1.
    unfold bind at 1. rewrite Ep. unfold bind at 1. rewrite Ef.
    unfold bind at 1. rewrite Eo. unfold bind at 1.
    by rewrite Watcher_afterGet_eq.
  - eapply reads_done_trans; [exact Rc|].
    eapply reads_done_trans; [exact Rp|].
    eapply reads_done_trans; [exact Rf|exact Ro].
Qed.

End Evaluation.

(** ** Checking a world *)

Lemma consistentb_sound w s : consistentb w s = true -> consistent w s.
Proof.
  unfold consistentb. cbv zeta. rewrite !andb_true_iff, !forallb_forall.
  rewrite !bool_decide_eq_true.
  intros ((((((Hn & Hni) & Hnd) & Hi1) & Hi2) & Hdom) & Hocc).
  assert (forall d, d ∈ w_newDepIds (watcher_of w s) -> False) as Hempty.
  { intros d Hd. apply elem_of_elements in Hd. rewrite Hni in Hd.
    by apply elem_of_nil in Hd. }
  split; [|done]. constructor.
  - intros d. split.
    + intros Hd. apply elem_of_elements, list_elem_of_In, Hi1 in Hd.
      by apply bool_decide_eq_true in Hd.
    + intros Hd. apply list_elem_of_In, Hi2 in Hd. by apply bool_decide_eq_true in Hd.
  - intros d. rewrite Hn. split; [intros Hd; by destruct (Hempty d) | by intros ?%elem_of_nil].
  - done.
  - rewrite Hn. constructor.
  - intros d. rewrite Hn.
    assert (bool_decide (d ∈ w_deps (watcher_of w s) \/ d ∈ @nil nat)
            = bool_decide (d ∈ w_deps (watcher_of w s))) as ->.
    { apply bool_decide_ext. split; [intros [?|?%elem_of_nil]; done | by left]. }
    unfold subs_of. rewrite lookup_total_alt.
    destruct (deps s !! d) as [l|] eqn:Hl; simpl.
    + apply elem_of_map_to_list, list_elem_of_In, Hocc in Hl. simpl in Hl.
      by apply Nat.eqb_eq in Hl.
    + rewrite bool_decide_eq_false_2; [done|]. intros Hd.
      apply list_elem_of_In, Hdom, bool_decide_eq_true in Hd. rewrite Hl in Hd.
      by destruct Hd.
Qed.


Lemma all_deferredb_sound d s :
  all_deferredb d s = true -> forall w, w ∈ subs_of d s -> deferred w s = true.
Proof.
  unfold all_deferredb. rewrite forallb_forall. intros H w Hw.
  apply H. by apply list_elem_of_In.
Qed.

(** ** The application, run *)

Import Example.

(** Three triggers of the watcher of [state.a] before the flush. *)
Lemma C2_witness :
  batched 1 world = true
  /\ exists s',
       for_each (fun x => Watcher_update user F x false) (replicate 3 1) world
       = Ok tt s'
       /\ queue s' = [1]
       /\ has s' !! 1 = Some 0.
Proof.
  assert (batched 1 world = true) as H by (vm_compute; reflexivity).
  split; [exact H|].
  destruct (proj1 (C2_batching_and_deduplication js_native F F 1) 3 world)
    as (s' & E & Hq & _ & Hh & _).
  - lia.
  - exact H.
  - vm_compute; reflexivity.
  - exists s'. split; [exact E|]. split; [exact Hq | exact Hh].
Defined.

(** [state.a = 2; state.a = 1] and the flush: the watcher of [state.a] is
    run once and its callback is not called. *)
Lemma C2_counterexample :
  exists s1 s2 s3,
    js_set user F state "a" (VNum 2) world = Ok tt s1
    /\ js_set user F state "a" (VNum 1) s1 = Ok tt s2
    /\ queue s2 = [1]
    /\ flushBatcherQueue user F F s2 = Ok tt s3
    /\ List.filter is_run (new_events s2 s3) = [EvRun 1]
    /\ List.filter is_callback (new_events s2 s3) = [].
Proof.
  exists (after (js_set user F state "a" (VNum 2)) world).
  exists (after (js_set user F state "a" (VNum 1))
            (after (js_set user F state "a" (VNum 2)) world)).
  exists (after (flushBatcherQueue user F F)
            (after (js_set user F state "a" (VNum 1))
               (after (js_set user F state "a" (VNum 2)) world))).
  vm_compute. repeat split.
Qed.

(** A watcher that is triggered again during the flush is queued and run
    again: the callback of the watcher of [state.items] assigns to
    [state.a] when the watcher of [state.a] has been run, and the callback
    of the watcher of [state.a] is called twice in the flush. *)
Lemma flush_runs_requeued_watcher :
  queue requeued = [1; 2]
  /\ exists s',
       flushBatcherQueue user F F requeued = Ok tt s'
       /\ List.filter is_run (new_events requeued s')
          = [EvRun 1; EvRun 2; EvRun 1]
       /\ List.filter is_callback (new_events requeued s')
          = [EvCallback 1 (VNum 2) (VNum 1);
             EvCallback 2 (VRef items) (VRef items);
             EvCallback 1 (VNum 3) (VNum 2)].
Proof.
  split; [vm_compute; reflexivity|].
  exists (after (flushBatcherQueue user F F) requeued).
  vm_compute. repeat split.
Qed.

(** [state.a = 1] when [state.a] is [1], and [state.a = 2]. *)
Lemma C3_witness :
  current_value user (reactiveGetter user F) (cell_of 3 world) world
  = Ok (VNum 1) world
  /\ reactiveSetter user F (S F) 3 (VNum 1) world = Ok tt world
  /\ exists s', reactiveSetter user F (S F) 3 (VNum 2) world = Ok tt s'
                /\ c_val (cell_of 3 s') = VNum 2.
Proof.
  assert (current_value user (reactiveGetter user F) (cell_of 3 world) world
          = Ok (VNum 1) world) as H by (vm_compute; reflexivity).
  split; [exact H|]. split.
  - apply (C3_setter_equality_short_circuit user F F 3 (VNum 1) (VNum 1) world world H).
    reflexivity.
  - destruct (C3_setter_equality_short_circuit user F F 3 (VNum 2) (VNum 1)
                world world H) as (_ & _ & _ & H4).
    destruct H4 as (s' & E & Hv & _).
    + reflexivity.
    + vm_compute; reflexivity.
    + reflexivity.
    + unfold F; lia.
    + apply all_deferredb_sound. vm_compute; reflexivity.
    + exists s'. split; [exact E | exact Hv].
Defined.

(** [state.a = NaN] when [state.a] is [NaN]: the Dep of the property is
    notified and its watcher is queued. *)
Lemma C3_counterexample :
  c_val (cell_of 3 world_nan) = VNaN
  /\ exists s',
       js_set user F state "a" VNaN world_nan = Ok tt s'
       /\ List.filter is_notify (new_events world_nan s') = [EvNotify 1]
       /\ List.filter is_update (new_events world_nan s') = [EvUpdate 1]
       /\ queue s' = [1].
Proof.
  split; [vm_compute; reflexivity|].
  exists (after (js_set user F state "a" VNaN) world_nan).
  vm_compute. repeat split.
Qed.

(** Counting a run changes nothing [steady] looks at. *)
Lemma steady_count s0 s f : steady s0 s -> steady s0 (upd_circular f s).
Proof. by intros H. Qed.

(** Runs the left-hand side and gives the world it ends in. *)
Ltac run_once :=
  match goal with
  | |- exists s', ?l = Ok tt s' /\ _ =>
      let v := eval vm_compute in l in
      match v with
      | Ok tt ?s1 =>
          exists s1; split; [vm_compute; reflexivity|]
      end
  end.

(** Every run of the watcher in the flush queues it again. *)
Lemma steady_requeues s0 :
  s0 = spin_production \/ s0 = spin_development ->
  forall s, steady s0 s ->
    exists s', Watcher_run user F 2 (upd_has (fun m => delete 2 m) s) = Ok tt s'
      /\ steady s0 s'
      /\ queue_of false s' = queue_of false s ++ [2]
      /\ queue_of (negb false) s' = queue_of (negb false) s
      /\ config s' = config s
      /\ circular s' = circular s.
Proof.
  intros H0 [dp du tg ws wu vs q uq h c wt tk hp obs cl nr sc so cf lg] (Hf & Hh & Hw).
  simpl in Hh, Hw. subst wt.
  unfold upd_has. cbn [has deps dep_uid target watchers watcher_uid vms queue
    userQueue circular waiting ticks heap observers cells next_ref shouldConvert
    seenObjects config log]. rewrite Hh.
  destruct H0 as [-> | ->]; destruct Hf as [Hf | Hf];
    injection Hf as -> -> -> -> -> -> -> -> -> -> -> -> ->;
    run_once; vm_compute; repeat split; right; reflexivity.
Qed.

(** The world after [items.reverse()] starts the loop. *)
Lemma spin_production_spinning :
  spinning (steady spin_production) false 2 0 (config spin_production)
    spin_production.
Proof. constructor; vm_compute; repeat split; left; reflexivity. Qed.

(** The flush after [items.reverse()], in the bundle and in a development
    build. *)
Lemma C4_witness :
  (forall n, runBatcherQueue user F n false spin_production = OutOfFuel
             /\ flushBatcherQueue user F n spin_production = OutOfFuel)
  /\ exists s2, flushBatcherQueue user F 101 spin_development = Ok tt s2
                /\ queue s2 = [] /\ userQueue s2 = [] /\ waiting s2 = false.
Proof.
  split.
  - assert (spinning (steady spin_production) false 2 0 (config spin_production)
              spin_production) as H by (constructor; vm_compute; repeat split; left; reflexivity).
    exact (proj1 (C4_runaway_update_guard user F (steady spin_production) false 2
                    (steady_count spin_production)
                    (steady_requeues spin_production (or_introl eq_refl))
                    spin_production H)).
  - assert (spinning (steady spin_development) false 2 0 (config spin_development)
              spin_development) as H by (constructor; vm_compute; repeat split; left; reflexivity).
    apply (proj1 (C4_runaway_update_guard user F (steady spin_development) false 2
                    (steady_count spin_development)
                    (steady_requeues spin_development (or_intror eq_refl))
                    spin_development H) 101).
    vm_compute; lia.
Defined.

(** In the bundle the flush of a watcher that queues itself again on every
    run never returns. *)
Lemma C4_counterexample :
  cfg_dev (config spin_production) = false
  /\ cfg_maxUpdateCount (config spin_production) = 100
  /\ queue spin_production = [2]
  /\ forall n, flushBatcherQueue user F n spin_production = OutOfFuel.
Proof.
  split; [reflexivity|]. split; [reflexivity|]. split; [reflexivity|].
  intros n.
  apply (spinning_flush_production user F (steady spin_production) false 2
           (steady_requeues spin_production (or_introl eq_refl))
           spin_production eq_refl spin_production_spinning n).
Qed.

(** The run of the watcher whose getter throws, without a hook and with a
    filter. *)
Lemma C5_witness :
  user fragile
    (upd_log (fun _ => [])
       (upd_target (fun _ => Some 1) (upd_log (fun l => l ++ [EvRun 1]) stale)))
  = Thrown (VStr "stale") failed
  /\ Watcher_get user F 1 (upd_log (fun l => l ++ [EvRun 1]) stale)
     = Ok VUndef
          (eval_failed_state 1 (upd_log (fun l => l ++ [EvRun 1]) stale) failed)
  /\ target
       (eval_failed_state 1 (upd_log (fun l => l ++ [EvRun 1]) stale) failed)
     = None
  /\ user fragile
       (upd_log (fun _ => [])
          (upd_target (fun _ => Some 1)
             (upd_log (fun l => l ++ [EvRun 1]) stale_filtered)))
     = Thrown (VStr "stale") failed_filtered
  /\ Watcher_get user F 1 (upd_log (fun l => l ++ [EvRun 1]) stale_filtered)
     = Ok (VStr "n/a") (afterGet_state 1 filtered).
Proof.
  assert (user fragile
            (upd_log (fun _ => [])
               (upd_target (fun _ => Some 1)
                  (upd_log (fun l => l ++ [EvRun 1]) stale)))
          = Thrown (VStr "stale") failed) as H by (vm_compute; reflexivity).
  assert (user fragile
            (upd_log (fun _ => [])
               (upd_target (fun _ => Some 1)
                  (upd_log (fun l => l ++ [EvRun 1]) stale_filtered)))
          = Thrown (VStr "stale") failed_filtered) as H' by (vm_compute; reflexivity).
  split; [exact H|].
  destruct (C5_getter_error_recovery user F 1 stale (VStr "stale") failed)
    as (_ & H2 & H3 & _).
  - exact H.
  - left. vm_compute; reflexivity.
  - vm_compute; reflexivity.
  - destruct (H2 VUndef _ (H3 eq_refl eq_refl eq_refl)) as (G1 & G2 & _).
    split; [exact G1|]. split; [exact G2|]. split; [exact H'|].
    destruct (C5_getter_error_recovery user F 1 stale_filtered (VStr "stale")
                failed_filtered) as (_ & K2 & _).
    + exact H'.
    + left. vm_compute; reflexivity.
    + vm_compute; reflexivity.
    + destruct (K2 (VStr "n/a") filtered) as (K & _).
      * vm_compute; reflexivity.
      * exact K.
Defined.

(** The getter of the watcher of [state.a] throws in the flush: the value
    of the watcher goes from [1] to [undefined] and the callback is called
    with [undefined] and [1]. *)
Lemma C5_counterexample :
  w_value (watcher_of 1 stale) = VNum 1
  /\ queue stale = [1]
  /\ exists s',
       flushBatcherQueue user F F stale = Ok tt s'
       /\ w_value (watcher_of 1 s') = VUndef
       /\ List.filter is_callback (new_events stale s')
          = [EvCallback 1 VUndef (VNum 1)].
Proof.
  split; [vm_compute; reflexivity|]. split; [vm_compute; reflexivity|].
  exists (after (flushBatcherQueue user F F) stale).
  vm_compute. repeat split.
Qed.


(** The first of two synchronous watchers tears the second down while
    their Dep is notified: [update] is still called on both. *)
Lemma C7_witness :
  subs_of 1 torn = [1; 2]
  /\ Dep_notify user F 1 torn = Ok tt torn_notified
  /\ List.filter is_update (new_events torn torn_notified)
     = [EvUpdate 1; EvUpdate 2]
  /\ subs_of 1 torn_notified = [1].
Proof.
  assert (Dep_notify user F 1 torn = Ok tt torn_notified) as E
    by (vm_compute; reflexivity).
  split; [reflexivity|]. split; [exact E|]. split; [|reflexivity].
  pose proof (C7_notify_iterates_snapshot user F 1 torn) as H0.
  destruct H0 as [H _]. rewrite E in H. exact H.
Defined.

(** [observe(list)], twice. *)
Lemma C8_witness :
  o_ob (obj_of 0 fresh) = None
  /\ exists s',
       observe user F 3 (VRef 0) None fresh = Ok (Some 1) s'
       /\ o_ob (obj_of 0 s') = Some 1
       /\ observe user F 3 (VRef 0) None s'
          = Ok (Some 1) (upd_log (fun lg => lg ++ [EvObserve (VRef 0)]) s').
Proof.
  split; [reflexivity|].
  destruct (proj2 (C8_observe_contract_and_idempotence js_native F F 1 (VRef 0)
                     None fresh) 0 eq_refl) as (_ & _ & _ & H4).
  destruct H4 as (s' & E);
    [reflexivity | vm_compute; reflexivity | reflexivity | repeat constructor |].
  destruct (proj2 (C8_observe_contract_and_idempotence js_native F F 2 (VRef 0)
                     None fresh) 0 eq_refl) as (_ & _ & H3 & _).
  destruct (H3 eq_refl ltac:(vm_compute; reflexivity) ltac:(vm_compute; lia)
              (Some 1) s' E) as (_ & Ho & Hi).
  exists s'. split; [exact E|]. split; [exact Ho|].
  apply (Hi 2 None s'). reflexivity.
Defined.

(** An observed object that is no longer extensible: [observe] returns its
    Observer. *)
Lemma C8_counterexample :
  o_extensible (obj_of state sealed) = false
  /\ o_ob (obj_of state sealed) = Some 2
  /\ observe user F F (VRef state) None sealed
     = Ok (Some 2) (upd_log (fun l => l ++ [EvObserve (VRef state)]) sealed).
Proof. vm_compute. repeat split. Qed.



(** [depend] and the reactive getter of [state.a] while nobody records. *)
Lemma C10_witness :
  c_getter (cell_of 3 world) = None
  /\ Dep_depend 1 world
     = Thrown TypeError (upd_log (fun l => l ++ [EvDepend 1]) world)
  /\ reactiveGetter user (S F) 3 world = Ok (VNum 1) world.
Proof.
  assert (c_getter (cell_of 3 world) = None) as H by (vm_compute; reflexivity).
  split; [exact H|].
  generalize (C10_depend_needs_target user F 3 1 1 world H).
  change (target world) with (@None nat).
  intros [[H1 H2] _]. split; [exact H1 | exact H2].
Defined.

(** * The caches of the examples *)

Lemma holds_put_eval c kvs k v r c' kvs' :
  holds c kvs -> Cache_put k v c = CReturn r c' ->
  lru_put (ca_limit c) k v kvs = kvs' -> holds c' kvs'.
Proof. intros Hh E <-. by eapply holds_after_put. Qed.

Lemma cache_ab_holds : holds cache_ab [("a", VNum 1); ("b", VNum 2)].
Proof.
  eapply (holds_put_eval _ [("a", VNum 1)] "b" (VNum 2) CUndefined).
  - eapply (holds_put_eval _ [] "a" (VNum 1) CUndefined);
      [apply (Cache_new_holds 2)|reflexivity|reflexivity].
  - vm_compute. reflexivity.
  - vm_compute. reflexivity.
Qed.

Lemma cache_one_holds : holds cache_one [("a", VNum 1)].
Proof.
  eapply (holds_put_eval _ [] "a" (VNum 1) CUndefined);
    [apply (Cache_new_holds 1)|vm_compute; reflexivity|reflexivity].
Qed.

Lemma cache_unbounded_holds : holds cache_unbounded [("a", VNum 1); ("b", VNum 2)].
Proof.
  eapply (holds_put_eval _ [("a", VNum 1)] "b" (VNum 2) CUndefined).
  - eapply (holds_put_eval _ [] "a" (VNum 1) CUndefined);
      [apply (Cache_new_holds 0)|reflexivity|reflexivity].
  - vm_compute. reflexivity.
  - vm_compute. reflexivity.
Qed.

Lemma Cache_get_marks_recent_witness :
  exists c',
    Cache_get "a" false cache_ab = (CValue (VNum 1), c')
    /\ holds c' [("b", VNum 2); ("a", VNum 1)]
    /\ ca_size c' = 2%Z.
Proof.
  destruct (Cache_get_marks_recent cache_ab _ "a" cache_ab_holds)
    as (c' & E & Hh & _ & Hs).
  exists c'. split; [exact E|]. split; [exact Hh|exact Hs].
Defined.

Lemma Cache_put_evicts_least_recent_witness :
  exists e c',
    Cache_put "c" (VNum 3) cache_ab = CReturn (CEntry e) c'
    /\ holds c' [("b", VNum 2); ("c", VNum 3)]
    /\ entry_of e c' = mkEntry "a" (VNum 1) None None.
Proof.
  destruct (Cache_put_evicts_least_recent cache_ab _ "c" (VNum 3) cache_ab_holds)
    as (r & c' & E & Hh & _ & e & -> & He).
  { intros _ H. vm_compute in H. discriminate H. }
  exists e, c'. split; [exact E|]. split; [exact Hh|exact He].
Defined.

Lemma Cache_put_get_round_trip_witness :
  Cache_get "c" false (cache_after (Cache_put "c" (VNum 3) cache_ab))
  = (CValue (VNum 3), cache_after (Cache_put "c" (VNum 3) cache_ab)).
Proof.
  apply (Cache_put_get_round_trip cache_ab _ "c" (VNum 3) (CEntry 0) _ cache_ab_holds).
  vm_compute. reflexivity.
Defined.

Lemma Cache_put_throws_at_limit_one_witness :
  exists c',
    Cache_put "b" (VNum 2) cache_one = CThrow TypeError c'
    /\ ca_head c' = None
    /\ Cache_get "a" false c' = (CValue (VNum 1), c')
    /\ Cache_get "b" false c' = (CUndefined, c').
Proof.
  apply (Cache_put_throws_at_limit_one cache_one "a" "b" (VNum 1) (VNum 2) cache_one_holds).
  - reflexivity.
  - discriminate.
Defined.

Lemma Cache_refines_lru_witness :
  exists c',
    Cache_run [OpPut "a" (VNum 1); OpPut "b" (VNum 2); OpGet "a"; OpPut "c" (VNum 3); OpGet "b"]
      (Cache_new 2)
    = (Some [CValue (VNum 1); CUndefined], c')
    /\ holds c' [("a", VNum 1); ("c", VNum 3)].
Proof.
  destruct (Cache_refines_lru 2
    [OpPut "a" (VNum 1); OpPut "b" (VNum 2); OpGet "a"; OpPut "c" (VNum 3); OpGet "b"])
    as (c' & E & Hh & _).
  - lia.
  - exists c'. split; [exact E|exact Hh].
Defined.

Lemma Cache_without_limit_keeps_all_witness :
  exists c',
    Cache_put "c" (VNum 3) cache_unbounded = CReturn CUndefined c'
    /\ holds c' [("a", VNum 1); ("b", VNum 2); ("c", VNum 3)].
Proof.
  destruct (Cache_without_limit_keeps_all cache_unbounded _ "c" (VNum 3)
              cache_unbounded_holds) as (c' & E & Hh & _).
  - vm_compute. discriminate.
  - exists c'. split; [exact E|exact Hh].
Defined.

(** ** The list of the examples *)

Import Example.

(** [list.$remove(NaN)] *)
Lemma dollar_remove_absent_witness :
  dollar_remove user js_native F list_ref VNaN listed = Ok VUndef listed.
Proof.
  apply dollar_remove_absent. vm_compute. repeat constructor.
Defined.

Lemma listed_deferred :
  forall w, w ∈ subs_of (ob_dep (observer_of 3 listed)) listed -> deferred w listed = true.
Proof. apply all_deferredb_sound. vm_compute. reflexivity. Qed.

(** [list.$remove(1)] *)
Lemma dollar_remove_last_match_witness :
  exists s',
    dollar_remove user js_native F list_ref (VNum 1) listed = Ok (VRef 5) s'
    /\ o_elems (obj_of list_ref s') = [VNum 1; VNaN]
    /\ obj_of 5 s' = array_object [VNum 1]
    /\ List.filter is_notify (new_events listed s') = [EvNotify 2].
Proof.
  destruct (dollar_remove_last_match F F list_ref 3 (VNum 1) (VNum 1)
              [VNum 1; VNaN] [] listed) as (s' & E & He & Hn & Hlog).
  - vm_compute. lia.
  - vm_compute. lia.
  - vm_compute. lia.
  - reflexivity.
  - reflexivity.
  - reflexivity.
  - reflexivity.
  - constructor.
  - exact listed_deferred.
  - exists s'. split; [exact E|]. split; [exact He|]. split; [exact Hn|exact Hlog].
Defined.

(** [list.$set(1, 5)] *)
Lemma dollar_set_replaces_witness :
  exists s',
    dollar_set user js_native F list_ref 1 (VNum 5) listed = Ok VNaN s'
    /\ o_elems (obj_of list_ref s') = [VNum 1; VNum 5; VNum 1]
    /\ List.filter is_notify (new_events listed s') = [EvNotify 2].
Proof.
  destruct (dollar_set_replaces F F list_ref 3 (VNum 5) VNaN
              [VNum 1] [VNum 1] listed) as (s' & E & He & Hlog).
  - vm_compute. lia.
  - vm_compute. lia.
  - vm_compute. lia.
  - reflexivity.
  - reflexivity.
  - reflexivity.
  - reflexivity.
  - exact listed_deferred.
  - exists s'. split; [exact E|]. split; [exact He|exact Hlog].
Defined.


(** ** The computed property of the examples *)

Lemma computed_clean_collecting : collecting 2 computed_clean_recording.
Proof. apply consistentb_sound. vm_compute. reflexivity. Qed.

Lemma computed_evaluated_collecting : collecting 2 computed_evaluated.
Proof. apply consistentb_sound. vm_compute. reflexivity. Qed.

(** The watcher of [state.items] takes over the Dep of [state.a] from the
    computed watcher. *)
Lemma Watcher_depend_propagates_witness :
  exists s',
    Watcher_depend 1 computed_clean_recording = Ok tt s'
    /\ (forall d, d ∈ w_newDeps (watcher_of 2 s')
                  <-> d ∈ w_deps (watcher_of 1 computed_clean_recording)
                      \/ d ∈ w_newDeps (watcher_of 2 computed_clean_recording))
    /\ new_events computed_clean_recording s' = [EvDepend 1].
Proof.
  destruct (Watcher_depend_propagates 1 2 computed_clean_recording eq_refl
              computed_clean_collecting) as (s' & E & _ & _ & N & _ & L).
  exists s'. split; [exact E|]. split; [exact N|exact L].
Defined.

(** The computed property read outside of a watcher and inside the
    evaluation of the watcher of [state.items]. *)
Lemma computedGetter_cached_witness :
  computedGetter user F 1 computed_clean = Ok (VNum 1) computed_clean
  /\ exists s',
       computedGetter user F 1 computed_clean_recording = Ok (VNum 1) s'
       /\ new_events computed_clean_recording s' = [EvDepend 1].
Proof.
  split.
  - exact (computedGetter_cached user F 1 computed_clean eq_refl).
  - destruct (computedGetter_cached user F 1 computed_clean_recording eq_refl
                computed_clean_collecting) as (s' & E & L & _).
    exists s'. split; [exact E|exact L].
Defined.

(** The computed property read for the first time, inside the evaluation
    of the watcher of [state.items]. *)
Lemma computedGetter_evaluates_witness :
  exists s',
    computedGetter user F 1 computed_dirty_recording = Ok (VNum 1) s'
    /\ target s' = Some 2
    /\ w_value (watcher_of 1 s') = VNum 1
    /\ w_dirty (watcher_of 1 s') = false
    /\ 2 ∈ subs_of 1 s'.
Proof.
  destruct (computedGetter_evaluates user F 1 2 (VNum 1) computed_dirty_recording
              computed_evaluated) as (s' & E & T & V & D & S).
  - reflexivity.
  - reflexivity.
  - vm_compute. reflexivity.
  - exact computed_evaluated_collecting.
  - exists s'. split; [exact E|]. split; [exact T|]. split; [exact V|].
    split; [exact D|]. apply (S 1). vm_compute. by left.
Defined.

(** [state.a] changes after the computed property has been read. *)
Lemma Dep_notify_invalidates_witness :
  exists s',
    Dep_notify user F 1 computed_clean = Ok tt s'
    /\ new_events computed_clean s' = [EvNotify 1; EvUpdate 1]
    /\ w_dirty (watcher_of 1 s') = true
    /\ w_value (watcher_of 1 s') = VNum 1.
Proof.
  destruct (Dep_notify_invalidates user F 1 computed_clean) as (s' & E & L & Z & _).
  - apply all_deferredb_sound. vm_compute. reflexivity.
  - destruct (Z 1) as [D V].
    + vm_compute. by left.
    + reflexivity.
    + exists s'. split; [exact E|]. split; [exact L|]. split; [exact D|exact V].
Defined.

(** ** Reading and converting *)

(** [state.a = 7], then [state.a]. *)
Lemma reactive_set_get_round_trip_witness :
  exists s',
    js_set user F state "a" (VNum 7) world = Ok tt s'
    /\ js_get user F state "a" s' = Ok (VNum 7) s'.
Proof.
  destruct (reactive_set_get_round_trip user F state 3 "a" true (VNum 7) world)
    as (s' & s'' & E & G & Hs).
  - reflexivity.
  - reflexivity.
  - reflexivity.
  - reflexivity.
  - vm_compute. lia.
  - apply all_deferredb_sound. vm_compute. reflexivity.
  - exists s'. split; [exact E|]. rewrite <- (Hs eq_refl) at 2. exact G.
Defined.

(** [observe(point)], then [point.x] and [point.label]. *)
Lemma observe_plain_transparent_witness :
  exists s',
    observe user F 2 (VRef point) None unobserved = Ok (Some 1) s'
    /\ map fst (o_props (obj_of point s')) = ["x"; "label"]
    /\ js_get user F point "x" s' = Ok (VNum 1) s'
    /\ js_get user F point "label" s' = Ok (VStr "p") s'.
Proof.
  destruct (observe_plain_transparent js_native F F 0 point unobserved)
    as (s' & E & _ & K & R).
  - reflexivity.
  - reflexivity.
  - reflexivity.
  - apply (proj1 (bool_decide_eq_true _)). vm_compute. reflexivity.
  - vm_compute. repeat constructor.
  - vm_compute. lia.
  - exists s'. split; [exact E|]. split; [exact K|].
    destruct (R "x" (VNum 1) true eq_refl) as (_ & s1 & G1 & H1).
    destruct (R "label" (VStr "p") true eq_refl) as (_ & s2 & G2 & H2).
    rewrite (H1 eq_refl) in G1. rewrite (H2 eq_refl) in G2.
    split; [exact G1|exact G2].
Defined.

(** ** What the reads of the examples collect *)

(** The watcher of [state.items] reads [state.items]: the Dep of the
    property and the Dep of the array. *)
Lemma reactiveGetter_collects_witness :
  exists s',
    reactiveGetter user 1 5 computed_clean_recording = Ok (VRef items) s'
    /\ 2 ∈ w_newDepIds (watcher_of 2 s')
    /\ 3 ∈ w_newDepIds (watcher_of 2 s').
Proof.
  destruct (reactiveGetter_collects user 0 5 2 computed_clean_recording eq_refl eq_refl)
    as (s' & E & _ & _ & _ & _ & _ & D1 & D2 & _).
  exists s'. split; [exact E|]. split; [exact D1|]. exact (D2 4 eq_refl).
Defined.

(** The traversal of [point] for the watcher that returned it. *)
Lemma traverse_collects_properties_witness :
  exists s',
    traverse user F 2 true (VRef point) point_recording = Ok tt s'
    /\ 1 ∈ w_newDepIds (watcher_of 1 s')
    /\ 2 ∈ w_newDepIds (watcher_of 1 s').
Proof.
  destruct (traverse_collects_properties user F 0 1 point 1 point_recording)
    as (s' & E & _ & _ & _ & D).
  - reflexivity.
  - vm_compute. lia.
  - reflexivity.
  - reflexivity.
  - reflexivity.
  - vm_compute. repeat constructor.
    + exists 2, (Some (SReactive 2)), true. repeat split.
    + exists 3, (Some (SReactive 3)), true. repeat split.
  - exists s'. split; [exact E|]. split.
    + exact (D "x" 2 (Some (SReactive 2)) true eq_refl).
    + exact (D "label" 3 (Some (SReactive 3)) true eq_refl).
Defined.

(** ** Updates before the flush *)

(** A shallow update of the watcher of [state.a], one that is not, and
    another shallow one. *)
Lemma Watcher_update_shallow_witness :
  exists s',
    for_each (fun sh => Watcher_update user F 1 sh) [true; false; true] world = Ok tt s'
    /\ w_queued (watcher_of 1 s') = true
    /\ w_shallow (watcher_of 1 s') = false.
Proof.
  destruct (Watcher_update_shallow user F 1 [true; false; true] world)
    as (s' & E & Q & Sh).
  - reflexivity.
  - reflexivity.
  - discriminate.
  - exists s'. split; [exact E|]. split; [exact Q|exact Sh].
Defined.

(** [state.a = fresh] *)
Lemma reactiveSetter_observes_object_witness :
  exists s',
    reactiveSetter user F 1 3 (VRef fresh_object) assignable = Ok tt s'
    /\ c_val (cell_of 3 s') = VRef fresh_object
    /\ c_childOb (cell_of 3 s') = Some 7
    /\ o_ob (obj_of fresh_object s') = Some 7
    /\ List.filter is_notify (new_events assignable s') = [EvNotify 1].
Proof.
  destruct (reactiveSetter_observes_object js_native F F 0 4 3 fresh_object assignable)
    as (s' & E & V & Ch & Ob & _ & L).
  - reflexivity.
  - reflexivity.
  - reflexivity.
  - discriminate.
  - vm_compute. lia.
  - vm_compute. lia.
  - reflexivity.
  - reflexivity.
  - reflexivity.
  - apply (proj1 (bool_decide_eq_true _)). vm_compute. reflexivity.
  - vm_compute. repeat constructor.
  - apply all_deferredb_sound. vm_compute. reflexivity.
  - exists s'. split; [exact E|]. split; [exact V|]. split; [exact Ch|].
    split; [exact Ob|exact L].
Defined.

(** ** Evaluations of the examples *)


